(** * Sparse Conditional Constant Propagation (lib/Transforms/Scalar/SCCP.cpp)

    A shallow embedding of the SCCP solver: the [LatticeVal] class, the
    [SCCPSolver] state, its per-instruction visitors, the worklist driver
    [Solve] and the post-pass [ResolvedUndefsIn], followed by the properties
    established for them.

    Conventions.
    - A C++ pointer to an IR object ([Value*], [Constant*], [BasicBlock*],
      [Function*], ...) is a handle of type [positive]; pointer comparison is
      handle comparison.  LLVM constants are uniqued, so two [Constant*] are
      equal exactly when they denote the same constant.
    - [assert] and [llvm_unreachable] are modelled as faults of the result
      type [Res], and so is the use of a reference into a [DenseMap] that
      has reallocated since the reference was taken; [DEBUG(...)] and
      [dbgs()] output is not modelled.
    - A [SmallVector] used as a stack is a list whose head is the back of the
      vector ([push_back] is cons, [pop_back_val] takes the head). *)

From Stdlib Require Import ZArith.
From stdpp Require Import base decidable option list gmap.

Set Default Proof Using "Type".

(** ** Handles *)

Abbreviation Value := positive (only parsing).
Abbreviation Constant := positive (only parsing).
Abbreviation BasicBlock := positive (only parsing).
Abbreviation Function := positive (only parsing).

(** ** Faults and results *)

(** The assertions of the source, by their message. *)
Inductive Assertion : Set :=
| NotAConstant          (* "Cannot get the constant of a non-constant!" *)
| DifferentValue        (* "Marking constant with different value" *)
| OverdefinedToConstant (* "Cannot move from overdefined to constant!" *)
| ForceDefined          (* "Can't force a defined value!" *)
| UseOtherMethod        (* "Should use other method" *)
| UseGetStructValueState (* "Should use getStructValueState" *)
| UseGetValueState      (* "Should use getValueState" *)
| InvalidElement        (* "Invalid element #" *)
| DestNotAlive          (* "Dest should always be alive!" *)
| BadAccess.            (* an operand index out of range, or a cast<> or
                           dyn_cast<> applied to a null or foreign object *)

Inductive Fault : Set :=
| AssertFailed (a : Assertion)  (* an [assert] whose condition is false *)
| LLVMUnreachable               (* [llvm_unreachable] *)
| DanglingReference             (* a [LatticeVal &] used after its map has
                                   reallocated its buckets *)
| OutOfFuel.                    (* the model's recursion bound was reached *)

#[global] Instance Assertion_eq_dec : EqDecision Assertion.
Proof. solve_decision. Defined.

Inductive Res (A : Type) : Type :=
| Ok (a : A)
| Err (f : Fault).
Arguments Ok {A} a.
Arguments Err {A} f.

#[global] Instance Fault_eq_dec : EqDecision Fault.
Proof. solve_decision. Defined.

#[global] Instance Res_eq_dec `{EqDecision A} : EqDecision (Res A).
Proof. solve_decision. Defined.

Definition res_bind {A B} (r : Res A) (k : A -> Res B) : Res B :=
  match r with
  | Ok a => k a
  | Err f => Err f
  end.

(** ** LatticeVal

    [PointerIntPair<Constant *, 2, LatticeValueTy> Val] stores the tag together
    with the constant "if this is a 'constant' or 'forcedconstant' value"; the
    pointer is read only through [getConstant], which asserts [isConstant()].
    The pair is therefore a tagged union. *)

Inductive LatticeVal : Set :=
| undefined
| constant (c : Constant)
| forcedconstant (c : Constant)
| overdefined.

#[global] Instance LatticeVal_eq_dec : EqDecision LatticeVal.
Proof. solve_decision. Defined.

Module LV.

Definition isUndefined (lv : LatticeVal) : bool :=
  match lv with undefined => true | _ => false end.

Definition isConstant (lv : LatticeVal) : bool :=
  match lv with constant _ | forcedconstant _ => true | _ => false end.

Definition isOverdefined (lv : LatticeVal) : bool :=
  match lv with overdefined => true | _ => false end.

(** [assert(isConstant() && "Cannot get the constant of a non-constant!")] *)
Definition getConstant (lv : LatticeVal) : Res Constant :=
  match lv with
  | constant c | forcedconstant c => Ok c
  | _ => Err (AssertFailed NotAConstant)
  end.

(** Returns the "change in status" flag and the new value. *)
Definition markOverdefined (lv : LatticeVal) : bool * LatticeVal :=
  if isOverdefined lv then (false, lv) else (true, overdefined).

(** A [Constant*] handle is never null here, so
    [assert(V && "Marking constant with NULL")] always holds. *)
Definition markConstant (lv : LatticeVal) (V : Constant)
  : Res (bool * LatticeVal) :=
  match lv with
  | constant c =>
      (* Constant but not forcedconstant. *)
      if decide (c = V) then Ok (false, lv)
      else Err (AssertFailed DifferentValue)
  | undefined => Ok (true, constant V)
  | forcedconstant c =>
      (* Stay at forcedconstant if the constant is the same. *)
      if decide (V = c) then Ok (false, lv)
      else Ok (true, overdefined)
  | overdefined =>
      Err (AssertFailed OverdefinedToConstant)
  end.

Definition markForcedConstant (lv : LatticeVal) (V : Constant)
  : Res LatticeVal :=
  if isUndefined lv then Ok (forcedconstant V)
  else Err (AssertFailed ForceDefined).

(** Height in the order Undefined < Constant/ForcedConstant < Overdefined. *)
Definition rank (lv : LatticeVal) : nat :=
  match lv with
  | undefined => 0
  | constant _ | forcedconstant _ => 1
  | overdefined => 2
  end.

(** One step up the lattice: the state is kept, or it moves from
    [undefined] to anything, or from a constant state to [overdefined]. *)
Definition le (a b : LatticeVal) : Prop :=
  a = b \/ a = undefined \/ (isConstant a = true /\ b = overdefined).

End LV.

(** ** The IR graph

    What the solver reads of [llvm::Type], [llvm::Value] and its subclasses.
    LLVM's class declarations (Type.h, Value.h, Constants.h, Instructions.h,
    BasicBlock.h, Function.h) are outside this file's source; the accessors
    below follow their documented meaning. *)

#[warnings="-register-all"]
Inductive Ty : Set :=
| VoidTy
| LabelTy
| FloatTy
| IntegerTy (bits : N)
| PointerTy (addrSpace : N)
| StructTy (elts : list Ty)
| ArrayTy (elt : Ty) (n : N)
| VectorTy (elt : Ty) (n : N)
| FunctionTy.

Definition isStructTy (t : Ty) : bool :=
  match t with StructTy _ => true | _ => false end.

Definition isVoidTy (t : Ty) : bool :=
  match t with VoidTy => true | _ => false end.

(** [dyn_cast<StructType>(t)], giving the element types. *)
Definition asStructType (t : Ty) : option (list Ty) :=
  match t with StructTy elts => Some elts | _ => None end.

Inductive BinaryOps : Set :=
| Add | FAdd | Sub | FSub | Mul | FMul | UDiv | SDiv | FDiv
| URem | SRem | FRem | Shl | LShr | AShr | And | Or | Xor.

Inductive CastOps : Set :=
| Trunc | ZExt | SExt | FPToUI | FPToSI | UIToFP | SIToFP
| FPTrunc | FPExt | PtrToInt | IntToPtr | BitCast.

#[global] Instance BinaryOps_eq_dec : EqDecision BinaryOps.
Proof. solve_decision. Defined.

(** Instructions, by class.  A [BasicBlock*] operand is a [Value*] too. *)
Inductive InstKind : Set :=
| IPHI (incoming : list (Value * BasicBlock))
| IRet (rv : option Value)
| IBr (dest : BasicBlock)
| ICondBr (cond : Value) (ifTrue ifFalse : BasicBlock)
| ISwitch (cond : Value) (defaultDest : BasicBlock)
          (cases : list (Constant * BasicBlock))
| IIndirectBr (addr : Value) (dests : list BasicBlock)
| IInvoke (callee : Value) (args : list Value)
          (normalDest unwindDest : BasicBlock)
| IUnwind
| IUnreachable
| ICast (op : CastOps) (v : Value)
| ISelect (cond ifTrue ifFalse : Value)
| IBinary (op : BinaryOps) (lhs rhs : Value)
| ICmp (predicate : nat) (lhs rhs : Value)
| IExtractElement (vec idx : Value)
| IInsertElement (vec elt idx : Value)
| IShuffleVector (v1 v2 mask : Value)
| IExtractValue (agg : Value) (idxs : list nat)
| IInsertValue (agg val : Value) (idxs : list nat)
| IStore (val ptr : Value)
| ILoad (ptr : Value) (volatile : bool)
| IGetElementPtr (ops : list Value)
| ICall (callee : Value) (args : list Value)
| IAlloca (size : Value)
| IVAArg (list_ : Value)
| IOther (ops : list Value).   (* any opcode without a visitor of its own *)

(** [User::getOperand] order. *)
Definition getOperands (k : InstKind) : list Value :=
  match k with
  | IPHI incoming => incoming.*1
  | IRet rv => option_list rv
  | IBr dest => [dest]
  | ICondBr cond ifTrue ifFalse => [cond; ifFalse; ifTrue]
  | ISwitch cond defaultDest cases =>
      cond :: defaultDest :: concat (map (fun c => [c.1; c.2]) cases)
  | IIndirectBr addr dests => addr :: dests
  | IInvoke callee args normalDest unwindDest =>
      args ++ [callee; normalDest; unwindDest]
  | IUnwind | IUnreachable => []
  | ICast _ v => [v]
  | ISelect c t f => [c; t; f]
  | IBinary _ a b => [a; b]
  | ICmp _ a b => [a; b]
  | IExtractElement v i => [v; i]
  | IInsertElement v e i => [v; e; i]
  | IShuffleVector a b m => [a; b; m]
  | IExtractValue agg _ => [agg]
  | IInsertValue agg val _ => [agg; val]
  | IStore val ptr => [val; ptr]
  | ILoad ptr _ => [ptr]
  | IGetElementPtr ops => ops
  | ICall callee args => args ++ [callee]
  | IAlloca size => [size]
  | IVAArg l => [l]
  | IOther ops => ops
  end.

(** [TerminatorInst::getSuccessor(i)], [i = 0 ..]; [None] when the
    instruction is not a terminator. *)
Definition getSuccessors (k : InstKind) : option (list BasicBlock) :=
  match k with
  | IRet _ | IUnwind | IUnreachable => Some []
  | IBr dest => Some [dest]
  | ICondBr _ ifTrue ifFalse => Some [ifTrue; ifFalse]
  | ISwitch _ defaultDest cases => Some (defaultDest :: cases.*2)
  | IIndirectBr _ dests => Some dests
  | IInvoke _ _ normalDest unwindDest => Some [normalDest; unwindDest]
  | _ => None
  end.

Definition isTerminator (k : InstKind) : bool :=
  bool_decide (is_Some (getSuccessors k)).

Inductive ConstantKind : Set :=
| UndefValue
| ConstantInt (bits : N) (val : Z)   (* the value, as an unsigned number *)
| ConstantStruct (ops : list Constant)
| ConstantAggregateZero
| ConstantPointerNull
| GlobalVariable
| FunctionConst
| OtherConstant (null : bool).  (* ConstantFP, ConstantExpr, ConstantVector, ... *)

Inductive ValueKind : Set :=
| KInstruction (parent : BasicBlock) (k : InstKind)
| KArgument (byVal : bool)
| KBasicBlock
| KConstant (c : ConstantKind)
| KOther.

Record FunctionData : Set := {
  fReturnType : Ty;
  fArgs : list Value;
  fBlocks : list BasicBlock;
  fOnlyReadsMemory : bool;
}.

Record IR : Type := {
  valueType : Value -> Ty;                 (* V->getType() *)
  valueKind : Value -> ValueKind;
  useList : Value -> list Value;           (* use_begin() .. use_end(): the users *)
  blockInsts : BasicBlock -> list Value;   (* begin() .. end() *)
  blockParent : BasicBlock -> Function;
  functionData : Function -> FunctionData;
}.

Section IRAccessors.
Variable g : IR.

(** [dyn_cast<Constant>(V)] *)
Definition asConstant (V : Value) : option ConstantKind :=
  match valueKind g V with KConstant c => Some c | _ => None end.

Definition isUndefValue (V : Value) : bool :=
  match asConstant V with Some UndefValue => true | _ => false end.

(** [dyn_cast<ConstantInt>(V)], giving width and value. *)
Definition asConstantInt (V : Value) : option (N * Z) :=
  match asConstant V with Some (ConstantInt b v) => Some (b, v) | _ => None end.

(** [ConstantInt::isZero] and [ConstantInt::isAllOnesValue], on a handle
    that is a [ConstantInt]. *)
Definition CI_isZero (CI : Constant) : bool :=
  match asConstantInt CI with Some (_, v) => (v =? 0)%Z | None => false end.
Definition CI_isAllOnesValue (CI : Constant) : bool :=
  match asConstantInt CI with
  | Some (b, v) => (v =? Z.ones (Z.of_N b))%Z
  | None => false
  end.

(** [Constant::isNullValue]: integer zero, the zero aggregate, the null
    pointer, and +0.0 among the constants not detailed here. *)
Definition isNullValue (C : Constant) : bool :=
  match asConstant C with
  | Some (ConstantInt _ v) => (v =? 0)%Z
  | Some ConstantAggregateZero | Some ConstantPointerNull => true
  | Some (OtherConstant null) => null
  | _ => false
  end.

Definition isConstantPointerNull (V : Value) : bool :=
  match asConstant V with Some ConstantPointerNull => true | _ => false end.

Definition isGlobalVariable (V : Value) : bool :=
  match asConstant V with Some GlobalVariable => true | _ => false end.

(** [dyn_cast<Function>(V)] *)
Definition asFunction (V : Value) : option Function :=
  match asConstant V with Some FunctionConst => Some V | _ => None end.

(** [dyn_cast<Instruction>(V)] *)
Definition asInstruction (V : Value) : option (BasicBlock * InstKind) :=
  match valueKind g V with KInstruction p k => Some (p, k) | _ => None end.

Definition isPHINode (V : Value) : bool :=
  match asInstruction V with Some (_, IPHI _) => true | _ => false end.

(** [BasicBlock::getTerminator]: the last instruction when it is a
    terminator, null otherwise. *)
Definition getTerminator (BB : BasicBlock) : option (Value * InstKind) :=
  match last (blockInsts g BB) with
  | Some TI =>
      match asInstruction TI with
      | Some (_, k) => if isTerminator k then Some (TI, k) else None
      | None => None
      end
  | None => None
  end.

(** [Function::isDeclaration]: a function without a body. *)
Definition isDeclaration (F : Function) : bool :=
  match fBlocks (functionData g F) with [] => true | _ => false end.

(** [LoadInst::getPointerAddressSpace] *)
Definition getPointerAddressSpace (ptr : Value) : N :=
  match valueType g ptr with PointerTy a => a | _ => 0%N end.

End IRAccessors.

(** [BranchInst::setCondition] and [SwitchInst::setCondition]: the condition
    operand is replaced, and the use moves from the old value's use list to
    the front of the new value's. *)
Definition setCondition (g : IR) (TI : Value) (C : Value) : IR :=
  match valueKind g TI with
  | KInstruction p k =>
      let upd (old : Value) (k' : InstKind) : IR :=
        let uses1 := fun v =>
          if decide (v = old) then filter (fun u => u <> TI) (useList g v)
          else useList g v in
        {| valueType := valueType g;
           valueKind := fun v => if decide (v = TI) then KInstruction p k'
                                 else valueKind g v;
           useList := fun v => if decide (v = C) then TI :: uses1 v else uses1 v;
           blockInsts := blockInsts g;
           blockParent := blockParent g;
           functionData := functionData g |} in
      match k with
      | ICondBr old t f => upd old (ICondBr C t f)
      | ISwitch old d cases => upd old (ISwitch C d cases)
      | _ => g
      end
  | _ => g
  end.

(** ** The solver state *)

Record SCCPSolver : Type := {
  BBExecutable : gset BasicBlock;
  ValueState : gmap Value LatticeVal;
  StructValueState : gmap (Value * nat) LatticeVal;
  TrackedGlobals : gmap Value LatticeVal;
  TrackedRetVals : gmap Function LatticeVal;
  TrackedMultipleRetVals : gmap (Function * nat) LatticeVal;
  MRVFunctionsTracked : gset Function;
  TrackingIncomingArguments : gset Function;
  OverdefinedInstWorkList : list Value;
  InstWorkList : list Value;
  BBWorkList : list BasicBlock;
  (* std::multimap: entries with equal keys keep their insertion order *)
  UsersOfOverdefinedPHIs : list (Value * Value);
  KnownFeasibleEdges : gset (BasicBlock * BasicBlock);
}.

(** [SCCPSolver(const TargetData *td)]: all containers empty. *)
Definition newSolver : SCCPSolver :=
  {| BBExecutable := ∅; ValueState := ∅; StructValueState := ∅;
     TrackedGlobals := ∅; TrackedRetVals := ∅; TrackedMultipleRetVals := ∅;
     MRVFunctionsTracked := ∅; TrackingIncomingArguments := ∅;
     OverdefinedInstWorkList := []; InstWorkList := []; BBWorkList := [];
     UsersOfOverdefinedPHIs := []; KnownFeasibleEdges := ∅ |}.

Definition set_BBExecutable (f : gset BasicBlock -> gset BasicBlock)
    (s : SCCPSolver) : SCCPSolver :=
  {| BBExecutable := f (BBExecutable s); ValueState := ValueState s;
     StructValueState := StructValueState s;
     TrackedGlobals := TrackedGlobals s; TrackedRetVals := TrackedRetVals s;
     TrackedMultipleRetVals := TrackedMultipleRetVals s;
     MRVFunctionsTracked := MRVFunctionsTracked s;
     TrackingIncomingArguments := TrackingIncomingArguments s;
     OverdefinedInstWorkList := OverdefinedInstWorkList s;
     InstWorkList := InstWorkList s; BBWorkList := BBWorkList s;
     UsersOfOverdefinedPHIs := UsersOfOverdefinedPHIs s;
     KnownFeasibleEdges := KnownFeasibleEdges s |}.

Definition set_ValueState
    (f : gmap Value LatticeVal -> gmap Value LatticeVal)
    (s : SCCPSolver) : SCCPSolver :=
  {| BBExecutable := BBExecutable s; ValueState := f (ValueState s);
     StructValueState := StructValueState s;
     TrackedGlobals := TrackedGlobals s; TrackedRetVals := TrackedRetVals s;
     TrackedMultipleRetVals := TrackedMultipleRetVals s;
     MRVFunctionsTracked := MRVFunctionsTracked s;
     TrackingIncomingArguments := TrackingIncomingArguments s;
     OverdefinedInstWorkList := OverdefinedInstWorkList s;
     InstWorkList := InstWorkList s; BBWorkList := BBWorkList s;
     UsersOfOverdefinedPHIs := UsersOfOverdefinedPHIs s;
     KnownFeasibleEdges := KnownFeasibleEdges s |}.

Definition set_StructValueState
    (f : gmap (Value * nat) LatticeVal -> gmap (Value * nat) LatticeVal)
    (s : SCCPSolver) : SCCPSolver :=
  {| BBExecutable := BBExecutable s; ValueState := ValueState s;
     StructValueState := f (StructValueState s);
     TrackedGlobals := TrackedGlobals s; TrackedRetVals := TrackedRetVals s;
     TrackedMultipleRetVals := TrackedMultipleRetVals s;
     MRVFunctionsTracked := MRVFunctionsTracked s;
     TrackingIncomingArguments := TrackingIncomingArguments s;
     OverdefinedInstWorkList := OverdefinedInstWorkList s;
     InstWorkList := InstWorkList s; BBWorkList := BBWorkList s;
     UsersOfOverdefinedPHIs := UsersOfOverdefinedPHIs s;
     KnownFeasibleEdges := KnownFeasibleEdges s |}.

Definition set_TrackedGlobals
    (f : gmap Value LatticeVal -> gmap Value LatticeVal)
    (s : SCCPSolver) : SCCPSolver :=
  {| BBExecutable := BBExecutable s; ValueState := ValueState s;
     StructValueState := StructValueState s;
     TrackedGlobals := f (TrackedGlobals s); TrackedRetVals := TrackedRetVals s;
     TrackedMultipleRetVals := TrackedMultipleRetVals s;
     MRVFunctionsTracked := MRVFunctionsTracked s;
     TrackingIncomingArguments := TrackingIncomingArguments s;
     OverdefinedInstWorkList := OverdefinedInstWorkList s;
     InstWorkList := InstWorkList s; BBWorkList := BBWorkList s;
     UsersOfOverdefinedPHIs := UsersOfOverdefinedPHIs s;
     KnownFeasibleEdges := KnownFeasibleEdges s |}.

Definition set_TrackedRetVals
    (f : gmap Function LatticeVal -> gmap Function LatticeVal)
    (s : SCCPSolver) : SCCPSolver :=
  {| BBExecutable := BBExecutable s; ValueState := ValueState s;
     StructValueState := StructValueState s;
     TrackedGlobals := TrackedGlobals s; TrackedRetVals := f (TrackedRetVals s);
     TrackedMultipleRetVals := TrackedMultipleRetVals s;
     MRVFunctionsTracked := MRVFunctionsTracked s;
     TrackingIncomingArguments := TrackingIncomingArguments s;
     OverdefinedInstWorkList := OverdefinedInstWorkList s;
     InstWorkList := InstWorkList s; BBWorkList := BBWorkList s;
     UsersOfOverdefinedPHIs := UsersOfOverdefinedPHIs s;
     KnownFeasibleEdges := KnownFeasibleEdges s |}.

Definition set_TrackedMultipleRetVals
    (f : gmap (Function * nat) LatticeVal -> gmap (Function * nat) LatticeVal)
    (s : SCCPSolver) : SCCPSolver :=
  {| BBExecutable := BBExecutable s; ValueState := ValueState s;
     StructValueState := StructValueState s;
     TrackedGlobals := TrackedGlobals s; TrackedRetVals := TrackedRetVals s;
     TrackedMultipleRetVals := f (TrackedMultipleRetVals s);
     MRVFunctionsTracked := MRVFunctionsTracked s;
     TrackingIncomingArguments := TrackingIncomingArguments s;
     OverdefinedInstWorkList := OverdefinedInstWorkList s;
     InstWorkList := InstWorkList s; BBWorkList := BBWorkList s;
     UsersOfOverdefinedPHIs := UsersOfOverdefinedPHIs s;
     KnownFeasibleEdges := KnownFeasibleEdges s |}.

Definition set_OverdefinedInstWorkList (f : list Value -> list Value)
    (s : SCCPSolver) : SCCPSolver :=
  {| BBExecutable := BBExecutable s; ValueState := ValueState s;
     StructValueState := StructValueState s;
     TrackedGlobals := TrackedGlobals s; TrackedRetVals := TrackedRetVals s;
     TrackedMultipleRetVals := TrackedMultipleRetVals s;
     MRVFunctionsTracked := MRVFunctionsTracked s;
     TrackingIncomingArguments := TrackingIncomingArguments s;
     OverdefinedInstWorkList := f (OverdefinedInstWorkList s);
     InstWorkList := InstWorkList s; BBWorkList := BBWorkList s;
     UsersOfOverdefinedPHIs := UsersOfOverdefinedPHIs s;
     KnownFeasibleEdges := KnownFeasibleEdges s |}.

Definition set_InstWorkList (f : list Value -> list Value)
    (s : SCCPSolver) : SCCPSolver :=
  {| BBExecutable := BBExecutable s; ValueState := ValueState s;
     StructValueState := StructValueState s;
     TrackedGlobals := TrackedGlobals s; TrackedRetVals := TrackedRetVals s;
     TrackedMultipleRetVals := TrackedMultipleRetVals s;
     MRVFunctionsTracked := MRVFunctionsTracked s;
     TrackingIncomingArguments := TrackingIncomingArguments s;
     OverdefinedInstWorkList := OverdefinedInstWorkList s;
     InstWorkList := f (InstWorkList s); BBWorkList := BBWorkList s;
     UsersOfOverdefinedPHIs := UsersOfOverdefinedPHIs s;
     KnownFeasibleEdges := KnownFeasibleEdges s |}.

Definition set_BBWorkList (f : list BasicBlock -> list BasicBlock)
    (s : SCCPSolver) : SCCPSolver :=
  {| BBExecutable := BBExecutable s; ValueState := ValueState s;
     StructValueState := StructValueState s;
     TrackedGlobals := TrackedGlobals s; TrackedRetVals := TrackedRetVals s;
     TrackedMultipleRetVals := TrackedMultipleRetVals s;
     MRVFunctionsTracked := MRVFunctionsTracked s;
     TrackingIncomingArguments := TrackingIncomingArguments s;
     OverdefinedInstWorkList := OverdefinedInstWorkList s;
     InstWorkList := InstWorkList s; BBWorkList := f (BBWorkList s);
     UsersOfOverdefinedPHIs := UsersOfOverdefinedPHIs s;
     KnownFeasibleEdges := KnownFeasibleEdges s |}.

Definition set_UsersOfOverdefinedPHIs
    (f : list (Value * Value) -> list (Value * Value))
    (s : SCCPSolver) : SCCPSolver :=
  {| BBExecutable := BBExecutable s; ValueState := ValueState s;
     StructValueState := StructValueState s;
     TrackedGlobals := TrackedGlobals s; TrackedRetVals := TrackedRetVals s;
     TrackedMultipleRetVals := TrackedMultipleRetVals s;
     MRVFunctionsTracked := MRVFunctionsTracked s;
     TrackingIncomingArguments := TrackingIncomingArguments s;
     OverdefinedInstWorkList := OverdefinedInstWorkList s;
     InstWorkList := InstWorkList s; BBWorkList := BBWorkList s;
     UsersOfOverdefinedPHIs := f (UsersOfOverdefinedPHIs s);
     KnownFeasibleEdges := KnownFeasibleEdges s |}.

Definition set_KnownFeasibleEdges
    (f : gset (BasicBlock * BasicBlock) -> gset (BasicBlock * BasicBlock))
    (s : SCCPSolver) : SCCPSolver :=
  {| BBExecutable := BBExecutable s; ValueState := ValueState s;
     StructValueState := StructValueState s;
     TrackedGlobals := TrackedGlobals s; TrackedRetVals := TrackedRetVals s;
     TrackedMultipleRetVals := TrackedMultipleRetVals s;
     MRVFunctionsTracked := MRVFunctionsTracked s;
     TrackingIncomingArguments := TrackingIncomingArguments s;
     OverdefinedInstWorkList := OverdefinedInstWorkList s;
     InstWorkList := InstWorkList s; BBWorkList := BBWorkList s;
     UsersOfOverdefinedPHIs := UsersOfOverdefinedPHIs s;
     KnownFeasibleEdges := f (KnownFeasibleEdges s) |}.

(** The solver runs over a graph it holds pointers into: the state of a run
    is the graph together with the solver's own containers. *)
Record World : Type := { ir : IR; solver : SCCPSolver }.

(** ** The state-and-fault monad of the solver's methods *)

Definition M (A : Type) : Type := World -> Res (A * World).

Definition ret {A} (a : A) : M A := fun w => Ok (a, w).

Definition bind {A B} (m : M A) (k : A -> M B) : M B :=
  fun w => match m w with
           | Ok (a, w') => k a w'
           | Err f => Err f
           end.

Definition fail {A} (f : Fault) : M A := fun _ => Err f.

Declare Scope sccp_scope.
Delimit Scope sccp_scope with sccp.
Notation "'do' x <- m ; k" := (bind m (fun x => k))
  (at level 10, x name, m at level 100, k at level 200) : sccp_scope.
Notation "'do' ' p <- m ; k" := (bind m (fun x => match x with p => k end))
  (at level 10, p pattern, m at level 100, k at level 200) : sccp_scope.
Notation "m1 ;; m2" := (bind m1 (fun _ => m2))
  (at level 100, m2 at level 200, right associativity) : sccp_scope.
Local Open Scope sccp_scope.

Definition assert (b : bool) (a : Assertion) : M unit :=
  if b then ret tt else fail (AssertFailed a).

Definition liftRes {A} (r : Res A) : M A :=
  fun w => match r with Ok a => Ok (a, w) | Err f => Err f end.

Definition getIR : M IR := fun w => Ok (ir w, w).
Definition getSolver : M SCCPSolver := fun w => Ok (solver w, w).
Definition gets {A} (f : SCCPSolver -> A) : M A := fun w => Ok (f (solver w), w).
Definition modify (f : SCCPSolver -> SCCPSolver) : M unit :=
  fun w => Ok (tt, {| ir := ir w; solver := f (solver w) |}).
Definition modifyIR (f : IR -> IR) : M unit :=
  fun w => Ok (tt, {| ir := f (ir w); solver := solver w |}).

(** [V->getType()] and friends, read from the graph. *)
Definition getType (V : Value) : M Ty := do g <- getIR; ret (valueType g V).

(** A [for] loop over a range whose body neither breaks nor returns. *)
Fixpoint forEach {A} (l : list A) (body : A -> M unit) : M unit :=
  match l with
  | [] => ret tt
  | x :: rest => body x ;; forEach rest body
  end.

(** ** Library functions the solver calls

    Constant construction and folding ([ConstantExpr::get], [getCast],
    [getCompare], [getGetElementPtr], [Constant::getNullValue],
    [getAllOnesValue], [ConstantInt::getFalse]) and the analysis helpers
    ([ConstantFoldLoadFromConstPtr], [canConstantFoldCallTo],
    [ConstantFoldCall]) live in other LLVM libraries; the solver is
    parameterised by them.  Each returns the handle of a uniqued constant.

    [DenseMap] (llvm/ADT/DenseMap.h) reallocates its buckets when an
    insertion fills it beyond its load factor, and the references into it
    do not survive that.  No entry is ever erased from [ValueState], so
    whether an insertion reallocates depends on the number of entries alone:
    [DenseMap_grows n] tells whether the insertion that brings the map to [n]
    entries does. *)
Record Folder : Type := {
  ConstantExpr_get : BinaryOps -> Constant -> Constant -> Constant;
  ConstantExpr_getCast : CastOps -> Constant -> Ty -> Constant;
  ConstantExpr_getCompare : nat -> Constant -> Constant -> Constant;
  ConstantExpr_getGetElementPtr : Constant -> list Constant -> Constant;
  Constant_getNullValue : Ty -> Constant;
  Constant_getAllOnesValue : Ty -> Constant;
  ConstantInt_getFalse : Constant;
  ConstantFoldLoadFromConstPtr : Constant -> option Constant;
  canConstantFoldCallTo : Function -> bool;
  ConstantFoldCall : Function -> list Constant -> option Constant;
  DenseMap_grows : nat -> bool;
}.

(** ** References to lattice values

    A [LatticeVal &] points at an entry of one of the solver's maps.  It is
    named here by its map and key, which is what the reference denotes for
    as long as the map keeps its buckets; the one place where the source
    uses a reference across insertions into its map, the PHI case of
    [visitBinaryOperator], checks that with [reallocatedBetween]. *)
Inductive LVRef : Set :=
| InValueState (V : Value)
| InStructValueState (V : Value) (i : nat)
| InTrackedGlobals (GV : Value)
| InTrackedRetVals (F : Function)
| InTrackedMultipleRetVals (F : Function) (i : nat).

Definition lookupLV (r : LVRef) (s : SCCPSolver) : option LatticeVal :=
  match r with
  | InValueState V => ValueState s !! V
  | InStructValueState V i => StructValueState s !! (V, i)
  | InTrackedGlobals GV => TrackedGlobals s !! GV
  | InTrackedRetVals F => TrackedRetVals s !! F
  | InTrackedMultipleRetVals F i => TrackedMultipleRetVals s !! (F, i)
  end.

(** Reading through a reference. *)
Definition loadLV (r : LVRef) (s : SCCPSolver) : LatticeVal :=
  default undefined (lookupLV r s).

(** Writing through a reference: the entry it points at is overwritten. *)
Definition storeLV (r : LVRef) (lv : LatticeVal) (s : SCCPSolver) : SCCPSolver :=
  match r with
  | InValueState V => set_ValueState (alter (fun _ => lv) V) s
  | InStructValueState V i => set_StructValueState (alter (fun _ => lv) (V, i)) s
  | InTrackedGlobals GV => set_TrackedGlobals (alter (fun _ => lv) GV) s
  | InTrackedRetVals F => set_TrackedRetVals (alter (fun _ => lv) F) s
  | InTrackedMultipleRetVals F i =>
      set_TrackedMultipleRetVals (alter (fun _ => lv) (F, i)) s
  end.

(** [DenseMap::operator[]]: a default-constructed entry is made when the key
    is absent. *)
Definition orInsertDefault `{Countable K} (k : K) (m : gmap K LatticeVal)
    : gmap K LatticeVal :=
  match m !! k with Some _ => m | None => <[k := undefined]> m end.

(** The [LatticeVal] methods, called on a reference. *)
Definition LV_markOverdefined (IV : LVRef) : M bool :=
  do lv <- gets (loadLV IV);
  let r := LV.markOverdefined lv in
  modify (storeLV IV r.2) ;; ret r.1.

Definition LV_markConstant (IV : LVRef) (C : Constant) : M bool :=
  do lv <- gets (loadLV IV);
  do r <- liftRes (LV.markConstant lv C);
  modify (storeLV IV r.2) ;; ret r.1.

Definition LV_markForcedConstant (IV : LVRef) (C : Constant) : M unit :=
  do lv <- gets (loadLV IV);
  do lv' <- liftRes (LV.markForcedConstant lv C);
  modify (storeLV IV lv').

(** [getConstantInt]: the constant when it is a [ConstantInt], else null. *)
Definition LV_getConstantInt (lv : LatticeVal) : M (option Constant) :=
  if LV.isConstant lv then
    do c <- liftRes (LV.getConstant lv);
    do g <- getIR;
    ret (if asConstantInt g c is Some _ then Some c else None)
  else ret None.

Section Solver.
Variable lib : Folder.

(** *** Marking *)

Definition MarkBlockExecutable (BB : BasicBlock) : M bool :=
  do ex <- gets BBExecutable;
  if decide (BB ∈ ex) then ret false
  else
    modify (set_BBExecutable (union {[BB]})) ;;
    modify (set_BBWorkList (cons BB)) ;;   (* Add the block to the work list! *)
    ret true.

(** [void markConstant(LatticeVal &IV, Value *V, Constant *C)] *)
Definition markConstant_at (IV : LVRef) (V : Value) (C : Constant) : M unit :=
  do changed <- LV_markConstant IV C;
  if negb changed then ret tt
  else
    do lv <- gets (loadLV IV);
    if LV.isOverdefined lv
    then modify (set_OverdefinedInstWorkList (cons V))
    else modify (set_InstWorkList (cons V)).

(** [void markConstant(Value *V, Constant *C)] *)
Definition markConstant (V : Value) (C : Constant) : M unit :=
  do ty <- getType V;
  assert (negb (isStructTy ty)) UseOtherMethod ;;
  modify (set_ValueState (orInsertDefault V)) ;;
  markConstant_at (InValueState V) V C.

Definition markForcedConstant (V : Value) (C : Constant) : M unit :=
  do ty <- getType V;
  assert (negb (isStructTy ty)) UseOtherMethod ;;
  modify (set_ValueState (orInsertDefault V)) ;;
  LV_markForcedConstant (InValueState V) C ;;
  do lv <- gets (loadLV (InValueState V));
  if LV.isOverdefined lv
  then modify (set_OverdefinedInstWorkList (cons V))
  else modify (set_InstWorkList (cons V)).

(** [void markOverdefined(LatticeVal &IV, Value *V)] *)
Definition markOverdefined_at (IV : LVRef) (V : Value) : M unit :=
  do changed <- LV_markOverdefined IV;
  if negb changed then ret tt
  else
    (* Only instructions go on the work list *)
    modify (set_OverdefinedInstWorkList (cons V)).

(** [void markOverdefined(Value *V)] *)
Definition markOverdefined (V : Value) : M unit :=
  do ty <- getType V;
  assert (negb (isStructTy ty)) UseOtherMethod ;;
  modify (set_ValueState (orInsertDefault V)) ;;
  markOverdefined_at (InValueState V) V.

(** [void mergeInValue(LatticeVal &IV, Value *V, LatticeVal MergeWithV)] *)
Definition mergeInValue_at (IV : LVRef) (V : Value) (MergeWithV : LatticeVal)
  : M unit :=
  do iv <- gets (loadLV IV);
  if LV.isOverdefined iv || LV.isUndefined MergeWithV then
    ret tt  (* Noop. *)
  else if LV.isOverdefined MergeWithV then
    markOverdefined_at IV V
  else if LV.isUndefined iv then
    do c <- liftRes (LV.getConstant MergeWithV);
    markConstant_at IV V c
  else
    do c1 <- liftRes (LV.getConstant iv);
    do c2 <- liftRes (LV.getConstant MergeWithV);
    if decide (c1 <> c2) then markOverdefined_at IV V else ret tt.

(** [void mergeInValue(Value *V, LatticeVal MergeWithV)] *)
Definition mergeInValue (V : Value) (MergeWithV : LatticeVal) : M unit :=
  do ty <- getType V;
  assert (negb (isStructTy ty)) UseOtherMethod ;;
  modify (set_ValueState (orInsertDefault V)) ;;
  mergeInValue_at (InValueState V) V MergeWithV.

(** *** Lazily seeded lookups *)

Definition getValueState (V : Value) : M LVRef :=
  do ty <- getType V;
  assert (negb (isStructTy ty)) UseGetStructValueState ;;
  do vs <- gets ValueState;
  let LV := InValueState V in
  match vs !! V with
  | Some _ => ret LV   (* Common case, already in the map. *)
  | None =>
      modify (set_ValueState (insert V undefined)) ;;
      do g <- getIR;
      match asConstant g V with
      | Some _ =>
          (* Undef values remain undefined. *)
          if negb (isUndefValue g V)
          then LV_markConstant LV V ;; ret LV  (* Constants are constant *)
          else ret LV
      | None => ret LV   (* All others are underdefined by default. *)
      end
  end.

(** [LatticeVal X = getValueState(V)]: the copy the callers take. *)
Definition getValueStateCopy (V : Value) : M LatticeVal :=
  do r <- getValueState V; gets (loadLV r).

Definition getStructValueState (V : Value) (i : nat) : M LVRef :=
  do ty <- getType V;
  match asStructType ty with
  | None => fail (AssertFailed UseGetValueState)
  | Some elts =>
      assert (bool_decide (i < length elts)) InvalidElement ;;
      do svs <- gets StructValueState;
      let LV := InStructValueState V i in
      match svs !! (V, i) with
      | Some _ => ret LV   (* Common case, already in the map. *)
      | None =>
          modify (set_StructValueState (insert (V, i) undefined)) ;;
          do g <- getIR;
          match asConstant g V with
          | Some UndefValue => ret LV   (* Undef values remain undefined. *)
          | Some (ConstantStruct ops) =>
              match ops !! i with
              | Some op => LV_markConstant LV op ;; ret LV
              | None => fail (AssertFailed BadAccess)   (* getOperand out of range *)
              end
          | Some ConstantAggregateZero =>
              match elts !! i with
              | Some FieldTy =>
                  LV_markConstant LV (Constant_getNullValue lib FieldTy) ;;
                  ret LV
              | None => fail (AssertFailed BadAccess)
              end
          | Some _ =>
              LV_markOverdefined LV ;; ret LV   (* Unknown sort of constant. *)
          | None => ret LV   (* All others are underdefined by default. *)
          end
      end
  end.

Definition getStructValueStateCopy (V : Value) (i : nat) : M LatticeVal :=
  do r <- getStructValueState V i; gets (loadLV r).

(** [markAnythingOverdefined]: works with both scalars and structs. *)
Definition markAnythingOverdefined (V : Value) : M unit :=
  do ty <- getType V;
  match asStructType ty with
  | Some elts =>
      forEach (seq 0 (length elts)) (fun i =>
        do r <- getStructValueState V i; markOverdefined_at r V)
  | None => markOverdefined V
  end.

(** *** Feasible edges *)

(** [SmallVector::resize(n)]: truncate, or pad with [false]. *)
Definition resize (n : nat) (l : list bool) : list bool :=
  take n l ++ replicate (n - length l) false.

(** [SwitchInst::findCaseValue]: the successor index of the first case
    whose value is [C], or 0 (the default) when there is none. *)
Fixpoint findCaseValue (cases : list (Constant * BasicBlock)) (C : Constant)
    (i : nat) : nat :=
  match cases with
  | [] => 0
  | (v, _) :: rest => if decide (v = C) then i else findCaseValue rest C (S i)
  end.

Definition getFeasibleSuccessors (TI : Value) (Succs : list bool)
  : M (list bool) :=
  do g <- getIR;
  match asInstruction g TI with
  | Some (_, k) =>
      let Succs := resize (length (default [] (getSuccessors k))) Succs in
      match k with
      | IBr _ => ret (<[0 := true]> Succs)
      | ICondBr cond _ _ =>
          do BCValue <- getValueStateCopy cond;
          do CI <- LV_getConstantInt BCValue;
          match CI with
          | None =>
              (* Overdefined condition variables, and branches on unfoldable
                 constant conditions, mean the branch could go either way. *)
              if negb (LV.isUndefined BCValue)
              then ret (<[0 := true]> (<[1 := true]> Succs))
              else ret Succs
          | Some CI =>
              (* Constant condition variables mean the branch can only go a
                 single way. *)
              do g <- getIR;
              ret (<[(if CI_isZero g CI then 1 else 0) := true]> Succs)
          end
      | IInvoke _ _ _ _ =>
          (* Invoke instructions successors are always executable. *)
          ret (<[0 := true]> (<[1 := true]> Succs))
      | ISwitch cond _ cases =>
          do SCValue <- getValueStateCopy cond;
          do CI <- LV_getConstantInt SCValue;
          match CI with
          | None =>
              (* All destinations are executable! *)
              if negb (LV.isUndefined SCValue)
              then ret (replicate (S (length cases)) true)
              else ret Succs
          | Some CI => ret (<[findCaseValue cases CI 1 := true]> Succs)
          end
      | IIndirectBr _ dests =>
          (* Just mark all destinations executable! *)
          ret (replicate (length dests) true)
      | _ => fail LLVMUnreachable
      end
  | None => fail LLVMUnreachable
  end.

Definition isEdgeFeasible (From To : BasicBlock) : M bool :=
  do ex <- gets BBExecutable;
  assert (bool_decide (To ∈ ex)) DestNotAlive ;;
  (* Make sure the source basic block is executable!! *)
  if negb (bool_decide (From ∈ ex)) then ret false
  else
    do g <- getIR;
    match getTerminator g From with
    | None => fail (AssertFailed BadAccess)   (* dyn_cast on a null terminator *)
    | Some (TI, k) =>
        match k with
        | IBr _ => ret true
        | ICondBr cond ifTrue ifFalse =>
            do BCValue <- getValueStateCopy cond;
            do CI <- LV_getConstantInt BCValue;
            match CI with
            | None => ret (negb (LV.isUndefined BCValue))
            | Some CI =>
                do g <- getIR;
                ret (bool_decide
                       ((if CI_isZero g CI then ifFalse else ifTrue) = To))
            end
        | IInvoke _ _ _ _ => ret true
        | ISwitch cond defaultDest cases =>
            do SCValue <- getValueStateCopy cond;
            do CI <- LV_getConstantInt SCValue;
            match CI with
            | None => ret (negb (LV.isUndefined SCValue))
            | Some CI =>
                (* the taken branch, or the default when no case matches *)
                match filter (fun c => c.1 = CI) cases with
                | (_, dest) :: _ => ret (bool_decide (dest = To))
                | [] => ret (bool_decide (defaultDest = To))
                end
            end
        | IIndirectBr _ _ => ret true
        | _ => fail LLVMUnreachable
        end
    end.

(** *** The table of users of overdefined PHIs *)

(** [equal_range(PN)], giving the mapped instructions in order. *)
Definition usersOf (PN : Value) (tbl : list (Value * Value)) : list Value :=
  (filter (fun e => e.1 = PN) tbl).*2.

Definition RemoveFromOverdefinedPHIs (I PN : Value) : M unit :=
  modify (set_UsersOfOverdefinedPHIs
            (filter (fun e => ~ (e.1 = PN /\ e.2 = I)))).

Definition InsertInOverdefinedPHIs (I PN : Value) : M unit :=
  do tbl <- gets UsersOfOverdefinedPHIs;
  if bool_decide (I ∈ usersOf PN tbl) then ret tt
  else modify (set_UsersOfOverdefinedPHIs (fun t => t ++ [(PN, I)])).

(** *** PHI nodes *)

(** The loop over the incoming values, followed by the code after it. *)
Fixpoint visitPHINode_operands (PN : Value) (parent : BasicBlock)
    (incoming : list (Value * BasicBlock)) (OperandVal : option Constant)
  : M unit :=
  match incoming with
  | [] =>
      (* the PHI node only has constant arguments that agree with each
         other, or there are no defined incoming arguments *)
      match OperandVal with
      | Some C => markConstant PN C   (* Acquire operand value *)
      | None => ret tt
      end
  | (V, BB) :: rest =>
      do IV <- getValueStateCopy V;
      if LV.isUndefined IV then
        visitPHINode_operands PN parent rest OperandVal
      else
        do feasible <- isEdgeFeasible BB parent;
        if negb feasible then
          visitPHINode_operands PN parent rest OperandVal
        else if LV.isOverdefined IV then
          markOverdefined PN   (* PHI node becomes overdefined! *)
        else
          do C <- liftRes (LV.getConstant IV);
          match OperandVal with
          | None =>   (* Grab the first value. *)
              visitPHINode_operands PN parent rest (Some C)
          | Some OV =>
              if decide (C <> OV) then markOverdefined PN
              else visitPHINode_operands PN parent rest OperandVal
          end
  end.

Definition visitPHINode (visit : Value -> M unit) (PN : Value) : M unit :=
  do ty <- getType PN;
  (* If this PN returns a struct, just mark the result overdefined. *)
  if isStructTy ty then markAnythingOverdefined PN
  else
    do st <- getValueStateCopy PN;
    if LV.isOverdefined st then
      (* There may be instructions using this PHI node that are not
         overdefined themselves. *)
      do users <- gets (fun s => usersOf PN (UsersOfOverdefinedPHIs s));
      forEach (rev users) visit
    else
      do g <- getIR;
      match asInstruction g PN with
      | Some (parent, IPHI incoming) =>
          if bool_decide (64 < length incoming) then markOverdefined PN
          else visitPHINode_operands PN parent incoming None
      | _ => fail (AssertFailed BadAccess)
      end.

(** The PHI nodes at the head of a block, in order. *)
Fixpoint visitLeadingPHIs (visit : Value -> M unit) (insts : list Value)
  : M unit :=
  match insts with
  | [] => ret tt
  | PN :: rest =>
      do g <- getIR;
      if isPHINode g PN
      then visitPHINode visit PN ;; visitLeadingPHIs visit rest
      else ret tt
  end.

Definition markEdgeExecutable (visit : Value -> M unit)
    (Source Dest : BasicBlock) : M unit :=
  do known <- gets KnownFeasibleEdges;
  if bool_decide ((Source, Dest) ∈ known) then
    ret tt   (* This edge is already known to be executable! *)
  else
    modify (set_KnownFeasibleEdges (union {[(Source, Dest)]})) ;;
    do fresh <- MarkBlockExecutable Dest;
    if fresh then ret tt
    else
      (* The destination is already executable: revisit its PHI nodes,
         they have potentially new operands. *)
      do g <- getIR;
      visitLeadingPHIs visit (blockInsts g Dest).

(** *** Terminators *)

Definition visitReturnInst (I : Value) (parent : BasicBlock)
    (rv : option Value) : M unit :=
  match rv with
  | None => ret tt   (* ret void *)
  | Some ResultOp =>
      do g <- getIR;
      let F := blockParent g parent in
      do rty <- getType ResultOp;
      do s <- getSolver;
      let tracked :=
        if bool_decide (TrackedRetVals s <> ∅) && negb (isStructTy rty)
        then bool_decide (is_Some (TrackedRetVals s !! F)) else false in
      if tracked then
        do lv <- getValueStateCopy ResultOp;
        mergeInValue_at (InTrackedRetVals F) F lv
      else if bool_decide (TrackedMultipleRetVals s <> ∅) then
        (* Handle functions that return multiple values. *)
        match asStructType rty with
        | Some elts =>
            if bool_decide (F ∈ MRVFunctionsTracked s) then
              forEach (seq 0 (length elts)) (fun i =>
                modify (set_TrackedMultipleRetVals (orInsertDefault (F, i))) ;;
                do lv <- getStructValueStateCopy ResultOp i;
                mergeInValue_at (InTrackedMultipleRetVals F i) F lv)
            else ret tt
        | None => ret tt
        end
      else ret tt
  end.

Definition visitTerminatorInst (visit : Value -> M unit) (TI : Value)
  : M unit :=
  do SuccFeasible <- getFeasibleSuccessors TI [];
  do g <- getIR;
  match asInstruction g TI with
  | Some (BB, k) =>
      (* Mark all feasible successors executable. *)
      forEach (zip SuccFeasible (default [] (getSuccessors k))) (fun p =>
        if p.1 then markEdgeExecutable visit BB p.2 else ret tt)
  | None => fail (AssertFailed BadAccess)
  end.

(** *** Value-producing instructions *)

Definition visitCastInst (I : Value) (op : CastOps) (v : Value) : M unit :=
  do OpSt <- getValueStateCopy v;
  if LV.isOverdefined OpSt then   (* Inherit overdefinedness of operand *)
    markOverdefined I
  else if LV.isConstant OpSt then   (* Propagate constant value *)
    do C <- liftRes (LV.getConstant OpSt);
    do ty <- getType I;
    markConstant I (ConstantExpr_getCast lib op C ty)
  else ret tt.

Definition visitExtractValueInst (EVI : Value) (AggVal : Value)
    (idxs : list nat) : M unit :=
  do ty <- getType EVI;
  (* we don't track structs in structs *)
  if isStructTy ty then markAnythingOverdefined EVI
  else
    match idxs with
    | [i] =>
        do aty <- getType AggVal;
        if isStructTy aty then
          do EltVal <- getStructValueStateCopy AggVal i;
          do r <- getValueState EVI;
          mergeInValue_at r EVI EltVal
        else
          (* Otherwise, must be extracting from an array. *)
          markOverdefined EVI
    | _ =>
        (* extracting from more than one level of struct *)
        markOverdefined EVI
    end.

Definition visitInsertValueInst (IVI : Value) (Aggr Val : Value)
    (idxs : list nat) : M unit :=
  do ty <- getType IVI;
  match asStructType ty with
  | None => markOverdefined IVI
  | Some elts =>
      match idxs with
      | [Idx] =>
          (* Compute the result based on what we're inserting. *)
          forEach (seq 0 (length elts)) (fun i =>
            if decide (i <> Idx) then
              (* This passes through all values that aren't the inserted
                 element. *)
              do EltVal <- getStructValueStateCopy Aggr i;
              do r <- getStructValueState IVI i;
              mergeInValue_at r IVI EltVal
            else
              do vty <- getType Val;
              if isStructTy vty then
                (* We don't track structs in structs. *)
                do r <- getStructValueState IVI i;
                markOverdefined_at r IVI
              else
                do InVal <- getValueStateCopy Val;
                do r <- getStructValueState IVI i;
                mergeInValue_at r IVI InVal)
      | _ => markAnythingOverdefined IVI
      end
  end.

Definition visitSelectInst (I : Value) (Cond TrueValue FalseValue : Value)
  : M unit :=
  do ty <- getType I;
  if isStructTy ty then markAnythingOverdefined I
  else
    do CondValue <- getValueStateCopy Cond;
    if LV.isUndefined CondValue then ret tt
    else
      do CondCB <- LV_getConstantInt CondValue;
      match CondCB with
      | Some CondCB =>
          do g <- getIR;
          let OpVal := if CI_isZero g CondCB then FalseValue else TrueValue in
          do lv <- getValueStateCopy OpVal;
          mergeInValue I lv
      | None =>
          (* the condition is overdefined or a constant we can't evaluate *)
          do TVal <- getValueStateCopy TrueValue;
          do FVal <- getValueStateCopy FalseValue;
          (* select ?, C, C -> C. *)
          if LV.isConstant TVal && LV.isConstant FVal
             && bool_decide (LV.getConstant TVal = LV.getConstant FVal) then
            do C <- liftRes (LV.getConstant FVal);
            markConstant I C
          else if LV.isUndefined TVal then   (* select ?, undef, X -> X. *)
            mergeInValue I FVal
          else if LV.isUndefined FVal then   (* select ?, X, undef -> X. *)
            mergeInValue I TVal
          else markOverdefined I
      end.

(** [PHINode::getIncomingValueForBlock] *)
Definition getIncomingValueForBlock (incoming : list (Value * BasicBlock))
    (BB : BasicBlock) : M Value :=
  match filter (fun e => e.2 = BB) incoming with
  | (V, _) :: _ => ret V
  | [] => fail (AssertFailed BadAccess)
  end.

(** The walk over the predecessor list of two PHI nodes of one block,
    folding the operation pairwise into the local [Result]. *)
Fixpoint foldOverPHIs (fold : Constant -> Constant -> Constant)
    (incoming1 incoming2 : list (Value * BasicBlock)) (Result : LatticeVal)
  : M LatticeVal :=
  match incoming1 with
  | [] => ret Result
  | (V1, InBlock) :: rest =>
      do In1 <- getValueStateCopy V1;
      do V2 <- getIncomingValueForBlock incoming2 InBlock;
      do In2 <- getValueStateCopy V2;
      if LV.isOverdefined In1 || LV.isOverdefined In2 then
        (* Cannot fold this operation over the PHI nodes! *)
        ret (LV.markOverdefined Result).2
      else if LV.isConstant In1 && LV.isConstant In2 then
        do C1 <- liftRes (LV.getConstant In1);
        do C2 <- liftRes (LV.getConstant In2);
        let V := fold C1 C2 in
        if LV.isUndefined Result then
          do r <- liftRes (LV.markConstant Result V);
          foldOverPHIs fold rest incoming2 r.2
        else if LV.isConstant Result
                && negb (bool_decide (LV.getConstant Result = Ok V)) then
          ret (LV.markOverdefined Result).2
        else foldOverPHIs fold rest incoming2 Result
      else foldOverPHIs fold rest incoming2 Result
  end.

(** The two PHI operands of [I] when both are PHI nodes of one block. *)
Definition samePHIBlock (g : IR) (a b : Value)
  : option (list (Value * BasicBlock) * list (Value * BasicBlock)) :=
  match asInstruction g a, asInstruction g b with
  | Some (p1, IPHI inc1), Some (p2, IPHI inc2) =>
      if decide (p1 = p2) then Some (inc1, inc2) else None
  | _, _ => None
  end.

(** Whether [ValueState] has reallocated its buckets on its way from [held]
    to [now] entries. *)
Definition reallocatedBetween (held now : nat) : bool :=
  existsb (DenseMap_grows lib) (seq (S held) (now - held)).

(** [LatticeVal &IV = ValueState[&I]] is taken once, after the look-ups of
    the two operands, and used by every [markConstant(IV, ...)] below.  Only
    the loop over the PHI operands adds entries to [ValueState] in between
    (its [getValueState] calls): the [markConstant(IV, ...)] that follows it
    goes through a dangling reference when one of these insertions has
    reallocated the map, which is the fault [DanglingReference]. *)
Definition visitBinaryOperator (I : Value) (op : BinaryOps)
    (Op0 Op1 : Value) : M unit :=
  do V1State <- getValueStateCopy Op0;
  do V2State <- getValueStateCopy Op1;
  modify (set_ValueState (orInsertDefault I)) ;;
  let IV := InValueState I in
  do iv <- gets (loadLV IV);
  if LV.isOverdefined iv then ret tt
  else if LV.isConstant V1State && LV.isConstant V2State then
    do C1 <- liftRes (LV.getConstant V1State);
    do C2 <- liftRes (LV.getConstant V2State);
    markConstant_at IV I (ConstantExpr_get lib op C1 C2)
  else if negb (LV.isOverdefined V1State) && negb (LV.isOverdefined V2State)
  then ret tt   (* If something is undef, wait for it to resolve. *)
  else
    (* Otherwise, one of our operands is overdefined.  The code after the
       AND/OR special case: *)
    let tryPHIs : M unit :=
      do g <- getIR;
      match samePHIBlock g Op0 Op1 with
      | Some (inc1, inc2) =>
          (* No entry has been added since [IV] was taken. *)
          do held <- gets (fun s => size (ValueState s));
          do Result <- foldOverPHIs (ConstantExpr_get lib op) inc1 inc2 undefined;
          if LV.isConstant Result then
            do C <- liftRes (LV.getConstant Result);
            do now <- gets (fun s => size (ValueState s));
            if reallocatedBetween held now then fail DanglingReference
            else
              markConstant_at IV I C ;;
              (* Remember that this instruction is virtually using the PHI
                 node operands. *)
              InsertInOverdefinedPHIs I Op0 ;;
              InsertInOverdefinedPHIs I Op1
          else if LV.isUndefined Result then ret tt
          else
            (* Okay, this really is overdefined now. *)
            RemoveFromOverdefinedPHIs I Op0 ;;
            RemoveFromOverdefinedPHIs I Op1 ;;
            markOverdefined I
      | None => markOverdefined I
      end in
    (* If this is an AND or OR with 0 or -1, it doesn't matter that the
       other operand is overdefined. *)
    if bool_decide (op = And) || bool_decide (op = Or) then
      let NonOverdefVal : option LatticeVal :=
        if negb (LV.isOverdefined V1State) then Some V1State
        else if negb (LV.isOverdefined V2State) then Some V2State
        else None in
      match NonOverdefVal with
      | Some NonOverdefVal =>
          if LV.isUndefined NonOverdefVal then
            (* Could annihilate value. *)
            do ty <- getType I;
            if bool_decide (op = And)
            then markConstant_at IV I (Constant_getNullValue lib ty)
            else markConstant_at IV I (Constant_getAllOnesValue lib ty)
          else
            do C <- liftRes (LV.getConstant NonOverdefVal);
            do g <- getIR;
            if bool_decide (op = And) then
              (* X and 0 = 0 *)
              if isNullValue g C then markConstant_at IV I C else tryPHIs
            else
              do CI <- LV_getConstantInt NonOverdefVal;
              match CI with
              | Some CI =>
                  if CI_isAllOnesValue g CI   (* X or -1 = -1 *)
                  then markConstant_at IV I C
                  else tryPHIs
              | None => tryPHIs
              end
      | None => tryPHIs
      end
    else tryPHIs.

Definition visitCmpInst (I : Value) (predicate : nat) (Op0 Op1 : Value)
  : M unit :=
  do V1State <- getValueStateCopy Op0;
  do V2State <- getValueStateCopy Op1;
  modify (set_ValueState (orInsertDefault I)) ;;
  let IV := InValueState I in
  do iv <- gets (loadLV IV);
  if LV.isOverdefined iv then ret tt
  else if LV.isConstant V1State && LV.isConstant V2State then
    do C1 <- liftRes (LV.getConstant V1State);
    do C2 <- liftRes (LV.getConstant V2State);
    markConstant_at IV I (ConstantExpr_getCompare lib predicate C1 C2)
  else if negb (LV.isOverdefined V1State) && negb (LV.isOverdefined V2State)
  then ret tt   (* If operands are still undefined, wait for it to resolve. *)
  else
    do g <- getIR;
    match samePHIBlock g Op0 Op1 with
    | Some (inc1, inc2) =>
        do Result <- foldOverPHIs (ConstantExpr_getCompare lib predicate)
                       inc1 inc2 undefined;
        if LV.isConstant Result then
          do C <- liftRes (LV.getConstant Result);
          markConstant I C ;;
          InsertInOverdefinedPHIs I Op0 ;;
          InsertInOverdefinedPHIs I Op1
        else if LV.isUndefined Result then ret tt
        else
          RemoveFromOverdefinedPHIs I Op0 ;;
          RemoveFromOverdefinedPHIs I Op1 ;;
          markOverdefined I
    | None => markOverdefined I
    end.

(** The lattice values of a list of operands, as constants: [None] stands
    for the early [return] that the loop made itself. *)
Fixpoint collectConstantOperands (I : Value) (ops : list Value)
    (Operands : list Constant) : M (option (list Constant)) :=
  match ops with
  | [] => ret (Some Operands)
  | V :: rest =>
      do State <- getValueStateCopy V;
      if LV.isUndefined State then
        ret None   (* Operands are not resolved yet. *)
      else if LV.isOverdefined State then
        markOverdefined I ;; ret None
      else
        do C <- liftRes (LV.getConstant State);
        collectConstantOperands I rest (Operands ++ [C])
  end.

Definition visitGetElementPtrInst (I : Value) (ops : list Value) : M unit :=
  modify (set_ValueState (orInsertDefault I)) ;;
  do iv <- gets (loadLV (InValueState I));
  if LV.isOverdefined iv then ret tt
  else
    do Operands <- collectConstantOperands I ops [];
    match Operands with
    | None => ret tt
    | Some [] => fail (AssertFailed BadAccess)
    | Some (Ptr :: Idx) =>
        markConstant I (ConstantExpr_getGetElementPtr lib Ptr Idx)
    end.

Definition visitStoreInst (SI : Value) (Val Ptr : Value) : M unit :=
  do vty <- getType Val;
  (* If this store is of a struct, ignore it. *)
  if isStructTy vty then ret tt
  else
    do s <- getSolver;
    do g <- getIR;
    if bool_decide (TrackedGlobals s = ∅) || negb (isGlobalVariable g Ptr)
    then ret tt
    else
      let GV := Ptr in
      match TrackedGlobals s !! GV with
      | None => ret tt
      | Some lv =>
          if LV.isOverdefined lv then ret tt
          else
            (* Get the value we are storing into the global, then merge it. *)
            do v <- getValueStateCopy Val;
            mergeInValue_at (InTrackedGlobals GV) GV v ;;
            do lv' <- gets (loadLV (InTrackedGlobals GV));
            if LV.isOverdefined lv'
            then modify (set_TrackedGlobals (delete GV))
            else ret tt
      end.

Definition visitLoadInst (I : Value) (Ptr0 : Value) (volatile : bool)
  : M unit :=
  do ty <- getType I;
  (* If this load is of a struct, just mark the result overdefined. *)
  if isStructTy ty then markAnythingOverdefined I
  else
    do PtrVal <- getValueStateCopy Ptr0;
    if LV.isUndefined PtrVal then ret tt   (* The pointer is not resolved yet! *)
    else
      modify (set_ValueState (orInsertDefault I)) ;;
      let IV := InValueState I in
      do iv <- gets (loadLV IV);
      if LV.isOverdefined iv then ret tt
      else if negb (LV.isConstant PtrVal) || volatile then
        markOverdefined_at IV I
      else
        do Ptr <- liftRes (LV.getConstant PtrVal);
        do g <- getIR;
        do s <- getSolver;
        (* load null -> null *)
        if isConstantPointerNull g Ptr
           && bool_decide (getPointerAddressSpace g Ptr0 = 0%N) then
          markConstant_at IV I (Constant_getNullValue lib ty)
        else
          (* Transform load (constant global) into the value loaded. *)
          let tracked : option LatticeVal :=
            if isGlobalVariable g Ptr && bool_decide (TrackedGlobals s <> ∅)
            then TrackedGlobals s !! Ptr else None in
          match tracked with
          | Some lv => mergeInValue_at IV I lv
          | None =>
              (* Transform load from a constant into a constant if possible. *)
              match ConstantFoldLoadFromConstPtr lib Ptr with
              | Some C => markConstant_at IV I C
              | None => markOverdefined_at IV I
              end
          end.

(** The code at label [CallOverdefined]. *)
Definition CallOverdefined (I : Value) (F : option Function)
    (args : list Value) : M unit :=
  do ty <- getType I;
  (* Void return and not tracking callee, just bail. *)
  if isVoidTy ty then ret tt
  else
    do g <- getIR;
    match F with
    | Some F' =>
        if isDeclaration g F' && negb (isStructTy ty)
           && canConstantFoldCallTo lib F' then
          do Operands <- collectConstantOperands I args [];
          match Operands with
          | None => ret tt
          | Some Operands =>
              match ConstantFoldCall lib F' Operands with
              | Some C => markConstant I C
              | None => markAnythingOverdefined I
              end
          end
        else markAnythingOverdefined I
    | None => markAnythingOverdefined I
    end.

(** The loop of [visitCallSite] over the formal arguments [AI], with the
    actual arguments [CAI] advancing alongside. *)
Fixpoint propagateArguments (F : Function) (formals actuals : list Value)
  : M unit :=
  match formals with
  | [] => ret tt
  | AI :: formals' =>
      do g <- getIR;
      let byVal := match valueKind g AI with KArgument b => b | _ => false end in
      if byVal && negb (fOnlyReadsMemory (functionData g F)) then
        markOverdefined AI ;; propagateArguments F formals' (tail actuals)
      else
        match actuals with
        | [] => fail (AssertFailed BadAccess)   (* reading past [arg_end()] *)
        | CAI :: _ =>
            do aty <- getType AI;
            match asStructType aty with
            | Some elts =>
                forEach (seq 0 (length elts)) (fun i =>
                  do CallArg <- getStructValueStateCopy CAI i;
                  do r <- getStructValueState AI i;
                  mergeInValue_at r AI CallArg)
            | None =>
                do lv <- getValueStateCopy CAI;
                mergeInValue AI lv
            end ;;
            propagateArguments F formals' (tail actuals)
        end
  end.

Definition visitCallSite (I : Value) (callee : Value) (args : list Value)
  : M unit :=
  do g <- getIR;
  let F := asFunction g callee in
  match F with
  | None => CallOverdefined I F args
  | Some F' =>
      if isDeclaration g F' then CallOverdefined I F args
      else
        do s <- getSolver;
        (* If this is a local function that doesn't have its address taken,
           mark its entry block executable and merge in the actual
           arguments. *)
        (if bool_decide (F' ∈ TrackingIncomingArguments s) then
           match fBlocks (functionData g F') with
           | entry :: _ => MarkBlockExecutable entry ;; ret tt
           | [] => ret tt
           end ;;
           propagateArguments F' (fArgs (functionData g F')) args
         else ret tt) ;;
        do s <- getSolver;
        match asStructType (fReturnType (functionData g F')) with
        | Some elts =>
            if negb (bool_decide (F' ∈ MRVFunctionsTracked s)) then
              CallOverdefined I F args   (* Not tracking this callee. *)
            else
              forEach (seq 0 (length elts)) (fun i =>
                do r <- getStructValueState I i;
                modify (set_TrackedMultipleRetVals (orInsertDefault (F', i))) ;;
                do lv <- gets (loadLV (InTrackedMultipleRetVals F' i));
                mergeInValue_at r I lv)
        | None =>
            match TrackedRetVals s !! F' with
            | None => CallOverdefined I F args   (* Not tracking this callee. *)
            | Some lv => mergeInValue I lv
            end
        end
  end.

(** *** Visitor dispatch

    [InstVisitor<SCCPSolver>::visit(Instruction&)]: the call goes to the
    visitor of the instruction's class, and falls back on
    [visitTerminatorInst] or [visitInstruction] as InstVisitor.h delegates
    for the classes the solver does not override. *)
Definition visitInstruction (I : Value) : M unit :=
  markAnythingOverdefined I.   (* Just in case *)

Definition visitInst (visit : Value -> M unit) (I : Value) : M unit :=
  do g <- getIR;
  match asInstruction g I with
  | None => fail (AssertFailed BadAccess)
  | Some (parent, k) =>
      match k with
      | IPHI _ => visitPHINode visit I
      | IRet rv => visitReturnInst I parent rv
      | IBr _ | ICondBr _ _ _ | ISwitch _ _ _ | IIndirectBr _ _ =>
          visitTerminatorInst visit I
      | IInvoke callee args _ _ =>
          visitCallSite I callee args ;; visitTerminatorInst visit I
      | IUnwind | IUnreachable => ret tt   (* returns void *)
      | ICast op v => visitCastInst I op v
      | ISelect c t f => visitSelectInst I c t f
      | IBinary op a b => visitBinaryOperator I op a b
      | ICmp p a b => visitCmpInst I p a b
      | IExtractElement _ _ | IInsertElement _ _ _ | IShuffleVector _ _ _ =>
          (* TODO : SCCP does not handle vectors properly. *)
          markOverdefined I
      | IExtractValue agg idxs => visitExtractValueInst I agg idxs
      | IInsertValue agg val idxs => visitInsertValueInst I agg val idxs
      | IStore val ptr => visitStoreInst I val ptr
      | ILoad ptr vol => visitLoadInst I ptr vol
      | IGetElementPtr ops => visitGetElementPtrInst I ops
      | ICall callee args => visitCallSite I callee args
      | IAlloca _ => markOverdefined I
      | IVAArg _ => markAnythingOverdefined I
      | IOther _ => visitInstruction I
      end
  end.

(** [visit] calls itself through [visitPHINode] and [markEdgeExecutable];
    [depth] bounds the nesting of those calls. *)
Fixpoint visit (depth : nat) (I : Value) : M unit :=
  match depth with
  | O => fail OutOfFuel
  | S d => visitInst (visit d) I
  end.

Definition OperandChangedState (depth : nat) (I : Value) : M unit :=
  do g <- getIR;
  do ex <- gets BBExecutable;
  match asInstruction g I with
  | Some (parent, _) =>
      if bool_decide (parent ∈ ex)   (* Inst is executable? *)
      then visit depth I else ret tt
  | None => fail (AssertFailed BadAccess)
  end.

(** [for (UI = I->use_begin(); UI != E; ++UI)
      if (Instruction *I = dyn_cast<Instruction>( *UI)) OperandChangedState(I);] *)
Definition notifyUsers (depth : nat) (V : Value) : M unit :=
  do g <- getIR;
  forEach (useList g V) (fun U =>
    do g <- getIR;
    if asInstruction g U is Some _ then OperandChangedState depth U else ret tt).

(** *** Solve *)

Fixpoint drainOverdefinedInstWorkList (depth fuel : nat) : M unit :=
  match fuel with
  | O => fail OutOfFuel
  | S n =>
      do wl <- gets OverdefinedInstWorkList;
      match wl with
      | [] => ret tt
      | V :: _ =>
          modify (set_OverdefinedInstWorkList tail) ;;
          notifyUsers depth V ;;
          drainOverdefinedInstWorkList depth n
      end
  end.

Fixpoint drainInstWorkList (depth fuel : nat) : M unit :=
  match fuel with
  | O => fail OutOfFuel
  | S n =>
      do wl <- gets InstWorkList;
      match wl with
      | [] => ret tt
      | V :: _ =>
          modify (set_InstWorkList tail) ;;
          do ty <- getType V;
          do go <- (if isStructTy ty then ret true
                    else do lv <- getValueStateCopy V;
                         ret (negb (LV.isOverdefined lv)));
          (if go then notifyUsers depth V else ret tt) ;;
          drainInstWorkList depth n
      end
  end.

Fixpoint drainBBWorkList (depth fuel : nat) : M unit :=
  match fuel with
  | O => fail OutOfFuel
  | S n =>
      do wl <- gets BBWorkList;
      match wl with
      | [] => ret tt
      | BB :: _ =>
          modify (set_BBWorkList tail) ;;
          (* Notify all instructions in this basic block that they are
             newly executable. *)
          do g <- getIR;
          forEach (blockInsts g BB) (visit depth) ;;
          drainBBWorkList depth n
      end
  end.

(** [fuel] bounds the iterations of each [while] loop. *)
Fixpoint Solve (depth fuel : nat) : M unit :=
  match fuel with
  | O => fail OutOfFuel
  | S n =>
      do s <- getSolver;
      match BBWorkList s, InstWorkList s, OverdefinedInstWorkList s with
      | [], [], [] => ret tt
      | _, _, _ =>
          drainOverdefinedInstWorkList depth n ;;
          drainInstWorkList depth n ;;
          drainBBWorkList depth n ;;
          Solve depth n
      end
  end.

(** *** ResolvedUndefsIn

    The body of the loop over the instructions of a block.  The result is
    [true] when the function returned [true] from inside the body, and
    [false] when the loop goes on to the next instruction. *)
Definition resolveUndefInst (I : Value) : M bool :=
  do ITy <- getType I;
  (* Look for instructions which produce undef values. *)
  if isVoidTy ITy then ret false
  else
    do g <- getIR;
    match asInstruction g I with
    | None => fail (AssertFailed BadAccess)
    | Some (_, k) =>
        match asStructType ITy with
        | Some elts =>
            (* Only a few things that can be structs matter for undef.  Just
               send all their results to overdefined. *)
            (if match k with ICall _ _ | ISelect _ _ _ => true | _ => false end
             then
               forEach (seq 0 (length elts)) (fun i =>
                 do LV <- getStructValueState I i;
                 do lv <- gets (loadLV LV);
                 if LV.isUndefined lv then markOverdefined_at LV I else ret tt)
             else ret tt) ;;
            ret false
        | None =>
            do LV <- getValueState I;
            do lv <- gets (loadLV LV);
            if negb (LV.isUndefined lv) then ret false
            else
              let ops := getOperands k in
              match ops !! 0 with
              | None => fail (AssertFailed BadAccess)   (* getOperand(0) out of range *)
              | Some Op0 =>
                  do ty0 <- getType Op0;
                  (* No instructions using structs need disambiguation. *)
                  if isStructTy ty0 then ret false
                  else
                    (* Get the lattice values of the first two operands for
                       use below. *)
                    do Op0LV <- getValueStateCopy Op0;
                    do Op1LV <-
                      (if decide (length ops = 2) then
                         match ops !! 1 with
                         | Some Op1 =>
                             do ty1 <- getType Op1;
                             if isStructTy ty1 then ret None
                             else
                               do l <- getValueStateCopy Op1;
                               (* both operands are undefs: the result
                                  stays undef *)
                               if LV.isUndefined Op0LV && LV.isUndefined l
                               then ret None else ret (Some l)
                         | None => fail (AssertFailed BadAccess)
                         end
                       else ret (Some undefined));
                    match Op1LV with
                    | None => ret false   (* continue *)
                    | Some Op1LV =>
                        let forceNull :=
                          markForcedConstant I (Constant_getNullValue lib ITy) ;;
                          ret true in
                        match k with
                        | ICast ZExt _ | ICast SIToFP _ | ICast UIToFP _ =>
                            forceNull
                        | IBinary Mul _ _ | IBinary And _ _ =>
                            (* undef * X -> 0.   X could be zero.
                               undef & X -> 0.   X could be zero. *)
                            forceNull
                        | IBinary Or _ _ =>
                            (* undef | X -> -1.   X could be -1. *)
                            markForcedConstant I
                              (Constant_getAllOnesValue lib ITy) ;;
                            ret true
                        | IBinary SDiv _ _ | IBinary UDiv _ _
                        | IBinary SRem _ _ | IBinary URem _ _ =>
                            (* X / undef -> undef.  No change. *)
                            if LV.isUndefined Op1LV then ret false
                            else forceNull
                        | IBinary AShr _ _ =>
                            (* undef >>s X -> undef.  No change. *)
                            if LV.isUndefined Op0LV then ret false
                            else
                              (* X >>s undef -> X. *)
                              (if LV.isConstant Op0LV then
                                 do C <- liftRes (LV.getConstant Op0LV);
                                 markForcedConstant I C
                               else markOverdefined I) ;;
                              ret true
                        | IBinary LShr _ _ | IBinary Shl _ _ =>
                            (* undef >> X -> undef.  No change. *)
                            if LV.isUndefined Op0LV then ret false
                            else forceNull
                        | ISelect _ _ Op2 =>
                            do r <-
                              (if LV.isUndefined Op0LV then
                                 (* undef ? X : Y  -> X or Y. *)
                                 if negb (LV.isConstant Op1LV)
                                 then do l <- getValueStateCopy Op2; ret (Some l)
                                 else ret (Some Op1LV)
                               else if LV.isUndefined Op1LV then
                                 (* c ? undef : undef -> undef.  No change. *)
                                 do l <- getValueStateCopy Op2;
                                 if LV.isUndefined l then ret None
                                 else ret (Some l)
                               else ret (Some Op1LV));
                            match r with
                            | None => ret false
                            | Some Op1LV =>
                                (if LV.isConstant Op1LV then
                                   do C <- liftRes (LV.getConstant Op1LV);
                                   markForcedConstant I C
                                 else markOverdefined I) ;;
                                ret true
                            end
                        | ICall _ _ =>
                            (* Just force the result to overdefined. *)
                            markOverdefined I ;; ret true
                        | _ => ret false   (* Leave the instruction as an undef. *)
                        end
                    end
              end
        end
    end.

Fixpoint resolveUndefInsts (insts : list Value) : M bool :=
  match insts with
  | [] => ret false
  | Inst :: rest =>
      do r <- resolveUndefInst Inst;
      if r then ret true else resolveUndefInsts rest
  end.

(** The check of the terminator of an executable block: a branch or switch
    on an undefined value is forced one way. *)
Definition resolveUndefTerminator (depth : nat) (BB : BasicBlock) : M bool :=
  do g <- getIR;
  match getTerminator g BB with
  | None => fail (AssertFailed BadAccess)   (* dyn_cast on a null terminator *)
  | Some (TI, k) =>
      match k with
      | ICondBr Cond _ ifFalse =>
          do lv <- getValueStateCopy Cond;
          if negb (LV.isUndefined lv) then ret false
          else if isUndefValue g Cond then
            (* If the input to SCCP is actually branch on undef, fix the
               undef to false. *)
            modifyIR (fun g => setCondition g TI (ConstantInt_getFalse lib)) ;;
            markEdgeExecutable (visit depth) BB ifFalse ;;
            ret true
          else
            (* Otherwise, it is a branch on a symbolic value which is
               currently considered to be undef.  Handle this by forcing
               the input value to the branch to false. *)
            markForcedConstant Cond (ConstantInt_getFalse lib) ;;
            ret true
      | ISwitch Cond _ cases =>
          match cases with
          | [] => ret false   (* no cases *)
          | (CaseValue1, Successor1) :: _ =>
              do lv <- getValueStateCopy Cond;
              if negb (LV.isUndefined lv) then ret false
              else if isUndefValue g Cond then
                (* If the input to SCCP is actually switch on undef, fix
                   the undef to the first constant. *)
                modifyIR (fun g => setCondition g TI CaseValue1) ;;
                markEdgeExecutable (visit depth) BB Successor1 ;;
                ret true
              else
                markForcedConstant Cond CaseValue1 ;;
                ret true
          end
      | _ => ret false
      end
  end.

Fixpoint resolveUndefBlocks (depth : nat) (blocks : list BasicBlock)
  : M bool :=
  match blocks with
  | [] => ret false
  | BB :: rest =>
      do ex <- gets BBExecutable;
      if negb (bool_decide (BB ∈ ex)) then resolveUndefBlocks depth rest
      else
        do g <- getIR;
        do r <- resolveUndefInsts (blockInsts g BB);
        if r then ret true
        else
          do r <- resolveUndefTerminator depth BB;
          if r then ret true else resolveUndefBlocks depth rest
  end.

Definition ResolvedUndefsIn (depth : nat) (F : Function) : M bool :=
  do g <- getIR;
  resolveUndefBlocks depth (fBlocks (functionData g F)).

(** *** The solving part of [SCCP::runOnFunction]

    [Solve] and [ResolvedUndefsIn] alternate until the latter reports no
    change; [rounds] bounds the number of alternations. *)
Fixpoint solveLoop (depth fuel rounds : nat) (F : Function) : M unit :=
  match rounds with
  | O => fail OutOfFuel
  | S r =>
      Solve depth fuel ;;
      do ResolvedUndefs <- ResolvedUndefsIn depth F;
      if ResolvedUndefs then solveLoop depth fuel r F else ret tt
  end.

Definition runSolver (depth fuel rounds : nat) (F : Function) : M unit :=
  do g <- getIR;
  (* Mark the first block of the function as being executable. *)
  match fBlocks (functionData g F) with
  | entry :: _ => MarkBlockExecutable entry ;; ret tt
  | [] => fail (AssertFailed BadAccess)
  end ;;
  (* Mark all arguments to the function as being overdefined. *)
  forEach (fArgs (functionData g F)) markAnythingOverdefined ;;
  solveLoop depth fuel rounds F.

(** *** Set-up methods used by the interprocedural client *)

Definition AddTrackedFunction (F : Function) : M unit :=
  do g <- getIR;
  (* Add an entry, F -> undef. *)
  match asStructType (fReturnType (functionData g F)) with
  | Some elts =>
      modify (fun s =>
        {| BBExecutable := BBExecutable s; ValueState := ValueState s;
           StructValueState := StructValueState s;
           TrackedGlobals := TrackedGlobals s;
           TrackedRetVals := TrackedRetVals s;
           TrackedMultipleRetVals := TrackedMultipleRetVals s;
           MRVFunctionsTracked := {[F]} ∪ MRVFunctionsTracked s;
           TrackingIncomingArguments := TrackingIncomingArguments s;
           OverdefinedInstWorkList := OverdefinedInstWorkList s;
           InstWorkList := InstWorkList s; BBWorkList := BBWorkList s;
           UsersOfOverdefinedPHIs := UsersOfOverdefinedPHIs s;
           KnownFeasibleEdges := KnownFeasibleEdges s |}) ;;
      forEach (seq 0 (length elts)) (fun i =>
        modify (set_TrackedMultipleRetVals (orInsertDefault (F, i))))
  | None => modify (set_TrackedRetVals (orInsertDefault F))
  end.

End Solver.


(** ** The solver's other public methods *)

(** [bool isBlockExecutable(BasicBlock *BB) const] *)
Definition isBlockExecutable (s : SCCPSolver) (BB : BasicBlock) : bool :=
  bool_decide (BB ∈ BBExecutable s).

(** [LatticeVal getLatticeValueFor(Value *V) const]: [None] stands for the
    failure of [assert(I != ValueState.end() && "V is not in valuemap!")]. *)
Definition getLatticeValueFor (s : SCCPSolver) (V : Value)
  : option LatticeVal :=
  ValueState s !! V.

(** [getTrackedRetVals] and [getTrackedGlobals] are the record fields
    [TrackedRetVals] and [TrackedGlobals]. *)

Definition AddArgumentTrackedFunction (F : Function) : M unit :=
  modify (fun s =>
    {| BBExecutable := BBExecutable s; ValueState := ValueState s;
       StructValueState := StructValueState s;
       TrackedGlobals := TrackedGlobals s;
       TrackedRetVals := TrackedRetVals s;
       TrackedMultipleRetVals := TrackedMultipleRetVals s;
       MRVFunctionsTracked := MRVFunctionsTracked s;
       TrackingIncomingArguments := {[F]} ∪ TrackingIncomingArguments s;
       OverdefinedInstWorkList := OverdefinedInstWorkList s;
       InstWorkList := InstWorkList s; BBWorkList := BBWorkList s;
       UsersOfOverdefinedPHIs := UsersOfOverdefinedPHIs s;
       KnownFeasibleEdges := KnownFeasibleEdges s |}).

(** What [TrackValueOfGlobalVariable] reads of a [GlobalVariable]. *)
Record GlobalVariableData : Set := {
  gvElementType : Ty;        (* GV->getType()->getElementType() *)
  gvInitializer : Constant;  (* GV->getInitializer() *)
}.

(** [Type::isSingleValueType]: the types of first-class values that fit a
    register (integer, floating point, pointer, vector). *)
Definition isSingleValueType (t : Ty) : bool :=
  match t with
  | IntegerTy _ | FloatTy | PointerTy _ | VectorTy _ _ => true
  | _ => false
  end.

Definition TrackValueOfGlobalVariable (GV : Value) (d : GlobalVariableData)
  : M unit :=
  (* We only track the contents of scalar globals. *)
  if isSingleValueType (gvElementType d) then
    modify (set_TrackedGlobals (orInsertDefault GV)) ;;
    do g <- getIR;
    if negb (isUndefValue g (gvInitializer d))
    then LV_markConstant (InTrackedGlobals GV) (gvInitializer d) ;; ret tt
    else ret tt
  else ret tt.

(** ** The function pass

    [SCCP::runOnFunction] runs the solver on one function and then rewrites
    the function.  The rewrite goes through [Value::replaceAllUsesWith] and
    the removal of an instruction from its block, which are LLVM's (Value.cpp,
    Instruction.cpp); they are modelled after their documented meaning, with
    their assertions.  The [STATISTIC] counters ([NumInstRemoved],
    [NumDeadBlocks]) are not modelled. *)

Inductive PassFault : Set :=
| InSolver (f : Fault)  (* a fault of the solver, or of [LatticeVal] *)
| NotInValueMap         (* "V is not in valuemap!" *)
| NullInstruction       (* [begin()] of an empty block, the null
                           [getTerminator()] of a block that does not end in
                           a terminator, or a null parent *)
| ReplaceWithSelf       (* "this->replaceAllUsesWith(this) is NOT valid!" *)
| ReplaceOtherType      (* "replaceAllUses of value with new value of
                           different type!" *)
| UsesRemain.           (* "Uses remain when a value is destroyed!" *)

Inductive PassRes (A : Type) : Type :=
| Done (a : A)
| Stopped (f : PassFault).
Arguments Done {A} a.
Arguments Stopped {A} f.

(** Types are uniqued: [Type*] are equal exactly when the types are. *)
Fixpoint Ty_eqb (a b : Ty) : bool :=
  match a, b with
  | VoidTy, VoidTy | LabelTy, LabelTy | FloatTy, FloatTy
  | FunctionTy, FunctionTy => true
  | IntegerTy n, IntegerTy m => bool_decide (n = m)
  | PointerTy n, PointerTy m => bool_decide (n = m)
  | StructTy l1, StructTy l2 =>
      (fix go (l1 l2 : list Ty) : bool :=
         match l1, l2 with
         | [], [] => true
         | x :: l1', y :: l2' => Ty_eqb x y && go l1' l2'
         | _, _ => false
         end) l1 l2
  | ArrayTy e n, ArrayTy e' m => Ty_eqb e e' && bool_decide (n = m)
  | VectorTy e n, VectorTy e' m => Ty_eqb e e' && bool_decide (n = m)
  | _, _ => false
  end.

(** [isa<TerminatorInst>(I)] *)
Definition isTerminatorInst (g : IR) (I : Value) : bool :=
  match asInstruction g I with
  | Some (_, k) => isTerminator k
  | None => false
  end.

(** [User::replaceUsesOfWith(From, To)]: the operands that are [From] become
    [To].  [From] is an instruction where the pass calls this, so that no
    block operand and no case value of a switch is [From]. *)
Definition replaceUsesOfWith (From To : Value) (k : InstKind) : InstKind :=
  let r (v : Value) : Value := if decide (v = From) then To else v in
  match k with
  | IPHI incoming => IPHI (map (fun e => (r e.1, e.2)) incoming)
  | IRet rv => IRet (r <$> rv)
  | IBr dest => IBr dest
  | ICondBr cond ifTrue ifFalse => ICondBr (r cond) ifTrue ifFalse
  | ISwitch cond defaultDest cases => ISwitch (r cond) defaultDest cases
  | IIndirectBr addr dests => IIndirectBr (r addr) dests
  | IInvoke callee args normalDest unwindDest =>
      IInvoke (r callee) (map r args) normalDest unwindDest
  | IUnwind => IUnwind
  | IUnreachable => IUnreachable
  | ICast op v => ICast op (r v)
  | ISelect c t f => ISelect (r c) (r t) (r f)
  | IBinary op a b => IBinary op (r a) (r b)
  | ICmp p a b => ICmp p (r a) (r b)
  | IExtractElement v i => IExtractElement (r v) (r i)
  | IInsertElement v e i => IInsertElement (r v) (r e) (r i)
  | IShuffleVector a b m => IShuffleVector (r a) (r b) (r m)
  | IExtractValue agg idxs => IExtractValue (r agg) idxs
  | IInsertValue agg val idxs => IInsertValue (r agg) (r val) idxs
  | IStore val ptr => IStore (r val) (r ptr)
  | ILoad ptr vol => ILoad (r ptr) vol
  | IGetElementPtr ops => IGetElementPtr (map r ops)
  | ICall callee args => ICall (r callee) (map r args)
  | IAlloca size => IAlloca (r size)
  | IVAArg l => IVAArg (r l)
  | IOther ops => IOther (map r ops)
  end.

(** [V->replaceAllUsesWith(New)]: each use of [V], from the front of its use
    list on, is set to [New] and so moves to the front of the use list of
    [New].  The users of an instruction are instructions. *)
Definition replaceAllUsesWith (g : IR) (V New : Value) : PassRes IR :=
  if decide (New = V) then Stopped ReplaceWithSelf
  else if negb (Ty_eqb (valueType g New) (valueType g V))
  then Stopped ReplaceOtherType
  else
    Done {| valueType := valueType g;
            valueKind := fun U =>
              match valueKind g U with
              | KInstruction p k =>
                  if bool_decide (U ∈ useList g V)
                  then KInstruction p (replaceUsesOfWith V New k)
                  else KInstruction p k
              | vk => vk
              end;
            useList := fun X =>
              if decide (X = V) then []
              else if decide (X = New)
                   then reverse (useList g V) ++ useList g New
                   else useList g X;
            blockInsts := blockInsts g;
            blockParent := blockParent g;
            functionData := functionData g |}.

(** [BB->getInstList().erase(I)]: the instruction leaves the list of the
    block and is destroyed; its operands lose it as a user. *)
Definition eraseInstruction (g : IR) (BB : BasicBlock) (I : Value)
  : PassRes IR :=
  if negb (bool_decide (useList g I = [])) then Stopped UsesRemain
  else
    let ops := match valueKind g I with
               | KInstruction _ k => getOperands k
               | _ => []
               end in
    Done {| valueType := valueType g;
            valueKind := fun V => if decide (V = I) then KOther
                                  else valueKind g V;
            useList := fun V =>
              if bool_decide (V ∈ ops)
              then filter (fun U => U <> I) (useList g V)
              else useList g V;
            blockInsts := fun B =>
              if decide (B = BB)
              then filter (fun J => J <> I) (blockInsts g B)
              else blockInsts g B;
            blockParent := blockParent g;
            functionData := functionData g |}.

(** [I->eraseFromParent()] *)
Definition eraseFromParent (g : IR) (I : Value) : PassRes IR :=
  match asInstruction g I with
  | Some (parent, _) => eraseInstruction g parent I
  | None => Stopped NullInstruction
  end.

(** The loop of [DeleteInstructionInBlock]: while the first instruction is
    not a terminator, the instruction before the terminator is deleted.
    [n] bounds the number of iterations. *)
Fixpoint DeleteInstructionInBlock_loop (n : nat)
    (UndefValue_get : Ty -> Constant) (BB : BasicBlock) (g : IR)
  : PassRes IR :=
  match blockInsts g BB with
  | [] => Stopped NullInstruction
  | first :: _ =>
      if isTerminatorInst g first then Done g
      else
        match getTerminator g BB with
        | None => Stopped NullInstruction
        | Some _ =>
            (* Instruction *I = --BasicBlock::iterator(BB->getTerminator()); *)
            match reverse (blockInsts g BB) with
            | _ :: Inst :: _ =>
                match n with
                | O => Stopped (InSolver OutOfFuel)
                | S n' =>
                    match (if negb (bool_decide (useList g Inst = []))
                           then replaceAllUsesWith g Inst
                                  (UndefValue_get (valueType g Inst))
                           else Done g) with
                    | Stopped f => Stopped f
                    | Done g1 =>
                        match eraseInstruction g1 BB Inst with
                        | Stopped f => Stopped f
                        | Done g2 =>
                            DeleteInstructionInBlock_loop n' UndefValue_get
                              BB g2
                        end
                    end
                end
            | _ => Stopped NullInstruction
            end
        end
  end.

(** Each iteration removes an instruction of the block. *)
Definition DeleteInstructionInBlock (UndefValue_get : Ty -> Constant)
    (BB : BasicBlock) (g : IR) : PassRes IR :=
  DeleteInstructionInBlock_loop (length (blockInsts g BB)) UndefValue_get
    BB g.

(** The body of the loop of [runOnFunction] over the instructions of an
    executable block; [acc] holds [MadeChanges] and the graph. *)
Definition rewriteInstruction (s : SCCPSolver) (UndefValue_get : Ty -> Constant)
    (Inst : Value) (acc : bool * IR) : PassRes (bool * IR) :=
  let g := acc.2 in
  if isVoidTy (valueType g Inst) || isTerminatorInst g Inst then Done acc
  else if isStructTy (valueType g Inst) then
    Done acc   (* TODO: Reconstruct structs from their elements. *)
  else
    match getLatticeValueFor s Inst with
    | None => Stopped NotInValueMap
    | Some IV =>
        if LV.isOverdefined IV then Done acc
        else
          match (if LV.isConstant IV then LV.getConstant IV
                 else Ok (UndefValue_get (valueType g Inst))) with
          | Err f => Stopped (InSolver f)
          | Ok Const =>
              (* Replaces all of the uses of a variable with uses of the
                 constant. *)
              match replaceAllUsesWith g Inst Const with
              | Stopped f => Stopped f
              | Done g1 =>
                  (* Delete the instruction. *)
                  match eraseFromParent g1 Inst with
                  | Stopped f => Stopped f
                  | Done g2 => Done (true, g2)
                  end
              end
          end
    end.

(** [for (BI = BB->begin(); BI != E; ) { Instruction *Inst = BI++; ... }]:
    the iterator has moved on when [Inst] is erased, so the loop walks the
    instructions the block had when it started. *)
Fixpoint rewriteInstructions (s : SCCPSolver) (UndefValue_get : Ty -> Constant)
    (insts : list Value) (acc : bool * IR) : PassRes (bool * IR) :=
  match insts with
  | [] => Done acc
  | Inst :: rest =>
      match rewriteInstruction s UndefValue_get Inst acc with
      | Stopped f => Stopped f
      | Done acc' => rewriteInstructions s UndefValue_get rest acc'
      end
  end.

(** The loop of [runOnFunction] over the blocks of the function. *)
Fixpoint rewriteBlocks (s : SCCPSolver) (UndefValue_get : Ty -> Constant)
    (blocks : list BasicBlock) (acc : bool * IR) : PassRes (bool * IR) :=
  match blocks with
  | [] => Done acc
  | BB :: rest =>
      if negb (isBlockExecutable s BB) then
        (* If we decided that there are basic blocks that are dead in this
           function, delete their contents now. *)
        match DeleteInstructionInBlock UndefValue_get BB acc.2 with
        | Stopped f => Stopped f
        | Done g' => rewriteBlocks s UndefValue_get rest (true, g')
        end
      else
        match rewriteInstructions s UndefValue_get (blockInsts acc.2 BB) acc
        with
        | Stopped f => Stopped f
        | Done acc' => rewriteBlocks s UndefValue_get rest acc'
        end
  end.

(** [bool SCCP::runOnFunction(Function &F)]: the result is [MadeChanges],
    together with the function as the pass leaves it.  [UndefValue_get] is
    [UndefValue::get]. *)
Definition runOnFunction (lib : Folder) (UndefValue_get : Ty -> Constant)
    (depth fuel rounds : nat) (F : Function) (g : IR)
  : PassRes (bool * IR) :=
  match runSolver lib depth fuel rounds F {| ir := g; solver := newSolver |}
  with
  | Err f => Stopped (InSolver f)
  | Ok (_, w) =>
      rewriteBlocks (solver w) UndefValue_get
        (fBlocks (functionData (ir w) F)) (false, ir w)
  end.
(** ** Notions used in the statements *)

(** The state a first access to a scalar value seeds: a constant other than
    [undef] starts as itself, everything else as [undefined]. *)
Definition seedOf (g : IR) (V : Value) : LatticeVal :=
  match asConstant g V with
  | Some _ => if isUndefValue g V then undefined else constant V
  | None => undefined
  end.

(** A constant that is neither [undef], nor a struct literal, nor the zero
    aggregate. *)
Definition otherConstantShape (c : ConstantKind) : bool :=
  match c with
  | UndefValue | ConstantStruct _ | ConstantAggregateZero => false
  | _ => true
  end.

(** The lattice value [getValueState] gives for [V]: the recorded one, or the
    seed when [V] has not been looked up yet. *)
Definition peekValueState (w : World) (V : Value) : LatticeVal :=
  default (seedOf (ir w) V) (ValueState (solver w) !! V).

(** What [getConstantInt] gives on a lattice value. *)
Definition constantIntOf (g : IR) (lv : LatticeVal) : option Constant :=
  match lv with
  | constant c | forcedconstant c =>
      if asConstantInt g c is Some _ then Some c else None
  | _ => None
  end.

(** The world after [getValueState(V)]: an entry for [V] is seeded when there
    was none. *)
Definition touch (V : Value) (w : World) : World :=
  match ValueState (solver w) !! V with
  | Some _ => w
  | None =>
      {| ir := ir w;
         solver := set_ValueState (insert V (seedOf (ir w) V)) (solver w) |}
  end.

(** [w'] is [w] with some more values looked up: nothing but [ValueState]
    differs, and a value has one more entry only to record its seed. *)
Record lookedUp (w w' : World) : Prop := {
  lu_ir : ir w' = ir w;
  lu_solver :
    solver w' = set_ValueState (fun _ => ValueState (solver w')) (solver w);
  lu_entries : forall V,
    ValueState (solver w') !! V = ValueState (solver w) !! V
    \/ (ValueState (solver w) !! V = None
        /\ ValueState (solver w') !! V = Some (seedOf (ir w) V));
}.

(** The terminator of [From] is one [isEdgeFeasible] handles, and its
    condition is not of struct type. *)
Definition edgeCheckable (g : IR) (From : BasicBlock) : Prop :=
  match getTerminator g From with
  | Some (_, IBr _) | Some (_, IInvoke _ _ _ _) | Some (_, IIndirectBr _ _) => True
  | Some (_, ICondBr c _ _) | Some (_, ISwitch c _ _) =>
      isStructTy (valueType g c) = false
  | _ => False
  end.

(** The answer of [isEdgeFeasible(From, To)], as a function of the lattice
    values. *)
Definition edgeFeasible (w : World) (From To : BasicBlock) : bool :=
  bool_decide (From ∈ BBExecutable (solver w)) &&
  match getTerminator (ir w) From with
  | Some (_, ICondBr c ifTrue ifFalse) =>
      let st := peekValueState w c in
      match constantIntOf (ir w) st with
      | None => negb (LV.isUndefined st)
      | Some CI =>
          bool_decide ((if CI_isZero (ir w) CI then ifFalse else ifTrue) = To)
      end
  | Some (_, ISwitch c defaultDest cases) =>
      let st := peekValueState w c in
      match constantIntOf (ir w) st with
      | None => negb (LV.isUndefined st)
      | Some CI =>
          match filter (fun x => x.1 = CI) cases with
          | (_, dest) :: _ => bool_decide (dest = To)
          | [] => bool_decide (defaultDest = To)
          end
      end
  | Some (_, IBr _) | Some (_, IInvoke _ _ _ _) | Some (_, IIndirectBr _ _) => true
  | _ => false
  end.

(** The lattice values a PHI node in block [parent] receives: those of the
    operands that are not [undefined] and arrive along a feasible edge. *)
Definition phiContributions (w : World) (parent : BasicBlock)
    (incoming : list (Value * BasicBlock)) : list LatticeVal :=
  (fun e => peekValueState w e.1) <$>
  filter (fun e => LV.isUndefined (peekValueState w e.1) = false
                   /\ edgeFeasible w e.2 parent = true) incoming.

(** The scan of [visitPHINode] over the contributions, from the operand value
    [OperandVal] found so far: [None] when the PHI node becomes overdefined,
    else the operand value at the end of the loop. *)
Fixpoint phiScan (contribs : list LatticeVal) (OperandVal : option Constant)
  : option (option Constant) :=
  match contribs with
  | [] => Some OperandVal
  | lv :: rest =>
      match lv with
      | overdefined => None
      | constant c | forcedconstant c =>
          match OperandVal with
          | None => phiScan rest (Some c)
          | Some OV => if decide (c <> OV) then None else phiScan rest OperandVal
          end
      | undefined => phiScan rest OperandVal
      end
  end.

(** Two of the lattice values carry different constants. *)
Definition conflicting (cs : list LatticeVal) : Prop :=
  exists lv1 lv2 c1 c2,
    lv1 ∈ cs /\ lv2 ∈ cs /\ LV.getConstant lv1 = Ok c1
    /\ LV.getConstant lv2 = Ok c2 /\ c1 <> c2.

(** The operands of a PHI node can be looked up and their edges checked. *)
Definition phiOperandsOk (w : World) (incoming : list (Value * BasicBlock))
  : Prop :=
  Forall (fun e => isStructTy (valueType (ir w) e.1) = false
                   /\ (e.2 ∈ BBExecutable (solver w) ->
                       edgeCheckable (ir w) e.2)) incoming.

(** The recorded lattice values only move up: an entry is created, kept, or
    moved up the lattice; and the executable blocks and feasible edges only
    grow. *)
Definition entry_le (a b : option LatticeVal) : Prop :=
  match a, b with
  | None, _ => True
  | Some x, Some y => LV.le x y
  | Some _, None => False
  end.

Definition states_le (s s' : SCCPSolver) : Prop :=
  (forall V, entry_le (ValueState s !! V) (ValueState s' !! V))
  /\ (forall k, entry_le (StructValueState s !! k) (StructValueState s' !! k))
  /\ BBExecutable s ⊆ BBExecutable s'
  /\ KnownFeasibleEdges s ⊆ KnownFeasibleEdges s'.

(** A step that leaves the graph as it is and moves lattice values up. *)
Definition steady (w w' : World) : Prop :=
  ir w' = ir w /\ states_le (solver w) (solver w').

(** Every successful run of [m] is related by [R]. *)
Definition preserves (R : World -> World -> Prop) {A} (m : M A) : Prop :=
  forall w a w', m w = Ok (a, w') -> R w w'.

(** What [ResolvedUndefsIn] may do to the graph: the condition of the
    terminator [TI] of [BB], a branch or switch on the literal [undef], is
    replaced by [C]: [false] for a branch, the first case value for a
    switch. *)
Definition conditionRewritten (lib : Folder) (g g' : IR) (BB : BasicBlock)
  : Prop :=
  exists TI k Cond C,
    getTerminator g BB = Some (TI, k)
    /\ isUndefValue g Cond = true
    /\ g' = setCondition g TI C
    /\ match k with
       | ICondBr c _ _ => c = Cond /\ C = ConstantInt_getFalse lib
       | ISwitch c _ ((v, _) :: _) => c = Cond /\ C = v
       | _ => False
       end.


(** The computation never stops on "Can't force a defined value!":
    wherever it applies [markForcedConstant], the state is undefined. *)
Definition forcesOnlyUndefined {A} (m : M A) : Prop :=
  forall w, m w <> Err (AssertFailed ForceDefined).

(** ** Notions used in the further properties *)

(** Nothing is left for [Solve] to do. *)
Definition workListsEmpty (s : SCCPSolver) : Prop :=
  BBWorkList s = [] /\ InstWorkList s = [] /\ OverdefinedInstWorkList s = [].

(** A reference into [TrackedGlobals]. *)
Definition isGlobalRef (r : LVRef) : bool :=
  match r with InTrackedGlobals _ => true | _ => false end.

(** The part of [visitStoreInst] that follows the look-up of the stored
    value: the merge into the tracked global, and the removal of the entry
    when it has become overdefined. *)
Definition mergeIntoTrackedGlobal (GV : Value) (v : LatticeVal) : M unit :=
  (mergeInValue_at (InTrackedGlobals GV) GV v ;;
   do lv' <- gets (loadLV (InTrackedGlobals GV));
   if LV.isOverdefined lv'
   then modify (set_TrackedGlobals (delete GV))
   else ret tt)%sccp.

(** The first two steps of [markEdgeExecutable] on an edge that is not
    known yet. *)
Definition recordEdge (Source Dest : BasicBlock) : M bool :=
  (modify (set_KnownFeasibleEdges (union {[(Source, Dest)]})) ;;
   MarkBlockExecutable Dest)%sccp.

(** A relation between the states before and after a step that holds over
    each elementary update of the lattice values: changes of the lattice
    value maps of values and struct fields and of the two instruction work
    lists; a change of an entry of the tracked return values; an insertion
    into or removal from the table of users of overdefined PHIs; and a merge
    into a tracked global. *)
Record closedUnderLatticeUpdates (R : World -> World -> Prop) : Prop := {
  cl_refl : forall w, R w w;
  cl_trans : forall w1 w2 w3, R w1 w2 -> R w2 w3 -> R w1 w3;
  cl_ValueState : forall f, preserves R (modify (set_ValueState f));
  cl_StructValueState :
    forall f, preserves R (modify (set_StructValueState f));
  cl_InstWorkList : forall f, preserves R (modify (set_InstWorkList f));
  cl_OverdefinedInstWorkList :
    forall f, preserves R (modify (set_OverdefinedInstWorkList f));
  cl_TrackedRetVals :
    forall F lv, preserves R (modify (storeLV (InTrackedRetVals F) lv));
  cl_TrackedMultipleRetVals :
    forall F i lv,
      preserves R (modify (storeLV (InTrackedMultipleRetVals F i) lv));
  cl_TrackedMultipleRetVals_default :
    forall F i,
      preserves R (modify (set_TrackedMultipleRetVals (orInsertDefault (F, i))));
  cl_Insert : forall I PN, preserves R (InsertInOverdefinedPHIs I PN);
  cl_Remove : forall I PN, preserves R (RemoveFromOverdefinedPHIs I PN);
  cl_mergeIntoTrackedGlobal :
    forall GV v, preserves R (mergeIntoTrackedGlobal GV v);
}.

(** ... and, besides, over the updates of the control-flow side: marking a
    block executable; recording a feasible edge and marking its destination;
    popping the block work list; and the rewrite of a branch condition. *)
Record closedUnderUpdates (R : World -> World -> Prop) : Prop := {
  cl_lattice : closedUnderLatticeUpdates R;
  cl_MarkBlockExecutable : forall BB, preserves R (MarkBlockExecutable BB);
  cl_recordEdge : forall S D, preserves R (recordEdge S D);
  cl_BBWorkList_tail : preserves R (modify (set_BBWorkList tail));
  cl_setCondition :
    forall TI C, preserves R (modifyIR (fun g => setCondition g TI C));
}.

(** A property of the solver's containers that a step keeps. *)
Definition keeps (P : SCCPSolver -> Prop) (w w' : World) : Prop :=
  P (solver w) -> P (solver w').

(** A step that marks no block and no edge: the graph, the executable
    blocks, the block work list, the known feasible edges and the sets of
    tracked functions are as before. *)
Definition quiet (w w' : World) : Prop :=
  ir w' = ir w
  /\ BBExecutable (solver w') = BBExecutable (solver w)
  /\ BBWorkList (solver w') = BBWorkList (solver w)
  /\ KnownFeasibleEdges (solver w') = KnownFeasibleEdges (solver w)
  /\ MRVFunctionsTracked (solver w') = MRVFunctionsTracked (solver w)
  /\ TrackingIncomingArguments (solver w')
     = TrackingIncomingArguments (solver w).

(** A step that leaves the table of users of overdefined PHIs as it is. *)
Definition sameTable (w w' : World) : Prop :=
  UsersOfOverdefinedPHIs (solver w') = UsersOfOverdefinedPHIs (solver w).

(** Every block on the block work list, and the destination of every edge
    known to be feasible, is executable. *)
Definition executableBookkeeping (s : SCCPSolver) : Prop :=
  (forall BB, BB ∈ BBWorkList s -> BB ∈ BBExecutable s)
  /\ (forall S D, (S, D) ∈ KnownFeasibleEdges s -> D ∈ BBExecutable s).

(** No tracked global is recorded as overdefined. *)
Definition trackedGlobalsDefined (s : SCCPSolver) : Prop :=
  forall GV lv, TrackedGlobals s !! GV = Some lv -> lv <> overdefined.

(** What is tracked does not grow or change: the same functions have their
    return values and arguments tracked, and no global starts being
    tracked. *)
Definition sameTracking (w w' : World) : Prop :=
  MRVFunctionsTracked (solver w') = MRVFunctionsTracked (solver w)
  /\ TrackingIncomingArguments (solver w')
     = TrackingIncomingArguments (solver w)
  /\ dom (TrackedRetVals (solver w')) = dom (TrackedRetVals (solver w))
  /\ dom (TrackedGlobals (solver w')) ⊆ dom (TrackedGlobals (solver w)).

(** The value [V] has just been forced: it is [forcedconstant] and at the
    back of the instruction work list, or [overdefined] and at the back of
    the overdefined work list. *)
Definition forcedAndQueued (V : Value) (s : SCCPSolver) : Prop :=
  (head (InstWorkList s) = Some V
   /\ exists C, ValueState s !! V = Some (forcedconstant C))
  \/ (head (OverdefinedInstWorkList s) = Some V
      /\ ValueState s !! V = Some overdefined).

(** The merge rule of [mergeInValue]: what the lattice value [iv] becomes
    when [mv] is merged into it. *)
Definition merged (iv mv : LatticeVal) : LatticeVal :=
  if LV.isOverdefined iv || LV.isUndefined mv then iv
  else if LV.isOverdefined mv then overdefined
  else
    match iv, LV.getConstant iv, LV.getConstant mv with
    | undefined, _, Ok c => constant c
    | _, Ok c1, Ok c2 => if decide (c1 <> c2) then overdefined else iv
    | _, _, _ => iv
    end.

(** The outcome of a visit that ends in [markConstant(I, C)]: the state of
    [I] becomes what [LatticeVal::markConstant] makes of its current state,
    and the visit fails where that fails its assertion. *)
Definition marksConstant (m : M unit) (w : World) (I : Value) (C : Constant)
  : Prop :=
  match LV.markConstant (peekValueState w I) C with
  | Ok r => exists w', m w = Ok (tt, w') /\ ir w' = ir w
                       /\ ValueState (solver w') !! I = Some r.2
  | Err f => m w = Err f
  end.

(** The outcome of a visit that leaves [I] in the state [lv]. *)
Definition leavesState (m : M unit) (w : World) (I : Value) (lv : LatticeVal)
  : Prop :=
  exists w', m w = Ok (tt, w') /\ ir w' = ir w
             /\ ValueState (solver w') !! I = Some lv.

(** The outcome of a visit that only looks values up: no recorded lattice
    value changes. *)
Definition onlyLooksUp (m : M unit) (w : World) : Prop :=
  exists w', m w = Ok (tt, w') /\ lookedUp w w'.

(** The state after the three look-ups that open [visitBinaryOperator] and
    [visitCmpInst]: those of the two operands and of the result. *)
Definition afterOperands (w : World) (I Op0 Op1 : Value) : World :=
  {| ir := ir w;
     solver := set_ValueState (orInsertDefault I)
                 (solver (touch Op1 (touch Op0 w))) |}.

(** The state after the two look-ups that open [visitLoadInst] once the
    pointer is resolved: those of the pointer operand and of the result. *)
Definition afterOperand (w : World) (I Op : Value) : World :=
  {| ir := ir w;
     solver := set_ValueState (orInsertDefault I) (solver (touch Op w)) |}.

(** *** Notions used for the rewrite of the function *)

(** [I->getParent()] and the successors of [I] as a terminator. *)
Definition parentOf (g : IR) (I : Value) : option BasicBlock :=
  fst <$> asInstruction g I.

Definition successorsOf (g : IR) (I : Value) : option (list BasicBlock) :=
  match asInstruction g I with
  | Some (_, k) => getSuccessors k
  | None => None
  end.

(** [I] is in [g'] the instruction it is in [g], up to its operands. *)
Definition sameStatus (g g' : IR) (I : Value) : Prop :=
  parentOf g' I = parentOf g I /\ successorsOf g' I = successorsOf g I.

(** The types, the functions and their block lists are the same. *)
Definition sameFrame (g g' : IR) : Prop :=
  valueType g' = valueType g /\ functionData g' = functionData g
  /\ blockParent g' = blockParent g.

(** The instructions of an executable block that the rewrite leaves in
    place: those of void type, the terminators, those of struct type, and
    those whose lattice value is overdefined. *)
Definition keptByRewrite (s : SCCPSolver) (g : IR) (I : Value) : bool :=
  isVoidTy (valueType g I) || isTerminatorInst g I
  || isStructTy (valueType g I)
  || match ValueState s !! I with
     | Some lv => LV.isOverdefined lv
     | None => false
     end.

(** Nothing for the rewrite loop of [runOnFunction] to do: every block is
    executable and each of its instructions is left in place. *)
Definition nothingToRewrite (s : SCCPSolver) (g : IR)
    (blocks : list BasicBlock) : Prop :=
  forall BB, BB ∈ blocks ->
    isBlockExecutable s BB = true
    /\ forall I, I ∈ blockInsts g BB -> keptByRewrite s g I = true.

(** An instruction list as the verifier accepts it: no instruction twice,
    each with the block as its parent, and one terminator, at the end. *)
Definition blockWellFormed (g : IR) (BB : BasicBlock) : bool :=
  bool_decide (NoDup (blockInsts g BB))
  && forallb (fun I => bool_decide (parentOf g I = Some BB)) (blockInsts g BB)
  && match reverse (blockInsts g BB) with
     | T :: body =>
         isTerminatorInst g T
         && forallb (fun I => negb (isTerminatorInst g I)) body
     | [] => false
     end.

Definition functionWellFormed (g : IR) (F : Function) : bool :=
  bool_decide (NoDup (fBlocks (functionData g F)))
  && forallb (blockWellFormed g) (fBlocks (functionData g F)).

(** [g'] is [g] with instructions removed and operands replaced: the types
    and the functions are the same, and each block lists some of the
    instructions it listed. *)
Definition shrinks (g g' : IR) : Prop :=
  valueType g' = valueType g /\ functionData g' = functionData g
  /\ forall B, blockInsts g' B ⊆ blockInsts g B.

(** The solver has a lattice value for each instruction that the rewrite
    asks for: those of the executable blocks among [blocks] whose type is
    neither void nor a struct. *)
Definition latticeValuesFound (s : SCCPSolver) (g : IR)
    (blocks : list BasicBlock) : Prop :=
  forall BB I,
    BB ∈ blocks -> isBlockExecutable s BB = true ->
    I ∈ blockInsts g BB ->
    isVoidTy (valueType g I) = false -> isStructTy (valueType g I) = false ->
    is_Some (getLatticeValueFor s I).

(** What the rewrite leaves of a block: of an executable block, the
    instructions it keeps; of a dead block, the last instruction, its
    terminator. *)
Definition rewrittenBlock (s : SCCPSolver) (g : IR) (BB : BasicBlock)
  : list Value :=
  if isBlockExecutable s BB
  then filter (fun I => keptByRewrite s g I = true) (blockInsts g BB)
  else option_list (last (blockInsts g BB)).

(** The step of the rewrite on the block [BB], which leaves it with the
    instructions [insts]: the other blocks are as before, and so is every
    instruction that was not in the block or is still in it, up to its
    operands. *)
Definition blockRewritten (BB : BasicBlock) (insts : list Value)
    (g g' : IR) : Prop :=
  sameFrame g g'
  /\ blockInsts g' BB = insts
  /\ (forall B, B <> BB -> blockInsts g' B = blockInsts g B)
  /\ (forall J, J ∉ blockInsts g BB \/ J ∈ insts -> sameStatus g g' J).

(** *** The outcomes of [ResolvedUndefsIn] on one instruction *)

(** The instruction is forced to the constant [C], or to overdefined, and
    the function returns true; or it stays undefined, no lattice value
    changes, and the scan goes on. *)
Definition forcesConstant (m : M bool) (w : World) (I : Value) (C : Constant)
  : Prop :=
  exists w', m w = Ok (true, w') /\ ir w' = ir w
             /\ ValueState (solver w') !! I = Some (forcedconstant C).

Definition forcesOverdefined (m : M bool) (w : World) (I : Value) : Prop :=
  exists w', m w = Ok (true, w') /\ ir w' = ir w
             /\ ValueState (solver w') !! I = Some overdefined.

Definition leavesUndefined (m : M bool) (w : World) : Prop :=
  exists w', m w = Ok (false, w') /\ lookedUp w w'.

(** The constants that the lattice values of [ops] hold. *)
Definition operandConstants (w : World) (ops : list Value) : list Constant :=
  omap (fun V => match LV.getConstant (peekValueState w V) with
                 | Ok c => Some c
                 | Err _ => None
                 end) ops.

(** The instruction classes that the solver has no rule for: their result
    is marked overdefined by [visitAllocaInst], [visitVAArgInst], the three
    visitors of vector instructions and [visitInstruction]. *)
Definition unhandledKind (k : InstKind) : bool :=
  match k with
  | IAlloca _ | IVAArg _ | IOther _
  | IExtractElement _ _ | IInsertElement _ _ _ | IShuffleVector _ _ _ => true
  | _ => false
  end.
(** ** Example graphs

    A small universe of constants: handle 1 is [i1 false], 2 is [i1 true],
    3 is [undef] of type i1, 4 is [undef] of type i32, 5 is [undef] of type
    {i32}, 6 is a constant expression of type i1, 9 is a constant expression
    of type i32, and [1000 + n] is the i32 constant [n].  Instructions are
    numbered from 10, blocks from 100, functions from 200, arguments from
    300. *)
Module Examples.

Definition i1 : Ty := IntegerTy 1.
Definition i32 : Ty := IntegerTy 32.

Definition i32val (C : Constant) : Z := (Z.pos C - 1000)%Z.
Definition i32const (n : Z) : Constant := Z.to_pos (1000 + n mod 2 ^ 32).

(** Two's complement folding of the integer operations; what the example
    does not need folds to the constant expression 9. *)
Definition foldBinary (op : BinaryOps) (a b : Constant) : Constant :=
  if (Pos.leb 1000 a && Pos.leb 1000 b)%bool then
    match op with
    | Add => i32const (i32val a + i32val b)
    | Sub => i32const (i32val a - i32val b)
    | Mul => i32const (i32val a * i32val b)
    | And => i32const (Z.land (i32val a) (i32val b))
    | Or => i32const (Z.lor (i32val a) (i32val b))
    | Xor => i32const (Z.lxor (i32val a) (i32val b))
    | _ => 9%positive
    end
  else 9%positive.

(** The first reallocations of a [DenseMap] that starts without buckets:
    64 buckets at the first entry, then twice as many whenever three
    quarters of them are filled. *)
Definition growsAt (n : nat) : bool :=
  bool_decide (n ∈ [1; 48; 96; 192; 384; 768; 1536]).

Definition exFolder : Folder :=
  {| ConstantExpr_get := foldBinary;
     ConstantExpr_getCast := fun _ _ _ => 9%positive;
     ConstantExpr_getCompare := fun _ _ _ => 6%positive;
     ConstantExpr_getGetElementPtr := fun _ _ => 9%positive;
     Constant_getNullValue := fun t =>
       match t with IntegerTy 1 => 1%positive | _ => 1000%positive end;
     Constant_getAllOnesValue := fun t =>
       match t with
       | IntegerTy 1 => 2%positive
       | _ => i32const (-1)
       end;
     ConstantInt_getFalse := 1%positive;
     ConstantFoldLoadFromConstPtr := fun _ => None;
     canConstantFoldCallTo := fun _ => false;
     ConstantFoldCall := fun _ _ => None;
     DenseMap_grows := growsAt |}.

Definition constantData (V : Value) : Ty * ValueKind :=
  if Pos.leb 1000 V then (i32, KConstant (ConstantInt 32 (i32val V)))
  else
    match V with
    | 1%positive => (i1, KConstant (ConstantInt 1 0))
    | 2%positive => (i1, KConstant (ConstantInt 1 1))
    | 3%positive => (i1, KConstant UndefValue)
    | 4%positive => (i32, KConstant UndefValue)
    | 5%positive => (StructTy [i32], KConstant UndefValue)
    | 6%positive => (i1, KConstant (OtherConstant false))
    | 9%positive => (i32, KConstant (OtherConstant false))
    | _ => (VoidTy, KOther)
    end.

Definition operandsOf (d : Ty * ValueKind) : list Value :=
  match d.2 with KInstruction _ k => getOperands k | _ => [] end.

(** A graph from the table of its non-constant values, the instruction
    lists of its blocks and its functions. *)
Definition mkIR (vals : list (Value * (Ty * ValueKind)))
    (blocks : list (BasicBlock * list Value))
    (funcs : list (Function * FunctionData)) : IR :=
  let tbl : gmap Value (Ty * ValueKind) := list_to_map vals in
  let data V := default (constantData V) (tbl !! V) in
  let btbl : gmap BasicBlock (list Value) := list_to_map blocks in
  let ftbl : gmap Function FunctionData := list_to_map funcs in
  {| valueType := fun V => (data V).1;
     valueKind := fun V =>
       match ftbl !! V with
       | Some _ => KConstant FunctionConst
       | None =>
           match btbl !! V with
           | Some _ => KBasicBlock
           | None => (data V).2
           end
       end;
     useList := fun V =>
       (filter (fun e => V ∈ operandsOf e.2) vals).*1;
     blockInsts := fun BB => default [] (btbl !! BB);
     blockParent := fun BB =>
       default 200%positive
         (fst <$> head (filter (fun f => BB ∈ fBlocks f.2) funcs));
     functionData := fun F =>
       default {| fReturnType := VoidTy; fArgs := []; fBlocks := [];
                  fOnlyReadsMemory := false |} (ftbl !! F) |}.

Definition inst (ty : Ty) (parent : BasicBlock) (k : InstKind)
  : Ty * ValueKind := (ty, KInstruction parent k).

Definition fn (ret : Ty) (args : list Value) (blocks : list BasicBlock)
  : FunctionData :=
  {| fReturnType := ret; fArgs := args; fBlocks := blocks;
     fOnlyReadsMemory := false |}.

Definition start (g : IR) : World := {| ir := g; solver := newSolver |}.

(** The lattice value the rewrite driver reads with [getLatticeValueFor]. *)
Definition finalState {A} (r : Res (A * World)) (V : Value)
  : option LatticeVal :=
  match r with
  | Ok (_, w) => ValueState (solver w) !! V
  | Err _ => None
  end.

Definition finalExecutable {A} (r : Res (A * World)) : list BasicBlock :=
  match r with
  | Ok (_, w) => elements (BBExecutable (solver w))
  | Err _ => []
  end.

(** [x = 2 + 3; return x;] *)
Definition gFold : IR :=
  mkIR [(10, inst i32 100 (IBinary Add 1002 1003));
        (11, inst VoidTy 100 (IRet (Some 10)))]%positive
       [(100, [10; 11])]%positive
       [(200%positive, fn i32 [] [100%positive])].

(** [if (true) A else B] *)
Definition gDeadBranch : IR :=
  mkIR [(10, inst VoidTy 100 (ICondBr 2 101 102));
        (11, inst VoidTy 101 (IRet None));
        (12, inst VoidTy 102 (IRet None))]%positive
       [(100, [10]); (101, [11]); (102, [12])]%positive
       [(200%positive, fn VoidTy [] [100; 101; 102]%positive)].

(** A branch on the constant expression 6. *)
Definition gBranchOnConstExpr : IR :=
  mkIR [(10, inst VoidTy 100 (ICondBr 6 101 102));
        (11, inst VoidTy 101 (IRet None));
        (12, inst VoidTy 102 (IRet None))]%positive
       [(100, [10]); (101, [11]); (102, [12])]%positive
       [(200%positive, fn VoidTy [] [100; 101; 102]%positive)].

(** A diamond on the argument 300 whose join receives [a] and [b]. *)
Definition gJoin (a b : Constant) : IR :=
  mkIR [(300, (i1, KArgument false));
        (10, inst VoidTy 100 (ICondBr 300 101 102));
        (11, inst VoidTy 101 (IBr 103));
        (12, inst VoidTy 102 (IBr 103));
        (13, inst i32 103 (IPHI [(a, 101); (b, 102)]));
        (14, inst VoidTy 103 (IRet (Some 13)))]%positive
       [(100, [10]); (101, [11]); (102, [12]); (103, [13; 14])]%positive
       [(200%positive, fn i32 [300%positive] [100; 101; 102; 103]%positive)].

(** [y = x & 0] with [x] an argument. *)
Definition gAndZero : IR :=
  mkIR [(300, (i32, KArgument false));
        (10, inst i32 100 (IBinary And 300 1000));
        (11, inst VoidTy 100 (IRet (Some 10)))]%positive
       [(100, [10; 11])]%positive
       [(200%positive, fn i32 [300%positive] [100%positive])].

(** A branch on a comparison of two undefs, which the fixed point leaves
    undefined. *)
Definition gUndefBranch : IR :=
  mkIR [(10, inst i1 100 (ICmp 32 4 4));
        (11, inst VoidTy 100 (ICondBr 10 101 102));
        (12, inst VoidTy 101 (IRet None));
        (13, inst VoidTy 102 (IRet None))]%positive
       [(100, [10; 11]); (101, [12]); (102, [13])]%positive
       [(200%positive, fn VoidTy [] [100; 101; 102]%positive)].

(** A branch on the literal [undef]. *)
Definition gBranchOnUndef : IR :=
  mkIR [(10, inst VoidTy 100 (ICondBr 3 101 102));
        (11, inst VoidTy 101 (IRet None));
        (12, inst VoidTy 102 (IRet None))]%positive
       [(100, [10]); (101, [11]); (102, [12])]%positive
       [(200%positive, fn VoidTy [] [100; 101; 102]%positive)].

(** A caller of a tracked function returning [{i32} undef]. *)
Definition gStructCall : IR :=
  mkIR [(10, inst (StructTy [i32]) 100 (ICall 201 []));
        (11, inst i32 100 (IExtractValue 10 [0%nat]));
        (12, inst VoidTy 100 (IRet (Some 11)));
        (20, inst VoidTy 110 (IRet (Some 5)))]%positive
       [(100, [10; 11; 12]); (110, [20])]%positive
       [(200, fn i32 [] [100]); (201, fn (StructTy [i32]) [] [110])]%positive.

(** A loop whose header 101 joins [undef] from the entry with [true] from
    the latch 102, and branches on the join. *)
Definition gLoopPhi : IR :=
  mkIR [(10, inst VoidTy 100 (IBr 101));
        (13, inst i1 101 (IPHI [(3, 100); (2, 102)]));
        (14, inst VoidTy 101 (ICondBr 13 103 102));
        (15, inst VoidTy 102 (IBr 101));
        (16, inst VoidTy 103 (IRet None))]%positive
       [(100, [10]); (101, [13; 14]); (102, [15]); (103, [16])]%positive
       [(200%positive, fn VoidTy [] [100; 101; 102; 103]%positive)].

Definition worldOf {A} (r : Res (A * World)) (otherwise : World) : World :=
  match r with Ok (_, w) => w | Err _ => otherwise end.

(** The run on [gLoopPhi] up to the point where the latch has just become
    executable: the fixed point, the resolution pass (which forces the
    join, the branch condition, to [false]), and the two instruction work
    lists of the next [Solve]. *)
Definition wLoopPhi : World :=
  worldOf
    ((MarkBlockExecutable 100 ;;
      Solve exFolder 5 50 ;;
      ResolvedUndefsIn exFolder 5 200 ;;
      drainOverdefinedInstWorkList exFolder 5 50 ;;
      drainInstWorkList exFolder 5 50)%sccp (start gLoopPhi))
    (start gLoopPhi).

(** The loop again, branching on the [or] of two joins: one receives the
    argument 300 from the latch, the other [true]. *)
Definition gOrLoop : IR :=
  mkIR [(300, (i1, KArgument false));
        (10, inst VoidTy 100 (IBr 101));
        (11, inst i1 101 (IPHI [(3, 100); (300, 102)]));
        (12, inst i1 101 (IPHI [(3, 100); (2, 102)]));
        (13, inst i1 101 (IBinary Or 11 12));
        (14, inst VoidTy 101 (ICondBr 13 103 102));
        (15, inst VoidTy 102 (IBr 101));
        (16, inst VoidTy 103 (IRet None))]%positive
       [(100, [10]); (101, [11; 12; 13; 14]); (102, [15]); (103, [16])]%positive
       [(200%positive, fn VoidTy [300%positive] [100; 101; 102; 103]%positive)].

(** The run on [gOrLoop] up to the point where the joins have just been
    revisited: the fixed point, the resolution pass (which forces the [or],
    the branch condition, to [false]), and the three work lists of the next
    [Solve]. *)
Definition wOrLoop : World :=
  worldOf
    ((MarkBlockExecutable 100 ;;
      markAnythingOverdefined exFolder 300 ;;
      Solve exFolder 5 50 ;;
      ResolvedUndefsIn exFolder 5 200 ;;
      drainOverdefinedInstWorkList exFolder 5 50 ;;
      drainInstWorkList exFolder 5 50 ;;
      drainBBWorkList exFolder 5 50)%sccp (start gOrLoop))
    (start gOrLoop).

(** The fixed point on [gBranchOnUndef], on [gUndefBranch] and on
    [gFold]. *)
Definition wBranchOnUndef : World :=
  worldOf ((MarkBlockExecutable 100 ;; Solve exFolder 5 50)%sccp
             (start gBranchOnUndef)) (start gBranchOnUndef).

Definition wUndefBranch : World :=
  worldOf ((MarkBlockExecutable 100 ;; Solve exFolder 5 50)%sccp
             (start gUndefBranch)) (start gUndefBranch).

Definition wFoldStart : World :=
  worldOf (MarkBlockExecutable 100 (start gFold)) (start gFold).

(** The fixed point on [gStructCall] of an interprocedural run: the callee
    201 has its return values tracked, and both entry blocks are
    executable. *)
Definition wStructCall : World :=
  worldOf ((AddTrackedFunction 201 ;;
            MarkBlockExecutable 100 ;;
            MarkBlockExecutable 110 ;;
            Solve exFolder 5 50)%sccp (start gStructCall))
          (start gStructCall).

(** The end of a run on [gFold]. *)
Definition wFoldEnd : World :=
  worldOf (runSolver exFolder 5 50 10 200 (start gFold)) (start gFold).

(** [gAndZero] with its argument marked overdefined, as at the start of a
    run. *)
Definition wAndZero : World :=
  worldOf (markAnythingOverdefined exFolder 300 (start gAndZero))
          (start gAndZero).

(** A diamond on the argument 300 whose join block adds two PHI nodes: they
    receive 1 and 2 along the one edge, 2 and 1 along the other. *)
Definition gPhiSum : IR :=
  mkIR [(300, (i1, KArgument false));
        (10, inst VoidTy 100 (ICondBr 300 101 102));
        (11, inst VoidTy 101 (IBr 103));
        (12, inst VoidTy 102 (IBr 103));
        (13, inst i32 103 (IPHI [(1001, 101); (1002, 102)]));
        (14, inst i32 103 (IPHI [(1002, 101); (1001, 102)]));
        (15, inst i32 103 (IBinary Add 13 14));
        (16, inst VoidTy 103 (IRet (Some 15)))]%positive
       [(100, [10]); (101, [11]); (102, [12]); (103, [13; 14; 15; 16])]%positive
       [(200%positive, fn i32 [300%positive] [100; 101; 102; 103]%positive)].

(** Two PHI nodes that are overdefined before their block is visited: the
    edge from 101 becomes feasible while 105 waits on the work list, and the
    PHI nodes stop at the second incoming value, so that [visitBinaryOperator]
    is the first to look up 1005 and 1000.  The function has [2 + extra]
    arguments, each of which takes an entry of [ValueState]. *)
Definition gPhiStale (extra : nat) : IR :=
  let args := map Pos.of_nat (seq 300 (2 + extra)) in
  mkIR (map (fun a => (a, (i1, KArgument false))) args ++
        [(10, inst VoidTy 100 (ICondBr 300 105 101));
         (11, inst VoidTy 101 (ICondBr 301 105 102));
         (12, inst VoidTy 102 (IBr 105));
         (13, inst i32 105 (IPHI [(1001, 100); (1002, 101); (1005, 102)]));
         (14, inst i32 105 (IPHI [(1004, 100); (1003, 101); (1000, 102)]));
         (15, inst i32 105 (IBinary Add 13 14));
         (16, inst VoidTy 105 (IRet (Some 15)))]%positive)
       [(100, [10]); (101, [11]); (102, [12]);
        (105, [13; 14; 15; 16])]%positive
       [(200%positive, fn i32 args [100; 101; 102; 105]%positive)].

(** A store of [c] to the global 400 followed by a load from it. *)
Definition gGlobal (c : Constant) : IR :=
  mkIR [(400, (PointerTy 0, KConstant GlobalVariable));
        (10, inst VoidTy 100 (IStore c 400));
        (11, inst i32 100 (ILoad 400 false));
        (12, inst VoidTy 100 (IRet (Some 11)))]%positive
       [(100, [10; 11; 12])]%positive
       [(200%positive, fn i32 [] [100%positive])].

(** The global 400 of [gGlobal]: an [i32] initialised to 5. *)
Definition dGlobal : GlobalVariableData :=
  {| gvElementType := i32; gvInitializer := 1005%positive |}.

(** [gGlobal c] with the global tracked, as the interprocedural client sets
    it up. *)
Definition wGlobal (c : Constant) : World :=
  worldOf (TrackValueOfGlobalVariable 400 dGlobal (start (gGlobal c)))
          (start (gGlobal c)).


(** The end of a run on [gDeadBranch] and on [gPhiSum]. *)
Definition wDeadBranchEnd : World :=
  worldOf (runSolver exFolder 5 50 10 200 (start gDeadBranch))
          (start gDeadBranch).

Definition wPhiSumEnd : World :=
  worldOf (runSolver exFolder 5 50 10 200 (start gPhiSum)) (start gPhiSum).

(** [y = x + 1] with [x] an argument marked overdefined, as at the start of
    a run. *)
Definition gAddArg : IR :=
  mkIR [(300, (i32, KArgument false));
        (10, inst i32 100 (IBinary Add 300 1001));
        (11, inst VoidTy 100 (IRet (Some 10)))]%positive
       [(100, [10; 11])]%positive
       [(200%positive, fn i32 [300%positive] [100%positive])].

Definition wAddArg : World :=
  worldOf (markAnythingOverdefined exFolder 300 (start gAddArg))
          (start gAddArg).

(** [UndefValue::get] on the constants of [constantData]. *)
Definition exUndef (t : Ty) : Constant :=
  match t with
  | IntegerTy 1 => 3%positive
  | StructTy _ => 5%positive
  | _ => 4%positive
  end.

(** What the pass leaves of a block, and of an instruction. *)
Definition passBlock (r : PassRes (bool * IR)) (BB : BasicBlock)
  : option (bool * list Value) :=
  match r with
  | Done (MadeChanges, g) => Some (MadeChanges, blockInsts g BB)
  | Stopped _ => None
  end.

Definition passKind (r : PassRes (bool * IR)) (V : Value)
  : option ValueKind :=
  match r with
  | Done (_, g) => Some (valueKind g V)
  | Stopped _ => None
  end.

Definition passGraph (r : PassRes (bool * IR)) (otherwise : IR) : IR :=
  match r with
  | Done (_, g) => g
  | Stopped _ => otherwise
  end.

Definition deletedGraph (r : PassRes IR) (otherwise : IR) : IR :=
  match r with
  | Done g => g
  | Stopped _ => otherwise
  end.

(** [if (true) return 1; else { x = 1 + 2; y = x + x; return y; }] *)
Definition gDeadCode : IR :=
  mkIR [(10, inst VoidTy 100 (ICondBr 2 101 102));
        (20, inst VoidTy 101 (IRet (Some 1001)));
        (21, inst i32 102 (IBinary Add 1001 1002));
        (22, inst i32 102 (IBinary Add 21 21));
        (23, inst VoidTy 102 (IRet (Some 22)))]%positive
       [(100, [10]); (101, [20]); (102, [21; 22; 23])]%positive
       [(200%positive, fn i32 [] [100; 101; 102]%positive)].

(** The end of the solver's run on [gDeadCode] and on [gAddArg]. *)
Definition wDeadCodeEnd : World :=
  worldOf (runSolver exFolder 5 50 10 200 (start gDeadCode))
          (start gDeadCode).

Definition wAddArgEnd : World :=
  worldOf (runSolver exFolder 5 50 10 200 (start gAddArg)) (start gAddArg).

(** The function 201 returns 7; the function 200 returns what its call of
    201 gives. *)
Definition gCall : IR :=
  mkIR [(10, inst i32 100 (ICall 201 []));
        (11, inst VoidTy 100 (IRet (Some 10)));
        (30, inst VoidTy 110 (IRet (Some 1007)))]%positive
       [(100, [10; 11]); (110, [30])]%positive
       [(200, fn i32 [] [100]); (201, fn i32 [] [110])]%positive.

(** [gCall] with the return value of 201 tracked, and then with the return
    of 201 visited. *)
Definition wCall : World :=
  worldOf (AddTrackedFunction 201 (start gCall)) (start gCall).

Definition wCallReturned : World :=
  worldOf (visitReturnInst exFolder 30 110 (Some 1007%positive) wCall) wCall.

(** [x = true ? 5 : 7; return x;] *)
Definition gSelect : IR :=
  mkIR [(10, inst i32 100 (ISelect 2 1005 1007));
        (11, inst VoidTy 100 (IRet (Some 10)))]%positive
       [(100, [10; 11])]%positive
       [(200%positive, fn i32 [] [100%positive])].

(** [p = alloca i32; q = getelementptr 9, 1; return;] with 9 a constant
    expression. *)
Definition gAlloca : IR :=
  mkIR [(10, inst (PointerTy 0) 100 (IAlloca 1001));
        (11, inst i32 100 (IGetElementPtr [9; 1001]));
        (12, inst VoidTy 100 (IRet None))]%positive
       [(100, [10; 11; 12])]%positive
       [(200%positive, fn VoidTy [] [100%positive])].

End Examples.
(** * Properties *)

Local Open Scope sccp_scope.

(** ** LatticeVal *)

Lemma LV_le_rank a b : LV.le a b -> LV.rank a <= LV.rank b.
Proof.
  intros [-> | [-> | [Ha ->]]]; [lia | simpl; lia |].
  destruct a; simpl in *; try discriminate; lia.
Qed.

Lemma LV_le_refl a : LV.le a a.
Proof. by left. Qed.

Lemma LV_le_trans a b c : LV.le a b -> LV.le b c -> LV.le a c.
Proof.
  unfold LV.le.
  intros [-> | [-> | [Ha ->]]] [Hb | [Hb | [Hb Hc]]]; subst; simpl in *;
    try discriminate; auto.
Qed.

Lemma LV_markOverdefined_le lv : LV.le lv (LV.markOverdefined lv).2.
Proof. destruct lv; unfold LV.le; simpl; auto. Qed.

Lemma LV_markConstant_le lv V r :
  LV.markConstant lv V = Ok r -> LV.le lv r.2.
Proof.
  unfold LV.le. destruct lv; simpl; intros H; repeat case_decide;
    simplify_eq; simpl; auto.
Qed.

Lemma LV_markForcedConstant_le lv V lv' :
  LV.markForcedConstant lv V = Ok lv' -> LV.le lv lv'.
Proof. unfold LV.le. destruct lv; simpl; intros H; simplify_eq; auto. Qed.

(** C3: [markConstant(c)] returns false and keeps the state when it is already
    [constant c]; fails the assertion on a plain [constant c'] with [c' <> c];
    moves [forcedconstant c'] with [c' <> c] to [overdefined] and returns
    true; moves [undefined] to [constant c] and returns true. *)
Theorem C3_markConstant (c c' : Constant) (Hne : c' <> c) :
  LV.markConstant (constant c) c = Ok (false, constant c)
  /\ LV.markConstant (constant c') c = Err (AssertFailed DifferentValue)
  /\ LV.markConstant (forcedconstant c') c = Ok (true, overdefined)
  /\ LV.markConstant undefined c = Ok (true, constant c).
Proof.
  repeat split; simpl; repeat case_decide; congruence.
Qed.

Lemma C3_markConstant_witness :
  (8 <> 7)%positive
  /\ LV.markConstant (constant 7) 7 = Ok (false, constant 7)
  /\ LV.markConstant (constant 8) 7 = Err (AssertFailed DifferentValue)
  /\ LV.markConstant (forcedconstant 8) 7 = Ok (true, overdefined)
  /\ LV.markConstant undefined 7 = Ok (true, constant 7).
Proof. split; [lia | apply (C3_markConstant 7%positive 8%positive); lia]. Defined.

(** ** The monad *)

Lemma bind_ok {A B} (m : M A) (k : A -> M B) w a w' :
  m w = Ok (a, w') -> bind m k w = k a w'.
Proof. unfold bind. by intros ->. Qed.

Lemma bind_inv {A B} (m : M A) (k : A -> M B) w b w'' :
  bind m k w = Ok (b, w'') ->
  exists a w', m w = Ok (a, w') /\ k a w' = Ok (b, w'').
Proof.
  unfold bind. destruct (m w) as [[a w']|]; [eauto | discriminate].
Qed.

(** Running the primitive steps. *)
Lemma run_ret {A B} (a : A) (k : A -> M B) w : bind (ret a) k w = k a w.
Proof. done. Qed.
Lemma run_getIR {B} (k : IR -> M B) w : bind getIR k w = k (ir w) w.
Proof. done. Qed.
Lemma run_getSolver {B} (k : SCCPSolver -> M B) w :
  bind getSolver k w = k (solver w) w.
Proof. done. Qed.
Lemma run_gets {A B} (f : SCCPSolver -> A) (k : A -> M B) w :
  bind (gets f) k w = k (f (solver w)) w.
Proof. done. Qed.
Lemma run_modify {B} f (k : unit -> M B) w :
  bind (modify f) k w = k tt {| ir := ir w; solver := f (solver w) |}.
Proof. done. Qed.
Lemma run_modifyIR {B} f (k : unit -> M B) w :
  bind (modifyIR f) k w = k tt {| ir := f (ir w); solver := solver w |}.
Proof. done. Qed.
Lemma run_getType {B} V (k : Ty -> M B) w :
  bind (getType V) k w = k (valueType (ir w) V) w.
Proof. done. Qed.
Lemma run_assert_true {B} a (k : unit -> M B) w :
  bind (assert true a) k w = k tt w.
Proof. done. Qed.
Lemma run_liftRes_Ok {A B} (a : A) (k : A -> M B) w :
  bind (liftRes (Ok a)) k w = k a w.
Proof. done. Qed.
Lemma run_assoc {A B C} (m : M A) (k1 : A -> M B) (k2 : B -> M C) w :
  bind (bind m k1) k2 w = bind m (fun a => bind (k1 a) k2) w.
Proof. unfold bind. by destruct (m w) as [[]|]. Qed.

Ltac mrun :=
  repeat first
    [ rewrite run_ret | rewrite run_getIR | rewrite run_getSolver
    | rewrite run_gets | rewrite run_modify | rewrite run_modifyIR
    | rewrite run_getType | rewrite run_assert_true | rewrite run_liftRes_Ok
    | rewrite run_assoc ]; cbv beta.

Lemma World_eta w : {| ir := ir w; solver := solver w |} = w.
Proof. by destruct w. Qed.

Lemma modify_id (f : SCCPSolver -> SCCPSolver) w :
  f (solver w) = solver w -> modify f w = Ok (tt, w).
Proof. unfold modify. intros ->. by rewrite World_eta. Qed.

(** ** References *)

Lemma alter_const_id `{Countable K} {A} (m : gmap K A) k (x : A) :
  (forall y, m !! k = Some y -> y = x) -> alter (fun _ => x) k m = m.
Proof.
  intros Hk. apply map_eq. intros j. rewrite lookup_alter.
  case_decide; [subst|done].
  destruct (m !! j) eqn:E; simpl; [|done]. by rewrite (Hk _ eq_refl).
Qed.

Lemma storeLV_load_id r s : storeLV r (loadLV r s) s = s.
Proof.
  unfold loadLV.
  destruct r, s; simpl; unfold set_ValueState, set_StructValueState,
    set_TrackedGlobals, set_TrackedRetVals, set_TrackedMultipleRetVals;
    simpl; f_equal; apply alter_const_id; intros y ->; done.
Qed.

Lemma loadLV_storeLV r lv s :
  is_Some (lookupLV r s) -> loadLV r (storeLV r lv s) = lv.
Proof.
  intros [x Hx]. unfold loadLV.
  destruct r; simpl in *; rewrite lookup_alter, decide_True by done;
    by rewrite Hx.
Qed.

Lemma lookupLV_storeLV_is_Some r r' lv s :
  is_Some (lookupLV r' s) -> is_Some (lookupLV r' (storeLV r lv s)).
Proof.
  intros [x Hx].
  destruct r, r'; simpl in *; rewrite ?lookup_alter; try case_decide;
    simplify_eq; rewrite ?Hx; simpl; eauto.
Qed.

Lemma loadLV_set_OverdefinedInstWorkList r f s :
  loadLV r (set_OverdefinedInstWorkList f s) = loadLV r s.
Proof. by destruct r. Qed.

Lemma loadLV_set_InstWorkList r f s :
  loadLV r (set_InstWorkList f s) = loadLV r s.
Proof. by destruct r. Qed.

(** ** markOverdefined, markConstant, mergeInValue on a reference *)

Section Marking.
Variables (IV : LVRef) (V : Value) (w : World).
Hypothesis Hvalid : is_Some (lookupLV IV (solver w)).

Lemma markOverdefined_at_noop :
  loadLV IV (solver w) = overdefined -> markOverdefined_at IV V w = Ok (tt, w).
Proof using Type.
  intros Hov. unfold markOverdefined_at, LV_markOverdefined, bind, gets.
  rewrite Hov. simpl. unfold modify. simpl.
  rewrite <- Hov, storeLV_load_id. by rewrite World_eta.
Qed.

Lemma markOverdefined_at_change :
  loadLV IV (solver w) <> overdefined ->
  markOverdefined_at IV V w
  = Ok (tt, {| ir := ir w;
               solver := set_OverdefinedInstWorkList (cons V)
                           (storeLV IV overdefined (solver w)) |}).
Proof using Type.
  intros Hov. unfold markOverdefined_at, LV_markOverdefined, bind, gets.
  destruct (loadLV IV (solver w)) eqn:E; try done; reflexivity.
Qed.

Lemma markConstant_at_noop c :
  LV.markConstant (loadLV IV (solver w)) c = Ok (false, loadLV IV (solver w)) ->
  markConstant_at IV V c w = Ok (tt, w).
Proof using Type.
  intros Hmc.
  unfold markConstant_at, LV_markConstant, bind, gets, liftRes.
  rewrite Hmc. simpl. unfold modify. simpl.
  by rewrite storeLV_load_id, World_eta.
Qed.

Lemma markConstant_at_change c lv' :
  LV.markConstant (loadLV IV (solver w)) c = Ok (true, lv') ->
  exists w', markConstant_at IV V c w = Ok (tt, w')
             /\ ir w' = ir w
             /\ lookupLV IV (solver w') = Some lv'
             /\ BBExecutable (solver w') = BBExecutable (solver w).
Proof using Hvalid.
  intros Hmc.
  unfold markConstant_at, LV_markConstant. mrun.
  rewrite Hmc. mrun. simpl. mrun. simpl. rewrite loadLV_storeLV by done.
  assert (Hl : lookupLV IV (storeLV IV lv' (solver w)) = Some lv').
  { destruct Hvalid as [x Hx].
    destruct IV; simpl in *; rewrite lookup_alter, decide_True by done;
      by rewrite Hx. }
  destruct (LV.isOverdefined lv'); unfold modify; simpl;
    eexists; (split; [reflexivity|]); simpl;
    repeat split; by destruct IV.
Qed.

(** C4: [mergeInValue] follows the merge rule.  Merging [undefined] in
    changes nothing; an [overdefined] target is left alone; merging
    [overdefined] in makes the target [overdefined]; a constant merged into
    an [undefined] target makes it that constant; two different constants
    make it [overdefined]; identical constants change nothing. *)
Theorem C4_mergeInValue_rule :
  mergeInValue_at IV V undefined w = Ok (tt, w)
  /\ (loadLV IV (solver w) = overdefined ->
      forall m, mergeInValue_at IV V m w = Ok (tt, w))
  /\ (exists w', mergeInValue_at IV V overdefined w = Ok (tt, w')
                 /\ loadLV IV (solver w') = overdefined)
  /\ (loadLV IV (solver w) = undefined ->
      forall m c, LV.getConstant m = Ok c ->
      exists w', mergeInValue_at IV V m w = Ok (tt, w')
                 /\ loadLV IV (solver w') = constant c)
  /\ (forall m c1 c2,
        LV.getConstant (loadLV IV (solver w)) = Ok c1 ->
        LV.getConstant m = Ok c2 -> c1 <> c2 ->
        exists w', mergeInValue_at IV V m w = Ok (tt, w')
                   /\ loadLV IV (solver w') = overdefined)
  /\ (forall m c,
        LV.getConstant (loadLV IV (solver w)) = Ok c ->
        LV.getConstant m = Ok c ->
        mergeInValue_at IV V m w = Ok (tt, w)).
Proof using Hvalid.
  assert (Hov : loadLV IV (solver w) <> overdefined ->
                exists w', markOverdefined_at IV V w = Ok (tt, w')
                           /\ loadLV IV (solver w') = overdefined).
  { intros Hne. rewrite markOverdefined_at_change by done.
    eexists; split; [reflexivity|]. simpl.
    by rewrite loadLV_set_OverdefinedInstWorkList, loadLV_storeLV. }
  repeat split.
  - unfold mergeInValue_at, bind, gets. simpl.
    by rewrite orb_true_r.
  - intros Hiv m. unfold mergeInValue_at, bind, gets. simpl.
    by rewrite Hiv.
  - destruct (decide (loadLV IV (solver w) = overdefined)) as [Hiv|Hiv].
    + exists w. split; [|done].
      unfold mergeInValue_at, bind, gets. simpl. by rewrite Hiv.
    + destruct (Hov Hiv) as (w' & Hw' & Hl). exists w'. split; [|done].
      unfold mergeInValue_at, bind, gets. simpl.
      destruct (loadLV IV (solver w)); simpl; try done.
  - intros Hiv m c Hc.
    destruct (markConstant_at_change c (constant c)) as (w' & Hw' & _ & Hl & _).
    { by rewrite Hiv. }
    exists w'. split; [|by unfold loadLV; rewrite Hl].
    unfold mergeInValue_at, bind, gets. simpl. rewrite Hiv. simpl.
    destruct m; simpl in *; simplify_eq; done.
  - intros m c1 c2 H1 H2 Hne.
    destruct Hov as (w' & Hw' & Hl).
    { intros E. rewrite E in H1. discriminate. }
    exists w'. split; [|done].
    unfold mergeInValue_at, bind, gets. simpl.
    destruct (loadLV IV (solver w)); simpl in *; simplify_eq;
      destruct m; simpl in *; simplify_eq;
      rewrite decide_True by done; done.
  - intros m c H1 H2.
    unfold mergeInValue_at, bind, gets. simpl.
    destruct (loadLV IV (solver w)); simpl in *; simplify_eq;
      destruct m; simpl in *; simplify_eq;
      rewrite decide_False by (intros E; by apply E); done.
Qed.

End Marking.

Lemma C4_mergeInValue_rule_witness :
  is_Some (lookupLV (InValueState 10) (solver Examples.wFoldEnd))
  /\ mergeInValue_at (InValueState 10) 10 undefined Examples.wFoldEnd
     = Ok (tt, Examples.wFoldEnd)
  /\ (exists w',
        mergeInValue_at (InValueState 10) 10 (constant 1006) Examples.wFoldEnd
        = Ok (tt, w')
        /\ loadLV (InValueState 10) (solver w') = overdefined)
  /\ mergeInValue_at (InValueState 10) 10 (constant 1005) Examples.wFoldEnd
     = Ok (tt, Examples.wFoldEnd).
Proof.
  assert (Hv : is_Some (lookupLV (InValueState 10) (solver Examples.wFoldEnd)))
    by (vm_compute; eauto).
  destruct (C4_mergeInValue_rule (InValueState 10) 10%positive
              Examples.wFoldEnd Hv) as (H1 & _ & _ & _ & H5 & H6).
  split; [done|]. split; [done|]. split.
  - apply (H5 (constant 1006) 1005%positive 1006%positive);
      [vm_compute; reflexivity|reflexivity|lia].
  - apply (H6 (constant 1005) 1005%positive); [vm_compute|]; reflexivity.
Defined.

(** ** Lazy seeding *)

Section Seeding.
Variables (lib : Folder) (w : World) (V : Value).

Lemma getValueState_present lv :
  isStructTy (valueType (ir w) V) = false ->
  ValueState (solver w) !! V = Some lv ->
  getValueState V w = Ok (InValueState V, w).
Proof using Type.
  intros Hty Hl. unfold getValueState, getType, bind, getIR, gets, ret, assert.
  simpl. rewrite Hty. simpl. by rewrite Hl.
Qed.

Lemma getValueState_absent :
  isStructTy (valueType (ir w) V) = false ->
  ValueState (solver w) !! V = None ->
  getValueState V w
  = Ok (InValueState V,
        {| ir := ir w;
           solver := set_ValueState (insert V (seedOf (ir w) V)) (solver w) |}).
Proof using Type.
  intros Hty Hl.
  unfold getValueState, getType, bind, getIR, gets, ret, assert. simpl.
  rewrite Hty. simpl. rewrite Hl. unfold modify. simpl.
  unfold seedOf.
  destruct (asConstant (ir w) V) eqn:Hc; [|done].
  destruct (isUndefValue (ir w) V) eqn:Hu; simpl; [done|].
  unfold LV_markConstant, bind, gets, liftRes, loadLV. simpl.
  rewrite lookup_insert_eq. simpl. unfold modify, ret. simpl.
  do 3 f_equal. destruct (solver w); unfold set_ValueState; simpl. f_equal.
  apply map_eq. intros j. rewrite lookup_alter.
  case_decide; subst; by rewrite ?lookup_insert_eq, ?lookup_insert_ne.
Qed.

Lemma getStructValueState_absent elts (i : nat) :
  valueType (ir w) V = StructTy elts ->
  i < length elts ->
  StructValueState (solver w) !! (V, i) = None ->
  forall seed : Res LatticeVal,
    seed = match asConstant (ir w) V with
           | Some UndefValue => Ok undefined
           | Some (ConstantStruct ops) =>
               match ops !! i with
               | Some op => Ok (constant op)
               | None => Err (AssertFailed BadAccess)
               end
           | Some ConstantAggregateZero =>
               match elts !! i with
               | Some FieldTy => Ok (constant (Constant_getNullValue lib FieldTy))
               | None => Err (AssertFailed BadAccess)
               end
           | Some _ => Ok overdefined
           | None => Ok undefined
           end ->
    getStructValueState lib V i w
    = match seed with
      | Ok lv =>
          Ok (InStructValueState V i,
              {| ir := ir w;
                 solver := set_StructValueState (insert (V, i) lv) (solver w) |})
      | Err f => Err f
      end.
Proof using Type.
  intros Hty Hi Hl seed ->.
  unfold getStructValueState, getType, bind, getIR, gets, ret, assert.
  simpl. rewrite Hty. simpl. rewrite bool_decide_true by done. simpl.
  rewrite Hl. unfold modify. simpl.
  assert (Hst : forall lv,
    set_StructValueState (alter (fun _ => lv) (V, i))
      (set_StructValueState (insert (V, i) undefined) (solver w))
    = set_StructValueState (insert (V, i) lv) (solver w)).
  { intros lv. destruct (solver w); unfold set_StructValueState; simpl.
    f_equal. apply map_eq. intros j. rewrite lookup_alter.
    case_decide; subst; by rewrite ?lookup_insert_eq, ?lookup_insert_ne. }
  destruct (asConstant (ir w) V) as [[]|] eqn:Hc; try done;
    try (unfold LV_markOverdefined, bind, gets, loadLV; simpl;
         rewrite lookup_insert_eq; simpl; unfold modify; simpl;
         by rewrite Hst).
  - destruct (ops !! i); [|done].
    unfold LV_markConstant, bind, gets, liftRes, loadLV; simpl.
    rewrite lookup_insert_eq; simpl; unfold modify; simpl. by rewrite Hst.
  - destruct (elts !! i); [|done].
    unfold LV_markConstant, bind, gets, liftRes, loadLV; simpl.
    rewrite lookup_insert_eq; simpl; unfold modify; simpl. by rewrite Hst.
Qed.

End Seeding.

(** C9 (as amended): on the first access, [getValueState] seeds a constant
    other than [undef] to [constant] of itself and everything else to
    [undefined]; [getStructValueState] seeds field [i] of a struct literal to
    its [i]-th operand, of the zero aggregate to the null value of the field
    type, of an [undef] struct constant and of a non-constant value to
    [undefined], and of any other constant to [overdefined]. *)
Theorem C9_seeding (lib : Folder) (w : World) (V : Value) :
  (isStructTy (valueType (ir w) V) = false ->
   ValueState (solver w) !! V = None ->
   exists w', getValueState V w = Ok (InValueState V, w')
     /\ ir w' = ir w
     /\ ValueState (solver w') !! V
        = Some (match asConstant (ir w) V with
                | Some UndefValue | None => undefined
                | Some _ => constant V
                end))
  /\ (forall elts (i : nat),
        valueType (ir w) V = StructTy elts -> i < length elts ->
        StructValueState (solver w) !! (V, i) = None ->
        let seeded lv :=
          exists w', getStructValueState lib V i w = Ok (InStructValueState V i, w')
            /\ ir w' = ir w
            /\ StructValueState (solver w') !! (V, i) = Some lv in
        (forall ops op, asConstant (ir w) V = Some (ConstantStruct ops) ->
                        ops !! i = Some op -> seeded (constant op))
        /\ (forall FieldTy, asConstant (ir w) V = Some ConstantAggregateZero ->
                            elts !! i = Some FieldTy ->
                            seeded (constant (Constant_getNullValue lib FieldTy)))
        /\ (asConstant (ir w) V = Some UndefValue -> seeded undefined)
        /\ (asConstant (ir w) V = None -> seeded undefined)
        /\ (forall c, asConstant (ir w) V = Some c ->
                      otherConstantShape c = true -> seeded overdefined)).
Proof.
  split.
  - intros Hty Hl. rewrite getValueState_absent by done.
    eexists; split; [reflexivity|]. split; [done|]. simpl.
    rewrite lookup_insert_eq. f_equal. unfold seedOf, isUndefValue.
    by destruct (asConstant (ir w) V) as [[]|].
  - intros elts i Hty Hi Hl seeded.
    pose proof (getStructValueState_absent lib w V elts i Hty Hi Hl _ eq_refl)
      as Hrun.
    subst seeded. repeat split.
    + intros ops op Hc Hop. rewrite Hc, Hop in Hrun. rewrite Hrun.
      eexists; split; [reflexivity|]; split; [done|]; simpl.
      by rewrite lookup_insert_eq.
    + intros FieldTy Hc Hf. rewrite Hc, Hf in Hrun. rewrite Hrun.
      eexists; split; [reflexivity|]; split; [done|]; simpl.
      by rewrite lookup_insert_eq.
    + intros Hc. rewrite Hc in Hrun. rewrite Hrun.
      eexists; split; [reflexivity|]; split; [done|]; simpl.
      by rewrite lookup_insert_eq.
    + intros Hc. rewrite Hc in Hrun. rewrite Hrun.
      eexists; split; [reflexivity|]; split; [done|]; simpl.
      by rewrite lookup_insert_eq.
    + intros c Hc Hother. rewrite Hc in Hrun.
      destruct c; try discriminate; rewrite Hrun;
        (eexists; split; [reflexivity|]; split; [done|]; simpl;
         by rewrite lookup_insert_eq).
Qed.

Lemma C9_seeding_witness :
  exists w',
    getStructValueState Examples.exFolder 5 0
      (Examples.start Examples.gStructCall) = Ok (InStructValueState 5 0, w')
    /\ ir w' = ir (Examples.start Examples.gStructCall)
    /\ StructValueState (solver w') !! (5%positive, 0) = Some undefined.
Proof.
  destruct (C9_seeding Examples.exFolder (Examples.start Examples.gStructCall)
              5%positive) as [_ Hstruct].
  destruct (Hstruct [Examples.i32] 0 eq_refl ltac:(simpl; lia) eq_refl)
    as (_ & _ & Hundef & _).
  apply Hundef. reflexivity.
Defined.

(** C9, as stated, fails: the fields of an [undef] constant of struct type,
    which is neither a struct literal nor the zero aggregate, are seeded to
    [undefined], not to [overdefined]. *)
Lemma C9_counterexample :
  ~ (forall (lib : Folder) (w : World) (V : Value) (i : nat) elts c,
       valueType (ir w) V = StructTy elts -> i < length elts ->
       StructValueState (solver w) !! (V, i) = None ->
       asConstant (ir w) V = Some c ->
       (forall ops, c <> ConstantStruct ops) -> c <> ConstantAggregateZero ->
       exists w', getStructValueState lib V i w = Ok (InStructValueState V i, w')
         /\ StructValueState (solver w') !! (V, i) = Some overdefined).
Proof.
  intros H.
  destruct (H Examples.exFolder (Examples.start Examples.gStructCall)
              5%positive 0 [Examples.i32] UndefValue)
    as (w' & Hrun & Hl); try done.
  - simpl. lia.
  - vm_compute in Hrun. injection Hrun as <-. vm_compute in Hl. discriminate.
Qed.

(** ** Lookups leave the lattice values as they are *)

Lemma lookedUp_refl w : lookedUp w w.
Proof.
  split; [done| |by left].
  by destruct (solver w).
Qed.

Lemma lookedUp_trans w1 w2 w3 : lookedUp w1 w2 -> lookedUp w2 w3 -> lookedUp w1 w3.
Proof.
  intros [Hi1 Hs1 He1] [Hi2 Hs2 He2]. split.
  - congruence.
  - rewrite Hs2. rewrite Hs1 at 1. by destruct (solver w1).
  - intros V. destruct (He1 V) as [E1|[E1 E1']], (He2 V) as [E2|[E2 E2']];
      rewrite ?Hi1 in *; try (left; congruence); try (right; split; congruence).
Qed.

Lemma lookedUp_touch V w : lookedUp w (touch V w).
Proof.
  unfold touch. destruct (ValueState (solver w) !! V) eqn:E.
  - apply lookedUp_refl.
  - split; simpl; [done| |].
    + by destruct (solver w).
    + intros V'. destruct (decide (V' = V)) as [->|Hne].
      * right. by rewrite lookup_insert_eq.
      * left. by rewrite lookup_insert_ne.
Qed.

Lemma lookedUp_peek w w' V :
  lookedUp w w' -> peekValueState w' V = peekValueState w V.
Proof.
  intros [Hi Hs He]. unfold peekValueState. rewrite Hi.
  destruct (He V) as [->|[-> ->]]; done.
Qed.

Lemma lookedUp_BBExecutable w w' :
  lookedUp w w' -> BBExecutable (solver w') = BBExecutable (solver w).
Proof. intros [_ Hs _]. rewrite Hs. done. Qed.

Lemma lookedUp_edgeFeasible w w' From To :
  lookedUp w w' -> edgeFeasible w' From To = edgeFeasible w From To.
Proof.
  intros H. unfold edgeFeasible.
  rewrite (lookedUp_BBExecutable _ _ H), (lu_ir _ _ H).
  destruct (getTerminator (ir w) From) as [[TI []]|]; try done;
    by rewrite (lookedUp_peek _ _ _ H).
Qed.

Lemma lookedUp_phiContributions w w' parent incoming :
  lookedUp w w' ->
  phiContributions w' parent incoming = phiContributions w parent incoming.
Proof.
  intros H. unfold phiContributions.
  induction incoming as [|[V BB] rest IH]; [done|].
  rewrite !filter_cons. cbn [fst snd].
  rewrite (lookedUp_peek _ _ _ H), (lookedUp_edgeFeasible _ _ _ _ H).
  case_decide; [|exact IH].
  rewrite !fmap_cons. cbn [fst snd].
  by rewrite (lookedUp_peek _ _ _ H), IH.
Qed.

Lemma lookedUp_entry w w' V lv :
  lookedUp w w' -> ValueState (solver w) !! V = Some lv ->
  ValueState (solver w') !! V = Some lv.
Proof. intros [_ _ He] Hl. destruct (He V) as [->|[? _]]; congruence. Qed.

Lemma getValueStateCopy_run V w :
  isStructTy (valueType (ir w) V) = false ->
  getValueStateCopy V w = Ok (peekValueState w V, touch V w).
Proof.
  intros Hty. unfold getValueStateCopy, peekValueState, touch.
  destruct (ValueState (solver w) !! V) as [lv|] eqn:E.
  - rewrite (bind_ok _ _ _ _ _ (getValueState_present w V lv Hty E)).
    unfold gets, loadLV. simpl. by rewrite E.
  - rewrite (bind_ok _ _ _ _ _ (getValueState_absent w V Hty E)).
    unfold gets, loadLV. simpl. by rewrite lookup_insert_eq.
Qed.

Lemma LV_getConstantInt_run lv w :
  LV_getConstantInt lv w = Ok (constantIntOf (ir w) lv, w).
Proof. by destruct lv. Qed.

(** ** Feasible successors *)

Section FeasibleSuccessors.
Variables (w : World) (TI : Value) (parent : BasicBlock).

Lemma getFeasibleSuccessors_condbr cond ifTrue ifFalse Succs :
  asInstruction (ir w) TI = Some (parent, ICondBr cond ifTrue ifFalse) ->
  isStructTy (valueType (ir w) cond) = false ->
  getFeasibleSuccessors TI Succs w
  = Ok (let st := peekValueState w cond in
        let S2 := resize 2 Succs in
        match constantIntOf (ir w) st with
        | None => if LV.isUndefined st then S2
                  else <[0 := true]> (<[1 := true]> S2)
        | Some CI => <[(if CI_isZero (ir w) CI then 1 else 0) := true]> S2
        end, touch cond w).
Proof using Type.
  intros HI Hty. unfold getFeasibleSuccessors.
  unfold bind at 1. unfold getIR at 1. rewrite HI.
  rewrite (bind_ok _ _ _ _ _ (getValueStateCopy_run cond w Hty)).
  rewrite (bind_ok _ _ _ _ _ (LV_getConstantInt_run _ _)).
  assert (Hi : ir (touch cond w) = ir w) by apply lookedUp_touch.
  rewrite Hi. simpl.
  destruct (constantIntOf (ir w) (peekValueState w cond)).
  - unfold bind, getIR, ret. by rewrite Hi.
  - by destruct (LV.isUndefined (peekValueState w cond)).
Qed.

Lemma getFeasibleSuccessors_switch cond defaultDest cases Succs :
  asInstruction (ir w) TI = Some (parent, ISwitch cond defaultDest cases) ->
  isStructTy (valueType (ir w) cond) = false ->
  getFeasibleSuccessors TI Succs w
  = Ok (let st := peekValueState w cond in
        let Sn := resize (S (length cases)) Succs in
        match constantIntOf (ir w) st with
        | None => if LV.isUndefined st then Sn
                  else replicate (S (length cases)) true
        | Some CI => <[findCaseValue cases CI 1 := true]> Sn
        end, touch cond w).
Proof using Type.
  intros HI Hty. unfold getFeasibleSuccessors.
  unfold bind at 1. unfold getIR at 1. rewrite HI.
  rewrite (bind_ok _ _ _ _ _ (getValueStateCopy_run cond w Hty)).
  rewrite (bind_ok _ _ _ _ _ (LV_getConstantInt_run _ _)).
  assert (Hi : ir (touch cond w) = ir w) by apply lookedUp_touch.
  rewrite Hi. simpl. rewrite length_fmap.
  destruct (constantIntOf (ir w) (peekValueState w cond)); [done|].
  by destruct (LV.isUndefined (peekValueState w cond)).
Qed.

End FeasibleSuccessors.

Lemma findCaseValue_spec cases C i :
  (findCaseValue cases C i = 0 /\ C ∉ cases.*1)
  \/ (exists j, findCaseValue cases C i = i + j
                /\ cases.*1 !! j = Some C
                /\ C ∉ take j cases.*1)
  \/ (i = 0 /\ exists dest rest, cases = (C, dest) :: rest).
Proof.
  revert i. induction cases as [|[v d] rest IH]; intros i; simpl.
  - left. split; [done|]. apply not_elem_of_nil.
  - case_decide as Hv.
    + subst v. destruct i.
      * right. right. eauto.
      * right. left. exists 0. rewrite Nat.add_0_r. split; [done|].
        split; [done|]. simpl. apply not_elem_of_nil.
    + destruct (IH (S i)) as [[H0 Hn]|[(j & Hj & Hl & Ht)|[Hi _]]].
      * left. split; [done|]. rewrite not_elem_of_cons. auto.
      * right. left. exists (S j). split; [lia|]. split; [done|].
        simpl. rewrite not_elem_of_cons. auto.
      * discriminate.
Qed.

(** C5 (as amended): the feasible successors of a terminator.  An
    unconditional branch has its successor feasible.  For a conditional branch
    and for a switch, a condition whose lattice value is an integer constant
    selects one successor (the true or false target by the constant being
    non-zero or zero; the first case with that value, or the default when no
    case has it); an [overdefined] condition, and a constant condition that is
    not an integer constant, make all successors feasible; an [undefined]
    condition makes none feasible. *)
Theorem C5_getFeasibleSuccessors (w : World) (TI : Value) (parent : BasicBlock) :
  (forall dest,
     asInstruction (ir w) TI = Some (parent, IBr dest) ->
     getFeasibleSuccessors TI [] w = Ok ([true], w))
  /\ (forall cond ifTrue ifFalse,
        asInstruction (ir w) TI = Some (parent, ICondBr cond ifTrue ifFalse) ->
        isStructTy (valueType (ir w) cond) = false ->
        let st := peekValueState w cond in
        exists Succs,
          getFeasibleSuccessors TI [] w = Ok (Succs, touch cond w)
          /\ (forall CI, constantIntOf (ir w) st = Some CI ->
                Succs = if CI_isZero (ir w) CI then [false; true]
                        else [true; false])
          /\ (st = overdefined -> Succs = [true; true])
          /\ (st = undefined -> Succs = [false; false])
          /\ (LV.isConstant st = true -> constantIntOf (ir w) st = None ->
              Succs = [true; true]))
  /\ (forall cond defaultDest cases,
        asInstruction (ir w) TI = Some (parent, ISwitch cond defaultDest cases) ->
        isStructTy (valueType (ir w) cond) = false ->
        let st := peekValueState w cond in
        let n := S (length cases) in
        exists Succs,
          getFeasibleSuccessors TI [] w = Ok (Succs, touch cond w)
          /\ (forall CI, constantIntOf (ir w) st = Some CI ->
                Succs = <[findCaseValue cases CI 1 := true]> (replicate n false))
          /\ (st = overdefined -> Succs = replicate n true)
          /\ (st = undefined -> Succs = replicate n false)
          /\ (LV.isConstant st = true -> constantIntOf (ir w) st = None ->
              Succs = replicate n true)).
Proof.
  repeat split.
  - intros dest HI. unfold getFeasibleSuccessors, bind, getIR. by rewrite HI.
  - intros cond t f HI Hty st.
    eexists. split; [by eapply getFeasibleSuccessors_condbr|].
    subst st. cbv zeta.
    generalize (peekValueState w cond) as st. intros st. repeat split.
    + intros CI ->. by destruct (CI_isZero (ir w) CI).
    + by intros ->.
    + by intros ->.
    + intros Hc ->. by destruct st.
  - intros cond d cases HI Hty st n.
    eexists. split; [by eapply getFeasibleSuccessors_switch|].
    subst st. cbv zeta.
    generalize (peekValueState w cond) as st. intros st. unfold resize. simpl.
    repeat split.
    + by intros CI ->.
    + by intros ->.
    + by intros ->.
    + intros Hc ->. by destruct st.
Qed.

Lemma C5_getFeasibleSuccessors_witness :
  getFeasibleSuccessors 10 []
    (Examples.start (Examples.gJoin 1001 1002)) = Ok ([false; false],
      touch 300 (Examples.start (Examples.gJoin 1001 1002))).
Proof.
  destruct (C5_getFeasibleSuccessors
              (Examples.start (Examples.gJoin 1001 1002)) 10 100)
    as (_ & Hbr & _).
  destruct (Hbr 300%positive 101%positive 102%positive eq_refl eq_refl)
    as (Succs & Hrun & _ & _ & Hundef & _).
  rewrite Hrun. by rewrite (Hundef eq_refl).
Defined.

(** C5, as stated, fails: a conditional branch whose condition holds a
    constant that is not an integer constant (here a constant expression) has
    both successors feasible, not exactly one. *)
Lemma C5_counterexample :
  ~ (forall (w : World) (TI : Value) parent cond ifTrue ifFalse c,
       asInstruction (ir w) TI = Some (parent, ICondBr cond ifTrue ifFalse) ->
       isStructTy (valueType (ir w) cond) = false ->
       peekValueState w cond = constant c ->
       exists Succs w',
         getFeasibleSuccessors TI [] w = Ok (Succs, w')
         /\ (Succs = [true; false] \/ Succs = [false; true])).
Proof.
  intros H.
  destruct (H (Examples.start Examples.gBranchOnConstExpr) 10%positive
              100%positive 6%positive 101%positive 102%positive 6%positive
              eq_refl eq_refl eq_refl) as (Succs & w' & Hrun & Hs).
  vm_compute in Hrun. injection Hrun as <- _.
  destruct Hs; discriminate.
Qed.

(** ** Edge feasibility *)

Lemma isEdgeFeasible_run w From To :
  To ∈ BBExecutable (solver w) ->
  (From ∈ BBExecutable (solver w) -> edgeCheckable (ir w) From) ->
  exists w', isEdgeFeasible From To w = Ok (edgeFeasible w From To, w')
             /\ lookedUp w w'.
Proof.
  intros HTo Hchk. unfold isEdgeFeasible, edgeFeasible.
  unfold bind at 1. unfold gets at 1.
  unfold bind at 1. unfold assert. rewrite bool_decide_true by done.
  unfold ret at 1.
  destruct (bool_decide (From ∈ BBExecutable (solver w))) eqn:HFrom; simpl.
  2:{ exists w. split; [done|apply lookedUp_refl]. }
  apply bool_decide_eq_true in HFrom. specialize (Hchk HFrom).
  unfold edgeCheckable in Hchk. unfold bind at 1. unfold getIR at 1.
  destruct (getTerminator (ir w) From) as [[TI k]|]; [|done].
  destruct k; try done.
  - exists w. split; [done|apply lookedUp_refl].
  - rewrite (bind_ok _ _ _ _ _ (getValueStateCopy_run cond w Hchk)).
    rewrite (bind_ok _ _ _ _ _ (LV_getConstantInt_run _ _)).
    assert (Hi : ir (touch cond w) = ir w) by apply lookedUp_touch.
    rewrite Hi. exists (touch cond w). split; [|apply lookedUp_touch].
    destruct (constantIntOf (ir w) (peekValueState w cond)); [|done].
    unfold bind, getIR, ret. by rewrite Hi.
  - rewrite (bind_ok _ _ _ _ _ (getValueStateCopy_run cond w Hchk)).
    rewrite (bind_ok _ _ _ _ _ (LV_getConstantInt_run _ _)).
    assert (Hi : ir (touch cond w) = ir w) by apply lookedUp_touch.
    rewrite Hi. exists (touch cond w). split; [|apply lookedUp_touch].
    destruct (constantIntOf (ir w) (peekValueState w cond)); [|done].
    by destruct (filter _ cases) as [|[]].
  - exists w. split; [done|apply lookedUp_refl].
  - exists w. split; [done|apply lookedUp_refl].
Qed.

(** ** Marking a value *)

Lemma lookup_orInsertDefault `{Countable K} (k : K) (m : gmap K LatticeVal) :
  orInsertDefault k m !! k = Some (default undefined (m !! k)).
Proof.
  unfold orInsertDefault. destruct (m !! k) eqn:E; simpl; [done|].
  by rewrite lookup_insert_eq.
Qed.

Lemma lookup_orInsertDefault_ne `{Countable K} (k j : K) (m : gmap K LatticeVal) :
  k <> j -> orInsertDefault k m !! j = m !! j.
Proof.
  intros Hne. unfold orInsertDefault. destruct (m !! k); [done|].
  by rewrite lookup_insert_ne.
Qed.

Lemma markOverdefined_run V w :
  isStructTy (valueType (ir w) V) = false ->
  exists w', markOverdefined V w = Ok (tt, w')
             /\ ir w' = ir w
             /\ ValueState (solver w') !! V = Some overdefined.
Proof.
  intros Hty. unfold markOverdefined. mrun. rewrite Hty. simpl. mrun.
  set (w1 := {| ir := ir w;
                solver := set_ValueState (orInsertDefault V) (solver w) |}).
  assert (Hv : is_Some (lookupLV (InValueState V) (solver w1))).
  { simpl. rewrite lookup_orInsertDefault. eauto. }
  destruct (decide (loadLV (InValueState V) (solver w1) = overdefined)) as [E|E].
  - rewrite markOverdefined_at_noop by done. exists w1. split; [done|].
    split; [done|]. unfold loadLV in E. simpl in *.
    rewrite lookup_orInsertDefault in *. simpl in E. by rewrite E.
  - rewrite markOverdefined_at_change by done.
    eexists; split; [done|]. split; [done|]. simpl.
    rewrite lookup_alter, decide_True by done.
    by rewrite lookup_orInsertDefault.
Qed.

Lemma markConstant_run V C w :
  isStructTy (valueType (ir w) V) = false ->
  match LV.markConstant (default undefined (ValueState (solver w) !! V)) C with
  | Ok r => exists w', markConstant V C w = Ok (tt, w')
                       /\ ir w' = ir w
                       /\ ValueState (solver w') !! V = Some r.2
  | Err f => markConstant V C w = Err f
  end.
Proof.
  intros Hty. unfold markConstant. mrun. rewrite Hty. simpl. mrun.
  set (w1 := {| ir := ir w;
                solver := set_ValueState (orInsertDefault V) (solver w) |}).
  assert (Hv : is_Some (lookupLV (InValueState V) (solver w1))).
  { simpl. rewrite lookup_orInsertDefault. eauto. }
  assert (Hl : loadLV (InValueState V) (solver w1)
               = default undefined (ValueState (solver w) !! V)).
  { unfold loadLV. simpl. by rewrite lookup_orInsertDefault. }
  destruct (LV.markConstant _ C) as [[chg lv']|f] eqn:Hmc.
  - destruct chg.
    + destruct (markConstant_at_change (InValueState V) V w1 Hv C lv')
        as (w' & Hrun & Hi & Hld & _); [by rewrite Hl|].
      exists w'. done.
    + assert (lv' = default undefined (ValueState (solver w) !! V)) as ->.
      { destruct (default undefined (ValueState (solver w) !! V));
          simpl in Hmc; repeat case_decide; by simplify_eq. }
      rewrite markConstant_at_noop by (by rewrite Hl).
      exists w1. split; [done|]. split; [done|]. simpl.
      by rewrite lookup_orInsertDefault.
  - unfold markConstant_at, LV_markConstant. mrun.
    rewrite Hl, Hmc. done.
Qed.

(** ** PHI nodes *)

Lemma lookedUp_phiOperandsOk w w' incoming :
  lookedUp w w' -> phiOperandsOk w incoming -> phiOperandsOk w' incoming.
Proof.
  intros H. unfold phiOperandsOk.
  by rewrite (lu_ir _ _ H), (lookedUp_BBExecutable _ _ H).
Qed.

Lemma phiContributions_cons w parent V BB rest :
  phiContributions w parent ((V, BB) :: rest)
  = if LV.isUndefined (peekValueState w V) then phiContributions w parent rest
    else if edgeFeasible w BB parent
         then peekValueState w V :: phiContributions w parent rest
         else phiContributions w parent rest.
Proof.
  unfold phiContributions. rewrite filter_cons. cbn [fst snd].
  destruct (LV.isUndefined (peekValueState w V)) eqn:E1,
           (edgeFeasible w BB parent) eqn:E2;
    case_decide as Hd; try done; destruct Hd; done.
Qed.

Lemma visitPHINode_operands_run PN parent incoming :
  forall w OperandVal,
    isStructTy (valueType (ir w) PN) = false ->
    parent ∈ BBExecutable (solver w) ->
    phiOperandsOk w incoming ->
    exists w1,
      lookedUp w w1
      /\ visitPHINode_operands PN parent incoming OperandVal w
         = match phiScan (phiContributions w parent incoming) OperandVal with
           | None => markOverdefined PN w1
           | Some (Some C) => markConstant PN C w1
           | Some None => Ok (tt, w1)
           end.
Proof.
  induction incoming as [|[V BB] rest IH]; intros w OV Hty Hpar Hok.
  - exists w. split; [apply lookedUp_refl|]. by destruct OV.
  - apply Forall_cons in Hok as [[HtyV Hchk] Hrest]. cbn [fst snd] in *.
    cbn [visitPHINode_operands].
    rewrite (bind_ok _ _ _ _ _ (getValueStateCopy_run V w HtyV)).
    rewrite phiContributions_cons.
    pose proof (lookedUp_touch V w) as Ht.
    destruct (LV.isUndefined (peekValueState w V)) eqn:Hund.
    { destruct (IH (touch V w) OV) as (w1 & Hlu & Hrun).
      - by rewrite (lu_ir _ _ Ht).
      - by rewrite (lookedUp_BBExecutable _ _ Ht).
      - by eapply lookedUp_phiOperandsOk.
      - exists w1. split; [by eapply lookedUp_trans|].
        by rewrite Hrun, (lookedUp_phiContributions _ _ _ _ Ht). }
    destruct (isEdgeFeasible_run (touch V w) BB parent) as (w2 & Hef & Hlu2).
    { by rewrite (lookedUp_BBExecutable _ _ Ht). }
    { by rewrite (lookedUp_BBExecutable _ _ Ht), (lu_ir _ _ Ht). }
    rewrite (bind_ok _ _ _ _ _ Hef).
    rewrite (lookedUp_edgeFeasible _ _ _ _ Ht).
    pose proof (lookedUp_trans _ _ _ Ht Hlu2) as Hlu.
    assert (Hnext : forall OV',
      exists w1, lookedUp w w1
        /\ visitPHINode_operands PN parent rest OV' w2
           = match phiScan (phiContributions w parent rest) OV' with
             | None => markOverdefined PN w1
             | Some (Some C) => markConstant PN C w1
             | Some None => Ok (tt, w1)
             end).
    { intros OV'. destruct (IH w2 OV') as (w1 & Hlu1 & Hrun).
      - by rewrite (lu_ir _ _ Hlu).
      - by rewrite (lookedUp_BBExecutable _ _ Hlu).
      - by eapply lookedUp_phiOperandsOk.
      - exists w1. split; [by eapply lookedUp_trans|].
        by rewrite Hrun, (lookedUp_phiContributions _ _ _ _ Hlu). }
    destruct (edgeFeasible w BB parent); cbn [negb]; [|apply Hnext].
    destruct (peekValueState w V) as [|c|c|] eqn:Hpk; try discriminate;
      cbn [LV.isOverdefined LV.getConstant phiScan]; mrun.
    + destruct OV as [ov|]; [|apply Hnext].
      case_decide; [|apply Hnext]. exists w2. done.
    + destruct OV as [ov|]; [|apply Hnext].
      case_decide; [|apply Hnext]. exists w2. done.
    + exists w2. done.
Qed.

Lemma phiScan_conflict cs :
  forall OV,
    (overdefined ∈ cs
     \/ (exists lv c ov, lv ∈ cs /\ LV.getConstant lv = Ok c
                         /\ OV = Some ov /\ c <> ov)
     \/ conflicting cs) ->
    phiScan cs OV = None.
Proof.
  induction cs as [|lv rest IH]; intros OV H.
  - exfalso. destruct H as [H|[(lv & c & ov & H & _)|(lv1 & lv2 & c1 & c2 & H & _)]];
      by apply elem_of_nil in H.
  - assert (Hconst : forall c, LV.getConstant lv = Ok c ->
              phiScan rest (Some c) = None
              \/ (forall lv' c', lv' ∈ rest -> LV.getConstant lv' = Ok c' -> c' = c)).
    { intros c Hc.
      destruct (decide (Exists (fun lv' => LV.isConstant lv' = true
                                          /\ LV.getConstant lv' <> Ok c) rest))
        as [Hex|Hnex].
      - left. apply IH. right. left.
        apply Exists_exists in Hex as (lv' & Hin & Hk & Hne).
        destruct lv' as [|c'|c'|] eqn:Elv; try discriminate;
          exists lv', c', c; subst lv'; repeat split; try done;
          simpl in Hne; congruence.
      - right. intros lv' c' Hin Hc'.
        destruct (decide (c' = c)); [done|].
        exfalso. apply Hnex. apply Exists_exists. exists lv'.
        split; [done|]. destruct lv'; simpl in *; simplify_eq;
          split; congruence. }
    destruct lv as [|c|c|]; cbn [phiScan]; [| | |done].
    + apply IH.
      destruct H as [H|[(lv & c & ov & H & Hc & Hov & Hne)
                       |(lv1 & lv2 & c1 & c2 & H1 & H2 & Hc1 & Hc2 & Hne)]].
      * apply elem_of_cons in H as [H|H]; [done|auto].
      * apply elem_of_cons in H as [->|H]; [simpl in *; discriminate|].
        right. left. by exists lv, c, ov.
      * apply elem_of_cons in H1 as [->|H1]; [simpl in *; discriminate|].
        apply elem_of_cons in H2 as [->|H2]; [simpl in *; discriminate|].
        right. right. by exists lv1, lv2, c1, c2.
    + destruct (Hconst c eq_refl) as [Hn|Hall].
      { destruct OV as [ov|]; [|done].
        destruct (decide (c = ov)) as [->|Hd].
        - by rewrite decide_False by (intros E; by apply E).
        - by rewrite decide_True. }
      destruct H as [H|[(lv & c' & ov & H & Hc & Hov & Hne)
                       |(lv1 & lv2 & c1 & c2 & H1 & H2 & Hc1 & Hc2 & Hne)]].
      * apply elem_of_cons in H as [H|H]; [done|].
        destruct OV as [ov|]; [case_decide; [done|]|]; apply IH; auto.
      * subst OV. case_decide as Hd; [done|].
        apply elem_of_cons in H as [->|H].
        -- simpl in Hc. by simplify_eq.
        -- apply IH. right. left. by exists lv, c', ov.
      * exfalso.
        apply elem_of_cons in H1 as [->|H1]; apply elem_of_cons in H2 as [->|H2];
          simpl in *; simplify_eq.
        -- apply Hne. symmetry. by eapply Hall.
        -- apply Hne. by eapply Hall.
        -- apply Hne. by rewrite (Hall _ _ H1 Hc1), (Hall _ _ H2 Hc2).
    + destruct (Hconst c eq_refl) as [Hn|Hall].
      { destruct OV as [ov|]; [|done].
        destruct (decide (c = ov)) as [->|Hd].
        - by rewrite decide_False by (intros E; by apply E).
        - by rewrite decide_True. }
      destruct H as [H|[(lv & c' & ov & H & Hc & Hov & Hne)
                       |(lv1 & lv2 & c1 & c2 & H1 & H2 & Hc1 & Hc2 & Hne)]].
      * apply elem_of_cons in H as [H|H]; [done|].
        destruct OV as [ov|]; [case_decide; [done|]|]; apply IH; auto.
      * subst OV. case_decide as Hd; [done|].
        apply elem_of_cons in H as [->|H].
        -- simpl in Hc. by simplify_eq.
        -- apply IH. right. left. by exists lv, c', ov.
      * exfalso.
        apply elem_of_cons in H1 as [->|H1]; apply elem_of_cons in H2 as [->|H2];
          simpl in *; simplify_eq.
        -- apply Hne. symmetry. by eapply Hall.
        -- apply Hne. by eapply Hall.
        -- apply Hne. by rewrite (Hall _ _ H1 Hc1), (Hall _ _ H2 Hc2).
Qed.

Lemma phiScan_agree cs c :
  Forall (fun lv => LV.getConstant lv = Ok c) cs ->
  phiScan cs (Some c) = Some (Some c).
Proof.
  induction 1 as [|lv rest Hlv _ IH]; [done|].
  destruct lv; simpl in *; simplify_eq.
  - by rewrite decide_False by (intros E; by apply E).
  - by rewrite decide_False by (intros E; by apply E).
Qed.

Lemma phiScan_agree_first cs c :
  cs <> [] ->
  Forall (fun lv => LV.getConstant lv = Ok c) cs ->
  phiScan cs None = Some (Some c).
Proof.
  intros Hne Hall. destruct Hall as [|lv rest Hlv Hrest]; [done|].
  destruct lv; simpl in *; simplify_eq; by apply phiScan_agree.
Qed.

Lemma touch_lookup V w :
  ValueState (solver (touch V w)) !! V = Some (peekValueState w V).
Proof.
  unfold touch, peekValueState.
  destruct (ValueState (solver w) !! V) eqn:E; simpl; [done|].
  by rewrite lookup_insert_eq.
Qed.

(** C1 (as amended): for a PHI node that is not of struct type, has at most
    64 incoming values and is not [overdefined], [visitPHINode] merges the
    lattice values of the operands that are not [undefined] and arrive along
    feasible edges.  If one of them is [overdefined] or two carry different
    constants, the PHI node becomes [overdefined].  If there is at least one
    and all carry the same constant [c], [markConstant(c)] is applied to the
    PHI node: from [undefined] it becomes [constant c].  If there is none, its
    state is left as it is. *)
Theorem C1_visitPHINode (lib : Folder) (visit : Value -> M unit) (w : World)
    (PN : Value)
    (parent : BasicBlock) (incoming : list (Value * BasicBlock))
    (HPN : asInstruction (ir w) PN = Some (parent, IPHI incoming))
    (Hty : isStructTy (valueType (ir w) PN) = false)
    (Hfan : length incoming <= 64)
    (Hst : peekValueState w PN <> overdefined)
    (Hpar : parent ∈ BBExecutable (solver w))
    (Hok : phiOperandsOk w incoming) :
  let cs := phiContributions w parent incoming in
  let after lv :=
    exists w', visitPHINode lib visit PN w = Ok (tt, w')
               /\ ir w' = ir w
               /\ ValueState (solver w') !! PN = Some lv in
  (overdefined ∈ cs \/ conflicting cs -> after overdefined)
  /\ (forall c, cs <> [] -> Forall (fun lv => LV.getConstant lv = Ok c) cs ->
        match LV.markConstant (peekValueState w PN) c with
        | Ok r => after r.2
        | Err f => visitPHINode lib visit PN w = Err f
        end)
  /\ (forall c, peekValueState w PN = undefined -> cs <> [] ->
        Forall (fun lv => LV.getConstant lv = Ok c) cs -> after (constant c))
  /\ (cs = [] -> after (peekValueState w PN)).
Proof.
  intros cs after.
  pose proof (lookedUp_touch PN w) as Ht.
  destruct (visitPHINode_operands_run PN parent incoming (touch PN w) None)
    as (w1 & Hlu1 & Hloop).
  { by rewrite (lu_ir _ _ Ht). }
  { by rewrite (lookedUp_BBExecutable _ _ Ht). }
  { by eapply lookedUp_phiOperandsOk. }
  rewrite (lookedUp_phiContributions _ _ _ _ Ht) in Hloop. fold cs in Hloop.
  pose proof (lookedUp_trans _ _ _ Ht Hlu1) as Hlu.
  assert (Hentry : ValueState (solver w1) !! PN = Some (peekValueState w PN)).
  { eapply (lookedUp_entry (touch PN w)); [done|]. apply touch_lookup. }
  assert (Hty1 : isStructTy (valueType (ir w1) PN) = false).
  { by rewrite (lu_ir _ _ Hlu). }
  assert (Hrun : visitPHINode lib visit PN w
                 = match phiScan cs None with
                   | None => markOverdefined PN w1
                   | Some (Some C) => markConstant PN C w1
                   | Some None => Ok (tt, w1)
                   end).
  { unfold visitPHINode. mrun. rewrite Hty.
    rewrite (bind_ok _ _ _ _ _ (getValueStateCopy_run PN w Hty)).
    destruct (peekValueState w PN) eqn:Hpk; try done; cbn [LV.isOverdefined];
      mrun; rewrite (lu_ir _ _ Ht), HPN;
      rewrite bool_decide_false by lia; done. }
  assert (Hagree : forall c, cs <> [] ->
            Forall (fun lv => LV.getConstant lv = Ok c) cs ->
            match LV.markConstant (peekValueState w PN) c with
            | Ok r => after r.2
            | Err f => visitPHINode lib visit PN w = Err f
            end).
  { intros c Hne Hall. unfold after.
    rewrite Hrun, (phiScan_agree_first cs c Hne Hall).
    pose proof (markConstant_run PN c w1 Hty1) as Hmc.
    rewrite Hentry in Hmc. simpl in Hmc.
    destruct (LV.markConstant (peekValueState w PN) c) as [r|f]; [|done].
    destruct Hmc as (w' & Hw' & Hi & Hl). exists w'.
    split; [done|]. split; [|done]. by rewrite Hi, (lu_ir _ _ Hlu). }
  repeat split.
  - intros Hc. unfold after. rewrite Hrun, phiScan_conflict by tauto.
    destruct (markOverdefined_run PN w1 Hty1) as (w' & Hw' & Hi & Hl).
    exists w'. split; [done|]. split; [|done]. by rewrite Hi, (lu_ir _ _ Hlu).
  - exact Hagree.
  - intros c Hund Hne Hall. specialize (Hagree c Hne Hall).
    by rewrite Hund in Hagree.
  - intros Hnil. unfold after. rewrite Hrun, Hnil. exists w1.
    split; [done|]. split; [apply Hlu|done].
Qed.

Lemma C1_visitPHINode_witness :
  exists w',
    visitPHINode Examples.exFolder (visit Examples.exFolder 3) 13
      Examples.wLoopPhi = Ok (tt, w')
    /\ ir w' = ir Examples.wLoopPhi
    /\ ValueState (solver w') !! 13%positive = Some overdefined.
Proof.
  assert (HPN : asInstruction (ir Examples.wLoopPhi) 13
                = Some (101%positive, IPHI [(3, 100); (2, 102)]%positive))
    by (vm_compute; reflexivity).
  assert (Hok : phiOperandsOk Examples.wLoopPhi [(3, 100); (2, 102)]%positive).
  { repeat constructor; intros _; vm_compute; done. }
  assert (Hst : peekValueState Examples.wLoopPhi 13 <> overdefined)
    by (vm_compute; discriminate).
  assert (Hpar : 101%positive ∈ BBExecutable (solver Examples.wLoopPhi))
    by (apply (bool_decide_unpack _); vm_compute; exact I).
  assert (Hfan : length [(3, 100); (2, 102)]%positive <= 64) by (simpl; lia).
  destruct (C1_visitPHINode Examples.exFolder (visit Examples.exFolder 3)
              Examples.wLoopPhi 13%positive 101%positive
              [(3, 100); (2, 102)]%positive HPN eq_refl Hfan Hst Hpar Hok)
    as (_ & Hagree & _).
  specialize (Hagree 2%positive).
  assert (Hcs : phiContributions Examples.wLoopPhi 101
                  [(3, 100); (2, 102)]%positive = [constant 2])
    by (vm_compute; reflexivity).
  rewrite Hcs in Hagree.
  assert (Hpk : peekValueState Examples.wLoopPhi 13 = forcedconstant 1)
    by (vm_compute; reflexivity).
  rewrite Hpk in Hagree. simpl in Hagree. apply Hagree; [done|].
  by repeat constructor.
Defined.

(** C1, as stated, fails: a PHI node that [ResolvedUndefsIn] has forced to
    [false] (it is a branch condition) and that then receives the constant
    [true] along its only feasible edge with a defined operand becomes
    [overdefined], not [constant true]. *)
Lemma C1_counterexample :
  ~ (forall (lib : Folder) (visit : Value -> M unit) (w : World) (PN : Value)
            (parent : BasicBlock) (incoming : list (Value * BasicBlock)) c,
       asInstruction (ir w) PN = Some (parent, IPHI incoming) ->
       isStructTy (valueType (ir w) PN) = false ->
       length incoming <= 64 ->
       peekValueState w PN <> overdefined ->
       parent ∈ BBExecutable (solver w) ->
       phiOperandsOk w incoming ->
       phiContributions w parent incoming <> [] ->
       Forall (fun lv => LV.getConstant lv = Ok c)
              (phiContributions w parent incoming) ->
       exists w', visitPHINode lib visit PN w = Ok (tt, w')
                  /\ ValueState (solver w') !! PN = Some (constant c)).
Proof.
  intros H.
  destruct (H Examples.exFolder (visit Examples.exFolder 3)
              Examples.wLoopPhi 13%positive
              101%positive [(3, 100); (2, 102)]%positive 2%positive)
    as (w' & Hrun & Hl).
  - vm_compute. reflexivity.
  - reflexivity.
  - simpl. lia.
  - vm_compute. discriminate.
  - apply (bool_decide_unpack _). vm_compute. exact I.
  - repeat constructor; intros _; vm_compute; done.
  - vm_compute. discriminate.
  - assert (Hcs : phiContributions Examples.wLoopPhi 101
                    [(3, 100); (2, 102)]%positive = [constant 2])
      by (vm_compute; reflexivity).
    rewrite Hcs. by repeat constructor.
  - vm_compute in Hrun. injection Hrun as <-. vm_compute in Hl.
    discriminate.
Qed.

(** ** Binary AND / OR *)

Lemma lookedUp_default w w' V :
  lookedUp w w' -> seedOf (ir w) V = undefined ->
  default undefined (ValueState (solver w') !! V) = peekValueState w V.
Proof.
  intros H Hseed. unfold peekValueState. rewrite Hseed.
  destruct (lu_entries _ _ H V) as [->|[-> ->]]; [done|]. by rewrite Hseed.
Qed.

Lemma seedOf_instruction g V p k :
  asInstruction g V = Some (p, k) -> seedOf g V = undefined.
Proof.
  unfold asInstruction, seedOf, asConstant.
  by destruct (valueKind g V).
Qed.

Lemma markConstant_at_run IV V C w :
  is_Some (lookupLV IV (solver w)) ->
  match LV.markConstant (loadLV IV (solver w)) C with
  | Ok r => exists w', markConstant_at IV V C w = Ok (tt, w')
                       /\ ir w' = ir w
                       /\ lookupLV IV (solver w') = Some r.2
  | Err f => markConstant_at IV V C w = Err f
  end.
Proof.
  intros Hv.
  destruct (LV.markConstant (loadLV IV (solver w)) C) as [[chg lv']|f] eqn:Hmc.
  - destruct chg.
    + destruct (markConstant_at_change IV V w Hv C lv' Hmc)
        as (w' & Hrun & Hi & Hl & _). by exists w'.
    + assert (lv' = loadLV IV (solver w)) as ->.
      { destruct (loadLV IV (solver w)); simpl in Hmc; repeat case_decide;
          by simplify_eq. }
      rewrite markConstant_at_noop by done. exists w. split; [done|].
      split; [done|]. unfold loadLV. destruct Hv as [x ->]. done.
  - unfold markConstant_at, LV_markConstant. mrun. by rewrite Hmc.
Qed.

(** C7 (as amended): for an AND whose one operand is [overdefined] and whose
    other operand holds a null constant, and for an OR whose one operand is
    [overdefined] and whose other operand holds an all-ones integer constant,
    [visitBinaryOperator] applies [markConstant] with that constant to the
    result, unless the result is already [overdefined]: an [undefined] result
    becomes that constant. *)
Theorem C7_visitBinaryOperator (lib : Folder) (w : World) (I : Value)
    (parent : BasicBlock) (op : BinaryOps) (Op0 Op1 : Value)
    (st : LatticeVal) (C : Constant)
    (HI : asInstruction (ir w) I = Some (parent, IBinary op Op0 Op1))
    (Hty0 : isStructTy (valueType (ir w) Op0) = false)
    (Hty1 : isStructTy (valueType (ir w) Op1) = false)
    (Hops : (peekValueState w Op0 = overdefined /\ peekValueState w Op1 = st)
            \/ (peekValueState w Op0 = st /\ peekValueState w Op1 = overdefined))
    (Hst : LV.getConstant st = Ok C)
    (Hkind : (op = And /\ isNullValue (ir w) C = true)
             \/ (op = Or /\ constantIntOf (ir w) st = Some C
                 /\ CI_isAllOnesValue (ir w) C = true))
    (Hiv : peekValueState w I <> overdefined) :
  let after lv :=
    exists w', visitBinaryOperator lib I op Op0 Op1 w = Ok (tt, w')
               /\ ir w' = ir w
               /\ ValueState (solver w') !! I = Some lv in
  match LV.markConstant (peekValueState w I) C with
  | Ok r => after r.2
  | Err f => visitBinaryOperator lib I op Op0 Op1 w = Err f
  end
  /\ (peekValueState w I = undefined -> after (constant C)).
Proof.
  intros after.
  assert (Hgen : match LV.markConstant (peekValueState w I) C with
                 | Ok r => after r.2
                 | Err f => visitBinaryOperator lib I op Op0 Op1 w = Err f
                 end).
  2:{ split; [done|]. intros Hund. by rewrite Hund in Hgen. }
  unfold after.
  pose proof (lookedUp_touch Op0 w) as Ht0.
  pose proof (lookedUp_touch Op1 (touch Op0 w)) as Ht1.
  pose proof (lookedUp_trans _ _ _ Ht0 Ht1) as Ht.
  set (w2 := touch Op1 (touch Op0 w)) in *.
  set (w3 := {| ir := ir w2;
                solver := set_ValueState (orInsertDefault I) (solver w2) |}).
  assert (Hi3 : ir w3 = ir w) by apply Ht.
  assert (Hv : is_Some (lookupLV (InValueState I) (solver w3))).
  { simpl. rewrite lookup_orInsertDefault. eauto. }
  assert (Hl : loadLV (InValueState I) (solver w3) = peekValueState w I).
  { unfold loadLV. simpl. rewrite lookup_orInsertDefault. simpl.
    apply lookedUp_default; [done|]. by eapply seedOf_instruction. }
  assert (Hrun : visitBinaryOperator lib I op Op0 Op1 w
                 = markConstant_at (InValueState I) I C w3).
  { unfold visitBinaryOperator.
    rewrite (bind_ok _ _ _ _ _ (getValueStateCopy_run Op0 w Hty0)).
    rewrite (bind_ok _ _ _ _ _ (getValueStateCopy_run Op1 (touch Op0 w)
               ltac:(by rewrite (lu_ir _ _ Ht0)))).
    rewrite (lookedUp_peek _ _ _ Ht0). mrun. fold w2. fold w3. rewrite Hl.
    destruct (peekValueState w I) eqn:HpI; try done; cbn [LV.isOverdefined];
      destruct Hops as [[-> ->]|[-> ->]], Hkind as [[-> Hn]|(-> & Hci & Hao)];
      destruct st; simpl in Hst; simplify_eq;
      repeat first
        [ progress mrun
        | progress cbn [LV.isConstant LV.isOverdefined LV.isUndefined
                        LV.getConstant andb orb negb]
        | rewrite bool_decide_true by done
        | rewrite bool_decide_false by done
        | rewrite (bind_ok _ _ _ _ _ (LV_getConstantInt_run _ _))
        | rewrite Hi3 | rewrite Hn | rewrite Hci | rewrite Hao ];
      done. }
  pose proof (markConstant_at_run (InValueState I) I C w3 Hv) as Hmc.
  rewrite Hl in Hmc. rewrite Hrun.
  destruct (LV.markConstant (peekValueState w I) C) as [r|f]; [|done].
  destruct Hmc as (w' & Hw' & Hi' & Hl'). exists w'.
  split; [done|]. split; [congruence|done].
Qed.

Lemma C7_visitBinaryOperator_witness :
  exists w',
    visitBinaryOperator Examples.exFolder 10 And 300 1000 Examples.wAndZero
    = Ok (tt, w')
    /\ ir w' = ir Examples.wAndZero
    /\ ValueState (solver w') !! 10%positive = Some (constant 1000).
Proof.
  assert (Hiv : peekValueState Examples.wAndZero 10 <> overdefined)
    by (vm_compute; discriminate).
  apply (C7_visitBinaryOperator Examples.exFolder Examples.wAndZero
           10%positive 100%positive And 300%positive 1000%positive
           (constant 1000) 1000%positive eq_refl eq_refl eq_refl
           (or_introl (conj eq_refl eq_refl)) eq_refl
           (or_introl (conj eq_refl eq_refl)) Hiv).
  reflexivity.
Defined.

(** C7, as stated, fails: an OR that [ResolvedUndefsIn] has forced to
    [false] (it is a branch condition), one operand of which is then found
    [overdefined] and the other [true], becomes [overdefined], not the
    all-ones constant. *)
Lemma C7_counterexample :
  ~ (forall (lib : Folder) (w : World) (I : Value) parent Op0 Op1 C,
       asInstruction (ir w) I = Some (parent, IBinary Or Op0 Op1) ->
       isStructTy (valueType (ir w) Op0) = false ->
       isStructTy (valueType (ir w) Op1) = false ->
       peekValueState w Op0 = overdefined ->
       peekValueState w Op1 = constant C ->
       constantIntOf (ir w) (constant C) = Some C ->
       CI_isAllOnesValue (ir w) C = true ->
       exists w' lv,
         visitBinaryOperator lib I Or Op0 Op1 w = Ok (tt, w')
         /\ ValueState (solver w') !! I = Some lv
         /\ LV.getConstant lv = Ok C).
Proof.
  intros H.
  destruct (H Examples.exFolder Examples.wOrLoop 13%positive 101%positive
              11%positive 12%positive 2%positive)
    as (w' & lv & Hrun & Hl & Hc); try (vm_compute; reflexivity).
  vm_compute in Hrun. injection Hrun as <-. vm_compute in Hl.
  injection Hl as <-. discriminate.
Qed.

(** ** The solver leaves the graph alone and moves lattice values up *)

Lemma entry_le_refl a : entry_le a a.
Proof. destruct a; simpl; [apply LV_le_refl|done]. Qed.

Lemma entry_le_trans a b c : entry_le a b -> entry_le b c -> entry_le a c.
Proof.
  destruct a, b, c; simpl; try done. apply LV_le_trans.
Qed.

Lemma states_le_refl s : states_le s s.
Proof. repeat split; intros; try apply entry_le_refl; done. Qed.

Lemma states_le_trans s1 s2 s3 :
  states_le s1 s2 -> states_le s2 s3 -> states_le s1 s3.
Proof.
  intros (H1 & H1' & Hb1 & Hk1) (H2 & H2' & Hb2 & Hk2).
  repeat split; intros; try (eapply entry_le_trans; eauto); set_solver.
Qed.

Lemma states_le_side s s' :
  ValueState s' = ValueState s -> StructValueState s' = StructValueState s ->
  BBExecutable s ⊆ BBExecutable s' ->
  KnownFeasibleEdges s ⊆ KnownFeasibleEdges s' ->
  states_le s s'.
Proof.
  intros E1 E2 Hb Hk.
  repeat split; intros; rewrite ?E1, ?E2; try apply entry_le_refl; done.
Qed.

Lemma states_le_ValueState f s :
  (forall V, entry_le (ValueState s !! V) (f (ValueState s) !! V)) ->
  states_le s (set_ValueState f s).
Proof. intros H. repeat split; intros; try apply entry_le_refl; done. Qed.

Lemma states_le_StructValueState f s :
  (forall k, entry_le (StructValueState s !! k) (f (StructValueState s) !! k)) ->
  states_le s (set_StructValueState f s).
Proof. intros H. repeat split; intros; try apply entry_le_refl; done. Qed.

Lemma steady_refl w : steady w w.
Proof. split; [done|apply states_le_refl]. Qed.

Lemma steady_trans w1 w2 w3 : steady w1 w2 -> steady w2 w3 -> steady w1 w3.
Proof.
  intros [H1 H1'] [H2 H2']. split; [congruence|by eapply states_le_trans].
Qed.

Lemma entry_le_insert_fresh `{Countable K} (m : gmap K LatticeVal) k lv j :
  m !! k = None -> entry_le (m !! j) (<[k := lv]> m !! j).
Proof.
  intros E. destruct (decide (j = k)) as [->|Hne].
  - by rewrite E.
  - rewrite lookup_insert_ne by done. apply entry_le_refl.
Qed.

Lemma states_le_orInsertDefault V s :
  states_le s (set_ValueState (orInsertDefault V) s).
Proof.
  apply states_le_ValueState. intros k.
  unfold orInsertDefault. destruct (ValueState s !! V) eqn:E.
  - apply entry_le_refl.
  - by apply entry_le_insert_fresh.
Qed.

Lemma states_le_storeLV r lv' s :
  LV.le (loadLV r s) lv' -> states_le s (storeLV r lv' s).
Proof.
  intros Hle. unfold loadLV in Hle.
  destruct r; simpl in *; try (apply states_le_side; done).
  - apply states_le_ValueState. intros k.
    rewrite lookup_alter. case_decide; [subst|apply entry_le_refl].
    by destruct (ValueState s !! k).
  - apply states_le_StructValueState. intros k.
    rewrite lookup_alter. case_decide; [subst|apply entry_le_refl].
    by destruct (StructValueState s !! (V, i)).
Qed.

Section Preserves.
Context {R : World -> World -> Prop}.
Hypothesis Rrefl : forall w, R w w.
Hypothesis Rtrans : forall w1 w2 w3, R w1 w2 -> R w2 w3 -> R w1 w3.

Lemma preserves_ret {A} (a : A) : preserves R (ret a).
Proof using Rrefl. intros w a' w' [= _ <-]. apply Rrefl. Qed.

Lemma preserves_fail {A} f : preserves R (@fail A f).
Proof using Type. intros w a w' [=]. Qed.

Lemma preserves_bind {A B} (m : M A) (k : A -> M B) :
  preserves R m -> (forall a, preserves R (k a)) -> preserves R (bind m k).
Proof using Rtrans.
  intros Hm Hk w b w'' Hrun.
  apply bind_inv in Hrun as (a & w' & H1 & H2).
  eapply Rtrans; [by eapply Hm|by eapply Hk].
Qed.

Lemma preserves_getIR : preserves R getIR.
Proof using Rrefl. intros w a w' [= _ <-]. apply Rrefl. Qed.

Lemma preserves_getSolver : preserves R getSolver.
Proof using Rrefl. intros w a w' [= _ <-]. apply Rrefl. Qed.

Lemma preserves_gets {A} (f : SCCPSolver -> A) : preserves R (gets f).
Proof using Rrefl. intros w a w' [= _ <-]. apply Rrefl. Qed.

Lemma preserves_getType V : preserves R (getType V).
Proof using Rrefl. intros w a w' [= _ <-]. apply Rrefl. Qed.

Lemma preserves_assert b a : preserves R (assert b a).
Proof using Rrefl.
  destruct b; [apply preserves_ret|apply preserves_fail].
Qed.

Lemma preserves_liftRes {A} (r : Res A) : preserves R (liftRes r).
Proof using Rrefl.
  intros w a w'. unfold liftRes. destruct r; intros [=]. subst. apply Rrefl.
Qed.

Lemma preserves_LV_getConstantInt lv : preserves R (LV_getConstantInt lv).
Proof using Rrefl.
  intros w a w'. rewrite LV_getConstantInt_run. intros [= _ <-]. apply Rrefl.
Qed.

Lemma preserves_forEach {A} (l : list A) (body : A -> M unit) :
  (forall x, preserves R (body x)) -> preserves R (forEach l body).
Proof using Rrefl Rtrans.
  intros Hb. induction l as [|x l IH]; simpl.
  - apply preserves_ret.
  - apply preserves_bind; [apply Hb|intros _; apply IH].
Qed.

End Preserves.

Lemma steady_modify (f : SCCPSolver -> SCCPSolver) :
  (forall s, states_le s (f s)) -> preserves steady (modify f).
Proof. intros Hf w a w' [= _ <-]. split; [done|apply Hf]. Qed.

Lemma steady_modify_side (f : SCCPSolver -> SCCPSolver) :
  (forall s, ValueState (f s) = ValueState s
             /\ StructValueState (f s) = StructValueState s
             /\ BBExecutable s ⊆ BBExecutable (f s)
             /\ KnownFeasibleEdges s ⊆ KnownFeasibleEdges (f s)) ->
  preserves steady (modify f).
Proof.
  intros H. apply steady_modify. intros s.
  destruct (H s) as (? & ? & ? & ?). by apply states_le_side.
Qed.

Create HintDb steady.

#[local] Hint Resolve steady_refl steady_trans : steady.

(** One step of a proof that a computation is [steady]: the computation is
    taken apart along its binds and case distinctions. *)
Ltac steady_step :=
  lazymatch goal with
  | |- preserves _ (bind _ _) =>
      apply (preserves_bind steady_trans); [|intros ?]
  | |- preserves _ (ret _) => apply (preserves_ret steady_refl)
  | |- preserves _ (fail _) => apply preserves_fail
  | |- preserves _ (assert _ _) => apply (preserves_assert steady_refl)
  | |- preserves _ (liftRes _) => apply (preserves_liftRes steady_refl)
  | |- preserves _ getIR => apply (preserves_getIR steady_refl)
  | |- preserves _ getSolver => apply (preserves_getSolver steady_refl)
  | |- preserves _ (gets _) => apply (preserves_gets steady_refl)
  | |- preserves _ (getType _) => apply (preserves_getType steady_refl)
  | |- preserves _ (LV_getConstantInt _) =>
      apply (preserves_LV_getConstantInt steady_refl)
  | |- preserves _ (modify (set_ValueState (orInsertDefault _))) =>
      apply steady_modify; intros ?; apply states_le_orInsertDefault
  | |- preserves _ (modify _) =>
      apply steady_modify_side; intros []; simpl;
      repeat split; solve [reflexivity | set_solver]
  | |- preserves _ (forEach _ _) =>
      apply (preserves_forEach steady_refl steady_trans); intros ?
  | |- preserves _ (if ?b then _ else _) => destruct b
  | |- preserves _ (match ?x with _ => _ end) => destruct x
  | |- preserves _ (let _ := _ in _) => cbv zeta
  | |- _ => solve [eauto with steady]
  end.

Ltac steady_auto := repeat steady_step.

Lemma steady_MarkBlockExecutable BB : preserves steady (MarkBlockExecutable BB).
Proof. unfold MarkBlockExecutable. steady_auto. Qed.

Lemma steady_LV_markOverdefined IV : preserves steady (LV_markOverdefined IV).
Proof.
  intros w a w'. unfold LV_markOverdefined. mrun. intros [= _ <-].
  split; [done|]. apply states_le_storeLV, LV_markOverdefined_le.
Qed.

Lemma steady_LV_markConstant IV C : preserves steady (LV_markConstant IV C).
Proof.
  intros w a w'. unfold LV_markConstant. mrun.
  destruct (LV.markConstant (loadLV IV (solver w)) C) as [r|f] eqn:E;
    [|done].
  mrun. intros [= _ <-]. split; [done|].
  by eapply states_le_storeLV, LV_markConstant_le.
Qed.

Lemma steady_LV_markForcedConstant IV C :
  preserves steady (LV_markForcedConstant IV C).
Proof.
  intros w a w'. unfold LV_markForcedConstant. mrun.
  destruct (LV.markForcedConstant (loadLV IV (solver w)) C) as [r|f] eqn:E;
    [|done].
  mrun. unfold modify. intros ?; simplify_eq. split; [done|].
  by eapply states_le_storeLV, LV_markForcedConstant_le.
Qed.

#[local] Hint Resolve steady_MarkBlockExecutable steady_LV_markOverdefined
  steady_LV_markConstant steady_LV_markForcedConstant : steady.

Lemma steady_markConstant_at IV V C : preserves steady (markConstant_at IV V C).
Proof. unfold markConstant_at. steady_auto. Qed.
#[local] Hint Resolve steady_markConstant_at : steady.

Lemma steady_markConstant V C : preserves steady (markConstant V C).
Proof. unfold markConstant. steady_auto. Qed.

Lemma steady_markForcedConstant V C : preserves steady (markForcedConstant V C).
Proof. unfold markForcedConstant. steady_auto. Qed.

Lemma steady_markOverdefined_at IV V : preserves steady (markOverdefined_at IV V).
Proof. unfold markOverdefined_at. steady_auto. Qed.
#[local] Hint Resolve steady_markConstant steady_markForcedConstant
  steady_markOverdefined_at : steady.

Lemma steady_markOverdefined V : preserves steady (markOverdefined V).
Proof. unfold markOverdefined. steady_auto. Qed.

Lemma steady_mergeInValue_at IV V lv : preserves steady (mergeInValue_at IV V lv).
Proof. unfold mergeInValue_at. steady_auto. Qed.
#[local] Hint Resolve steady_markOverdefined steady_mergeInValue_at : steady.

Lemma steady_mergeInValue V lv : preserves steady (mergeInValue V lv).
Proof. unfold mergeInValue. steady_auto. Qed.

Lemma steady_getValueState V : preserves steady (getValueState V).
Proof.
  intros w a w' Hrun.
  destruct (isStructTy (valueType (ir w) V)) eqn:Hty.
  { unfold getValueState in Hrun. revert Hrun. mrun. by rewrite Hty. }
  destruct (ValueState (solver w) !! V) eqn:E.
  - rewrite (getValueState_present _ _ _ Hty E) in Hrun.
    injection Hrun as _ <-. apply steady_refl.
  - rewrite (getValueState_absent _ _ Hty E) in Hrun.
    injection Hrun as _ <-. split; [done|].
    apply states_le_ValueState. intros k. by apply entry_le_insert_fresh.
Qed.
#[local] Hint Resolve steady_mergeInValue steady_getValueState : steady.

Lemma steady_getValueStateCopy V : preserves steady (getValueStateCopy V).
Proof. unfold getValueStateCopy. steady_auto. Qed.

Lemma steady_getStructValueState lib V i :
  preserves steady (getStructValueState lib V i).
Proof.
  intros w a w' Hrun.
  destruct (valueType (ir w) V) as [| | |?|?|elts|? ?|? ?|] eqn:Hty;
    try (unfold getStructValueState in Hrun; revert Hrun; mrun;
         by rewrite Hty).
  destruct (decide (i < length elts)) as [Hi|Hi].
  2:{ unfold getStructValueState in Hrun. revert Hrun. mrun. rewrite Hty.
      simpl. by rewrite bool_decide_false. }
  destruct (StructValueState (solver w) !! (V, i)) eqn:E.
  - unfold getStructValueState in Hrun. revert Hrun. mrun. rewrite Hty.
    simpl. rewrite bool_decide_true by done. mrun. rewrite E.
    intros [= _ <-]. apply steady_refl.
  - rewrite (getStructValueState_absent lib w V elts i Hty Hi E _ eq_refl)
      in Hrun.
    match type of Hrun with
    | match ?seed with Ok _ => _ | Err _ => _ end = _ =>
        destruct seed as [lv|]; [|done]
    end.
    injection Hrun as _ <-. split; [done|].
    apply states_le_StructValueState. intros k. by apply entry_le_insert_fresh.
Qed.
#[local] Hint Resolve steady_getValueStateCopy steady_getStructValueState
  : steady.

Lemma steady_getStructValueStateCopy lib V i :
  preserves steady (getStructValueStateCopy lib V i).
Proof. unfold getStructValueStateCopy. steady_auto. Qed.

Lemma steady_markAnythingOverdefined lib V :
  preserves steady (markAnythingOverdefined lib V).
Proof. unfold markAnythingOverdefined. steady_auto. Qed.
#[local] Hint Resolve steady_getStructValueStateCopy
  steady_markAnythingOverdefined : steady.

Lemma steady_getFeasibleSuccessors TI Succs :
  preserves steady (getFeasibleSuccessors TI Succs).
Proof. unfold getFeasibleSuccessors. steady_auto. Qed.

Lemma steady_isEdgeFeasible From To : preserves steady (isEdgeFeasible From To).
Proof. unfold isEdgeFeasible. steady_auto. Qed.

Lemma steady_RemoveFromOverdefinedPHIs I PN :
  preserves steady (RemoveFromOverdefinedPHIs I PN).
Proof. unfold RemoveFromOverdefinedPHIs. steady_auto. Qed.

Lemma steady_InsertInOverdefinedPHIs I PN :
  preserves steady (InsertInOverdefinedPHIs I PN).
Proof. unfold InsertInOverdefinedPHIs. steady_auto. Qed.
#[local] Hint Resolve steady_getFeasibleSuccessors steady_isEdgeFeasible
  steady_RemoveFromOverdefinedPHIs steady_InsertInOverdefinedPHIs : steady.

Section SteadyVisitors.
Variable lib : Folder.
Variable visit : Value -> M unit.
Hypothesis Hvisit : forall I, preserves steady (visit I).

Lemma steady_visitPHINode_operands PN parent incoming :
  forall OV, preserves steady (visitPHINode_operands PN parent incoming OV).
Proof using Type.
  induction incoming as [|[V BB] rest IH]; intros OV;
    cbn [visitPHINode_operands]; steady_auto.
Qed.
Hint Resolve steady_visitPHINode_operands : steady.

Lemma steady_visitPHINode PN : preserves steady (visitPHINode lib visit PN).
Proof using Hvisit. unfold visitPHINode. steady_auto. Qed.
Hint Resolve steady_visitPHINode : steady.

Lemma steady_visitLeadingPHIs insts :
  preserves steady (visitLeadingPHIs lib visit insts).
Proof using Hvisit.
  induction insts as [|PN rest IH]; cbn [visitLeadingPHIs]; steady_auto.
Qed.
Hint Resolve steady_visitLeadingPHIs : steady.

Lemma steady_markEdgeExecutable Source Dest :
  preserves steady (markEdgeExecutable lib visit Source Dest).
Proof using Hvisit. unfold markEdgeExecutable. steady_auto. Qed.
Hint Resolve steady_markEdgeExecutable : steady.

Lemma steady_visitReturnInst I parent rv :
  preserves steady (visitReturnInst lib I parent rv).
Proof using Type. unfold visitReturnInst. steady_auto. Qed.

Lemma steady_visitTerminatorInst TI :
  preserves steady (visitTerminatorInst lib visit TI).
Proof using Hvisit. unfold visitTerminatorInst. steady_auto. Qed.

Lemma steady_visitCastInst I op v : preserves steady (visitCastInst lib I op v).
Proof using Type. unfold visitCastInst. steady_auto. Qed.

Lemma steady_visitExtractValueInst EVI AggVal idxs :
  preserves steady (visitExtractValueInst lib EVI AggVal idxs).
Proof using Type. unfold visitExtractValueInst. steady_auto. Qed.

Lemma steady_visitInsertValueInst IVI Aggr Val idxs :
  preserves steady (visitInsertValueInst lib IVI Aggr Val idxs).
Proof using Type. unfold visitInsertValueInst. steady_auto. Qed.

Lemma steady_visitSelectInst I c t f :
  preserves steady (visitSelectInst lib I c t f).
Proof using Type. unfold visitSelectInst. steady_auto. Qed.

Lemma steady_getIncomingValueForBlock incoming BB :
  preserves steady (getIncomingValueForBlock incoming BB).
Proof using Type. unfold getIncomingValueForBlock. steady_auto. Qed.
Hint Resolve steady_getIncomingValueForBlock : steady.

Lemma steady_foldOverPHIs fold inc1 inc2 :
  forall Result, preserves steady (foldOverPHIs fold inc1 inc2 Result).
Proof using Type.
  induction inc1 as [|[V1 InBlock] rest IH]; intros Result;
    cbn [foldOverPHIs]; steady_auto.
Qed.
Hint Resolve steady_foldOverPHIs : steady.

Lemma steady_visitBinaryOperator I op a b :
  preserves steady (visitBinaryOperator lib I op a b).
Proof using Type. unfold visitBinaryOperator. steady_auto. Qed.

Lemma steady_visitCmpInst I p a b :
  preserves steady (visitCmpInst lib I p a b).
Proof using Type. unfold visitCmpInst. steady_auto. Qed.

Lemma steady_collectConstantOperands I ops :
  forall Operands, preserves steady (collectConstantOperands I ops Operands).
Proof using Type.
  induction ops as [|V rest IH]; intros Operands;
    cbn [collectConstantOperands]; steady_auto.
Qed.
Hint Resolve steady_collectConstantOperands : steady.

Lemma steady_visitGetElementPtrInst I ops :
  preserves steady (visitGetElementPtrInst lib I ops).
Proof using Type. unfold visitGetElementPtrInst. steady_auto. Qed.

Lemma steady_visitStoreInst SI Val Ptr :
  preserves steady (visitStoreInst SI Val Ptr).
Proof using Type. unfold visitStoreInst. steady_auto. Qed.

Lemma steady_visitLoadInst I Ptr vol :
  preserves steady (visitLoadInst lib I Ptr vol).
Proof using Type. unfold visitLoadInst. steady_auto. Qed.

Lemma steady_CallOverdefined I F args :
  preserves steady (CallOverdefined lib I F args).
Proof using Type. unfold CallOverdefined. steady_auto. Qed.
Hint Resolve steady_CallOverdefined : steady.

Lemma steady_propagateArguments F formals :
  forall actuals, preserves steady (propagateArguments lib F formals actuals).
Proof using Type.
  induction formals as [|AI rest IH]; intros actuals;
    cbn [propagateArguments]; steady_auto.
Qed.
Hint Resolve steady_propagateArguments : steady.

Lemma steady_visitCallSite I callee args :
  preserves steady (visitCallSite lib I callee args).
Proof using Type. unfold visitCallSite. steady_auto. Qed.

Hint Resolve steady_visitReturnInst steady_visitTerminatorInst
  steady_visitCastInst steady_visitExtractValueInst
  steady_visitInsertValueInst steady_visitSelectInst
  steady_visitBinaryOperator steady_visitCmpInst
  steady_visitGetElementPtrInst steady_visitStoreInst steady_visitLoadInst
  steady_visitCallSite : steady.

Lemma steady_visitInst I : preserves steady (visitInst lib visit I).
Proof using Hvisit. unfold visitInst, visitInstruction. steady_auto. Qed.

End SteadyVisitors.

Section SteadySolve.
Variable lib : Folder.

Lemma steady_visit depth : forall I, preserves steady (visit lib depth I).
Proof using Type.
  induction depth as [|d IH]; intros I; cbn [visit].
  - apply preserves_fail.
  - by apply steady_visitInst.
Qed.
Hint Resolve steady_visit : steady.

Lemma steady_OperandChangedState depth I :
  preserves steady (OperandChangedState lib depth I).
Proof using Type. unfold OperandChangedState. steady_auto. Qed.
Hint Resolve steady_OperandChangedState : steady.

Lemma steady_notifyUsers depth V : preserves steady (notifyUsers lib depth V).
Proof using Type. unfold notifyUsers. steady_auto. Qed.
Hint Resolve steady_notifyUsers : steady.

Lemma steady_drainOverdefinedInstWorkList depth fuel :
  preserves steady (drainOverdefinedInstWorkList lib depth fuel).
Proof using Type.
  induction fuel as [|n IH]; cbn [drainOverdefinedInstWorkList]; steady_auto.
Qed.

Lemma steady_drainInstWorkList depth fuel :
  preserves steady (drainInstWorkList lib depth fuel).
Proof using Type.
  induction fuel as [|n IH]; cbn [drainInstWorkList]; steady_auto.
Qed.

Lemma steady_drainBBWorkList depth fuel :
  preserves steady (drainBBWorkList lib depth fuel).
Proof using Type.
  induction fuel as [|n IH]; cbn [drainBBWorkList]; steady_auto.
Qed.
Hint Resolve steady_drainOverdefinedInstWorkList steady_drainInstWorkList
  steady_drainBBWorkList : steady.

Lemma steady_Solve depth fuel : preserves steady (Solve lib depth fuel).
Proof using Type.
  induction fuel as [|n IH]; cbn [Solve]; steady_auto.
Qed.

Lemma steady_resolveUndefInst I : preserves steady (resolveUndefInst lib I).
Proof using Type. unfold resolveUndefInst. steady_auto. Qed.
Hint Resolve steady_resolveUndefInst : steady.

Lemma steady_resolveUndefInsts insts :
  preserves steady (resolveUndefInsts lib insts).
Proof using Type.
  induction insts as [|Inst rest IH]; cbn [resolveUndefInsts]; steady_auto.
Qed.

End SteadySolve.

(** ** ResolvedUndefsIn and the graph *)

Section ResolveFrame.
Variable lib : Folder.

Lemma resolveUndefTerminator_inv depth BB w b w' :
  resolveUndefTerminator lib depth BB w = Ok (b, w') ->
  states_le (solver w) (solver w')
  /\ (ir w' = ir w
      \/ (b = true /\ conditionRewritten lib (ir w) (ir w') BB)).
Proof using Type.
  unfold resolveUndefTerminator. mrun.
  destruct (getTerminator (ir w) BB) as [[TI k]|] eqn:HT; [|done].
  assert (Hret : forall b0 : bool, ret b0 w = Ok (b, w') ->
            states_le (solver w) (solver w')
            /\ (ir w' = ir w
                \/ (b = true /\ conditionRewritten lib (ir w) (ir w') BB))).
  { intros b0 [= _ <-]. split; [apply states_le_refl|by left]. }
  destruct k; try apply Hret.
  - (* conditional branch *)
    intros Hrun. apply bind_inv in Hrun as (lv & w1 & H1 & H2).
    apply steady_getValueStateCopy in H1 as [Hi1 Hs1].
    destruct (LV.isUndefined lv); cbn [negb] in H2.
    2:{ injection H2 as _ <-. split; [done|by left]. }
    destruct (isUndefValue (ir w) cond) eqn:Hundef.
    + revert H2. mrun. intros H2.
      apply bind_inv in H2 as ([] & w3 & H3 & H4).
      apply (steady_markEdgeExecutable lib _ (steady_visit lib depth))
        in H3 as [Hi3 Hs3].
      injection H4 as <- <-. simpl in *.
      split; [by eapply states_le_trans|].
      right. split; [done|]. rewrite Hi3, Hi1.
      exists TI, (ICondBr cond ifTrue ifFalse), cond,
        (ConstantInt_getFalse lib). done.
    + apply bind_inv in H2 as ([] & w3 & H3 & H4).
      apply steady_markForcedConstant in H3 as [Hi3 Hs3].
      injection H4 as _ <-.
      split; [by eapply states_le_trans|]. left. congruence.
  - (* switch *)
    destruct cases as [|[CaseValue1 Successor1] rest]; [apply Hret|].
    intros Hrun. apply bind_inv in Hrun as (lv & w1 & H1 & H2).
    apply steady_getValueStateCopy in H1 as [Hi1 Hs1].
    destruct (LV.isUndefined lv); cbn [negb] in H2.
    2:{ injection H2 as _ <-. split; [done|by left]. }
    destruct (isUndefValue (ir w) cond) eqn:Hundef.
    + revert H2. mrun. intros H2.
      apply bind_inv in H2 as ([] & w3 & H3 & H4).
      apply (steady_markEdgeExecutable lib _ (steady_visit lib depth))
        in H3 as [Hi3 Hs3].
      injection H4 as <- <-. simpl in *.
      split; [by eapply states_le_trans|].
      right. split; [done|]. rewrite Hi3, Hi1.
      exists TI, (ISwitch cond defaultDest ((CaseValue1, Successor1) :: rest)),
        cond, CaseValue1. done.
    + apply bind_inv in H2 as ([] & w3 & H3 & H4).
      apply steady_markForcedConstant in H3 as [Hi3 Hs3].
      injection H4 as _ <-.
      split; [by eapply states_le_trans|]. left. congruence.
Qed.

Lemma resolveUndefBlocks_inv depth blocks :
  forall w b w',
    resolveUndefBlocks lib depth blocks w = Ok (b, w') ->
    states_le (solver w) (solver w')
    /\ (ir w' = ir w
        \/ (b = true
            /\ exists BB, BB ∈ blocks /\ BB ∈ BBExecutable (solver w')
                          /\ conditionRewritten lib (ir w) (ir w') BB)).
Proof using Type.
  induction blocks as [|BB rest IH]; intros w b w'; cbn [resolveUndefBlocks].
  { intros [= _ <-]. split; [apply states_le_refl|by left]. }
  mrun.
  destruct (bool_decide (BB ∈ BBExecutable (solver w))) eqn:Hex; cbn [negb].
  2:{ intros Hrun. apply IH in Hrun as [Hs [Hi|(-> & BB' & Hin & Hex' & Hc)]].
      - split; [done|by left].
      - split; [done|]. right. split; [done|]. exists BB'.
        split; [by apply list_elem_of_further|done]. }
  apply bool_decide_eq_true in Hex. mrun.
  intros Hrun. apply bind_inv in Hrun as (r & w1 & H1 & H2).
  apply steady_resolveUndefInsts in H1 as [Hi1 Hs1].
  destruct r.
  { injection H2 as _ <-. split; [done|by left]. }
  apply bind_inv in H2 as (r & w2 & H2 & H3).
  apply resolveUndefTerminator_inv in H2 as [Hs2 Hi2].
  destruct r.
  { injection H3 as <- <-.
    assert (Hs : states_le (solver w) (solver w2))
      by (by eapply states_le_trans).
    split; [done|].
    destruct Hi2 as [Hi2|[_ Hc]]; [left; congruence|].
    right. split; [done|]. exists BB. split; [apply list_elem_of_here|].
    split; [|by rewrite <- Hi1].
    destruct Hs as (_ & _ & Hb & _). by apply Hb. }
  destruct Hi2 as [Hi2|[[=] _]].
  apply IH in H3 as [Hs3 [Hi3|(-> & BB' & Hin & Hex' & Hc)]].
  - split; [by eapply states_le_trans; [|eapply states_le_trans]|].
    left. congruence.
  - split; [by eapply states_le_trans; [|eapply states_le_trans]|].
    right. split; [done|]. exists BB'.
    split; [by apply list_elem_of_further|].
    rewrite Hi2, Hi1 in Hc. done.
Qed.

End ResolveFrame.

Lemma setCondition_frame g TI C :
  valueType (setCondition g TI C) = valueType g
  /\ blockInsts (setCondition g TI C) = blockInsts g
  /\ blockParent (setCondition g TI C) = blockParent g
  /\ functionData (setCondition g TI C) = functionData g
  /\ (forall V, V <> TI ->
        valueKind (setCondition g TI C) V = valueKind g V)
  /\ (forall p k, valueKind g TI = KInstruction p k ->
        exists k', valueKind (setCondition g TI C) TI = KInstruction p k'
                   /\ getSuccessors k' = getSuccessors k).
Proof.
  unfold setCondition.
  destruct (valueKind g TI) as [p k| | | |] eqn:HK;
    try solve [repeat split; try done; intros; congruence].
  destruct k;
    try solve [repeat split; try done; intros; simplify_eq; eauto].
  - repeat split; try done; simpl.
    + intros V' Hne. by rewrite decide_False.
    + intros p' k' [= <- <-]. rewrite decide_True by done. eauto.
  - repeat split; try done; simpl.
    + intros V' Hne. by rewrite decide_False.
    + intros p' k' [= <- <-]. rewrite decide_True by done. eauto.
Qed.

(** C8 (as amended): [Solve] never changes the graph.  [ResolvedUndefsIn]
    changes it in one case only: when an executable block ends in a branch or
    a switch on the literal [undef], the condition operand of that terminator
    is replaced (by [false], or by the first case value) and the function
    returns true; types, blocks, functions, all other values and the
    successors of that terminator stay as they are. *)
Theorem C8_graph_frame (lib : Folder) (depth : nat) :
  (forall fuel w w', Solve lib depth fuel w = Ok (tt, w') -> ir w' = ir w)
  /\ (forall F w b w',
        ResolvedUndefsIn lib depth F w = Ok (b, w') ->
        ir w' = ir w
        \/ (b = true
            /\ exists BB, BB ∈ fBlocks (functionData (ir w) F)
                          /\ BB ∈ BBExecutable (solver w')
                          /\ conditionRewritten lib (ir w) (ir w') BB))
  /\ (forall g TI C,
        valueType (setCondition g TI C) = valueType g
        /\ blockInsts (setCondition g TI C) = blockInsts g
        /\ blockParent (setCondition g TI C) = blockParent g
        /\ functionData (setCondition g TI C) = functionData g
        /\ (forall V, V <> TI ->
              valueKind (setCondition g TI C) V = valueKind g V)
        /\ (forall p k, valueKind g TI = KInstruction p k ->
              exists k', valueKind (setCondition g TI C) TI = KInstruction p k'
                         /\ getSuccessors k' = getSuccessors k)).
Proof.
  split; [|split].
  - intros fuel w w' Hrun. by apply steady_Solve in Hrun as [Hi _].
  - intros F w b w'. unfold ResolvedUndefsIn. mrun. intros Hrun.
    by apply resolveUndefBlocks_inv in Hrun as [_ H].
  - apply setCondition_frame.
Qed.

Lemma C8_graph_frame_witness :
  exists w', Solve Examples.exFolder 5 50 Examples.wFoldStart = Ok (tt, w')
             /\ ir w' = ir Examples.wFoldStart.
Proof.
  destruct (Solve Examples.exFolder 5 50 Examples.wFoldStart)
    as [[[] w']|f] eqn:Hrun; [|vm_compute in Hrun; discriminate].
  exists w'. split; [done|].
  exact (proj1 (C8_graph_frame Examples.exFolder 5) 50 _ _ Hrun).
Defined.

(** C8, as stated, fails: on a function whose entry block branches on the
    literal [undef], [ResolvedUndefsIn] rewrites the branch condition in the
    graph. *)
Lemma C8_counterexample :
  ~ (forall (lib : Folder) depth F w b w',
       ResolvedUndefsIn lib depth F w = Ok (b, w') -> ir w' = ir w).
Proof.
  intros H.
  pose (r := ResolvedUndefsIn Examples.exFolder 5 200 Examples.wBranchOnUndef).
  assert (Hr : r = Ok (true, Examples.worldOf r Examples.wBranchOnUndef))
    by (vm_compute; reflexivity).
  apply H in Hr.
  apply (f_equal (fun g => valueKind g 10%positive)) in Hr.
  vm_compute in Hr. discriminate.
Qed.

(** ** Monotonicity over a run *)

Section Rising.
Variable lib : Folder.

Lemma rising_ResolvedUndefsIn depth F w b w' :
  ResolvedUndefsIn lib depth F w = Ok (b, w') ->
  states_le (solver w) (solver w').
Proof using Type.
  unfold ResolvedUndefsIn. mrun. intros Hrun.
  by apply resolveUndefBlocks_inv in Hrun as [H _].
Qed.

Lemma rising_solveLoop depth fuel rounds F :
  forall w w', solveLoop lib depth fuel rounds F w = Ok (tt, w') ->
               states_le (solver w) (solver w').
Proof using Type.
  induction rounds as [|r IH]; intros w w'; cbn [solveLoop]; [done|].
  intros Hrun. apply bind_inv in Hrun as ([] & w1 & H1 & H2).
  apply steady_Solve in H1 as [_ Hs1].
  apply bind_inv in H2 as (b & w2 & H2 & H3).
  apply rising_ResolvedUndefsIn in H2.
  destruct b.
  - apply IH in H3. by do 2 (eapply states_le_trans; [done|]).
  - injection H3 as <-. by eapply states_le_trans.
Qed.

Lemma rising_runSolver depth fuel rounds F w w' :
  runSolver lib depth fuel rounds F w = Ok (tt, w') ->
  states_le (solver w) (solver w').
Proof using Type.
  unfold runSolver. mrun.
  destruct (fBlocks (functionData (ir w) F)) as [|entry ?]; [done|].
  mrun. intros Hrun.
  apply bind_inv in Hrun as (b & w1 & H1 & H2).
  apply steady_MarkBlockExecutable in H1 as [_ Hs1].
  revert H2. mrun. intros H2.
  apply bind_inv in H2 as ([] & w2 & H2 & H3).
  apply (preserves_forEach steady_refl steady_trans) in H2 as [_ Hs2];
    [|intros x; apply steady_markAnythingOverdefined].
  apply rising_solveLoop in H3.
  by do 2 (eapply states_le_trans; [done|]).
Qed.

End Rising.

(** ** Forcing a branch on an undefined condition *)

Lemma getTerminator_asInstruction g BB TI k :
  getTerminator g BB = Some (TI, k) -> exists p, asInstruction g TI = Some (p, k).
Proof.
  unfold getTerminator. destruct (last (blockInsts g BB)) as [T|]; [|done].
  destruct (asInstruction g T) as [[p k']|] eqn:E; [|done].
  destruct (isTerminator k'); [|done]. intros [= <- <-]. eauto.
Qed.

Lemma markForcedConstant_run V C w :
  isStructTy (valueType (ir w) V) = false ->
  default undefined (ValueState (solver w) !! V) = undefined ->
  exists w', markForcedConstant V C w = Ok (tt, w')
             /\ ir w' = ir w
             /\ ValueState (solver w') !! V = Some (forcedconstant C)
             /\ InstWorkList (solver w') = V :: InstWorkList (solver w)
             /\ BBExecutable (solver w') = BBExecutable (solver w)
             /\ KnownFeasibleEdges (solver w') = KnownFeasibleEdges (solver w).
Proof.
  intros Hty Hund. unfold markForcedConstant. mrun. rewrite Hty. simpl. mrun.
  unfold LV_markForcedConstant. mrun. unfold loadLV at 1. simpl.
  rewrite lookup_orInsertDefault. simpl. rewrite Hund.
  change (LV.markForcedConstant undefined C) with (Ok (forcedconstant C)).
  mrun. simpl.
  unfold loadLV. simpl. rewrite lookup_alter, decide_True by done.
  rewrite lookup_orInsertDefault. simpl.
  eexists. split; [reflexivity|]. simpl.
  rewrite lookup_alter, decide_True by done.
  rewrite lookup_orInsertDefault. done.
Qed.

Lemma markEdgeExecutable_known lib visit Source Dest w w' :
  (forall I, preserves steady (visit I)) ->
  markEdgeExecutable lib visit Source Dest w = Ok (tt, w') ->
  (Source, Dest) ∈ KnownFeasibleEdges (solver w').
Proof.
  intros Hvisit. unfold markEdgeExecutable. mrun.
  destruct (bool_decide ((Source, Dest) ∈ KnownFeasibleEdges (solver w)))
    eqn:Hk.
  { intros [= <-]. by apply bool_decide_eq_true in Hk. }
  mrun. intros Hrun.
  assert (Hst : preserves steady
            (do fresh <- MarkBlockExecutable Dest;
             if fresh then ret tt
             else do g <- getIR; visitLeadingPHIs lib visit (blockInsts g Dest))).
  { steady_auto. by apply steady_visitLeadingPHIs. }
  apply Hst in Hrun as [_ (_ & _ & _ & Hsub)]. apply Hsub. simpl.
  destruct (solver w). simpl. set_solver.
Qed.





(** ** A forced change that is not reported *)

(** C10 fails on the code: after the fixed point on [gStructCall], field 0 of
    the struct-typed call 10 is still [undefined]; [ResolvedUndefsIn] forces
    it to [overdefined] and puts the call on the overdefined work list, goes
    on scanning and returns false. *)
Theorem C10_struct_call_unreported :
  StructValueState (solver Examples.wStructCall) !! (10%positive, 0)
  = Some undefined
  /\ OverdefinedInstWorkList (solver Examples.wStructCall) = []
  /\ exists w',
       ResolvedUndefsIn Examples.exFolder 5 200 Examples.wStructCall
       = Ok (false, w')
       /\ StructValueState (solver w') !! (10%positive, 0) = Some overdefined
       /\ OverdefinedInstWorkList (solver w') = [10%positive].
Proof.
  split; [vm_compute; reflexivity|]. split; [vm_compute; reflexivity|].
  pose (r := ResolvedUndefsIn Examples.exFolder 5 200 Examples.wStructCall).
  exists (Examples.worldOf r Examples.wStructCall).
  split; [|split]; vm_compute; reflexivity.
Qed.
(** ** The callers of [markForcedConstant]

    [markForcedConstant] asserts that the state it forces is undefined.
    Nothing in [Solve] calls it; [ResolvedUndefsIn] calls it on a value whose
    state it has just found undefined. *)

Lemma bind_err {A B} (m : M A) (k : A -> M B) w f :
  bind m k w = Err f ->
  m w = Err f \/ exists a w', m w = Ok (a, w') /\ k a w' = Err f.
Proof.
  unfold bind. destruct (m w) as [[a w']|f']; intros H.
  - right. by exists a, w'.
  - left. by injection H as ->.
Qed.

Lemma fo_ret {A} (a : A) : forcesOnlyUndefined (ret a).
Proof. by intros w. Qed.

Lemma fo_fail {A} (f : Fault) :
  f <> AssertFailed ForceDefined -> forcesOnlyUndefined (@fail A f).
Proof. intros Hf w [= E]. by apply Hf. Qed.

Lemma fo_bind {A B} (m : M A) (k : A -> M B) :
  forcesOnlyUndefined m -> (forall a, forcesOnlyUndefined (k a)) ->
  forcesOnlyUndefined (bind m k).
Proof.
  intros Hm Hk w Herr.
  apply bind_err in Herr as [Herr|(a & w' & _ & Herr)];
    [by apply Hm in Herr|by apply Hk in Herr].
Qed.

Lemma fo_assert b a :
  a <> ForceDefined -> forcesOnlyUndefined (assert b a).
Proof.
  intros Ha. destruct b; [apply fo_ret|]. apply fo_fail. by intros [= E].
Qed.

Lemma fo_liftRes {A} (r : Res A) :
  r <> Err (AssertFailed ForceDefined) -> forcesOnlyUndefined (liftRes r).
Proof.
  intros Hr w. unfold liftRes. destruct r as [a|f]; [done|].
  intros [= ->]. by apply Hr.
Qed.

Lemma fo_getIR : forcesOnlyUndefined getIR.
Proof. by intros w. Qed.

Lemma fo_getSolver : forcesOnlyUndefined getSolver.
Proof. by intros w. Qed.

Lemma fo_gets {A} (f : SCCPSolver -> A) : forcesOnlyUndefined (gets f).
Proof. by intros w. Qed.

Lemma fo_getType V : forcesOnlyUndefined (getType V).
Proof. by intros w. Qed.

Lemma fo_modify f : forcesOnlyUndefined (modify f).
Proof. by intros w. Qed.

Lemma fo_modifyIR f : forcesOnlyUndefined (modifyIR f).
Proof. by intros w. Qed.

Lemma fo_LV_getConstantInt lv : forcesOnlyUndefined (LV_getConstantInt lv).
Proof. intros w. by rewrite LV_getConstantInt_run. Qed.

Lemma fo_forEach {A} (l : list A) (body : A -> M unit) :
  (forall x, forcesOnlyUndefined (body x)) ->
  forcesOnlyUndefined (forEach l body).
Proof.
  intros Hb. induction l as [|x l IH]; simpl.
  - apply fo_ret.
  - apply fo_bind; [apply Hb|intros _; apply IH].
Qed.

Lemma LV_getConstant_fault lv :
  LV.getConstant lv <> Err (AssertFailed ForceDefined).
Proof. by destruct lv. Qed.

Lemma LV_markConstant_fault lv C :
  LV.markConstant lv C <> Err (AssertFailed ForceDefined).
Proof. destruct lv; simpl; try done; by case_decide. Qed.

Create HintDb forces.

(** One step of a proof that a computation is [forcesOnlyUndefined]. *)
Ltac fo_step :=
  lazymatch goal with
  | |- forcesOnlyUndefined (bind _ _) => apply fo_bind; [|intros ?]
  | |- forcesOnlyUndefined (ret _) => apply fo_ret
  | |- forcesOnlyUndefined (fail _) => apply fo_fail; discriminate
  | |- forcesOnlyUndefined (assert _ _) => apply fo_assert; discriminate
  | |- forcesOnlyUndefined (liftRes (LV.getConstant _)) =>
      apply fo_liftRes, LV_getConstant_fault
  | |- forcesOnlyUndefined (liftRes (LV.markConstant _ _)) =>
      apply fo_liftRes, LV_markConstant_fault
  | |- forcesOnlyUndefined getIR => apply fo_getIR
  | |- forcesOnlyUndefined getSolver => apply fo_getSolver
  | |- forcesOnlyUndefined (gets _) => apply fo_gets
  | |- forcesOnlyUndefined (getType _) => apply fo_getType
  | |- forcesOnlyUndefined (LV_getConstantInt _) => apply fo_LV_getConstantInt
  | |- forcesOnlyUndefined (modify _) => apply fo_modify
  | |- forcesOnlyUndefined (modifyIR _) => apply fo_modifyIR
  | |- forcesOnlyUndefined (forEach _ _) => apply fo_forEach; intros ?
  | |- forcesOnlyUndefined (if ?b then _ else _) => destruct b
  | |- forcesOnlyUndefined (match ?x with _ => _ end) => destruct x
  | |- forcesOnlyUndefined (let _ := _ in _) => cbv zeta
  | |- _ => solve [eauto with forces]
  end.

Ltac fo_auto := repeat fo_step.

Lemma fo_MarkBlockExecutable BB : forcesOnlyUndefined (MarkBlockExecutable BB).
Proof. unfold MarkBlockExecutable. fo_auto. Qed.

Lemma fo_LV_markOverdefined IV : forcesOnlyUndefined (LV_markOverdefined IV).
Proof. unfold LV_markOverdefined. fo_auto. Qed.

Lemma fo_LV_markConstant IV C : forcesOnlyUndefined (LV_markConstant IV C).
Proof. unfold LV_markConstant. fo_auto. Qed.


#[local] Hint Resolve fo_MarkBlockExecutable fo_LV_markOverdefined
  fo_LV_markConstant : forces.

Lemma fo_markConstant_at IV V C : forcesOnlyUndefined (markConstant_at IV V C).
Proof. unfold markConstant_at. fo_auto. Qed.
#[local] Hint Resolve fo_markConstant_at : forces.

Lemma fo_markConstant V C : forcesOnlyUndefined (markConstant V C).
Proof. unfold markConstant. fo_auto. Qed.


Lemma fo_markOverdefined_at IV V : forcesOnlyUndefined (markOverdefined_at IV V).
Proof. unfold markOverdefined_at. fo_auto. Qed.
#[local] Hint Resolve fo_markConstant fo_markOverdefined_at : forces.

Lemma fo_markOverdefined V : forcesOnlyUndefined (markOverdefined V).
Proof. unfold markOverdefined. fo_auto. Qed.

Lemma fo_mergeInValue_at IV V lv : forcesOnlyUndefined (mergeInValue_at IV V lv).
Proof. unfold mergeInValue_at. fo_auto. Qed.
#[local] Hint Resolve fo_markOverdefined fo_mergeInValue_at : forces.

Lemma fo_mergeInValue V lv : forcesOnlyUndefined (mergeInValue V lv).
Proof. unfold mergeInValue. fo_auto. Qed.

Lemma fo_getValueState V : forcesOnlyUndefined (getValueState V).
Proof. unfold getValueState. fo_auto. Qed.
#[local] Hint Resolve fo_mergeInValue fo_getValueState : forces.

Lemma fo_getValueStateCopy V : forcesOnlyUndefined (getValueStateCopy V).
Proof. unfold getValueStateCopy. fo_auto. Qed.

Lemma fo_getStructValueState lib V i :
  forcesOnlyUndefined (getStructValueState lib V i).
Proof. unfold getStructValueState. fo_auto. Qed.
#[local] Hint Resolve fo_getValueStateCopy fo_getStructValueState
  : forces.

Lemma fo_getStructValueStateCopy lib V i :
  forcesOnlyUndefined (getStructValueStateCopy lib V i).
Proof. unfold getStructValueStateCopy. fo_auto. Qed.

Lemma fo_markAnythingOverdefined lib V :
  forcesOnlyUndefined (markAnythingOverdefined lib V).
Proof. unfold markAnythingOverdefined. fo_auto. Qed.
#[local] Hint Resolve fo_getStructValueStateCopy
  fo_markAnythingOverdefined : forces.

Lemma fo_getFeasibleSuccessors TI Succs :
  forcesOnlyUndefined (getFeasibleSuccessors TI Succs).
Proof. unfold getFeasibleSuccessors. fo_auto. Qed.

Lemma fo_isEdgeFeasible From To : forcesOnlyUndefined (isEdgeFeasible From To).
Proof. unfold isEdgeFeasible. fo_auto. Qed.

Lemma fo_RemoveFromOverdefinedPHIs I PN :
  forcesOnlyUndefined (RemoveFromOverdefinedPHIs I PN).
Proof. unfold RemoveFromOverdefinedPHIs. fo_auto. Qed.

Lemma fo_InsertInOverdefinedPHIs I PN :
  forcesOnlyUndefined (InsertInOverdefinedPHIs I PN).
Proof. unfold InsertInOverdefinedPHIs. fo_auto. Qed.
#[local] Hint Resolve fo_getFeasibleSuccessors fo_isEdgeFeasible
  fo_RemoveFromOverdefinedPHIs fo_InsertInOverdefinedPHIs : forces.

Section ForcesVisitors.
Variable lib : Folder.
Variable visit : Value -> M unit.
Hypothesis Hvisit : forall I, forcesOnlyUndefined (visit I).

Lemma fo_visitPHINode_operands PN parent incoming :
  forall OV, forcesOnlyUndefined (visitPHINode_operands PN parent incoming OV).
Proof using Type.
  induction incoming as [|[V BB] rest IH]; intros OV;
    cbn [visitPHINode_operands]; fo_auto.
Qed.
Hint Resolve fo_visitPHINode_operands : forces.

Lemma fo_visitPHINode PN : forcesOnlyUndefined (visitPHINode lib visit PN).
Proof using Hvisit. unfold visitPHINode. fo_auto. Qed.
Hint Resolve fo_visitPHINode : forces.

Lemma fo_visitLeadingPHIs insts :
  forcesOnlyUndefined (visitLeadingPHIs lib visit insts).
Proof using Hvisit.
  induction insts as [|PN rest IH]; cbn [visitLeadingPHIs]; fo_auto.
Qed.
Hint Resolve fo_visitLeadingPHIs : forces.

Lemma fo_markEdgeExecutable Source Dest :
  forcesOnlyUndefined (markEdgeExecutable lib visit Source Dest).
Proof using Hvisit. unfold markEdgeExecutable. fo_auto. Qed.
Hint Resolve fo_markEdgeExecutable : forces.

Lemma fo_visitReturnInst I parent rv :
  forcesOnlyUndefined (visitReturnInst lib I parent rv).
Proof using Type. unfold visitReturnInst. fo_auto. Qed.

Lemma fo_visitTerminatorInst TI :
  forcesOnlyUndefined (visitTerminatorInst lib visit TI).
Proof using Hvisit. unfold visitTerminatorInst. fo_auto. Qed.

Lemma fo_visitCastInst I op v : forcesOnlyUndefined (visitCastInst lib I op v).
Proof using Type. unfold visitCastInst. fo_auto. Qed.

Lemma fo_visitExtractValueInst EVI AggVal idxs :
  forcesOnlyUndefined (visitExtractValueInst lib EVI AggVal idxs).
Proof using Type. unfold visitExtractValueInst. fo_auto. Qed.

Lemma fo_visitInsertValueInst IVI Aggr Val idxs :
  forcesOnlyUndefined (visitInsertValueInst lib IVI Aggr Val idxs).
Proof using Type. unfold visitInsertValueInst. fo_auto. Qed.

Lemma fo_visitSelectInst I c t f :
  forcesOnlyUndefined (visitSelectInst lib I c t f).
Proof using Type. unfold visitSelectInst. fo_auto. Qed.

Lemma fo_getIncomingValueForBlock incoming BB :
  forcesOnlyUndefined (getIncomingValueForBlock incoming BB).
Proof using Type. unfold getIncomingValueForBlock. fo_auto. Qed.
Hint Resolve fo_getIncomingValueForBlock : forces.

Lemma fo_foldOverPHIs fold inc1 inc2 :
  forall Result, forcesOnlyUndefined (foldOverPHIs fold inc1 inc2 Result).
Proof using Type.
  induction inc1 as [|[V1 InBlock] rest IH]; intros Result;
    cbn [foldOverPHIs]; fo_auto.
Qed.
Hint Resolve fo_foldOverPHIs : forces.

Lemma fo_visitBinaryOperator I op a b :
  forcesOnlyUndefined (visitBinaryOperator lib I op a b).
Proof using Type. unfold visitBinaryOperator. fo_auto. Qed.

Lemma fo_visitCmpInst I p a b :
  forcesOnlyUndefined (visitCmpInst lib I p a b).
Proof using Type. unfold visitCmpInst. fo_auto. Qed.

Lemma fo_collectConstantOperands I ops :
  forall Operands, forcesOnlyUndefined (collectConstantOperands I ops Operands).
Proof using Type.
  induction ops as [|V rest IH]; intros Operands;
    cbn [collectConstantOperands]; fo_auto.
Qed.
Hint Resolve fo_collectConstantOperands : forces.

Lemma fo_visitGetElementPtrInst I ops :
  forcesOnlyUndefined (visitGetElementPtrInst lib I ops).
Proof using Type. unfold visitGetElementPtrInst. fo_auto. Qed.

Lemma fo_visitStoreInst SI Val Ptr :
  forcesOnlyUndefined (visitStoreInst SI Val Ptr).
Proof using Type. unfold visitStoreInst. fo_auto. Qed.

Lemma fo_visitLoadInst I Ptr vol :
  forcesOnlyUndefined (visitLoadInst lib I Ptr vol).
Proof using Type. unfold visitLoadInst. fo_auto. Qed.

Lemma fo_CallOverdefined I F args :
  forcesOnlyUndefined (CallOverdefined lib I F args).
Proof using Type. unfold CallOverdefined. fo_auto. Qed.
Hint Resolve fo_CallOverdefined : forces.

Lemma fo_propagateArguments F formals :
  forall actuals, forcesOnlyUndefined (propagateArguments lib F formals actuals).
Proof using Type.
  induction formals as [|AI rest IH]; intros actuals;
    cbn [propagateArguments]; fo_auto.
Qed.
Hint Resolve fo_propagateArguments : forces.

Lemma fo_visitCallSite I callee args :
  forcesOnlyUndefined (visitCallSite lib I callee args).
Proof using Type. unfold visitCallSite. fo_auto. Qed.

Hint Resolve fo_visitReturnInst fo_visitTerminatorInst
  fo_visitCastInst fo_visitExtractValueInst
  fo_visitInsertValueInst fo_visitSelectInst
  fo_visitBinaryOperator fo_visitCmpInst
  fo_visitGetElementPtrInst fo_visitStoreInst fo_visitLoadInst
  fo_visitCallSite : forces.

Lemma fo_visitInst I : forcesOnlyUndefined (visitInst lib visit I).
Proof using Hvisit. unfold visitInst, visitInstruction. fo_auto. Qed.

End ForcesVisitors.

Section ForcesSolve.
Variable lib : Folder.

Lemma fo_visit depth : forall I, forcesOnlyUndefined (visit lib depth I).
Proof using Type.
  induction depth as [|d IH]; intros I; cbn [visit].
  - by apply fo_fail.
  - by apply fo_visitInst.
Qed.
Hint Resolve fo_visit : forces.

Lemma fo_OperandChangedState depth I :
  forcesOnlyUndefined (OperandChangedState lib depth I).
Proof using Type. unfold OperandChangedState. fo_auto. Qed.
Hint Resolve fo_OperandChangedState : forces.

Lemma fo_notifyUsers depth V : forcesOnlyUndefined (notifyUsers lib depth V).
Proof using Type. unfold notifyUsers. fo_auto. Qed.
Hint Resolve fo_notifyUsers : forces.

Lemma fo_drainOverdefinedInstWorkList depth fuel :
  forcesOnlyUndefined (drainOverdefinedInstWorkList lib depth fuel).
Proof using Type.
  induction fuel as [|n IH]; cbn [drainOverdefinedInstWorkList]; fo_auto.
Qed.

Lemma fo_drainInstWorkList depth fuel :
  forcesOnlyUndefined (drainInstWorkList lib depth fuel).
Proof using Type.
  induction fuel as [|n IH]; cbn [drainInstWorkList]; fo_auto.
Qed.

Lemma fo_drainBBWorkList depth fuel :
  forcesOnlyUndefined (drainBBWorkList lib depth fuel).
Proof using Type.
  induction fuel as [|n IH]; cbn [drainBBWorkList]; fo_auto.
Qed.
Hint Resolve fo_drainOverdefinedInstWorkList fo_drainInstWorkList
  fo_drainBBWorkList : forces.

Lemma fo_Solve depth fuel : forcesOnlyUndefined (Solve lib depth fuel).
Proof using Type.
  induction fuel as [|n IH]; cbn [Solve]; fo_auto.
Qed.
Hint Resolve fo_Solve : forces.

End ForcesSolve.

(** *** [ResolvedUndefsIn]: a value is forced only when its state has just
    been found undefined *)

Lemma getValueState_run V w :
  isStructTy (valueType (ir w) V) = false ->
  getValueState V w = Ok (InValueState V, touch V w).
Proof.
  intros Hty. unfold touch.
  destruct (ValueState (solver w) !! V) as [lv|] eqn:E.
  - by apply getValueState_present with lv.
  - by apply getValueState_absent.
Qed.

Lemma touch_load V w :
  loadLV (InValueState V) (solver (touch V w)) = peekValueState w V.
Proof. unfold loadLV. simpl. by rewrite touch_lookup. Qed.

Lemma getValueStateCopy_lookedUp V w lv w' :
  getValueStateCopy V w = Ok (lv, w') -> lookedUp w w'.
Proof.
  destruct (isStructTy (valueType (ir w) V)) eqn:Hty.
  { unfold getValueStateCopy, getValueState. mrun. by rewrite Hty. }
  rewrite (getValueStateCopy_run _ _ Hty). intros [= _ <-].
  apply lookedUp_touch.
Qed.

Lemma getValueStateCopy_entry V w lv w' :
  getValueStateCopy V w = Ok (lv, w') ->
  ValueState (solver w') !! V = Some lv.
Proof.
  destruct (isStructTy (valueType (ir w) V)) eqn:Hty.
  { unfold getValueStateCopy, getValueState. mrun. by rewrite Hty. }
  rewrite (getValueStateCopy_run _ _ Hty). intros [= <- <-].
  apply touch_lookup.
Qed.

Lemma markForcedConstant_undefined V C w :
  ValueState (solver w) !! V = Some undefined ->
  markForcedConstant V C w <> Err (AssertFailed ForceDefined).
Proof.
  intros Hl Herr.
  destruct (isStructTy (valueType (ir w) V)) eqn:Hty.
  - revert Herr. unfold markForcedConstant. mrun. by rewrite Hty.
  - destruct (markForcedConstant_run V C w Hty) as (w' & Hr & _);
      [by rewrite Hl|congruence].
Qed.

Section ForcesResolve.
Variable lib : Folder.

Lemma forced_undefined V C w :
  ValueState (solver w) !! V = Some undefined ->
  (markForcedConstant V C ;; ret true) w <> Err (AssertFailed ForceDefined).
Proof using Type.
  intros Hl Herr. apply bind_err in Herr as [Herr|(a & w' & _ & Herr)];
    [by eapply markForcedConstant_undefined|done].
Qed.

Lemma overdefined_forced V w :
  (markOverdefined V ;; ret true) w <> Err (AssertFailed ForceDefined).
Proof using Type.
  assert (H : forcesOnlyUndefined (markOverdefined V ;; ret true))
    by fo_auto.
  apply H.
Qed.

Lemma either_forced V (c : bool) lv w :
  ValueState (solver w) !! V = Some undefined ->
  ((if c then do C <- liftRes (LV.getConstant lv); markForcedConstant V C
    else markOverdefined V) ;; ret true) w
  <> Err (AssertFailed ForceDefined).
Proof using Type.
  intros Hl Herr. apply bind_err in Herr as [Herr|(a & w' & _ & Herr)];
    [|done].
  destruct c; [|by eapply (fo_markOverdefined V)].
  apply bind_err in Herr as [Herr|(C & w' & H1 & Herr)].
  - by eapply (fo_liftRes _ (LV_getConstant_fault lv)).
  - unfold liftRes in H1. destruct (LV.getConstant lv); [|done].
    injection H1 as _ <-. by eapply markForcedConstant_undefined.
Qed.

(** The instruction step: [I] is forced after the test
    [if (!LV.isUndefined()) continue], and the look-ups in between leave
    its state alone. *)
Lemma fo_resolveUndefInst I : forcesOnlyUndefined (resolveUndefInst lib I).
Proof using Type.
  intros w. unfold resolveUndefInst. mrun.
  destruct (isVoidTy (valueType (ir w) I)); [done|]. mrun.
  destruct (asInstruction (ir w) I) as [[p k]|]; [|done].
  destruct (asStructType (valueType (ir w) I)) as [elts|] eqn:Hs.
  { match goal with
    | |- ?m w <> _ => assert (H : forcesOnlyUndefined m) by fo_auto
    end.
    apply H. }
  assert (HtI : isStructTy (valueType (ir w) I) = false)
    by (by destruct (valueType (ir w) I)).
  rewrite (bind_ok _ _ _ _ _ (getValueState_run I w HtI)). mrun.
  rewrite touch_load.
  pose proof (touch_lookup I w) as Hl0.
  destruct (peekValueState w I); try done. cbn [LV.isUndefined negb].
  set (w0 := touch I w) in *.
  destruct (getOperands k !! 0) as [Op0|]; [|done]. mrun.
  destruct (isStructTy (valueType (ir w0) Op0)) eqn:Ht0; [done|].
  rewrite (bind_ok _ _ _ _ _ (getValueStateCopy_run Op0 w0 Ht0)).
  pose proof (lookedUp_entry _ _ _ _ (lookedUp_touch Op0 w0) Hl0) as Hl1.
  set (w1 := touch Op0 w0) in *.
  intros Herr. apply bind_err in Herr as [Herr|(Op1LV & w2 & H2 & Herr)].
  { revert Herr.
    match goal with
    | |- ?m w1 = _ -> _ => assert (H : forcesOnlyUndefined m) by fo_auto
    end.
    apply H. }
  assert (Hl2 : ValueState (solver w2) !! I = Some undefined).
  { revert H2. destruct (decide (length (getOperands k) = 2)).
    2:{ by intros [= _ <-]. }
    destruct (getOperands k !! 1) as [Op1|]; [|done]. mrun.
    destruct (isStructTy (valueType (ir w1) Op1)); [by intros [= _ <-]|].
    intros H2. apply bind_inv in H2 as (l & w3 & H3 & H4).
    apply getValueStateCopy_lookedUp in H3.
    pose proof (lookedUp_entry _ _ _ _ H3 Hl1) as Hl3.
    by destruct (LV.isUndefined (peekValueState w0 Op0) && LV.isUndefined l);
      injection H4 as _ <-. }
  destruct Op1LV as [Op1LV|]; [|done].
  revert Herr.
  destruct k as [| | | | | | | | |op ?| |op ? ?| | | | | | | | | | | | |];
    try done; try destruct op; try done;
    try (by apply forced_undefined);
    try (by apply overdefined_forced);
    try (match goal with
         | |- (if ?c then _ else _) _ = _ -> _ => destruct c; [done|]
         end);
    try (by apply forced_undefined);
    try (by apply either_forced).
  (* select *)
  intros Herr. apply bind_err in Herr as [Herr|(sel & w3 & H3 & Herr)].
  { revert Herr.
    match goal with
    | |- ?m w2 = _ -> _ => assert (H : forcesOnlyUndefined m) by fo_auto
    end.
    apply H. }
  assert (Hl3 : ValueState (solver w3) !! I = Some undefined).
  { revert H3.
    repeat match goal with
           | |- context [if ?c then _ else _] => destruct c
           end;
      try (by intros [= _ <-]);
      intros H3; apply bind_inv in H3 as (l & w4 & H4 & H5);
      apply getValueStateCopy_lookedUp in H4;
      pose proof (lookedUp_entry _ _ _ _ H4 Hl2) as Hl4;
      revert H5; try destruct (LV.isUndefined l); by intros [= _ <-]. }
  destruct sel as [sel|]; [|done]. revert Herr. by apply either_forced.
Qed.
Hint Resolve fo_resolveUndefInst : forces.

Lemma fo_resolveUndefInsts insts :
  forcesOnlyUndefined (resolveUndefInsts lib insts).
Proof using Type.
  induction insts as [|Inst rest IH]; cbn [resolveUndefInsts]; fo_auto.
Qed.
Hint Resolve fo_resolveUndefInsts : forces.

Lemma fo_markEdgeExecutable_visit depth Source Dest :
  forcesOnlyUndefined (markEdgeExecutable lib (visit lib depth) Source Dest).
Proof using Type. apply fo_markEdgeExecutable, fo_visit. Qed.
Hint Resolve fo_markEdgeExecutable_visit fo_Solve : forces.

(** The terminator check: the condition is forced after the test
    [if (!getValueState(BI->getCondition()).isUndefined()) continue]. *)
Lemma fo_resolveUndefTerminator depth BB :
  forcesOnlyUndefined (resolveUndefTerminator lib depth BB).
Proof using Type.
  intros w. unfold resolveUndefTerminator. mrun.
  destruct (getTerminator (ir w) BB) as [[TI k]|]; [|done].
  assert (Hcond : forall Cond C (rewrite : M bool),
            forcesOnlyUndefined rewrite ->
            (do lv <- getValueStateCopy Cond;
             if negb (LV.isUndefined lv) then ret false
             else if isUndefValue (ir w) Cond then rewrite
             else markForcedConstant Cond C ;; ret true) w
            <> Err (AssertFailed ForceDefined)).
  { intros Cond C rw Hrw Herr.
    apply bind_err in Herr as [Herr|(lv & w1 & H1 & Herr)];
      [by eapply (fo_getValueStateCopy Cond)|].
    apply getValueStateCopy_entry in H1.
    destruct lv; try done. cbn [LV.isUndefined negb] in Herr.
    destruct (isUndefValue (ir w) Cond); [by eapply Hrw|].
    by eapply forced_undefined. }
  destruct k as [| | |Cond ? ?|Cond ? [|[CaseValue1 Successor1] ?]
                | | | | | | | | | | | | | | | | | | | |];
    try done; apply Hcond; fo_auto.
Qed.
Hint Resolve fo_resolveUndefTerminator : forces.

Lemma fo_resolveUndefBlocks depth blocks :
  forcesOnlyUndefined (resolveUndefBlocks lib depth blocks).
Proof using Type.
  induction blocks as [|BB rest IH]; cbn [resolveUndefBlocks]; fo_auto.
Qed.
Hint Resolve fo_resolveUndefBlocks : forces.

Lemma fo_ResolvedUndefsIn depth F :
  forcesOnlyUndefined (ResolvedUndefsIn lib depth F).
Proof using Type. unfold ResolvedUndefsIn. fo_auto. Qed.
Hint Resolve fo_ResolvedUndefsIn : forces.

Lemma fo_solveLoop depth fuel rounds F :
  forcesOnlyUndefined (solveLoop lib depth fuel rounds F).
Proof using Type.
  induction rounds as [|r IH]; cbn [solveLoop]; fo_auto.
Qed.
Hint Resolve fo_solveLoop : forces.

Lemma fo_runSolver depth fuel rounds F :
  forcesOnlyUndefined (runSolver lib depth fuel rounds F).
Proof using Type. unfold runSolver. fo_auto. Qed.

End ForcesResolve.

(** *** The reference held by [visitBinaryOperator]

    On [gPhiStale] the sum of the two PHI nodes folds to 5.  With 38
    arguments the two look-ups of the loop bring [ValueState] to 46 and 47
    entries and the result is recorded; with 39 the second look-up makes the
    48th entry, the map reallocates, and [markConstant(IV, ...)] goes through
    the reference taken before the loop. *)
Lemma visitBinaryOperator_reference_example :
  Examples.finalState
    (runSolver Examples.exFolder 5 200 10 200
       (Examples.start (Examples.gPhiStale 36))) 15%positive
  = Some (constant 1005)
  /\ runSolver Examples.exFolder 5 200 10 200
       (Examples.start (Examples.gPhiStale 37))
     = Err DanglingReference.
Proof. split; vm_compute; reflexivity. Qed.
(** C2: lattice values only move up.  Each [LatticeVal] operation that
    succeeds keeps the state or moves it up in the order
    undefined < constant/forcedconstant < overdefined; nothing moves a state
    out of [overdefined]; [markForcedConstant] succeeds only on [undefined],
    and fails its assertion on any other state; over [Solve],
    [ResolvedUndefsIn] and a whole run, the state recorded for a value, once
    there, stays or moves up; and none of the three ever fails that
    assertion, from any state: [markForcedConstant] is only ever applied to
    a state that is undefined. *)
Theorem C2_monotone (lib : Folder) (depth : nat) :
  (forall lv, LV.le lv (LV.markOverdefined lv).2)
  /\ (forall lv C r, LV.markConstant lv C = Ok r -> LV.le lv r.2)
  /\ (forall lv C lv', LV.markForcedConstant lv C = Ok lv' ->
        lv = undefined /\ lv' = forcedconstant C)
  /\ (forall a b, LV.le a b -> LV.rank a <= LV.rank b)
  /\ (LV.markOverdefined overdefined = (false, overdefined)
      /\ (forall C, LV.markConstant overdefined C
                    = Err (AssertFailed OverdefinedToConstant))
      /\ (forall C, LV.markForcedConstant overdefined C
                    = Err (AssertFailed ForceDefined)))
  /\ (forall s s' V lv,
        states_le s s' -> ValueState s !! V = Some lv ->
        exists lv', ValueState s' !! V = Some lv' /\ LV.rank lv <= LV.rank lv')
  /\ (forall fuel w w',
        Solve lib depth fuel w = Ok (tt, w') ->
        states_le (solver w) (solver w'))
  /\ (forall F w b w',
        ResolvedUndefsIn lib depth F w = Ok (b, w') ->
        states_le (solver w) (solver w'))
  /\ (forall fuel rounds F w w',
        runSolver lib depth fuel rounds F w = Ok (tt, w') ->
        states_le (solver w) (solver w'))
  /\ (forall lv C, lv <> undefined ->
        LV.markForcedConstant lv C = Err (AssertFailed ForceDefined))
  /\ (forall fuel w,
        Solve lib depth fuel w <> Err (AssertFailed ForceDefined))
  /\ (forall F w,
        ResolvedUndefsIn lib depth F w <> Err (AssertFailed ForceDefined))
  /\ (forall fuel rounds F w,
        runSolver lib depth fuel rounds F w
        <> Err (AssertFailed ForceDefined)).
Proof.
  repeat match goal with |- _ /\ _ => split end.
  - apply LV_markOverdefined_le.
  - apply LV_markConstant_le.
  - intros lv C lv' H. destruct lv; cbv in H; by simplify_eq.
  - apply LV_le_rank.
  - done.
  - done.
  - done.
  - intros s s' V lv (Hv & _) Hl. specialize (Hv V). rewrite Hl in Hv.
    destruct (ValueState s' !! V) as [lv'|]; [|done].
    exists lv'. split; [done|]. by apply LV_le_rank.
  - intros fuel w w' Hrun. by apply steady_Solve in Hrun as [_ H].
  - intros F w b w'. apply rising_ResolvedUndefsIn.
  - intros fuel rounds F w w'. apply rising_runSolver.
  - intros lv C Hlv. by destruct lv.
  - intros fuel. apply fo_Solve.
  - intros F. apply fo_ResolvedUndefsIn.
  - intros fuel rounds F. apply fo_runSolver.
Qed.

Lemma C2_monotone_witness :
  exists w' lv',
    runSolver Examples.exFolder 5 50 10 200
      (Examples.start (Examples.gJoin 1001 1002)) = Ok (tt, w')
    /\ ValueState (solver w') !! 13%positive = Some lv'
    /\ LV.rank undefined <= LV.rank lv'.
Proof.
  destruct (runSolver Examples.exFolder 5 50 10 200
              (Examples.start (Examples.gJoin 1001 1002)))
    as [[[] w']|f] eqn:Hrun; [|vm_compute in Hrun; discriminate].
  destruct (C2_monotone Examples.exFolder 5)
    as (_ & _ & _ & _ & _ & _ & _ & _ & Hmono & _).
  pose proof (Hmono 50 10 200%positive _ _ Hrun) as Hle.
  assert (Hl : is_Some (ValueState (solver w') !! 13%positive)).
  { revert Hrun. vm_compute. intros [= <-]. eauto. }
  destruct Hl as [lv' Hl]. exists w', lv'.
  split; [done|]. split; [done|]. simpl. lia.
Defined.

(** * Further properties of the solver *)

(** ** The work lists of [Solve] *)

Lemma Solve_run_empty lib depth n w :
  workListsEmpty (solver w) -> Solve lib depth (S n) w = Ok (tt, w).
Proof.
  intros (Hb & Hi & Ho). cbn [Solve]. mrun. by rewrite Hb, Hi, Ho.
Qed.

Lemma Solve_ends_empty lib depth fuel :
  forall w w', Solve lib depth fuel w = Ok (tt, w') ->
               workListsEmpty (solver w').
Proof.
  induction fuel as [|n IH]; intros w w'; cbn [Solve]; [done|].
  mrun.
  destruct (BBWorkList (solver w)) as [|BB bbs] eqn:Hb;
    destruct (InstWorkList (solver w)) as [|I insts] eqn:Hi;
    destruct (OverdefinedInstWorkList (solver w)) as [|O os] eqn:Ho;
    try (intros [= <-]; done);
    intros Hrun;
    apply bind_inv in Hrun as ([] & w1 & _ & Hrun);
    apply bind_inv in Hrun as ([] & w2 & _ & Hrun);
    apply bind_inv in Hrun as ([] & w3 & _ & Hrun);
    by apply IH in Hrun.
Qed.

(** [Solve] "process[es] the work lists until they are empty": when it
    returns, the three work lists are empty, and solving again changes
    nothing. *)
Theorem Solve_reaches_fixpoint (lib : Folder) (depth fuel : nat) (w w' : World)
    (Hrun : Solve lib depth fuel w = Ok (tt, w')) :
  BBWorkList (solver w') = []
  /\ InstWorkList (solver w') = []
  /\ OverdefinedInstWorkList (solver w') = []
  /\ forall depth' fuel', Solve lib depth' (S fuel') w' = Ok (tt, w').
Proof.
  pose proof (Solve_ends_empty _ _ _ _ _ Hrun) as He.
  destruct He as (Hb & Hi & Ho). repeat split; try done.
  intros depth' fuel'. by apply Solve_run_empty.
Qed.

(** On [gFold], from the entry block on the work list. *)
Lemma Solve_reaches_fixpoint_witness :
  let w' := Examples.worldOf (Solve Examples.exFolder 5 50 Examples.wFoldStart)
              Examples.wFoldStart in
  BBWorkList (solver Examples.wFoldStart) = [100%positive]
  /\ BBWorkList (solver w') = []
  /\ InstWorkList (solver w') = []
  /\ OverdefinedInstWorkList (solver w') = []
  /\ Solve Examples.exFolder 5 1 w' = Ok (tt, w').
Proof.
  intros w'.
  assert (Hrun : Solve Examples.exFolder 5 50 Examples.wFoldStart = Ok (tt, w'))
    by (vm_compute; reflexivity).
  destruct (Solve_reaches_fixpoint _ _ _ _ _ Hrun) as (Hb & Hi & Ho & Hs).
  split; [vm_compute; reflexivity|]. repeat split; try done.
Defined.

(** ** Relations that every step of the solver respects

    A relation between the states before and after, closed under the
    elementary updates the solver makes, holds over each of its methods and
    over [Solve], [ResolvedUndefsIn] and a whole run. *)

Lemma preserves_ext {R : World -> World -> Prop} {A} (m m' : M A) :
  (forall w, m w = m' w) -> preserves R m -> preserves R m'.
Proof. intros E Hm w a w' Hrun. rewrite <- E in Hrun. by eapply Hm. Qed.

Lemma preserves_weaken {R R' : World -> World -> Prop} {A} (m : M A) :
  (forall w w', R w w' -> R' w w') -> preserves R m -> preserves R' m.
Proof. intros HRR Hm w a w' Hrun. by eapply HRR, Hm. Qed.

Lemma getValueState_ref V w r w' :
  getValueState V w = Ok (r, w') -> r = InValueState V.
Proof.
  destruct (isStructTy (valueType (ir w) V)) eqn:Hty.
  { unfold getValueState. mrun. by rewrite Hty. }
  destruct (ValueState (solver w) !! V) eqn:E.
  - rewrite (getValueState_present _ _ _ Hty E). by intros [= <- _].
  - rewrite (getValueState_absent _ _ Hty E). by intros [= <- _].
Qed.

Lemma getStructValueState_ref lib V i w r w' :
  getStructValueState lib V i w = Ok (r, w') -> r = InStructValueState V i.
Proof.
  unfold getStructValueState. mrun.
  destruct (asStructType (valueType (ir w) V)) as [elts|]; [|done].
  destruct (bool_decide (i < length elts)); [|done]. mrun.
  destruct (StructValueState (solver w) !! (V, i)); [by intros [= <- _]|].
  mrun. intros Hrun.
  repeat match type of Hrun with
         | context [match ?x with _ => _ end] => destruct x; try done
         end;
    repeat (apply bind_inv in Hrun as (? & ? & _ & Hrun));
    by injection Hrun as <- _.
Qed.

Section LatticeLookups.
Context {R : World -> World -> Prop} (HQ : closedUnderLatticeUpdates R).

Lemma closed_storeLV IV lv :
  isGlobalRef IV = false -> preserves R (modify (storeLV IV lv)).
Proof using HQ.
  destruct IV; try done; intros _.
  - apply (cl_ValueState R HQ (alter (fun _ => lv) V)).
  - apply (cl_StructValueState R HQ (alter (fun _ => lv) (V, i))).
  - apply (cl_TrackedRetVals R HQ).
  - apply (cl_TrackedMultipleRetVals R HQ).
Qed.

Lemma closed_getValueState V : preserves R (getValueState V).
Proof using HQ.
  intros w a w' Hrun.
  destruct (isStructTy (valueType (ir w) V)) eqn:Hty.
  { unfold getValueState in Hrun. revert Hrun. mrun. by rewrite Hty. }
  destruct (ValueState (solver w) !! V) eqn:E.
  - rewrite (getValueState_present _ _ _ Hty E) in Hrun.
    injection Hrun as _ <-. apply (cl_refl R HQ).
  - rewrite (getValueState_absent _ _ Hty E) in Hrun.
    injection Hrun as _ <-.
    by apply (cl_ValueState R HQ (insert V (seedOf (ir w) V)) w tt).
Qed.

Lemma closed_bind_getValueState {B} V (k : LVRef -> M B) :
  preserves R (k (InValueState V)) -> preserves R (bind (getValueState V) k).
Proof using HQ.
  intros Hk w b w'' Hrun. apply bind_inv in Hrun as (r & w' & H1 & H2).
  rewrite (getValueState_ref _ _ _ _ H1) in H2.
  eapply (cl_trans R HQ); [by eapply closed_getValueState|by eapply Hk].
Qed.

Lemma closed_getStructValueState lib V i :
  preserves R (getStructValueState lib V i).
Proof using HQ.
  intros w a w' Hrun.
  destruct (valueType (ir w) V) as [| | |?|?|elts|? ?|? ?|] eqn:Hty;
    try (unfold getStructValueState in Hrun; revert Hrun; mrun;
         by rewrite Hty).
  destruct (decide (i < length elts)) as [Hi|Hi].
  2:{ unfold getStructValueState in Hrun. revert Hrun. mrun. rewrite Hty.
      simpl. by rewrite bool_decide_false. }
  destruct (StructValueState (solver w) !! (V, i)) eqn:E.
  - unfold getStructValueState in Hrun. revert Hrun. mrun. rewrite Hty.
    simpl. rewrite bool_decide_true by done. mrun. rewrite E.
    intros [= _ <-]. apply (cl_refl R HQ).
  - rewrite (getStructValueState_absent lib w V elts i Hty Hi E _ eq_refl)
      in Hrun.
    match type of Hrun with
    | match ?seed with Ok _ => _ | Err _ => _ end = _ =>
        destruct seed as [lv|]; [|done]
    end.
    injection Hrun as _ <-.
    by apply (cl_StructValueState R HQ (insert (V, i) lv) w tt).
Qed.

Lemma closed_bind_getStructValueState {B} lib V i (k : LVRef -> M B) :
  preserves R (k (InStructValueState V i)) ->
  preserves R (bind (getStructValueState lib V i) k).
Proof using HQ.
  intros Hk w b w'' Hrun. apply bind_inv in Hrun as (r & w' & H1 & H2).
  rewrite (getStructValueState_ref _ _ _ _ _ _ H1) in H2.
  eapply (cl_trans R HQ); [by eapply closed_getStructValueState|by eapply Hk].
Qed.

End LatticeLookups.

Create HintDb closed.

(** One step of a proof that a computation respects a relation closed under
    the lattice updates: the computation is taken apart along its binds and
    case distinctions. *)
Ltac lattice_step HQ :=
  lazymatch goal with
  | |- preserves _ (bind (getValueState _) _) =>
      apply (closed_bind_getValueState HQ)
  | |- preserves _ (bind (getStructValueState _ _ _) _) =>
      apply (closed_bind_getStructValueState HQ)
  | |- preserves _ (bind (mergeInValue_at (InTrackedGlobals _) _ _) _) =>
      apply (cl_mergeIntoTrackedGlobal _ HQ)
  | |- preserves _ (bind _ _) =>
      apply (preserves_bind (cl_trans _ HQ)); [|intros ?]
  | |- preserves _ (ret _) => apply (preserves_ret (cl_refl _ HQ))
  | |- preserves _ (fail _) => apply preserves_fail
  | |- preserves _ (assert _ _) => apply (preserves_assert (cl_refl _ HQ))
  | |- preserves _ (liftRes _) => apply (preserves_liftRes (cl_refl _ HQ))
  | |- preserves _ getIR => apply (preserves_getIR (cl_refl _ HQ))
  | |- preserves _ getSolver => apply (preserves_getSolver (cl_refl _ HQ))
  | |- preserves _ (gets _) => apply (preserves_gets (cl_refl _ HQ))
  | |- preserves _ (getType _) => apply (preserves_getType (cl_refl _ HQ))
  | |- preserves _ (LV_getConstantInt _) =>
      apply (preserves_LV_getConstantInt (cl_refl _ HQ))
  | |- preserves _ (modify (set_ValueState _)) => apply (cl_ValueState _ HQ)
  | |- preserves _ (modify (set_StructValueState _)) =>
      apply (cl_StructValueState _ HQ)
  | |- preserves _ (modify (set_InstWorkList _)) =>
      apply (cl_InstWorkList _ HQ)
  | |- preserves _ (modify (set_OverdefinedInstWorkList _)) =>
      apply (cl_OverdefinedInstWorkList _ HQ)
  | |- preserves _ (modify (set_TrackedMultipleRetVals (orInsertDefault _))) =>
      apply (cl_TrackedMultipleRetVals_default _ HQ)
  | |- preserves _ (modify (storeLV _ _)) =>
      apply (closed_storeLV HQ); first [reflexivity | assumption]
  | |- preserves _ (InsertInOverdefinedPHIs _ _) => apply (cl_Insert _ HQ)
  | |- preserves _ (RemoveFromOverdefinedPHIs _ _) => apply (cl_Remove _ HQ)
  | |- preserves _ (forEach _ _) =>
      apply (preserves_forEach (cl_refl _ HQ) (cl_trans _ HQ)); intros ?
  | |- preserves _ (if ?b then _ else _) => destruct b
  | |- preserves _ (match ?x with _ => _ end) => destruct x
  | |- preserves _ (let _ := _ in _) => cbv zeta
  | |- _ => solve [eauto with closed]
  end.

Section LatticeClosure.
Context {R : World -> World -> Prop} (HQ : closedUnderLatticeUpdates R).

Local Ltac go := repeat lattice_step HQ.

Hint Resolve closed_getValueState closed_getStructValueState : closed.

Lemma closed_LV_markOverdefined IV :
  isGlobalRef IV = false -> preserves R (LV_markOverdefined IV).
Proof using HQ. intros H. unfold LV_markOverdefined. go. Qed.

Lemma closed_LV_markConstant IV C :
  isGlobalRef IV = false -> preserves R (LV_markConstant IV C).
Proof using HQ. intros H. unfold LV_markConstant. go. Qed.

Lemma closed_LV_markForcedConstant IV C :
  isGlobalRef IV = false -> preserves R (LV_markForcedConstant IV C).
Proof using HQ. intros H. unfold LV_markForcedConstant. go. Qed.
Hint Resolve closed_LV_markOverdefined closed_LV_markConstant
  closed_LV_markForcedConstant : closed.

Lemma closed_markConstant_at IV V C :
  isGlobalRef IV = false -> preserves R (markConstant_at IV V C).
Proof using HQ. intros H. unfold markConstant_at. go. Qed.

Lemma closed_markOverdefined_at IV V :
  isGlobalRef IV = false -> preserves R (markOverdefined_at IV V).
Proof using HQ. intros H. unfold markOverdefined_at. go. Qed.
Hint Resolve closed_markConstant_at closed_markOverdefined_at : closed.

Lemma closed_markConstant V C : preserves R (markConstant V C).
Proof using HQ. unfold markConstant. go. Qed.

Lemma closed_markForcedConstant V C : preserves R (markForcedConstant V C).
Proof using HQ. unfold markForcedConstant. go. Qed.

Lemma closed_markOverdefined V : preserves R (markOverdefined V).
Proof using HQ. unfold markOverdefined. go. Qed.

Lemma closed_mergeInValue_at IV V lv :
  isGlobalRef IV = false -> preserves R (mergeInValue_at IV V lv).
Proof using HQ. intros H. unfold mergeInValue_at. go. Qed.
Hint Resolve closed_markConstant closed_markForcedConstant
  closed_markOverdefined closed_mergeInValue_at : closed.

Lemma closed_mergeInValue V lv : preserves R (mergeInValue V lv).
Proof using HQ. unfold mergeInValue. go. Qed.

Lemma closed_getValueStateCopy V : preserves R (getValueStateCopy V).
Proof using HQ. unfold getValueStateCopy. go. Qed.

Lemma closed_getStructValueStateCopy lib V i :
  preserves R (getStructValueStateCopy lib V i).
Proof using HQ. unfold getStructValueStateCopy. go. Qed.

Lemma closed_markAnythingOverdefined lib V :
  preserves R (markAnythingOverdefined lib V).
Proof using HQ. unfold markAnythingOverdefined. go. Qed.
Hint Resolve closed_mergeInValue closed_getValueStateCopy
  closed_getStructValueStateCopy closed_markAnythingOverdefined : closed.

Lemma closed_getFeasibleSuccessors TI Succs :
  preserves R (getFeasibleSuccessors TI Succs).
Proof using HQ. unfold getFeasibleSuccessors. go. Qed.

Lemma closed_isEdgeFeasible From To : preserves R (isEdgeFeasible From To).
Proof using HQ. unfold isEdgeFeasible. go. Qed.
Hint Resolve closed_getFeasibleSuccessors closed_isEdgeFeasible : closed.

Lemma closed_visitPHINode_operands PN parent incoming :
  forall OperandVal,
    preserves R (visitPHINode_operands PN parent incoming OperandVal).
Proof using HQ.
  induction incoming as [|[V BB] rest IH]; intros OperandVal;
    cbn [visitPHINode_operands]; go.
Qed.

Lemma closed_visitReturnInst lib I parent rv :
  preserves R (visitReturnInst lib I parent rv).
Proof using HQ. unfold visitReturnInst. go. Qed.

Lemma closed_visitCastInst lib I op v : preserves R (visitCastInst lib I op v).
Proof using HQ. unfold visitCastInst. go. Qed.

Lemma closed_visitExtractValueInst lib EVI AggVal idxs :
  preserves R (visitExtractValueInst lib EVI AggVal idxs).
Proof using HQ. unfold visitExtractValueInst. go. Qed.

Lemma closed_visitInsertValueInst lib IVI Aggr Val idxs :
  preserves R (visitInsertValueInst lib IVI Aggr Val idxs).
Proof using HQ. unfold visitInsertValueInst. go. Qed.

Lemma closed_visitSelectInst lib I c t f :
  preserves R (visitSelectInst lib I c t f).
Proof using HQ. unfold visitSelectInst. go. Qed.

Lemma closed_getIncomingValueForBlock incoming BB :
  preserves R (getIncomingValueForBlock incoming BB).
Proof using HQ. unfold getIncomingValueForBlock. go. Qed.
Hint Resolve closed_getIncomingValueForBlock : closed.

Lemma closed_foldOverPHIs fold inc1 inc2 :
  forall Result, preserves R (foldOverPHIs fold inc1 inc2 Result).
Proof using HQ.
  induction inc1 as [|[V1 InBlock] rest IH]; intros Result;
    cbn [foldOverPHIs]; go.
Qed.
Hint Resolve closed_foldOverPHIs : closed.

Lemma closed_visitBinaryOperator lib I op a b :
  preserves R (visitBinaryOperator lib I op a b).
Proof using HQ. unfold visitBinaryOperator. go. Qed.

Lemma closed_visitCmpInst lib I p a b :
  preserves R (visitCmpInst lib I p a b).
Proof using HQ. unfold visitCmpInst. go. Qed.

Lemma closed_collectConstantOperands I ops :
  forall Operands, preserves R (collectConstantOperands I ops Operands).
Proof using HQ.
  induction ops as [|V rest IH]; intros Operands;
    cbn [collectConstantOperands]; go.
Qed.
Hint Resolve closed_collectConstantOperands : closed.

Lemma closed_visitGetElementPtrInst lib I ops :
  preserves R (visitGetElementPtrInst lib I ops).
Proof using HQ. unfold visitGetElementPtrInst. go. Qed.

Lemma closed_visitStoreInst SI Val Ptr :
  preserves R (visitStoreInst SI Val Ptr).
Proof using HQ. unfold visitStoreInst. go. Qed.

Lemma closed_visitLoadInst lib I Ptr vol :
  preserves R (visitLoadInst lib I Ptr vol).
Proof using HQ. unfold visitLoadInst. go. Qed.

Lemma closed_CallOverdefined lib I F args :
  preserves R (CallOverdefined lib I F args).
Proof using HQ. unfold CallOverdefined. go. Qed.

Lemma closed_propagateArguments lib F formals :
  forall actuals, preserves R (propagateArguments lib F formals actuals).
Proof using HQ.
  induction formals as [|AI rest IH]; intros actuals;
    cbn [propagateArguments]; go.
Qed.

Lemma closed_resolveUndefInst lib I : preserves R (resolveUndefInst lib I).
Proof using HQ. unfold resolveUndefInst. go. Qed.
Hint Resolve closed_resolveUndefInst : closed.

Lemma closed_resolveUndefInsts lib insts :
  preserves R (resolveUndefInsts lib insts).
Proof using HQ.
  induction insts as [|I rest IH]; cbn [resolveUndefInsts]; go.
Qed.

End LatticeClosure.

#[local] Hint Resolve closed_getValueState closed_getStructValueState
  closed_markConstant_at closed_markOverdefined_at
  closed_markConstant closed_markForcedConstant closed_markOverdefined
  closed_mergeInValue_at closed_mergeInValue closed_getValueStateCopy
  closed_getStructValueStateCopy closed_markAnythingOverdefined
  closed_getFeasibleSuccessors closed_isEdgeFeasible
  closed_visitPHINode_operands closed_visitReturnInst closed_visitCastInst
  closed_visitExtractValueInst closed_visitInsertValueInst
  closed_visitSelectInst closed_visitBinaryOperator closed_visitCmpInst
  closed_visitGetElementPtrInst closed_visitStoreInst closed_visitLoadInst
  closed_CallOverdefined closed_propagateArguments closed_resolveUndefInst
  closed_resolveUndefInsts cl_lattice : closed.

(** The same for a relation closed under all the updates. *)
Ltac closed_step HR :=
  lazymatch goal with
  | |- preserves _ (MarkBlockExecutable _) =>
      apply (cl_MarkBlockExecutable _ HR)
  | |- preserves _ (modify (set_BBWorkList tail)) =>
      apply (cl_BBWorkList_tail _ HR)
  | |- preserves _ (modifyIR _) => apply (cl_setCondition _ HR)
  | |- _ => lattice_step (cl_lattice _ HR)
  end.

Section Closure.
Context {R : World -> World -> Prop} (HR : closedUnderUpdates R).

Local Ltac go := repeat closed_step HR.

Section ClosedVisitors.
Variable lib : Folder.
Variable visit : Value -> M unit.
Hypothesis Hvisit : forall I, preserves R (visit I).

Lemma closed_visitPHINode PN : preserves R (visitPHINode lib visit PN).
Proof using HR Hvisit. unfold visitPHINode. go. Qed.
Hint Resolve closed_visitPHINode : closed.

Lemma closed_visitLeadingPHIs insts :
  preserves R (visitLeadingPHIs lib visit insts).
Proof using HR Hvisit.
  induction insts as [|PN rest IH]; cbn [visitLeadingPHIs]; go.
Qed.
Hint Resolve closed_visitLeadingPHIs : closed.

Lemma closed_markEdgeExecutable Source Dest :
  preserves R (markEdgeExecutable lib visit Source Dest).
Proof using HR Hvisit.
  unfold markEdgeExecutable. closed_step HR; [go|]. closed_step HR.
  { go. }
  eapply preserves_ext.
  { intros w. symmetry. apply run_assoc. }
  apply (preserves_bind (cl_trans _ (cl_lattice _ HR)));
    [apply (cl_recordEdge _ HR)|].
  intros fresh. go.
Qed.
Hint Resolve closed_markEdgeExecutable : closed.

Lemma closed_visitTerminatorInst TI :
  preserves R (visitTerminatorInst lib visit TI).
Proof using HR Hvisit. unfold visitTerminatorInst. go. Qed.

Lemma closed_visitCallSite I callee args :
  preserves R (visitCallSite lib I callee args).
Proof using HR. unfold visitCallSite. go. Qed.
Hint Resolve closed_visitTerminatorInst closed_visitCallSite : closed.

Lemma closed_visitInst I : preserves R (visitInst lib visit I).
Proof using HR Hvisit. unfold visitInst, visitInstruction. go. Qed.

End ClosedVisitors.

Section ClosedSolve.
Variable lib : Folder.

Lemma closed_visit depth : forall I, preserves R (visit lib depth I).
Proof using HR.
  induction depth as [|d IH]; intros I; cbn [visit].
  - apply preserves_fail.
  - by apply closed_visitInst.
Qed.
Hint Resolve closed_visit : closed.

Lemma closed_OperandChangedState depth I :
  preserves R (OperandChangedState lib depth I).
Proof using HR. unfold OperandChangedState. go. Qed.
Hint Resolve closed_OperandChangedState : closed.

Lemma closed_notifyUsers depth V : preserves R (notifyUsers lib depth V).
Proof using HR. unfold notifyUsers. go. Qed.
Hint Resolve closed_notifyUsers : closed.

Lemma closed_drainOverdefinedInstWorkList depth fuel :
  preserves R (drainOverdefinedInstWorkList lib depth fuel).
Proof using HR.
  induction fuel as [|n IH]; cbn [drainOverdefinedInstWorkList]; go.
Qed.

Lemma closed_drainInstWorkList depth fuel :
  preserves R (drainInstWorkList lib depth fuel).
Proof using HR.
  induction fuel as [|n IH]; cbn [drainInstWorkList]; go.
Qed.

Lemma closed_drainBBWorkList depth fuel :
  preserves R (drainBBWorkList lib depth fuel).
Proof using HR.
  induction fuel as [|n IH]; cbn [drainBBWorkList]; go.
Qed.
Hint Resolve closed_drainOverdefinedInstWorkList closed_drainInstWorkList
  closed_drainBBWorkList : closed.

Lemma closed_Solve depth fuel : preserves R (Solve lib depth fuel).
Proof using HR.
  induction fuel as [|n IH]; cbn [Solve]; go.
Qed.

Lemma closed_resolveUndefTerminator depth BB :
  preserves R (resolveUndefTerminator lib depth BB).
Proof using HR.
  unfold resolveUndefTerminator. go;
    apply closed_markEdgeExecutable; apply closed_visit.
Qed.
Hint Resolve closed_resolveUndefTerminator : closed.

Lemma closed_resolveUndefBlocks depth blocks :
  preserves R (resolveUndefBlocks lib depth blocks).
Proof using HR.
  induction blocks as [|BB rest IH]; cbn [resolveUndefBlocks]; go.
Qed.

Lemma closed_ResolvedUndefsIn depth F :
  preserves R (ResolvedUndefsIn lib depth F).
Proof using HR.
  unfold ResolvedUndefsIn. go. apply closed_resolveUndefBlocks.
Qed.

Lemma closed_solveLoop depth fuel rounds F :
  preserves R (solveLoop lib depth fuel rounds F).
Proof using HR.
  induction rounds as [|r IH]; cbn [solveLoop]; go.
  - apply closed_Solve.
  - apply closed_ResolvedUndefsIn.
Qed.

Lemma closed_runSolver depth fuel rounds F :
  preserves R (runSolver lib depth fuel rounds F).
Proof using HR.
  unfold runSolver. go. apply closed_solveLoop.
Qed.

End ClosedSolve.

End Closure.

(** ** Frames and invariants of the solver *)

(** One step of a proof that a computation respects a relation, for a
    computation written with the monad's primitives only. *)
Ltac rel_step_or Hrefl Htrans modtac fin :=
  lazymatch goal with
  | |- preserves _ (bind _ _) => apply (preserves_bind Htrans); [|intros ?]
  | |- preserves _ (ret _) => apply (preserves_ret Hrefl)
  | |- preserves _ (fail _) => apply preserves_fail
  | |- preserves _ (assert _ _) => apply (preserves_assert Hrefl)
  | |- preserves _ (liftRes _) => apply (preserves_liftRes Hrefl)
  | |- preserves _ getIR => apply (preserves_getIR Hrefl)
  | |- preserves _ getSolver => apply (preserves_getSolver Hrefl)
  | |- preserves _ (gets _) => apply (preserves_gets Hrefl)
  | |- preserves _ (getType _) => apply (preserves_getType Hrefl)
  | |- preserves _ (modify _) => modtac
  | |- preserves _ (if ?b then _ else _) => destruct b
  | |- preserves _ (match ?x with _ => _ end) => destruct x
  | |- preserves _ (let _ := _ in _) => cbv zeta
  | |- _ => fin
  end.

Ltac rel_step Hrefl Htrans modtac := rel_step_or Hrefl Htrans modtac fail.

Ltac unfold_marking :=
  unfold mergeIntoTrackedGlobal, InsertInOverdefinedPHIs,
    RemoveFromOverdefinedPHIs, recordEdge, MarkBlockExecutable,
    mergeInValue_at, markOverdefined_at, markConstant_at,
    LV_markOverdefined, LV_markConstant.

Lemma keeps_refl P w : keeps P w w.
Proof. by intros H. Qed.

Lemma keeps_trans P w1 w2 w3 : keeps P w1 w2 -> keeps P w2 w3 -> keeps P w1 w3.
Proof. unfold keeps. auto. Qed.

Lemma quiet_refl w : quiet w w.
Proof. by repeat split. Qed.

Lemma quiet_trans w1 w2 w3 : quiet w1 w2 -> quiet w2 w3 -> quiet w1 w3.
Proof.
  intros (?&?&?&?&?&?) (?&?&?&?&?&?). repeat split; congruence.
Qed.

Lemma sameTable_refl w : sameTable w w.
Proof. done. Qed.

Lemma sameTable_trans w1 w2 w3 :
  sameTable w1 w2 -> sameTable w2 w3 -> sameTable w1 w3.
Proof. unfold sameTable. congruence. Qed.

Ltac frame_modify := intros ? ? ? [= _ <-]; repeat split; reflexivity.

Lemma quiet_lattice : closedUnderLatticeUpdates quiet.
Proof.
  split; try apply quiet_refl; try apply quiet_trans; intros;
    try frame_modify; unfold_marking;
    repeat rel_step quiet_refl quiet_trans frame_modify.
Qed.

Lemma sameTable_mergeIntoTrackedGlobal GV v :
  preserves sameTable (mergeIntoTrackedGlobal GV v).
Proof.
  unfold_marking; repeat rel_step sameTable_refl sameTable_trans frame_modify.
Qed.

(** A relation that holds over every quiet step is closed under the lattice
    updates. *)
Lemma lattice_of_quiet (R : World -> World -> Prop) :
  (forall w, R w w) ->
  (forall w1 w2 w3, R w1 w2 -> R w2 w3 -> R w1 w3) ->
  (forall w w', quiet w w' -> R w w') ->
  closedUnderLatticeUpdates R.
Proof.
  intros Hrefl Htrans Hq.
  split; try done; intros; eapply preserves_weaken; try exact Hq;
    apply quiet_lattice.
Qed.

(** *** Executable blocks, the block work list and the feasible edges *)

Lemma bookkeeping_quiet w w' :
  quiet w w' -> keeps executableBookkeeping w w'.
Proof.
  intros (_ & Hb & Hw & Hk & _) [H1 H2].
  split; intros *; rewrite ?Hb, ?Hw, ?Hk; eauto.
Qed.

Lemma bookkeeping_MarkBlockExecutable BB :
  preserves (keeps executableBookkeeping) (MarkBlockExecutable BB).
Proof.
  intros w b w'. unfold MarkBlockExecutable. mrun.
  destruct (decide (BB ∈ BBExecutable (solver w))) as [Hin|Hnin].
  { intros [= _ <-]. apply keeps_refl. }
  mrun. intros [= _ <-] [H1 H2]. destruct (solver w); simpl in *.
  split.
  - intros B [->|HB]%elem_of_cons; [set_solver|]. apply H1 in HB. set_solver.
  - intros S D HS. apply H2 in HS. set_solver.
Qed.

Lemma bookkeeping_recordEdge S D :
  preserves (keeps executableBookkeeping) (recordEdge S D).
Proof.
  intros w b w'. unfold recordEdge, MarkBlockExecutable. mrun.
  destruct (decide (D ∈ _)) as [Hin|Hnin]; mrun; intros [= _ <-] [H1 H2];
    destruct (solver w); simpl in *; split.
  - done.
  - intros S' D' [HS|HS]%elem_of_union; [|by eapply H2].
    apply elem_of_singleton in HS as [= -> ->]. done.
  - intros B [->|HB]%elem_of_cons; [set_solver|]. apply H1 in HB. set_solver.
  - intros S' D' [HS|HS]%elem_of_union; [|apply H2 in HS; set_solver].
    apply elem_of_singleton in HS as [= -> ->]. set_solver.
Qed.

Lemma bookkeeping_closed : closedUnderUpdates (keeps executableBookkeeping).
Proof.
  split.
  - apply lattice_of_quiet;
      [apply keeps_refl|apply keeps_trans|apply bookkeeping_quiet].
  - apply bookkeeping_MarkBlockExecutable.
  - apply bookkeeping_recordEdge.
  - intros w [] w' [= <-] [H1 H2].
    destruct (solver w) as [? ? ? ? ? ? ? ? ? ? wl ? ?].
    simpl in *. split; [|done].
    intros BB HB. apply H1. destruct wl; [done|]. by apply list_elem_of_further.
  - intros TI C w [] w' [= <-]. by intros H.
Qed.

(** *** Tracked globals *)

Ltac keeps_same := intros ? ? ? [= _ <-] ?; assumption.

Lemma mergeInValue_at_global_others GV v :
  preserves
    (fun w w' => forall GV', GV' <> GV ->
       TrackedGlobals (solver w') !! GV' = TrackedGlobals (solver w) !! GV')
    (mergeInValue_at (InTrackedGlobals GV) GV v).
Proof.
  unfold_marking;
    repeat rel_step
      (fun (w : World) (GV' : Value) (_ : GV' <> GV) =>
         @eq_refl _ (TrackedGlobals (solver w) !! GV'))
      (fun (w1 w2 w3 : World)
           (H1 : forall GV', GV' <> GV ->
                 TrackedGlobals (solver w2) !! GV'
                 = TrackedGlobals (solver w1) !! GV')
           (H2 : forall GV', GV' <> GV ->
                 TrackedGlobals (solver w3) !! GV'
                 = TrackedGlobals (solver w2) !! GV')
           (GV' : Value) (Hne : GV' <> GV) =>
         eq_trans (H2 GV' Hne) (H1 GV' Hne))
      ltac:(intros ? ? ? [= _ <-] GV' Hne; simpl;
            rewrite ?lookup_alter_ne by done; reflexivity).
Qed.

Lemma trackedGlobals_mergeIntoTrackedGlobal GV v :
  preserves (keeps trackedGlobalsDefined) (mergeIntoTrackedGlobal GV v).
Proof.
  intros w [] w' Hrun HP. unfold mergeIntoTrackedGlobal in Hrun.
  apply bind_inv in Hrun as ([] & w1 & H1 & H2).
  apply mergeInValue_at_global_others in H1. revert H2. mrun.
  destruct (LV.isOverdefined (loadLV (InTrackedGlobals GV) (solver w1)))
    eqn:E; intros [= <-]; intros GV' lv Hl.
  - simpl in Hl. rewrite lookup_delete in Hl. case_decide; [done|].
    rewrite H1 in Hl by done. by eapply HP.
  - destruct (decide (GV' = GV)) as [->|Hne].
    + unfold loadLV in E. simpl in E. rewrite Hl in E. by intros ->.
    + rewrite H1 in Hl by done. by eapply HP.
Qed.

Lemma trackedGlobals_closed : closedUnderUpdates (keeps trackedGlobalsDefined).
Proof.
  split; [split|..]; try apply keeps_refl; try apply keeps_trans;
    try apply trackedGlobals_mergeIntoTrackedGlobal; intros;
    try keeps_same; unfold_marking;
    repeat rel_step (keeps_refl trackedGlobalsDefined)
      (keeps_trans trackedGlobalsDefined) keeps_same.
Qed.

(** *** The table of users of overdefined PHIs *)

Lemma usersOf_elem PN I tbl : I ∈ usersOf PN tbl <-> (PN, I) ∈ tbl.
Proof.
  unfold usersOf. rewrite list_elem_of_fmap. split.
  - intros ([p i] & -> & [Hp Hin]%list_elem_of_filter). simpl in *. by subst.
  - intros Hin. exists (PN, I). split; [done|].
    by apply list_elem_of_filter.
Qed.

Lemma noDup_closed :
  closedUnderUpdates (keeps (fun s => NoDup (UsersOfOverdefinedPHIs s))).
Proof.
  split; [split|..]; try apply keeps_refl; try apply keeps_trans; intros;
    try keeps_same.
  - (* InsertInOverdefinedPHIs *)
    intros w [] w'. unfold InsertInOverdefinedPHIs. mrun.
    destruct (bool_decide _) eqn:E; [intros [= <-]; apply keeps_refl|].
    intros [= <-] HP. simpl. destruct (solver w); simpl in *.
    apply NoDup_app. split; [done|]. split; [|apply NoDup_singleton].
    intros x Hx ->%list_elem_of_singleton.
    apply bool_decide_eq_false in E. apply E. by apply usersOf_elem.
  - (* RemoveFromOverdefinedPHIs *)
    intros w [] w' [= <-] HP. simpl. destruct (solver w); simpl in *.
    by apply NoDup_filter.
  - intros w [] w' Hrun HP.
    by rewrite (sameTable_mergeIntoTrackedGlobal _ _ _ _ _ Hrun).
  - unfold_marking;
      repeat rel_step (keeps_refl (fun s => NoDup (UsersOfOverdefinedPHIs s)))
        (keeps_trans (fun s => NoDup (UsersOfOverdefinedPHIs s))) keeps_same.
  - unfold_marking;
      repeat rel_step (keeps_refl (fun s => NoDup (UsersOfOverdefinedPHIs s)))
        (keeps_trans (fun s => NoDup (UsersOfOverdefinedPHIs s))) keeps_same.
Qed.

(** *** What is tracked *)

Lemma sameTracking_refl w : sameTracking w w.
Proof. by repeat split. Qed.

Lemma sameTracking_trans w1 w2 w3 :
  sameTracking w1 w2 -> sameTracking w2 w3 -> sameTracking w1 w3.
Proof.
  intros (Ha & Hb & Hc & Hd) (Ha' & Hb' & Hc' & Hd').
  repeat split; try congruence. by etrans.
Qed.

Ltac tracking_modify :=
  intros ? ? ? [= _ <-]; repeat split; simpl;
  rewrite ?dom_alter_L, ?dom_delete_L;
  first [reflexivity | by apply subseteq_difference_l].

Lemma sameTracking_closed : closedUnderUpdates sameTracking.
Proof.
  split; [split|..]; try apply sameTracking_refl;
    try apply sameTracking_trans; intros;
    try tracking_modify; unfold_marking;
    repeat rel_step sameTracking_refl sameTracking_trans tracking_modify.
Qed.

(** ** Invariants of a run *)

Lemma closed_over_run (R : World -> World -> Prop) (lib : Folder)
    (depth : nat) (w w' : World) :
  closedUnderUpdates R ->
  (forall fuel, Solve lib depth fuel w = Ok (tt, w') -> R w w')
  /\ (forall F b, ResolvedUndefsIn lib depth F w = Ok (b, w') -> R w w')
  /\ (forall fuel rounds F,
        runSolver lib depth fuel rounds F w = Ok (tt, w') -> R w w').
Proof.
  intros HR. split; [|split].
  - intros fuel. apply (closed_Solve HR).
  - intros F b. apply (closed_ResolvedUndefsIn HR).
  - intros fuel rounds F. apply (closed_runSolver HR).
Qed.

(** Every block on the block work list is executable, and so is the
    destination of every edge known to be feasible: [Solve],
    [ResolvedUndefsIn] and the solving loop of [runOnFunction] keep it so. *)
Theorem executable_bookkeeping_kept (lib : Folder) (depth : nat)
    (w w' : World) (Hinv : executableBookkeeping (solver w)) :
  (forall fuel, Solve lib depth fuel w = Ok (tt, w') ->
                executableBookkeeping (solver w'))
  /\ (forall F b, ResolvedUndefsIn lib depth F w = Ok (b, w') ->
                  executableBookkeeping (solver w'))
  /\ (forall fuel rounds F,
        runSolver lib depth fuel rounds F w = Ok (tt, w') ->
        executableBookkeeping (solver w')).
Proof.
  destruct (closed_over_run _ lib depth w w' bookkeeping_closed)
    as (H1 & H2 & H3).
  split; [|split].
  - intros fuel Hrun. exact (H1 fuel Hrun Hinv).
  - intros F b Hrun. exact (H2 F b Hrun Hinv).
  - intros fuel rounds F Hrun. exact (H3 fuel rounds F Hrun Hinv).
Qed.

(** A run on [gPhiSum] from a fresh solver. *)
Lemma executable_bookkeeping_kept_witness :
  executableBookkeeping
    (solver (Examples.worldOf
               (runSolver Examples.exFolder 5 50 10 200
                  (Examples.start Examples.gPhiSum))
               (Examples.start Examples.gPhiSum))).
Proof.
  assert (Hinv : executableBookkeeping
                   (solver (Examples.start Examples.gPhiSum))).
  { split; simpl; intros *; [intros []%elem_of_nil|intros []%elem_of_empty]. }
  destruct (executable_bookkeeping_kept Examples.exFolder 5 _
              (Examples.worldOf
                 (runSolver Examples.exFolder 5 50 10 200
                    (Examples.start Examples.gPhiSum))
                 (Examples.start Examples.gPhiSum)) Hinv) as (_ & _ & H).
  apply (H 50 10 200%positive). vm_compute. reflexivity.
Defined.

(** No tracked global is ever recorded as overdefined: the entry of a
    global that becomes overdefined is erased by [visitStoreInst], and
    nothing else writes to [TrackedGlobals].  [Solve], [ResolvedUndefsIn]
    and the solving loop keep it so, which is what the client's
    [assert(!I->second.isOverdefined() && "Overdefined values should have
    been taken out of the map!")] relies on. *)
Theorem tracked_globals_never_overdefined (lib : Folder) (depth : nat)
    (w w' : World) (Hinv : trackedGlobalsDefined (solver w)) :
  (forall fuel, Solve lib depth fuel w = Ok (tt, w') ->
                trackedGlobalsDefined (solver w'))
  /\ (forall F b, ResolvedUndefsIn lib depth F w = Ok (b, w') ->
                  trackedGlobalsDefined (solver w'))
  /\ (forall fuel rounds F,
        runSolver lib depth fuel rounds F w = Ok (tt, w') ->
        trackedGlobalsDefined (solver w')).
Proof.
  destruct (closed_over_run _ lib depth w w' trackedGlobals_closed)
    as (H1 & H2 & H3).
  split; [|split].
  - intros fuel Hrun. exact (H1 fuel Hrun Hinv).
  - intros F b Hrun. exact (H2 F b Hrun Hinv).
  - intros fuel rounds F Hrun. exact (H3 fuel rounds F Hrun Hinv).
Qed.

(** On [gGlobal 7]: the global is tracked with initial value 5, the store
    of 7 makes it overdefined, and its entry is gone at the end. *)
Lemma tracked_globals_never_overdefined_witness :
  TrackedGlobals (solver (Examples.wGlobal 1007))
  = {[400%positive := constant 1005]}
  /\ trackedGlobalsDefined
       (solver (Examples.worldOf
                  (runSolver Examples.exFolder 5 50 10 200
                     (Examples.wGlobal 1007))
                  (Examples.wGlobal 1007))).
Proof.
  assert (E : TrackedGlobals (solver (Examples.wGlobal 1007))
              = {[400%positive := constant 1005]})
    by (vm_compute; reflexivity).
  split; [exact E|].
  assert (Hinv : trackedGlobalsDefined (solver (Examples.wGlobal 1007))).
  { intros GV lv. rewrite E. intros [_ <-]%lookup_singleton_Some. done. }
  destruct (tracked_globals_never_overdefined Examples.exFolder 5 _
              (Examples.worldOf
                 (runSolver Examples.exFolder 5 50 10 200
                    (Examples.wGlobal 1007))
                 (Examples.wGlobal 1007)) Hinv) as (_ & _ & H).
  apply (H 50 10 200%positive). vm_compute. reflexivity.
Defined.

(** [InsertInOverdefinedPHIs] "insert[s] an entry [...] but if one is there
    already, do[es] not create another": the table of users of overdefined
    PHIs never holds an entry twice, over [Solve], [ResolvedUndefsIn] and the
    solving loop. *)
Theorem users_of_overdefined_PHIs_no_duplicates (lib : Folder) (depth : nat)
    (w w' : World) (Hinv : NoDup (UsersOfOverdefinedPHIs (solver w))) :
  (forall fuel, Solve lib depth fuel w = Ok (tt, w') ->
                NoDup (UsersOfOverdefinedPHIs (solver w')))
  /\ (forall F b, ResolvedUndefsIn lib depth F w = Ok (b, w') ->
                  NoDup (UsersOfOverdefinedPHIs (solver w')))
  /\ (forall fuel rounds F,
        runSolver lib depth fuel rounds F w = Ok (tt, w') ->
        NoDup (UsersOfOverdefinedPHIs (solver w'))).
Proof.
  destruct (closed_over_run _ lib depth w w' noDup_closed) as (H1 & H2 & H3).
  split; [|split].
  - intros fuel Hrun. exact (H1 fuel Hrun Hinv).
  - intros F b Hrun. exact (H2 F b Hrun Hinv).
  - intros fuel rounds F Hrun. exact (H3 fuel rounds F Hrun Hinv).
Qed.

(** On [gPhiSum] the sum 15 is registered once with each of the PHI
    nodes 13 and 14. *)
Lemma users_of_overdefined_PHIs_no_duplicates_witness :
  UsersOfOverdefinedPHIs
    (solver (Examples.worldOf
               (runSolver Examples.exFolder 5 50 10 200
                  (Examples.start Examples.gPhiSum))
               (Examples.start Examples.gPhiSum)))
  = [(13, 15); (14, 15)]%positive
  /\ NoDup (UsersOfOverdefinedPHIs
              (solver (Examples.worldOf
                         (runSolver Examples.exFolder 5 50 10 200
                            (Examples.start Examples.gPhiSum))
                         (Examples.start Examples.gPhiSum)))).
Proof.
  split; [vm_compute; reflexivity|].
  destruct (users_of_overdefined_PHIs_no_duplicates Examples.exFolder 5
              (Examples.start Examples.gPhiSum)
              (Examples.worldOf
                 (runSolver Examples.exFolder 5 50 10 200
                    (Examples.start Examples.gPhiSum))
                 (Examples.start Examples.gPhiSum)) (NoDup_nil_2 (A:=Value * Value)))
    as (_ & _ & H).
  apply (H 50 10 200%positive). vm_compute. reflexivity.
Defined.

(** What is tracked is fixed before solving: [Solve], [ResolvedUndefsIn]
    and the solving loop leave [MRVFunctionsTracked] and
    [TrackingIncomingArguments] as they are, keep the set of functions with
    an entry in [TrackedRetVals], and never add a global to
    [TrackedGlobals]. *)
Theorem tracking_is_fixed (lib : Folder) (depth : nat) (w w' : World) :
  (forall fuel, Solve lib depth fuel w = Ok (tt, w') -> sameTracking w w')
  /\ (forall F b, ResolvedUndefsIn lib depth F w = Ok (b, w') ->
                  sameTracking w w')
  /\ (forall fuel rounds F,
        runSolver lib depth fuel rounds F w = Ok (tt, w') ->
        sameTracking w w').
Proof. apply closed_over_run, sameTracking_closed. Qed.

(** On [gGlobal 7] the tracked global 400 is dropped and nothing else
    changes. *)
Lemma tracking_is_fixed_witness :
  sameTracking (Examples.wGlobal 1007)
    (Examples.worldOf
       (runSolver Examples.exFolder 5 50 10 200 (Examples.wGlobal 1007))
       (Examples.wGlobal 1007)).
Proof.
  destruct (tracking_is_fixed Examples.exFolder 5 (Examples.wGlobal 1007)
              (Examples.worldOf
                 (runSolver Examples.exFolder 5 50 10 200
                    (Examples.wGlobal 1007))
                 (Examples.wGlobal 1007))) as (_ & _ & H).
  apply (H 50 10 200%positive). vm_compute. reflexivity.
Defined.

(** ** What a result of [ResolvedUndefsIn] tells *)

#[local] Hint Resolve steady_refl steady_trans steady_MarkBlockExecutable
  steady_LV_markOverdefined steady_LV_markConstant
  steady_LV_markForcedConstant steady_markConstant_at steady_markConstant
  steady_markForcedConstant steady_markOverdefined_at steady_markOverdefined
  steady_mergeInValue_at steady_mergeInValue steady_getValueState
  steady_getValueStateCopy steady_getStructValueState
  steady_getStructValueStateCopy steady_markAnythingOverdefined : steady.

Lemma steady_entry w w' V :
  steady w w' -> is_Some (ValueState (solver w) !! V) ->
  is_Some (ValueState (solver w') !! V).
Proof.
  intros [_ (Hv & _)] [lv Hl]. specialize (Hv V). rewrite Hl in Hv.
  destruct (ValueState (solver w') !! V); [eauto|done].
Qed.

Lemma getValueState_entry V w r w' :
  getValueState V w = Ok (r, w') -> is_Some (ValueState (solver w') !! V).
Proof.
  destruct (isStructTy (valueType (ir w) V)) eqn:Hty.
  { unfold getValueState. mrun. by rewrite Hty. }
  destruct (ValueState (solver w) !! V) eqn:E.
  - rewrite (getValueState_present _ _ _ Hty E). intros [= _ <-]. eauto.
  - rewrite (getValueState_absent _ _ Hty E). intros [= _ <-]. simpl.
    rewrite lookup_insert_eq. eauto.
Qed.

Section Resolved.
Variable lib : Folder.

Lemma resolveUndefInst_looks_up I w b w' :
  resolveUndefInst lib I w = Ok (b, w') ->
  isVoidTy (valueType (ir w) I) = false ->
  isStructTy (valueType (ir w) I) = false ->
  is_Some (ValueState (solver w') !! I).
Proof using Type.
  intros Hrun Hvoid Hstruct. unfold resolveUndefInst in Hrun.
  revert Hrun. mrun. rewrite Hvoid. mrun.
  destruct (asInstruction (ir w) I) as [[p k]|]; [|done].
  destruct (valueType (ir w) I) eqn:Hty; try done; cbn [asStructType];
    intros Hrun; apply bind_inv in Hrun as (r & w0 & H1 & H2);
    apply getValueState_entry in H1;
    (eapply steady_entry; [|exact H1]);
    match type of H2 with
    | ?k ?w0 = _ => assert (Hk : preserves steady k) by steady_auto
    end; by eapply Hk.
Qed.

Lemma resolveUndefInsts_false insts :
  forall w w',
    resolveUndefInsts lib insts w = Ok (false, w') ->
    quiet w w' /\ steady w w'
    /\ forall I, I ∈ insts ->
         isVoidTy (valueType (ir w) I) = false ->
         isStructTy (valueType (ir w) I) = false ->
         is_Some (ValueState (solver w') !! I).
Proof using Type.
  induction insts as [|I rest IH]; intros w w'; cbn [resolveUndefInsts].
  { intros [= <-]. split; [apply quiet_refl|]. split; [apply steady_refl|].
    by intros I []%elem_of_nil. }
  intros Hrun. apply bind_inv in Hrun as (r & w1 & H1 & H2).
  destruct r; [done|].
  pose proof (closed_resolveUndefInst quiet_lattice lib I _ _ _ H1) as Hq1.
  pose proof (steady_resolveUndefInst lib I _ _ _ H1) as Hs1.
  destruct (IH _ _ H2) as (Hq2 & Hs2 & Hrest).
  split; [by eapply quiet_trans|]. split; [by eapply steady_trans|].
  intros J [->|HJ]%elem_of_cons Hvoid Hstruct.
  - eapply steady_entry; [exact Hs2|].
    by eapply resolveUndefInst_looks_up.
  - destruct Hs1 as [Hi1 _]. apply Hrest; by rewrite ?Hi1.
Qed.

Lemma resolveUndefTerminator_false depth BB w w' :
  resolveUndefTerminator lib depth BB w = Ok (false, w') ->
  quiet w w' /\ steady w w'.
Proof using Type.
  unfold resolveUndefTerminator. mrun.
  destruct (getTerminator (ir w) BB) as [[TI k]|]; [|done].
  assert (Hret : ret false w = Ok (false, w') -> quiet w w' /\ steady w w').
  { intros [= <-]. split; [apply quiet_refl|apply steady_refl]. }
  assert (Hcond : forall Cond (k' : M bool),
            (forall w1 w2, k' w1 = Ok (false, w2) -> False) ->
            (do lv <- getValueStateCopy Cond;
             if negb (LV.isUndefined lv) then ret false else k') w
            = Ok (false, w') -> quiet w w' /\ steady w w').
  { intros Cond k' Hk' Hrun.
    apply bind_inv in Hrun as (lv & w1 & H1 & H2).
    destruct (LV.isUndefined lv); cbn [negb] in H2.
    { by apply Hk' in H2. }
    injection H2 as <-. split.
    - by eapply (closed_getValueStateCopy quiet_lattice).
    - by eapply steady_getValueStateCopy. }
  destruct k; try exact Hret.
  - apply Hcond. intros w1 w2. destruct (isUndefValue (ir w) cond); mrun;
      intros Hrun;
      apply bind_inv in Hrun as ([] & w3 & _ & Hrun); done.
  - destruct cases as [|[CaseValue1 Successor1] rest]; [exact Hret|].
    apply Hcond. intros w1 w2. destruct (isUndefValue (ir w) cond); mrun;
      intros Hrun;
      apply bind_inv in Hrun as ([] & w3 & _ & Hrun); done.
Qed.

Lemma resolveUndefBlocks_false depth blocks :
  forall w w',
    resolveUndefBlocks lib depth blocks w = Ok (false, w') ->
    quiet w w' /\ steady w w'
    /\ forall BB I, BB ∈ blocks -> BB ∈ BBExecutable (solver w) ->
         I ∈ blockInsts (ir w) BB ->
         isVoidTy (valueType (ir w) I) = false ->
         isStructTy (valueType (ir w) I) = false ->
         is_Some (ValueState (solver w') !! I).
Proof using Type.
  induction blocks as [|BB rest IH]; intros w w'; cbn [resolveUndefBlocks].
  { intros [= <-]. split; [apply quiet_refl|]. split; [apply steady_refl|].
    by intros BB I []%elem_of_nil. }
  mrun.
  destruct (bool_decide (BB ∈ BBExecutable (solver w))) eqn:Hex; cbn [negb].
  - apply bool_decide_eq_true in Hex. mrun. intros Hrun.
    apply bind_inv in Hrun as (r & w1 & H1 & H2). destruct r; [done|].
    apply bind_inv in H2 as (r & w2 & H2 & H3). destruct r; [done|].
    destruct (resolveUndefInsts_false _ _ _ H1) as (Hq1 & Hs1 & Hin).
    destruct (resolveUndefTerminator_false _ _ _ _ H2) as (Hq2 & Hs2).
    destruct (IH _ _ H3) as (Hq3 & Hs3 & Hrest).
    assert (Hq : quiet w w2) by (by eapply quiet_trans).
    assert (Hs : steady w w2) by (by eapply steady_trans).
    split; [by eapply quiet_trans|]. split; [by eapply steady_trans|].
    intros B I [->|HB]%elem_of_cons HBex HI Hvoid Hstruct.
    + eapply steady_entry; [eapply steady_trans; [exact Hs2|exact Hs3]|].
      by apply Hin.
    + destruct Hq as (Hi & Hb & _). apply (Hrest B); by rewrite ?Hi, ?Hb.
  - apply bool_decide_eq_false in Hex. intros Hrun.
    destruct (IH _ _ Hrun) as (Hq & Hs & Hrest).
    split; [done|]. split; [done|].
    intros B I [->|HB]%elem_of_cons HBex HI Hvoid Hstruct; [done|].
    by apply (Hrest B).
Qed.

End Resolved.

(** When [ResolvedUndefsIn] returns false it has marked no block and no
    edge and left the graph alone, and it has looked up every instruction
    of the executable blocks of the function whose type is neither void nor
    a struct: [getLatticeValueFor], with which [runOnFunction] then reads
    the result for each of them, does not fail its assertion. *)
Theorem ResolvedUndefsIn_false_looked_up_all (lib : Folder) (depth : nat)
    (F : Function) (w w' : World)
    (Hrun : ResolvedUndefsIn lib depth F w = Ok (false, w')) :
  ir w' = ir w
  /\ BBExecutable (solver w') = BBExecutable (solver w)
  /\ BBWorkList (solver w') = BBWorkList (solver w)
  /\ KnownFeasibleEdges (solver w') = KnownFeasibleEdges (solver w)
  /\ forall BB I,
       BB ∈ fBlocks (functionData (ir w) F) ->
       isBlockExecutable (solver w') BB = true ->
       I ∈ blockInsts (ir w) BB ->
       isVoidTy (valueType (ir w) I) = false ->
       isStructTy (valueType (ir w) I) = false ->
       is_Some (getLatticeValueFor (solver w') I).
Proof.
  unfold ResolvedUndefsIn in Hrun. revert Hrun. mrun. intros Hrun.
  destruct (resolveUndefBlocks_false _ _ _ _ _ Hrun)
    as ((Hi & Hb & Hw & Hk & _) & _ & Hall).
  repeat split; try done.
  intros BB I HBB Hex. apply (Hall BB I HBB).
  rewrite <- Hb. by apply bool_decide_eq_true in Hex.
Qed.

(** At the fixed point on [gFold], where the sum 10 is the only instruction
    with a value. *)
Lemma ResolvedUndefsIn_false_looked_up_all_witness :
  is_Some
    (getLatticeValueFor
       (solver (Examples.worldOf
                  (ResolvedUndefsIn Examples.exFolder 5 200 Examples.wFoldEnd)
                  Examples.wFoldEnd)) 10%positive).
Proof.
  assert (Hrun : ResolvedUndefsIn Examples.exFolder 5 200 Examples.wFoldEnd
                 = Ok (false,
                       Examples.worldOf
                         (ResolvedUndefsIn Examples.exFolder 5 200
                            Examples.wFoldEnd) Examples.wFoldEnd))
    by (vm_compute; reflexivity).
  refine (proj2 (proj2 (proj2 (proj2
            (ResolvedUndefsIn_false_looked_up_all _ _ _ _ _ Hrun))))
            100%positive 10%positive _ _ _ _ _).
  - apply (bool_decide_unpack _). vm_compute. exact I.
  - vm_compute. reflexivity.
  - apply (bool_decide_unpack _). vm_compute. exact I.
  - vm_compute. reflexivity.
  - vm_compute. reflexivity.
Defined.

(** *** A true result *)

Lemma markForcedConstant_post V C w w' :
  markForcedConstant V C w = Ok (tt, w') ->
  forcedAndQueued V (solver w').
Proof.
  intros Hrun.
  destruct (isStructTy (valueType (ir w) V)) eqn:Hty.
  { revert Hrun. unfold markForcedConstant. mrun. by rewrite Hty. }
  destruct (decide (default undefined (ValueState (solver w) !! V) = undefined))
    as [Hund|Hdef].
  - destruct (markForcedConstant_run V C w Hty Hund)
      as (w1 & Hrun1 & _ & Hl & Hwl & _).
    rewrite Hrun1 in Hrun. injection Hrun as <-.
    left. rewrite Hwl. eauto.
  - revert Hrun. unfold markForcedConstant. mrun. rewrite Hty. simpl. mrun.
    unfold LV_markForcedConstant. mrun. unfold loadLV at 1. simpl.
    rewrite lookup_orInsertDefault. simpl.
    by destruct (default undefined (ValueState (solver w) !! V)).
Qed.

Lemma markOverdefined_post V w w' :
  markOverdefined V w = Ok (tt, w') ->
  ValueState (solver w) !! V = Some undefined ->
  forcedAndQueued V (solver w').
Proof.
  unfold markOverdefined. mrun.
  destruct (isStructTy (valueType (ir w) V)); [done|]. simpl. mrun.
  intros Hrun Hl. right. revert Hrun.
  rewrite markOverdefined_at_change.
  - intros [= <-]. simpl. rewrite lookup_alter, decide_True by done.
    by rewrite lookup_orInsertDefault.
  - unfold loadLV. simpl. rewrite lookup_orInsertDefault, Hl. done.
Qed.

Section ResolvedTrue.
Variable lib : Folder.
Variables (I : Value).

Lemma end_force C (b : bool) w w' :
  (markForcedConstant I C ;; ret true) w = Ok (b, w') ->
  forcedAndQueued I (solver w').
Proof using Type.
  intros Hrun. apply bind_inv in Hrun as ([] & w1 & H1 & [= _ <-]).
  by eapply markForcedConstant_post.
Qed.

Lemma end_over (b : bool) w w' :
  (markOverdefined I ;; ret true) w = Ok (b, w') ->
  ValueState (solver w) !! I = Some undefined ->
  forcedAndQueued I (solver w').
Proof using Type.
  intros Hrun Hl. apply bind_inv in Hrun as ([] & w1 & H1 & [= _ <-]).
  by eapply markOverdefined_post.
Qed.

Lemma end_either (c : bool) lv (b : bool) w w' :
  ((if c then do C <- liftRes (LV.getConstant lv); markForcedConstant I C
    else markOverdefined I) ;; ret true) w = Ok (b, w') ->
  ValueState (solver w) !! I = Some undefined ->
  forcedAndQueued I (solver w').
Proof using Type.
  intros Hrun Hl. apply bind_inv in Hrun as ([] & w1 & H1 & [= _ <-]).
  destruct c.
  - apply bind_inv in H1 as (C & w2 & H2 & H3).
    unfold liftRes in H2. destruct (LV.getConstant lv); [|done].
    injection H2 as -> <-. by eapply markForcedConstant_post.
  - by eapply markOverdefined_post.
Qed.

Lemma resolveUndefInst_true w w' :
  resolveUndefInst lib I w = Ok (true, w') ->
  forcedAndQueued I (solver w').
Proof using Type.
  unfold resolveUndefInst. mrun.
  destruct (isVoidTy (valueType (ir w) I)); [done|]. mrun.
  destruct (asInstruction (ir w) I) as [[p k]|]; [|done].
  destruct (asStructType (valueType (ir w) I)) as [elts|].
  { intros Hrun. by apply bind_inv in Hrun as ([] & w1 & _ & [=]). }
  intros Hrun. apply bind_inv in Hrun as (r & w0 & H0 & Hrun).
  pose proof (getValueState_entry _ _ _ _ H0) as [lv0 Hl0].
  rewrite (getValueState_ref _ _ _ _ H0) in Hrun. revert Hrun. mrun.
  unfold loadLV at 1. simpl. rewrite Hl0. simpl.
  destruct lv0; try done. cbn [LV.isUndefined negb].
  destruct (getOperands k !! 0) as [Op0|]; [|done]. mrun.
  destruct (isStructTy (valueType (ir w0) Op0)); [done|].
  intros Hrun. apply bind_inv in Hrun as (Op0LV & w1 & H1 & Hrun).
  apply getValueStateCopy_lookedUp in H1.
  pose proof (lookedUp_entry _ _ _ _ H1 Hl0) as Hl1.
  apply bind_inv in Hrun as (Op1LV & w2 & H2 & Hrun).
  assert (Hl2 : ValueState (solver w2) !! I = Some undefined).
  { revert H2. destruct (decide (length (getOperands k) = 2)).
    2:{ by intros [= _ <-]. }
    destruct (getOperands k !! 1) as [Op1|]; [|done]. mrun.
    destruct (isStructTy (valueType (ir w1) Op1)); [by intros [= _ <-]|].
    intros H2. apply bind_inv in H2 as (l & w3 & H3 & H4).
    apply getValueStateCopy_lookedUp in H3.
    pose proof (lookedUp_entry _ _ _ _ H3 Hl1) as Hl3.
    by destruct (LV.isUndefined Op0LV && LV.isUndefined l);
      injection H4 as _ <-. }
  destruct Op1LV as [Op1LV|]; [|done].
  destruct k as [| | | | | | | | |op ?| |op ? ?| | | | | | | | | | | | |];
    try done; try destruct op; try done;
    try (by eapply end_force);
    try (by eapply end_over);
    try (match type of Hrun with
         | (if ?c then _ else _) _ = _ => destruct c; [done|]
         end);
    try (by eapply end_force);
    try (by eapply end_either).
  (* select *)
  apply bind_inv in Hrun as (sel & w3 & H3 & Hrun).
  assert (Hl3 : ValueState (solver w3) !! I = Some undefined).
  { revert H3.
    repeat match goal with
           | |- context [if ?c then _ else _] => destruct c
           end;
      try (by intros [= _ <-]);
      intros H3; apply bind_inv in H3 as (l & w4 & H4 & H5);
      apply getValueStateCopy_lookedUp in H4;
      pose proof (lookedUp_entry _ _ _ _ H4 Hl2) as Hl4;
      revert H5; try destruct (LV.isUndefined l); by intros [= _ <-]. }
  destruct sel as [sel|]; [|done]. by eapply end_either.
Qed.

End ResolvedTrue.

Section ResolvedTrueBlocks.
Variable lib : Folder.

Lemma resolveUndefInsts_true insts :
  forall w w',
    resolveUndefInsts lib insts w = Ok (true, w') ->
    exists I, I ∈ insts /\ forcedAndQueued I (solver w').
Proof using Type.
  induction insts as [|I rest IH]; intros w w'; cbn [resolveUndefInsts];
    [done|].
  intros Hrun. apply bind_inv in Hrun as (r & w1 & H1 & H2). destruct r.
  - injection H2 as <-. exists I. split; [apply list_elem_of_here|].
    by eapply resolveUndefInst_true.
  - destruct (IH _ _ H2) as (J & HJ & HQ). exists J.
    split; [by apply list_elem_of_further|done].
Qed.

Lemma resolveUndefTerminator_true depth BB w w' :
  resolveUndefTerminator lib depth BB w = Ok (true, w') ->
  (exists Cond, forcedAndQueued Cond (solver w'))
  \/ conditionRewritten lib (ir w) (ir w') BB.
Proof using Type.
  unfold resolveUndefTerminator. mrun.
  destruct (getTerminator (ir w) BB) as [[TI k]|] eqn:HT; [|done].
  destruct k; try done.
  - intros Hrun. apply bind_inv in Hrun as (lv & w1 & H1 & H2).
    destruct (LV.isUndefined lv); [|done]. cbn [negb] in H2.
    destruct (isUndefValue (ir w) cond) eqn:Hundef.
    + right. apply steady_getValueStateCopy in H1 as [Hi1 _].
      revert H2. mrun. intros H2.
      apply bind_inv in H2 as ([] & w3 & H3 & [= <-]).
      apply (steady_markEdgeExecutable lib _ (steady_visit lib depth))
        in H3 as [Hi3 _].
      simpl in Hi3. rewrite Hi3, Hi1.
      exists TI, (ICondBr cond ifTrue ifFalse), cond,
        (ConstantInt_getFalse lib). done.
    + left. exists cond. by eapply end_force.
  - destruct cases as [|[CaseValue1 Successor1] rest]; [done|].
    intros Hrun. apply bind_inv in Hrun as (lv & w1 & H1 & H2).
    destruct (LV.isUndefined lv); [|done]. cbn [negb] in H2.
    destruct (isUndefValue (ir w) cond) eqn:Hundef.
    + right. apply steady_getValueStateCopy in H1 as [Hi1 _].
      revert H2. mrun. intros H2.
      apply bind_inv in H2 as ([] & w3 & H3 & [= <-]).
      apply (steady_markEdgeExecutable lib _ (steady_visit lib depth))
        in H3 as [Hi3 _].
      simpl in Hi3. rewrite Hi3, Hi1.
      exists TI, (ISwitch cond defaultDest ((CaseValue1, Successor1) :: rest)),
        cond, CaseValue1. done.
    + left. exists cond. by eapply end_force.
Qed.

Lemma resolveUndefBlocks_true depth blocks :
  forall w w',
    resolveUndefBlocks lib depth blocks w = Ok (true, w') ->
    (exists V, forcedAndQueued V (solver w'))
    \/ (exists BB, BB ∈ blocks /\ conditionRewritten lib (ir w) (ir w') BB).
Proof using Type.
  induction blocks as [|BB rest IH]; intros w w'; cbn [resolveUndefBlocks];
    [done|].
  mrun.
  destruct (bool_decide (BB ∈ BBExecutable (solver w))); cbn [negb].
  2:{ intros Hrun. destruct (IH _ _ Hrun) as [H|(B & HB & Hc)]; [by left|].
      right. exists B. split; [by apply list_elem_of_further|done]. }
  mrun. intros Hrun. apply bind_inv in Hrun as (r & w1 & H1 & H2).
  destruct r.
  { injection H2 as <-. left.
    destruct (resolveUndefInsts_true _ _ _ H1) as (I & _ & HQ). eauto. }
  destruct (resolveUndefInsts_false _ _ _ _ H1) as ((Hi1 & _) & _).
  apply bind_inv in H2 as (r & w2 & H2 & H3). destruct r.
  { injection H3 as <-.
    destruct (resolveUndefTerminator_true _ _ _ _ H2) as [H|Hc]; [by left|].
    right. exists BB. split; [apply list_elem_of_here|]. by rewrite <- Hi1. }
  destruct (resolveUndefTerminator_false _ _ _ _ _ H2) as ((Hi2 & _) & _).
  destruct (IH _ _ H3) as [H|(B & HB & Hc)]; [by left|].
  right. exists B. split; [by apply list_elem_of_further|].
  by rewrite <- Hi1, <- Hi2.
Qed.

End ResolvedTrueBlocks.

(** "If this returns true, the solver should be rerun": a true result of
    [ResolvedUndefsIn] comes with a value that has just been forced and
    put on a work list (to [forcedconstant] on the instruction work list, or
    to [overdefined] on the overdefined work list), or with the condition of
    a branch or switch on the literal [undef] rewritten in the graph. *)
Theorem ResolvedUndefsIn_true_leaves_work (lib : Folder) (depth : nat)
    (F : Function) (w w' : World)
    (Hrun : ResolvedUndefsIn lib depth F w = Ok (true, w')) :
  (exists V, forcedAndQueued V (solver w'))
  \/ (exists BB, BB ∈ fBlocks (functionData (ir w) F)
                 /\ conditionRewritten lib (ir w) (ir w') BB).
Proof.
  unfold ResolvedUndefsIn in Hrun. revert Hrun. mrun.
  apply resolveUndefBlocks_true.
Qed.

(** On [gUndefBranch], at the fixed point, the branch condition 10 is
    forced. *)
Lemma ResolvedUndefsIn_true_leaves_work_witness :
  InstWorkList
    (solver (Examples.worldOf
               (ResolvedUndefsIn Examples.exFolder 5 200 Examples.wUndefBranch)
               Examples.wUndefBranch)) = [10%positive]
  /\ ((exists V,
         forcedAndQueued V
           (solver (Examples.worldOf
                      (ResolvedUndefsIn Examples.exFolder 5 200
                         Examples.wUndefBranch) Examples.wUndefBranch)))
      \/ (exists BB,
            BB ∈ fBlocks (functionData (ir Examples.wUndefBranch) 200)
            /\ conditionRewritten Examples.exFolder
                 (ir Examples.wUndefBranch)
                 (ir (Examples.worldOf
                        (ResolvedUndefsIn Examples.exFolder 5 200
                           Examples.wUndefBranch) Examples.wUndefBranch))
                 BB)).
Proof.
  split; [vm_compute; reflexivity|].
  apply (ResolvedUndefsIn_true_leaves_work Examples.exFolder 5 200%positive).
  vm_compute. reflexivity.
Defined.

(** ** Feasible edges *)

Lemma findCaseValue_filter cases C i :
  0 < i ->
  match filter (fun c : Constant * BasicBlock => c.1 = C) cases with
  | [] => findCaseValue cases C i = 0
  | (v, dest) :: _ =>
      exists j, findCaseValue cases C i = i + j
                /\ cases.*2 !! j = Some dest
  end.
Proof.
  revert i. induction cases as [|[v d] rest IH]; intros i Hi; [done|].
  rewrite filter_cons. cbn [fst findCaseValue].
  destruct (decide (v = C)) as [->|Hne].
  - exists 0. by rewrite Nat.add_0_r.
  - specialize (IH (S i) ltac:(lia)).
    destruct (filter _ rest) as [|[v' d'] ?]; [done|].
    destruct IH as (j & Hj & Hl). exists (S j). split; [lia|done].
Qed.

Lemma insert_true_spec (l : list bool) (i j : nat) :
  i < length l -> Forall (fun b => b = false) l ->
  <[i := true]> l !! j = Some true <-> j = i.
Proof.
  intros Hi Hall. split.
  - intros Hj. destruct (decide (j = i)) as [|Hne]; [done|].
    rewrite list_lookup_insert_ne in Hj by done.
    rewrite Forall_lookup in Hall. by apply Hall in Hj.
  - intros ->. by rewrite list_lookup_insert_eq.
Qed.

(** [isEdgeFeasible] and [getFeasibleSuccessors] agree: for an executable
    block [From] and a successor [To] of its terminator, the edge from
    [From] to [To] is feasible exactly when [To] is the successor at an
    index that [getFeasibleSuccessors] marks. *)
Theorem feasible_successors_agree (w : World) (From To : BasicBlock)
    (TI : Value) (k : InstKind) (succs : list BasicBlock)
    (HT : getTerminator (ir w) From = Some (TI, k))
    (Hsuccs : getSuccessors k = Some succs)
    (HFrom : From ∈ BBExecutable (solver w))
    (HTo : To ∈ BBExecutable (solver w))
    (Hchk : edgeCheckable (ir w) From)
    (Hin : To ∈ succs) :
  exists Succs w1 b w2,
    getFeasibleSuccessors TI [] w = Ok (Succs, w1)
    /\ isEdgeFeasible From To w = Ok (b, w2)
    /\ (b = true <->
        exists i, Succs !! i = Some true /\ succs !! i = Some To).
Proof.
  destruct (getTerminator_asInstruction _ _ _ _ HT) as [p HI].
  destruct (isEdgeFeasible_run w From To HTo (fun _ => Hchk))
    as (w2 & Hrun2 & _).
  unfold edgeCheckable in Hchk. rewrite HT in Hchk.
  unfold edgeFeasible in Hrun2.
  rewrite bool_decide_true, HT in Hrun2 by done. cbn [andb] in Hrun2.
  destruct k; try done; simpl in Hsuccs; injection Hsuccs as <-.
  - (* unconditional branch *)
    apply list_elem_of_singleton in Hin as ->.
    exists [true], w, true, w2. split.
    { unfold getFeasibleSuccessors. mrun. by rewrite HI. }
    split; [done|]. split; [|done]. intros _. by exists 0.
  - (* conditional branch *)
    eexists _, _, _, w2.
    split; [by eapply getFeasibleSuccessors_condbr|].
    split; [exact Hrun2|]. cbv zeta.
    destruct (constantIntOf (ir w) (peekValueState w cond)) as [CI|].
    + rewrite bool_decide_eq_true. unfold resize. simpl.
      destruct (CI_isZero (ir w) CI); simpl; split.
      * intros <-. by exists 1.
      * intros ([|[|i]] & Hi & Hs); simpl in *; by simplify_eq.
      * intros <-. by exists 0.
      * intros ([|[|i]] & Hi & Hs); simpl in *; by simplify_eq.
    + destruct (LV.isUndefined (peekValueState w cond)); simpl; split;
        try done.
      * intros ([|[|i]] & Hi & Hs); simpl in *; by simplify_eq.
      * intros _. apply list_elem_of_lookup in Hin as [i Hi].
        exists i. split; [|done].
        destruct i as [|[|i]]; simpl in *; by simplify_eq.
  - (* switch *)
    eexists _, _, _, w2.
    split; [by eapply getFeasibleSuccessors_switch|].
    split; [exact Hrun2|]. cbv zeta.
    destruct (constantIntOf (ir w) (peekValueState w cond)) as [CI|].
    + pose proof (findCaseValue_filter cases CI 1 ltac:(lia)) as Hf.
      assert (Hall : Forall (fun b => b = false)
                       (resize (S (length cases)) [])).
      { unfold resize. simpl. apply Forall_cons. split; [done|].
        apply Forall_replicate. done. }
      assert (Hlen : length (resize (S (length cases)) []) = S (length cases)).
      { unfold resize. simpl. by rewrite length_replicate. }
      destruct (filter _ cases) as [|[v dest] ?].
      * rewrite Hf, bool_decide_eq_true. split.
        -- intros <-. by exists 0.
        -- intros (i & Hi & Hs).
           apply insert_true_spec in Hi as ->; [|rewrite Hlen; lia|done].
           simpl in Hs. by simplify_eq.
      * destruct Hf as (j & -> & Hj). rewrite bool_decide_eq_true.
        assert (Hjlt : j < length cases).
        { apply lookup_lt_Some in Hj. by rewrite length_fmap in Hj. }
        split.
        -- intros <-. exists (1 + j). split; [|done].
           apply insert_true_spec; [rewrite Hlen; lia|done|done].
        -- intros (i & Hi & Hs).
           apply insert_true_spec in Hi as ->; [|rewrite Hlen; lia|done].
           simpl in Hs. by simplify_eq.
    + destruct (LV.isUndefined (peekValueState w cond)); simpl; split;
        try done.
      * intros (i & Hi & Hs).
        unfold resize in Hi. simpl in Hi.
        destruct i as [|i]; simpl in Hi; [done|].
        apply lookup_replicate in Hi as [? _]. done.
      * intros _. apply list_elem_of_lookup in Hin as [i Hi].
        exists i. split; [|done].
        pose proof (lookup_lt_Some _ _ _ Hi) as Hlt.
        simpl in Hlt. rewrite length_fmap in Hlt.
        destruct i as [|i]; [done|]. simpl.
        apply lookup_replicate. split; [done|lia].
  - (* indirect branch *)
    exists (replicate (length dests) true), w, true, w2. split.
    { unfold getFeasibleSuccessors. mrun. by rewrite HI. }
    split; [done|]. split; [|done]. intros _.
    apply list_elem_of_lookup in Hin as [i Hi]. exists i. split; [|done].
    apply lookup_replicate. split; [done|]. by eapply lookup_lt_Some.
  - (* invoke *)
    exists [true; true], w, true, w2. split.
    { unfold getFeasibleSuccessors. mrun. by rewrite HI. }
    split; [done|]. split; [|done]. intros _.
    apply list_elem_of_lookup in Hin as [i Hi]. exists i. split; [|done].
    destruct i as [|[|i]]; simpl in *; by simplify_eq.
Qed.

(** On [gDeadBranch], whose entry block branches on [true]: the edge to the
    true target 101 is feasible and its index 0 is the one marked. *)
Lemma feasible_successors_agree_witness :
  exists Succs w1 b w2,
    getFeasibleSuccessors 10 [] Examples.wDeadBranchEnd = Ok (Succs, w1)
    /\ isEdgeFeasible 100 101 Examples.wDeadBranchEnd = Ok (b, w2)
    /\ (b = true <->
        exists i, Succs !! i = Some true
                  /\ [101; 102]%positive !! i = Some 101%positive).
Proof.
  apply (feasible_successors_agree Examples.wDeadBranchEnd 100%positive
           101%positive 10%positive (ICondBr 2 101 102) [101; 102]%positive).
  - vm_compute. reflexivity.
  - reflexivity.
  - apply (bool_decide_unpack _). vm_compute. exact I.
  - apply (bool_decide_unpack _). vm_compute. exact I.
  - unfold edgeCheckable.
    assert (HT : getTerminator (ir Examples.wDeadBranchEnd) 100
                 = Some (10%positive, ICondBr 2 101 102))
      by (vm_compute; reflexivity).
    rewrite HT. vm_compute. reflexivity.
  - apply list_elem_of_here.
Defined.

(** *** Marking the feasible successors *)

Section MarkSuccessors.
Variables (lib : Folder) (depth : nat).

Lemma markEdgeExecutable_marks Source Dest w w' :
  markEdgeExecutable lib (visit lib depth) Source Dest w = Ok (tt, w') ->
  executableBookkeeping (solver w) ->
  steady w w'
  /\ executableBookkeeping (solver w')
  /\ (Source, Dest) ∈ KnownFeasibleEdges (solver w')
  /\ Dest ∈ BBExecutable (solver w').
Proof using Type.
  intros Hrun Hinv.
  pose proof (steady_markEdgeExecutable lib _ (steady_visit lib depth)
                _ _ _ _ _ Hrun) as Hs.
  pose proof (closed_markEdgeExecutable bookkeeping_closed lib _
                (closed_visit bookkeeping_closed lib depth)
                _ _ _ _ _ Hrun Hinv) as Hinv'.
  assert (Hk : (Source, Dest) ∈ KnownFeasibleEdges (solver w')).
  { eapply markEdgeExecutable_known; [apply steady_visit|done]. }
  split; [done|]. split; [done|]. split; [done|].
  by eapply (proj2 Hinv').
Qed.

Lemma markFeasible_marks BB (l : list (bool * BasicBlock)) :
  forall w w',
    forEach l (fun p => if p.1 then markEdgeExecutable lib (visit lib depth)
                                      BB p.2
                        else ret tt) w = Ok (tt, w') ->
    executableBookkeeping (solver w) ->
    steady w w'
    /\ executableBookkeeping (solver w')
    /\ forall succ, (true, succ) ∈ l ->
         (BB, succ) ∈ KnownFeasibleEdges (solver w')
         /\ succ ∈ BBExecutable (solver w').
Proof using Type.
  induction l as [|[b s] l IH]; intros w w'; cbn [forEach].
  { intros [= <-] Hinv. split; [apply steady_refl|]. split; [done|].
    by intros succ []%elem_of_nil. }
  intros Hrun Hinv. apply bind_inv in Hrun as ([] & w1 & H1 & H2).
  cbn [fst snd] in H1.
  assert (Hstep : steady w w1 /\ executableBookkeeping (solver w1)
                  /\ (b = true -> (BB, s) ∈ KnownFeasibleEdges (solver w1)
                                  /\ s ∈ BBExecutable (solver w1))).
  { destruct b.
    - destruct (markEdgeExecutable_marks _ _ _ _ H1 Hinv) as (?&?&?&?).
      done.
    - injection H1 as <-. split; [apply steady_refl|]. done. }
  destruct Hstep as (Hs1 & Hinv1 & Hb).
  destruct (IH _ _ H2 Hinv1) as (Hs2 & Hinv2 & Hrest).
  split; [by eapply steady_trans|]. split; [done|].
  intros succ [[= <- <-]|Hin]%elem_of_cons; [|by apply Hrest].
  destruct (Hb eq_refl) as [Hk He].
  destruct Hs2 as [_ (_ & _ & Hbb & Hkk)]. split; [by apply Hkk|by apply Hbb].
Qed.

End MarkSuccessors.

(** [visitTerminatorInst] "mark[s] all feasible successors executable":
    after it, every successor at an index that [getFeasibleSuccessors]
    marks is executable and the edge to it is known to be feasible.  (An
    edge that was already known is skipped; its destination is executable
    because every known edge leads to an executable block.) *)
Theorem visitTerminatorInst_marks_feasible (lib : Folder) (depth : nat)
    (TI : Value) (BB : BasicBlock) (k : InstKind) (succs : list BasicBlock)
    (w w' : World)
    (HI : asInstruction (ir w) TI = Some (BB, k))
    (Hsuccs : getSuccessors k = Some succs)
    (Hinv : executableBookkeeping (solver w))
    (Hrun : visitTerminatorInst lib (visit lib depth) TI w = Ok (tt, w')) :
  exists Succs w1,
    getFeasibleSuccessors TI [] w = Ok (Succs, w1)
    /\ forall i succ,
         Succs !! i = Some true -> succs !! i = Some succ ->
         succ ∈ BBExecutable (solver w')
         /\ (BB, succ) ∈ KnownFeasibleEdges (solver w').
Proof.
  unfold visitTerminatorInst in Hrun.
  apply bind_inv in Hrun as (Succs & w1 & H1 & H2).
  exists Succs, w1. split; [done|].
  pose proof (steady_getFeasibleSuccessors _ _ _ _ _ H1) as [Hi1 _].
  pose proof (closed_getFeasibleSuccessors
                (cl_lattice _ bookkeeping_closed) _ _ _ _ _ H1 Hinv) as Hinv1.
  revert H2. mrun. rewrite Hi1, HI, Hsuccs. cbn [default]. intros H2.
  destruct (markFeasible_marks _ _ _ _ _ _ H2 Hinv1) as (_ & _ & Hall).
  intros i succ Hi Hs.
  destruct (Hall succ) as [Hk He]; [|done].
  apply list_elem_of_lookup. exists i. apply lookup_zip_with_Some.
  eauto.
Qed.

(** On [gDeadBranch], once the entry block has been marked: the visit of
    its branch on [true] makes the true target 101 executable. *)
Lemma visitTerminatorInst_marks_feasible_witness :
  exists Succs w1,
    getFeasibleSuccessors 10 []
      (Examples.worldOf
         (MarkBlockExecutable 100 (Examples.start Examples.gDeadBranch))
         (Examples.start Examples.gDeadBranch)) = Ok (Succs, w1)
    /\ forall i succ,
         Succs !! i = Some true ->
         [101; 102]%positive !! i = Some succ ->
         succ ∈ BBExecutable
                  (solver
                     (Examples.worldOf
                        ((MarkBlockExecutable 100 ;;
                          visitTerminatorInst Examples.exFolder
                            (visit Examples.exFolder 5) 10)%sccp
                           (Examples.start Examples.gDeadBranch))
                        (Examples.start Examples.gDeadBranch)))
         /\ (100%positive, succ)
              ∈ KnownFeasibleEdges
                  (solver
                     (Examples.worldOf
                        ((MarkBlockExecutable 100 ;;
                          visitTerminatorInst Examples.exFolder
                            (visit Examples.exFolder 5) 10)%sccp
                           (Examples.start Examples.gDeadBranch))
                        (Examples.start Examples.gDeadBranch))).
Proof.
  apply (visitTerminatorInst_marks_feasible Examples.exFolder 5 10%positive
           100%positive (ICondBr 2 101 102) [101; 102]%positive).
  - vm_compute. reflexivity.
  - reflexivity.
  - assert (E1 : BBWorkList
                   (solver (Examples.worldOf
                              (MarkBlockExecutable 100
                                 (Examples.start Examples.gDeadBranch))
                              (Examples.start Examples.gDeadBranch)))
                 = [100%positive]) by (vm_compute; reflexivity).
    assert (E2 : KnownFeasibleEdges
                   (solver (Examples.worldOf
                              (MarkBlockExecutable 100
                                 (Examples.start Examples.gDeadBranch))
                              (Examples.start Examples.gDeadBranch)))
                 = ∅) by (vm_compute; reflexivity).
    split.
    + intros BB. rewrite E1. intros ->%list_elem_of_singleton.
      apply (bool_decide_unpack _). vm_compute. exact I.
    + intros S D. rewrite E2. intros []%elem_of_empty.
  - vm_compute. reflexivity.
Defined.

(** ** Transfer functions *)

Lemma lookedUp_state w w' I p k :
  lookedUp w w' -> asInstruction (ir w) I = Some (p, k) ->
  default undefined (ValueState (solver w') !! I) = peekValueState w I.
Proof.
  intros H HI. apply lookedUp_default; [done|]. by eapply seedOf_instruction.
Qed.

Lemma mergeInValue_at_run IV V mv w :
  is_Some (lookupLV IV (solver w)) ->
  exists w', mergeInValue_at IV V mv w = Ok (tt, w')
             /\ ir w' = ir w
             /\ lookupLV IV (solver w')
                = Some (merged (loadLV IV (solver w)) mv).
Proof.
  intros Hv. unfold mergeInValue_at, merged. mrun.
  assert (Hsame : lookupLV IV (solver w) = Some (loadLV IV (solver w))).
  { unfold loadLV. by destruct Hv as [x ->]. }
  destruct (LV.isOverdefined (loadLV IV (solver w))) eqn:Eo; cbn [orb].
  { by exists w. }
  destruct (LV.isUndefined mv) eqn:Eu.
  { by exists w. }
  destruct (LV.isOverdefined mv) eqn:Emo.
  { rewrite markOverdefined_at_change by (by intros E; rewrite E in Eo).
    eexists. split; [done|]. split; [done|].
    destruct Hv as [x Hx].
    destruct IV; simpl in *; rewrite lookup_alter, decide_True by done;
      by rewrite Hx. }
  destruct mv as [|c2|c2|]; try done; cbn [LV.getConstant]; mrun.
  all: destruct (loadLV IV (solver w)) as [|c1|c1|] eqn:El; try done;
    cbn [LV.isUndefined LV.getConstant]; mrun.
  all: try (pose proof (markConstant_at_run IV V c2 w Hv) as Hmc;
            rewrite El in Hmc; simpl in Hmc;
            destruct Hmc as (w' & Hrun' & Hi' & Hl'); by exists w').
  all: destruct (decide (c1 <> c2)) as [Hne|He]; [|by exists w].
  all: rewrite markOverdefined_at_change by (by rewrite El);
    eexists; (split; [done|]); (split; [done|]);
    destruct Hv as [x Hx];
    destruct IV; simpl in *; rewrite lookup_alter, decide_True by done;
      by rewrite Hx.
Qed.

Lemma mergeInValue_run V mv w :
  isStructTy (valueType (ir w) V) = false ->
  exists w', mergeInValue V mv w = Ok (tt, w')
             /\ ir w' = ir w
             /\ ValueState (solver w') !! V
                = Some (merged (default undefined (ValueState (solver w) !! V))
                          mv).
Proof.
  intros Hty. unfold mergeInValue. mrun. rewrite Hty. simpl. mrun.
  set (w1 := {| ir := ir w;
                solver := set_ValueState (orInsertDefault V) (solver w) |}).
  assert (Hv : is_Some (lookupLV (InValueState V) (solver w1))).
  { simpl. rewrite lookup_orInsertDefault. eauto. }
  destruct (mergeInValue_at_run (InValueState V) V mv w1 Hv)
    as (w' & Hrun & Hi & Hl).
  exists w'. split; [done|]. split; [done|].
  simpl in Hl. rewrite Hl. unfold loadLV. simpl.
  by rewrite lookup_orInsertDefault.
Qed.

(** The two operand look-ups and the look-up of the result that open
    [visitBinaryOperator] and [visitCmpInst]. *)
Section TwoOperands.
Variables (w : World) (I Op0 Op1 : Value) (p : BasicBlock) (k : InstKind).
Hypothesis HI : asInstruction (ir w) I = Some (p, k).
Hypothesis Hty0 : isStructTy (valueType (ir w) Op0) = false.
Hypothesis Hty1 : isStructTy (valueType (ir w) Op1) = false.

Lemma afterOperands_lookedUp : lookedUp w (touch Op1 (touch Op0 w)).
Proof using Type.
  eapply lookedUp_trans; apply lookedUp_touch.
Qed.

Lemma afterOperands_valid :
  is_Some (lookupLV (InValueState I) (solver (afterOperands w I Op0 Op1))).
Proof using Type. simpl. rewrite lookup_orInsertDefault. eauto. Qed.

Lemma afterOperands_load :
  loadLV (InValueState I) (solver (afterOperands w I Op0 Op1))
  = peekValueState w I.
Proof using HI.
  unfold loadLV. simpl. rewrite lookup_orInsertDefault. simpl.
  eapply lookedUp_state; [apply afterOperands_lookedUp|done].
Qed.

Lemma afterOperands_ir : ir (afterOperands w I Op0 Op1) = ir w.
Proof using Type. reflexivity. Qed.

Lemma afterOperands_lookup :
  ValueState (solver (afterOperands w I Op0 Op1)) !! I
  = Some (peekValueState w I).
Proof using HI.
  simpl. rewrite lookup_orInsertDefault. f_equal.
  eapply lookedUp_state; [apply afterOperands_lookedUp|done].
Qed.

Lemma markOverdefined_afterOps :
  isStructTy (valueType (ir w) I) = false ->
  leavesState (fun _ => markOverdefined I (afterOperands w I Op0 Op1)) w I
    overdefined.
Proof using Type.
  intros HtI.
  destruct (markOverdefined_run I (afterOperands w I Op0 Op1))
    as (w' & Hrun & Hi & Hl).
  { by rewrite afterOperands_ir. }
  exists w'. split; [done|]. split; [|done].
  by rewrite Hi, afterOperands_ir.
Qed.

Lemma twoOperands_run {A} (body : LatticeVal -> LatticeVal -> M A) :
  (do V1State <- getValueStateCopy Op0;
   do V2State <- getValueStateCopy Op1;
   modify (set_ValueState (orInsertDefault I)) ;;
   body V1State V2State)%sccp w
  = body (peekValueState w Op0) (peekValueState w Op1)
      (afterOperands w I Op0 Op1).
Proof using Hty0 Hty1.
  pose proof (lookedUp_touch Op0 w) as Ht0.
  rewrite (bind_ok _ _ _ _ _ (getValueStateCopy_run Op0 w Hty0)).
  rewrite (bind_ok _ _ _ _ _ (getValueStateCopy_run Op1 (touch Op0 w)
             ltac:(by rewrite (lu_ir _ _ Ht0)))).
  rewrite (lookedUp_peek _ _ _ Ht0). mrun. unfold afterOperands.
  by rewrite (lu_ir _ _ afterOperands_lookedUp).
Qed.

Lemma markConstant_at_afterOps C :
  marksConstant
    (fun _ => markConstant_at (InValueState I) I C (afterOperands w I Op0 Op1))
    w I C.
Proof using HI.
  unfold marksConstant.
  pose proof (markConstant_at_run (InValueState I) I C
                (afterOperands w I Op0 Op1)
                afterOperands_valid) as Hmc.
  rewrite afterOperands_load in Hmc.
  destruct (LV.markConstant (peekValueState w I) C) as [r|f]; [|done].
  destruct Hmc as (w' & Hrun & Hi & Hl). by exists w'.
Qed.

End TwoOperands.

Lemma getConstant_isConstant lv c :
  LV.getConstant lv = Ok c ->
  LV.isConstant lv = true /\ LV.isOverdefined lv = false
  /\ LV.isUndefined lv = false.
Proof. by destruct lv. Qed.

(** "If V <- x (op) y && isConstant(x) && isConstant(y) V = Constant": when
    the operands of a binary operator, of a comparison or of a cast hold
    constants, the visit applies [markConstant] to the result with the folded
    constant.  [visitBinaryOperator] and [visitCmpInst] leave a result that
    is already overdefined alone; [visitCastInst] does not look at the
    result first. *)
Theorem constant_operands_fold (lib : Folder) (w : World) (I : Value)
    (p : BasicBlock) :
  (forall op a b ca cb,
     asInstruction (ir w) I = Some (p, IBinary op a b) ->
     isStructTy (valueType (ir w) a) = false ->
     isStructTy (valueType (ir w) b) = false ->
     LV.getConstant (peekValueState w a) = Ok ca ->
     LV.getConstant (peekValueState w b) = Ok cb ->
     peekValueState w I <> overdefined ->
     marksConstant (visitBinaryOperator lib I op a b) w I
       (ConstantExpr_get lib op ca cb))
  /\ (forall pred a b ca cb,
        asInstruction (ir w) I = Some (p, ICmp pred a b) ->
        isStructTy (valueType (ir w) a) = false ->
        isStructTy (valueType (ir w) b) = false ->
        LV.getConstant (peekValueState w a) = Ok ca ->
        LV.getConstant (peekValueState w b) = Ok cb ->
        peekValueState w I <> overdefined ->
        marksConstant (visitCmpInst lib I pred a b) w I
          (ConstantExpr_getCompare lib pred ca cb))
  /\ (forall op v c,
        asInstruction (ir w) I = Some (p, ICast op v) ->
        isStructTy (valueType (ir w) v) = false ->
        isStructTy (valueType (ir w) I) = false ->
        LV.getConstant (peekValueState w v) = Ok c ->
        marksConstant (visitCastInst lib I op v) w I
          (ConstantExpr_getCast lib op c (valueType (ir w) I))).
Proof.
  split; [|split].
  - intros op a b ca cb HI Hta Htb Ha Hb Hiv.
    destruct (getConstant_isConstant _ _ Ha) as (Hca & _ & _).
    destruct (getConstant_isConstant _ _ Hb) as (Hcb & _ & _).
    pose proof (markConstant_at_afterOps w I a b p _ HI
                  (ConstantExpr_get lib op ca cb)) as Hmc.
    unfold marksConstant in *.
    assert (Hrun : visitBinaryOperator lib I op a b w
                   = markConstant_at (InValueState I) I
                       (ConstantExpr_get lib op ca cb)
                       (afterOperands w I a b)).
    { unfold visitBinaryOperator. rewrite (twoOperands_run w I a b Hta Htb).
      mrun. rewrite (afterOperands_load w I a b p _ HI).
      destruct (peekValueState w I); try done; cbn [LV.isOverdefined];
        rewrite Hca, Hcb, Ha, Hb; cbn [andb]; by mrun. }
    by rewrite Hrun.
  - intros pred a b ca cb HI Hta Htb Ha Hb Hiv.
    destruct (getConstant_isConstant _ _ Ha) as (Hca & _ & _).
    destruct (getConstant_isConstant _ _ Hb) as (Hcb & _ & _).
    pose proof (markConstant_at_afterOps w I a b p _ HI
                  (ConstantExpr_getCompare lib pred ca cb)) as Hmc.
    unfold marksConstant in *.
    assert (Hrun : visitCmpInst lib I pred a b w
                   = markConstant_at (InValueState I) I
                       (ConstantExpr_getCompare lib pred ca cb)
                       (afterOperands w I a b)).
    { unfold visitCmpInst. rewrite (twoOperands_run w I a b Hta Htb).
      mrun. rewrite (afterOperands_load w I a b p _ HI).
      destruct (peekValueState w I); try done; cbn [LV.isOverdefined];
        rewrite Hca, Hcb, Ha, Hb; cbn [andb]; by mrun. }
    by rewrite Hrun.
  - intros op v c HI Htv HtI Hc.
    destruct (getConstant_isConstant _ _ Hc) as (Hcc & Hco & _).
    pose proof (lookedUp_touch v w) as Ht.
    pose proof (markConstant_run I
                  (ConstantExpr_getCast lib op c (valueType (ir w) I))
                  (touch v w) ltac:(by rewrite (lu_ir _ _ Ht))) as Hmc.
    rewrite (lookedUp_state _ _ _ _ _ Ht HI) in Hmc.
    unfold marksConstant.
    assert (Hrun : visitCastInst lib I op v w
                   = markConstant I
                       (ConstantExpr_getCast lib op c (valueType (ir w) I))
                       (touch v w)).
    { unfold visitCastInst.
      rewrite (bind_ok _ _ _ _ _ (getValueStateCopy_run v w Htv)).
      rewrite Hco, Hcc, Hc. mrun. by rewrite (lu_ir _ _ Ht). }
    rewrite Hrun.
    destruct (LV.markConstant (peekValueState w I) _) as [r|f]; [|done].
    destruct Hmc as (w' & Hrun' & Hi' & Hl'). exists w'.
    split; [done|]. split; [|done]. by rewrite Hi', (lu_ir _ _ Ht).
Qed.

(** [2 + 3] on [gFold]. *)
Lemma constant_operands_fold_witness :
  marksConstant (visitBinaryOperator Examples.exFolder 10 Add 1002 1003)
    Examples.wFoldStart 10 1005.
Proof.
  assert (Hiv : peekValueState Examples.wFoldStart 10 <> overdefined)
    by (vm_compute; discriminate).
  exact (proj1 (constant_operands_fold Examples.exFolder Examples.wFoldStart
                  10%positive 100%positive)
           Add 1002%positive 1003%positive 1002%positive 1003%positive
           eq_refl eq_refl eq_refl eq_refl eq_refl Hiv).
Defined.

Lemma overdefined_not_constant lv :
  LV.isOverdefined lv = true -> LV.isConstant lv = false.
Proof. by destruct lv. Qed.

(** "Inherit overdefinedness of operand": an overdefined operand makes the
    result of a cast overdefined, and that of a binary operator other than
    [And] and [Or], or of a comparison, whose operands are not two PHI nodes
    of one block. *)
Theorem overdefined_operand_overdefined_result (lib : Folder) (w : World)
    (I : Value) (p : BasicBlock) :
  isStructTy (valueType (ir w) I) = false ->
  (forall op v,
     asInstruction (ir w) I = Some (p, ICast op v) ->
     isStructTy (valueType (ir w) v) = false ->
     peekValueState w v = overdefined ->
     leavesState (visitCastInst lib I op v) w I overdefined)
  /\ (forall op a b,
        asInstruction (ir w) I = Some (p, IBinary op a b) ->
        isStructTy (valueType (ir w) a) = false ->
        isStructTy (valueType (ir w) b) = false ->
        peekValueState w a = overdefined \/ peekValueState w b = overdefined ->
        op <> And -> op <> Or ->
        samePHIBlock (ir w) a b = None ->
        leavesState (visitBinaryOperator lib I op a b) w I overdefined)
  /\ (forall pred a b,
        asInstruction (ir w) I = Some (p, ICmp pred a b) ->
        isStructTy (valueType (ir w) a) = false ->
        isStructTy (valueType (ir w) b) = false ->
        peekValueState w a = overdefined \/ peekValueState w b = overdefined ->
        samePHIBlock (ir w) a b = None ->
        leavesState (visitCmpInst lib I pred a b) w I overdefined).
Proof.
  intros HtI. split; [|split].
  - intros op v HI Htv Hv.
    pose proof (lookedUp_touch v w) as Ht.
    destruct (markOverdefined_run I (touch v w)) as (w' & Hrun & Hi & Hl).
    { by rewrite (lu_ir _ _ Ht). }
    exists w'. split; [|split; [by rewrite Hi, (lu_ir _ _ Ht)|done]].
    unfold visitCastInst.
    rewrite (bind_ok _ _ _ _ _ (getValueStateCopy_run v w Htv)).
    by rewrite Hv.
  - intros op a b HI Hta Htb Hov HnA HnO Hphi.
    pose proof (markOverdefined_afterOps w I a b HtI) as Hmo.
    unfold leavesState in *.
    unfold visitBinaryOperator. rewrite (twoOperands_run w I a b Hta Htb).
    mrun. rewrite (afterOperands_load w I a b p _ HI).
    destruct (LV.isOverdefined (peekValueState w I)) eqn:Eiv.
    { exists (afterOperands w I a b). split; [done|]. split; [done|].
      rewrite (afterOperands_lookup w I a b p _ HI).
      by destruct (peekValueState w I). }
    assert (Hc : LV.isConstant (peekValueState w a)
                 && LV.isConstant (peekValueState w b) = false).
    { destruct Hov as [-> | ->]; [done|]. apply andb_false_r. }
    assert (Ho : negb (LV.isOverdefined (peekValueState w a))
                 && negb (LV.isOverdefined (peekValueState w b)) = false).
    { destruct Hov as [-> | ->]; [done|]. apply andb_false_r. }
    rewrite Hc, Ho.
    rewrite !bool_decide_eq_false_2 by done. cbn [orb]. mrun.
    rewrite afterOperands_ir, Hphi. exact Hmo.
  - intros pred a b HI Hta Htb Hov Hphi.
    pose proof (markOverdefined_afterOps w I a b HtI) as Hmo.
    unfold leavesState in *.
    unfold visitCmpInst. rewrite (twoOperands_run w I a b Hta Htb).
    mrun. rewrite (afterOperands_load w I a b p _ HI).
    destruct (LV.isOverdefined (peekValueState w I)) eqn:Eiv.
    { exists (afterOperands w I a b). split; [done|]. split; [done|].
      rewrite (afterOperands_lookup w I a b p _ HI).
      by destruct (peekValueState w I). }
    assert (Hc : LV.isConstant (peekValueState w a)
                 && LV.isConstant (peekValueState w b) = false).
    { destruct Hov as [-> | ->]; [done|]. apply andb_false_r. }
    assert (Ho : negb (LV.isOverdefined (peekValueState w a))
                 && negb (LV.isOverdefined (peekValueState w b)) = false).
    { destruct Hov as [-> | ->]; [done|]. apply andb_false_r. }
    rewrite Hc, Ho. mrun.
    rewrite afterOperands_ir, Hphi. exact Hmo.
Qed.

(** [x + 1] with [x] an overdefined argument, on [gAddArg]. *)
Lemma overdefined_operand_overdefined_result_witness :
  leavesState (visitBinaryOperator Examples.exFolder 10 Add 300 1001)
    Examples.wAddArg 10 overdefined.
Proof.
  assert (Hov : peekValueState Examples.wAddArg 300 = overdefined
                \/ peekValueState Examples.wAddArg 1001 = overdefined)
    by (left; vm_compute; reflexivity).
  assert (HnA : Add <> And) by discriminate.
  assert (HnO : Add <> Or) by discriminate.
  exact (proj1 (proj2 (overdefined_operand_overdefined_result
                         Examples.exFolder Examples.wAddArg
                         10%positive 100%positive eq_refl))
           Add 300%positive 1001%positive eq_refl eq_refl eq_refl
           Hov HnA HnO eq_refl).
Defined.
(** ** Tracked globals: stores and loads *)

(** [visitStoreInst]: a store to anything but a tracked global changes
    nothing; a store to a tracked global merges the state of the stored
    value into the global's, and stops tracking the global when that makes
    it overdefined. *)
Theorem store_updates_tracked_global (w : World) (SI Val Ptr : Value) :
  isStructTy (valueType (ir w) Val) = false ->
  (TrackedGlobals (solver w) !! Ptr = None
   \/ isGlobalVariable (ir w) Ptr = false ->
   visitStoreInst SI Val Ptr w = Ok (tt, w))
  /\ (forall lv,
        isGlobalVariable (ir w) Ptr = true ->
        TrackedGlobals (solver w) !! Ptr = Some lv ->
        lv <> overdefined ->
        exists w',
          visitStoreInst SI Val Ptr w = Ok (tt, w')
          /\ ir w' = ir w
          /\ TrackedGlobals (solver w') !! Ptr
             = (if LV.isOverdefined (merged lv (peekValueState w Val))
                then None else Some (merged lv (peekValueState w Val)))
          /\ forall GV, GV <> Ptr ->
               TrackedGlobals (solver w') !! GV
               = TrackedGlobals (solver w) !! GV).
Proof.
  intros Hty. split.
  - intros Hno. unfold visitStoreInst. mrun. rewrite Hty. mrun.
    destruct (bool_decide (TrackedGlobals (solver w) = ∅)
              || negb (isGlobalVariable (ir w) Ptr)) eqn:E; [done|].
    destruct Hno as [-> | Hg]; [done|]. rewrite Hg in E.
    by rewrite orb_true_r in E.
  - intros lv Hg Hl Hlv. unfold visitStoreInst. mrun. rewrite Hty. mrun.
    rewrite Hg, Hl.
    rewrite bool_decide_eq_false_2
      by (intros E; by rewrite E, lookup_empty in Hl).
    cbn [negb orb].
    assert (Ho : LV.isOverdefined lv = false) by (by destruct lv).
    rewrite Ho.
    rewrite (bind_ok _ _ _ _ _ (getValueStateCopy_run Val w Hty)).
    pose proof (lookedUp_touch Val w) as Ht.
    assert (Htg : TrackedGlobals (solver (touch Val w))
                  = TrackedGlobals (solver w)).
    { rewrite (lu_solver _ _ Ht). by destruct (solver w). }
    assert (Hv : is_Some (lookupLV (InTrackedGlobals Ptr)
                            (solver (touch Val w)))).
    { simpl. rewrite Htg, Hl. eauto. }
    destruct (mergeInValue_at_run (InTrackedGlobals Ptr) Ptr
                (peekValueState w Val) _ Hv) as (w1 & Hrun & Hi & Hm).
    pose proof (mergeInValue_at_global_others Ptr (peekValueState w Val)
                  _ _ _ Hrun) as Hoth.
    rewrite (bind_ok _ _ _ _ _ Hrun). mrun.
    assert (Hld : loadLV (InTrackedGlobals Ptr) (solver (touch Val w)) = lv).
    { unfold loadLV. simpl. by rewrite Htg, Hl. }
    rewrite Hld in Hm.
    assert (Hld1 : loadLV (InTrackedGlobals Ptr) (solver w1)
                   = merged lv (peekValueState w Val)).
    { unfold loadLV. by rewrite Hm. }
    rewrite Hld1.
    destruct (LV.isOverdefined (merged lv (peekValueState w Val))).
    + eexists. split; [done|]. simpl.
      split; [by rewrite Hi, (lu_ir _ _ Ht)|]. split.
      * by rewrite lookup_delete, decide_True.
      * intros GV Hne. rewrite lookup_delete, decide_False by done.
        by rewrite Hoth, Htg.
    + exists w1. split; [done|].
      split; [by rewrite Hi, (lu_ir _ _ Ht)|]. split; [done|].
      intros GV Hne. by rewrite Hoth, Htg.
Qed.

(** On [gGlobal 1007]: the global is tracked with the constant 5, and the
    store of 7 stops the tracking. *)
Lemma store_updates_tracked_global_witness :
  exists w',
    visitStoreInst 10 1007 400 (Examples.wGlobal 1007) = Ok (tt, w')
    /\ TrackedGlobals (solver w') !! 400%positive = None.
Proof.
  destruct (proj2 (store_updates_tracked_global (Examples.wGlobal 1007)
                     10%positive 1007%positive 400%positive eq_refl)
              (constant 1005) eq_refl eq_refl ltac:(discriminate))
    as (w' & Hrun & _ & Hl & _).
  exists w'. split; [exact Hrun|exact Hl].
Defined.

(** The look-ups of the pointer operand and of the result that open
    [visitLoadInst]. *)
Section OneOperand.
Variables (w : World) (I Op : Value) (p : BasicBlock) (k : InstKind).
Hypothesis HI : asInstruction (ir w) I = Some (p, k).

Lemma afterOperand_valid :
  is_Some (lookupLV (InValueState I) (solver (afterOperand w I Op))).
Proof using Type. simpl. rewrite lookup_orInsertDefault. eauto. Qed.

Lemma afterOperand_lookup :
  ValueState (solver (afterOperand w I Op)) !! I = Some (peekValueState w I).
Proof using HI.
  simpl. rewrite lookup_orInsertDefault. f_equal.
  eapply lookedUp_state; [apply lookedUp_touch|done].
Qed.

Lemma afterOperand_load :
  loadLV (InValueState I) (solver (afterOperand w I Op)) = peekValueState w I.
Proof using HI. unfold loadLV, lookupLV. by rewrite afterOperand_lookup. Qed.

Lemma afterOperand_TrackedGlobals :
  TrackedGlobals (solver (afterOperand w I Op)) = TrackedGlobals (solver w).
Proof using Type.
  simpl. rewrite (lu_solver _ _ (lookedUp_touch Op w)).
  by destruct (solver w).
Qed.

Lemma markConstant_at_afterOp C :
  marksConstant
    (fun _ => markConstant_at (InValueState I) I C (afterOperand w I Op)) w I C.
Proof using HI.
  unfold marksConstant.
  pose proof (markConstant_at_run (InValueState I) I C (afterOperand w I Op)
                afterOperand_valid) as Hmc.
  rewrite afterOperand_load in Hmc.
  destruct (LV.markConstant (peekValueState w I) C) as [r|f]; [|done].
  destruct Hmc as (w' & Hrun & Hi & Hl). by exists w'.
Qed.

Lemma mergeInValue_at_afterOp mv :
  leavesState
    (fun _ => mergeInValue_at (InValueState I) I mv (afterOperand w I Op)) w I
    (merged (peekValueState w I) mv).
Proof using HI.
  destruct (mergeInValue_at_run (InValueState I) I mv (afterOperand w I Op)
              afterOperand_valid)
    as (w' & Hrun & Hi & Hl).
  rewrite afterOperand_load in Hl. by exists w'.
Qed.

Lemma markOverdefined_at_afterOp :
  leavesState
    (fun _ => markOverdefined_at (InValueState I) I (afterOperand w I Op)) w I
    overdefined.
Proof using HI.
  destruct (decide (peekValueState w I = overdefined)) as [E|E].
  - exists (afterOperand w I Op). rewrite markOverdefined_at_noop
      by (by rewrite afterOperand_load).
    split; [done|]. split; [done|]. by rewrite afterOperand_lookup, E.
  - rewrite <- afterOperand_load in E.
    eexists. rewrite markOverdefined_at_change by done.
    split; [done|]. split; [done|]. simpl.
    rewrite lookup_alter, decide_True by done.
    by rewrite lookup_orInsertDefault.
Qed.

End OneOperand.

(** [visitLoadInst] on a load [I] that is not of struct type: an unresolved
    pointer leaves every lattice value as it is; a volatile load, or one
    from an overdefined pointer, is overdefined; a load of the null pointer
    of address space 0 is the null value; a load from a tracked global
    merges the global's state into the result. *)
Theorem load_transfer (lib : Folder) (w : World) (I Ptr0 : Value)
    (volatile : bool) (p : BasicBlock) :
  asInstruction (ir w) I = Some (p, ILoad Ptr0 volatile) ->
  isStructTy (valueType (ir w) I) = false ->
  isStructTy (valueType (ir w) Ptr0) = false ->
  (peekValueState w Ptr0 = undefined ->
   onlyLooksUp (visitLoadInst lib I Ptr0 volatile) w)
  /\ (peekValueState w Ptr0 <> undefined ->
      volatile = true \/ peekValueState w Ptr0 = overdefined ->
      leavesState (visitLoadInst lib I Ptr0 volatile) w I overdefined)
  /\ (forall Ptr,
        volatile = false ->
        LV.getConstant (peekValueState w Ptr0) = Ok Ptr ->
        peekValueState w I <> overdefined ->
        isConstantPointerNull (ir w) Ptr = true ->
        getPointerAddressSpace (ir w) Ptr0 = 0%N ->
        marksConstant (visitLoadInst lib I Ptr0 volatile) w I
          (Constant_getNullValue lib (valueType (ir w) I)))
  /\ (forall GV lv,
        volatile = false ->
        LV.getConstant (peekValueState w Ptr0) = Ok GV ->
        isGlobalVariable (ir w) GV = true ->
        TrackedGlobals (solver w) !! GV = Some lv ->
        leavesState (visitLoadInst lib I Ptr0 volatile) w I
          (merged (peekValueState w I) lv)).
Proof.
  intros HI HtI HtP.
  assert (Hopen : forall (body : M unit),
    LV.isUndefined (peekValueState w Ptr0) = false ->
    (do ty <- getType I;
     if isStructTy ty then markAnythingOverdefined lib I
     else
       do PtrVal <- getValueStateCopy Ptr0;
       if LV.isUndefined PtrVal then ret tt
       else modify (set_ValueState (orInsertDefault I)) ;; body)%sccp w
    = body (afterOperand w I Ptr0)).
  { intros body Hu. mrun. rewrite HtI.
    rewrite (bind_ok _ _ _ _ _ (getValueStateCopy_run Ptr0 w HtP)).
    rewrite Hu. mrun. unfold afterOperand.
    by rewrite (lu_ir _ _ (lookedUp_touch Ptr0 w)). }
  split; [|split; [|split]].
  - intros Hu. exists (touch Ptr0 w). split; [|apply lookedUp_touch].
    unfold visitLoadInst. mrun. rewrite HtI.
    rewrite (bind_ok _ _ _ _ _ (getValueStateCopy_run Ptr0 w HtP)).
    by rewrite Hu.
  - intros Hnu Hov.
    pose proof (markOverdefined_at_afterOp w I Ptr0 p _ HI) as Hmo.
    unfold leavesState in *. unfold visitLoadInst.
    assert (Hu : LV.isUndefined (peekValueState w Ptr0) = false)
      by (by destruct (peekValueState w Ptr0)).
    mrun. rewrite HtI.
    rewrite (bind_ok _ _ _ _ _ (getValueStateCopy_run Ptr0 w HtP)).
    rewrite Hu. mrun.
    rewrite (lu_ir _ _ (lookedUp_touch Ptr0 w)).
    fold (afterOperand w I Ptr0).
    rewrite (afterOperand_load w I Ptr0 p _ HI).
    destruct (LV.isOverdefined (peekValueState w I)) eqn:Eiv.
    { exists (afterOperand w I Ptr0). split; [done|]. split; [done|].
      rewrite (afterOperand_lookup w I Ptr0 p _ HI).
      by destruct (peekValueState w I). }
    assert (Hc : negb (LV.isConstant (peekValueState w Ptr0)) || volatile
                 = true).
    { destruct Hov as [-> | ->]; [apply orb_true_r|done]. }
    rewrite Hc. exact Hmo.
  - intros Ptr -> Hc Hiv Hnull Has.
    destruct (getConstant_isConstant _ _ Hc) as (Hcc & _ & Hu).
    pose proof (markConstant_at_afterOp w I Ptr0 p _ HI
                  (Constant_getNullValue lib (valueType (ir w) I))) as Hmc.
    unfold marksConstant in *. unfold visitLoadInst.
    mrun. rewrite HtI.
    rewrite (bind_ok _ _ _ _ _ (getValueStateCopy_run Ptr0 w HtP)).
    rewrite Hu. mrun.
    rewrite (lu_ir _ _ (lookedUp_touch Ptr0 w)).
    fold (afterOperand w I Ptr0).
    rewrite (afterOperand_load w I Ptr0 p _ HI).
    assert (Eiv : LV.isOverdefined (peekValueState w I) = false)
      by (by destruct (peekValueState w I)).
    rewrite Eiv, Hcc, Hc. cbn [negb orb]. mrun.
    change (ir (afterOperand w I Ptr0)) with (ir w).
    rewrite Hnull, Has, bool_decide_eq_true_2 by done. cbn [andb].
    exact Hmc.
  - intros GV lv -> Hc Hg Hl.
    destruct (getConstant_isConstant _ _ Hc) as (Hcc & _ & Hu).
    pose proof (mergeInValue_at_afterOp w I Ptr0 p _ HI lv) as Hmg.
    unfold leavesState in *. unfold visitLoadInst.
    mrun. rewrite HtI.
    rewrite (bind_ok _ _ _ _ _ (getValueStateCopy_run Ptr0 w HtP)).
    rewrite Hu. mrun.
    rewrite (lu_ir _ _ (lookedUp_touch Ptr0 w)).
    fold (afterOperand w I Ptr0).
    rewrite (afterOperand_load w I Ptr0 p _ HI).
    destruct (LV.isOverdefined (peekValueState w I)) eqn:Eiv.
    { exists (afterOperand w I Ptr0). split; [done|]. split; [done|].
      rewrite (afterOperand_lookup w I Ptr0 p _ HI).
      destruct (peekValueState w I); try done. }
    rewrite Hcc, Hc. cbn [negb orb]. mrun.
    change (ir (afterOperand w I Ptr0)) with (ir w).
    assert (Hnn : isConstantPointerNull (ir w) GV = false).
    { revert Hg. unfold isConstantPointerNull, isGlobalVariable.
      by destruct (asConstant (ir w) GV) as [[]|]. }
    rewrite Hnn, Hg. cbn [andb].
    rewrite (afterOperand_TrackedGlobals w I Ptr0), Hl.
    rewrite bool_decide_eq_true_2
      by (intros E; by rewrite E, lookup_empty in Hl).
    exact Hmg.
Qed.

(** The load of [gGlobal 1005], with the global tracked as the constant 5. *)
Lemma load_transfer_witness :
  leavesState (visitLoadInst Examples.exFolder 11 400 false)
    (Examples.wGlobal 1005) 11
    (merged (peekValueState (Examples.wGlobal 1005) 11) (constant 1005)).
Proof.
  exact (proj2 (proj2 (proj2
           (load_transfer Examples.exFolder (Examples.wGlobal 1005)
              11%positive 400%positive false 100%positive
              eq_refl eq_refl eq_refl)))
           400%positive (constant 1005) eq_refl eq_refl eq_refl eq_refl).
Defined.
(** ** The rewrite of the function *)

Lemma getSuccessors_replaceUsesOfWith From To k :
  getSuccessors (replaceUsesOfWith From To k) = getSuccessors k.
Proof. by destruct k. Qed.

Lemma sameStatus_refl g I : sameStatus g g I.
Proof. done. Qed.

Lemma sameStatus_trans g1 g2 g3 I :
  sameStatus g1 g2 I -> sameStatus g2 g3 I -> sameStatus g1 g3 I.
Proof. intros [H1 H2] [H3 H4]. split; congruence. Qed.

Lemma sameFrame_refl g : sameFrame g g.
Proof. done. Qed.

Lemma sameFrame_trans g1 g2 g3 :
  sameFrame g1 g2 -> sameFrame g2 g3 -> sameFrame g1 g3.
Proof. intros (H1 & H2 & H3) (H4 & H5 & H6). repeat split; congruence. Qed.

Lemma isTerminatorInst_successorsOf g I :
  isTerminatorInst g I = bool_decide (is_Some (successorsOf g I)).
Proof.
  unfold isTerminatorInst, successorsOf, isTerminator.
  destruct (asInstruction g I) as [[p k]|]; [done|].
  symmetry. apply bool_decide_eq_false_2. by intros [x Hx].
Qed.

Lemma sameStatus_isTerminatorInst g g' I :
  sameStatus g g' I -> isTerminatorInst g' I = isTerminatorInst g I.
Proof. intros [_ H]. by rewrite !isTerminatorInst_successorsOf, H. Qed.

Lemma keptByRewrite_same s g g' I :
  valueType g' = valueType g -> sameStatus g g' I ->
  keptByRewrite s g' I = keptByRewrite s g I.
Proof.
  intros Hty Hst. unfold keptByRewrite.
  by rewrite Hty, (sameStatus_isTerminatorInst _ _ _ Hst).
Qed.

Lemma replaceAllUsesWith_frame g V New g' :
  replaceAllUsesWith g V New = Done g' ->
  sameFrame g g' /\ blockInsts g' = blockInsts g
  /\ (forall J, sameStatus g g' J) /\ useList g' V = [].
Proof.
  unfold replaceAllUsesWith. destruct (decide (New = V)); [done|].
  destruct (negb _); [done|]. intros [= <-].
  split; [done|]. split; [done|]. split.
  - intros J. unfold sameStatus, parentOf, successorsOf, asInstruction. simpl.
    destruct (valueKind g J); try done.
    case_bool_decide; simpl; [|done].
    by rewrite getSuccessors_replaceUsesOfWith.
  - simpl. by rewrite decide_True.
Qed.

Lemma eraseInstruction_frame g BB I g' :
  eraseInstruction g BB I = Done g' ->
  sameFrame g g'
  /\ (forall B, blockInsts g' B
                = if decide (B = BB)
                  then filter (fun J => J <> I) (blockInsts g B)
                  else blockInsts g B)
  /\ (forall J, J <> I -> sameStatus g g' J).
Proof.
  unfold eraseInstruction. destruct (negb _); [done|]. intros [= <-].
  split; [done|]. split; [done|].
  intros J HJ. unfold sameStatus, parentOf, successorsOf, asInstruction. simpl.
  by rewrite decide_False.
Qed.

(** What one step of the instruction loop does. *)
Lemma rewriteInstruction_cases s u I acc acc' :
  rewriteInstruction s u I acc = Done acc' ->
  (keptByRewrite s acc.2 I = true /\ acc' = acc)
  \/ (keptByRewrite s acc.2 I = false /\ acc'.1 = true
      /\ exists C g1, replaceAllUsesWith acc.2 I C = Done g1
                      /\ eraseFromParent g1 I = Done acc'.2).
Proof.
  unfold rewriteInstruction, keptByRewrite, getLatticeValueFor.
  destruct (isVoidTy (valueType acc.2 I) || isTerminatorInst acc.2 I) eqn:E1.
  { intros [= <-]. by left. }
  destruct (isStructTy (valueType acc.2 I)) eqn:E2.
  { intros [= <-]. left. by rewrite orb_true_r. }
  destruct (ValueState s !! I) as [IV|]; [|done].
  destruct (LV.isOverdefined IV) eqn:E3.
  { intros [= <-]. by left. }
  destruct (if LV.isConstant IV then LV.getConstant IV else Ok _)
    as [C|f]; [|done].
  destruct (replaceAllUsesWith acc.2 I C) as [g1|f] eqn:Hr; [|done].
  destruct (eraseFromParent g1 I) as [g2|f] eqn:He; [|done].
  intros [= <-]. right. split; [done|]. split; [done|]. by exists C, g1.
Qed.

Lemma rewriteInstruction_kept s u I acc :
  keptByRewrite s acc.2 I = true -> rewriteInstruction s u I acc = Done acc.
Proof.
  unfold rewriteInstruction, keptByRewrite, getLatticeValueFor.
  destruct (isVoidTy (valueType acc.2 I) || isTerminatorInst acc.2 I);
    [done|].
  destruct (isStructTy (valueType acc.2 I)); [done|]. cbn [orb].
  destruct (ValueState s !! I) as [IV|]; [|done]. by intros ->.
Qed.

(** *** The result [MadeChanges] *)

Lemma rewriteInstructions_all_kept s u insts acc :
  (forall I, I ∈ insts -> keptByRewrite s acc.2 I = true) ->
  rewriteInstructions s u insts acc = Done acc.
Proof.
  induction insts as [|I rest IH]; intros Hall; [done|].
  cbn [rewriteInstructions].
  rewrite rewriteInstruction_kept by (apply Hall; left).
  apply IH. intros J HJ. apply Hall. by right.
Qed.

Lemma rewriteInstructions_flag s u insts :
  forall acc acc',
    rewriteInstructions s u insts acc = Done acc' ->
    (acc'.1 = true
     \/ (acc' = acc /\ forall I, I ∈ insts -> keptByRewrite s acc.2 I = true))
    /\ (acc.1 = true -> acc'.1 = true).
Proof.
  induction insts as [|I rest IH]; intros acc acc'; cbn [rewriteInstructions].
  { intros [= <-]. split; [|done]. right. split; [done|].
    by intros I []%elem_of_nil. }
  destruct (rewriteInstruction s u I acc) as [acc1|f] eqn:H1; [|done].
  intros H2. destruct (IH _ _ H2) as [Hflag Hmono].
  destruct (rewriteInstruction_cases _ _ _ _ _ H1)
    as [[Hk ->]|(Hk & Ht & _)].
  - split; [|done]. destruct Hflag as [Ht|[-> Hrest]]; [by left|].
    right. split; [done|]. by intros J [->|HJ]%elem_of_cons; [|apply Hrest].
  - split; [left|intros _]; by apply Hmono.
Qed.

Lemma rewriteBlocks_flag s u blocks :
  forall acc acc',
    rewriteBlocks s u blocks acc = Done acc' ->
    (acc'.1 = true
     \/ (acc' = acc
         /\ forall BB, BB ∈ blocks ->
              isBlockExecutable s BB = true
              /\ forall I, I ∈ blockInsts acc.2 BB ->
                   keptByRewrite s acc.2 I = true))
    /\ (acc.1 = true -> acc'.1 = true).
Proof.
  induction blocks as [|BB rest IH]; intros acc acc'; cbn [rewriteBlocks].
  { intros [= <-]. split; [|done]. right. split; [done|].
    by intros BB []%elem_of_nil. }
  destruct (isBlockExecutable s BB) eqn:Hex; cbn [negb].
  - destruct (rewriteInstructions s u (blockInsts acc.2 BB) acc)
      as [acc1|f] eqn:H1; [|done].
    intros H2. destruct (IH _ _ H2) as [Hflag Hmono].
    destruct (rewriteInstructions_flag _ _ _ _ _ H1) as [Hflag1 Hmono1].
    split; [|by intros Ht; apply Hmono, Hmono1].
    destruct Hflag1 as [Ht|[-> Hk]]; [left; by apply Hmono|].
    destruct Hflag as [Ht|[-> Hrest]]; [by left|].
    right. split; [done|].
    by intros B [->|HB]%elem_of_cons; [|apply Hrest].
  - destruct (DeleteInstructionInBlock u BB acc.2) as [g1|f]; [|done].
    intros H2. destruct (IH _ _ H2) as [_ Hmono].
    split; [left|intros _]; by apply Hmono.
Qed.

(** The rewrite loop of [runOnFunction] ends with [MadeChanges] false
    exactly when there was nothing to rewrite: every block of the function
    is executable, and each of their instructions is of void or struct type,
    a terminator, or overdefined.  The function is then left as it was
    found.  [MadeChanges] true does not say that the function has changed: a
    block that is not executable sets it, also when the block begins with
    its terminator and [DeleteInstructionInBlock] finds nothing to delete. *)
Theorem MadeChanges_false_iff_nothing_to_rewrite (s : SCCPSolver)
    (UndefValue_get : Ty -> Constant) (blocks : list BasicBlock) (g : IR) :
  (nothingToRewrite s g blocks ->
   rewriteBlocks s UndefValue_get blocks (false, g) = Done (false, g))
  /\ (forall MadeChanges g',
        rewriteBlocks s UndefValue_get blocks (false, g)
        = Done (MadeChanges, g') ->
        (MadeChanges = false <-> nothingToRewrite s g blocks)
        /\ (MadeChanges = false -> g' = g))
  /\ (forall BB T rest,
        isBlockExecutable s BB = false ->
        blockInsts g BB = T :: rest -> isTerminatorInst g T = true ->
        rewriteBlocks s UndefValue_get [BB] (false, g) = Done (true, g)).
Proof.
  assert (Hnothing : nothingToRewrite s g blocks ->
            rewriteBlocks s UndefValue_get blocks (false, g)
            = Done (false, g)).
  { induction blocks as [|BB rest IH]; intros Hall; [done|].
    cbn [rewriteBlocks]. destruct (Hall BB) as [-> Hk]; [left|].
    cbn [negb]. rewrite rewriteInstructions_all_kept by done.
    apply IH. intros B HB. apply Hall. by right. }
  split; [done|]. split.
  - intros MadeChanges g' Hrun.
    destruct (rewriteBlocks_flag _ _ _ _ _ Hrun) as [Hflag _].
    cbn [fst snd] in Hflag. split; [split|].
    + intros ->. by destruct Hflag as [?|[_ Hall]].
    + intros Hall. rewrite (Hnothing Hall) in Hrun. by injection Hrun.
    + intros ->. destruct Hflag as [?|[Heq _]]; [done|]. by injection Heq.
  - intros BB T rest Hex HBB HT.
    cbn [rewriteBlocks]. rewrite Hex. cbn [negb snd].
    unfold DeleteInstructionInBlock.
    destruct (length (blockInsts g BB));
      cbn [DeleteInstructionInBlock_loop]; by rewrite HBB, HT.
Qed.

(** The solver finds nothing constant in [gAddArg], whose only value is the
    sum of the argument and 1: the rewrite returns false.  In [gDeadBranch]
    the block 102 is not executable and holds only its [ret]: the rewrite
    of that block returns true and the graph it was given. *)
Lemma MadeChanges_false_iff_nothing_to_rewrite_witness :
  rewriteBlocks (solver Examples.wAddArgEnd) Examples.exUndef [100%positive]
    (false, Examples.gAddArg)
  = Done (false, Examples.gAddArg)
  /\ rewriteBlocks (solver Examples.wDeadBranchEnd) Examples.exUndef
       [102%positive] (false, Examples.gDeadBranch)
     = Done (true, Examples.gDeadBranch).
Proof.
  split.
  - apply (proj1 (MadeChanges_false_iff_nothing_to_rewrite
                    (solver Examples.wAddArgEnd) Examples.exUndef
                    [100%positive] Examples.gAddArg)).
    intros BB HBB. apply list_elem_of_singleton in HBB as ->.
    split; [vm_compute; reflexivity|].
    assert (E : blockInsts Examples.gAddArg 100 = [10; 11]%positive)
      by reflexivity.
    rewrite E. intros I HI.
    repeat (apply elem_of_cons in HI as [->|HI]);
      try (vm_compute; reflexivity).
    by apply elem_of_nil in HI.
  - apply (proj2 (proj2 (MadeChanges_false_iff_nothing_to_rewrite
                    (solver Examples.wDeadBranchEnd) Examples.exUndef
                    [102%positive] Examples.gDeadBranch))
             102%positive 12%positive []);
      vm_compute; reflexivity.
Defined.

(** *** The lattice values the rewrite reads *)

Lemma shrinks_refl g : shrinks g g.
Proof. done. Qed.

Lemma shrinks_trans g1 g2 g3 : shrinks g1 g2 -> shrinks g2 g3 -> shrinks g1 g3.
Proof.
  intros (H1 & H2 & H3) (H4 & H5 & H6).
  split; [congruence|]. split; [congruence|].
  intros B. etrans; [apply H6|apply H3].
Qed.

Lemma shrinks_replaceAllUsesWith g V New g' :
  replaceAllUsesWith g V New = Done g' -> shrinks g g'.
Proof.
  intros H. destruct (replaceAllUsesWith_frame _ _ _ _ H)
    as ((Hty & Hfd & _) & Hbl & _).
  split; [done|]. split; [done|]. intros B. by rewrite Hbl.
Qed.

Lemma shrinks_eraseInstruction g BB I g' :
  eraseInstruction g BB I = Done g' -> shrinks g g'.
Proof.
  intros H. destruct (eraseInstruction_frame _ _ _ _ H)
    as ((Hty & Hfd & _) & Hbl & _).
  split; [done|]. split; [done|]. intros B. rewrite Hbl.
  destruct (decide (B = BB)); [|done].
  intros J HJ. by apply list_elem_of_filter in HJ as [_ HJ].
Qed.

Lemma shrinks_eraseFromParent g I g' :
  eraseFromParent g I = Done g' -> shrinks g g'.
Proof.
  unfold eraseFromParent. destruct (asInstruction g I) as [[p k]|]; [|done].
  apply shrinks_eraseInstruction.
Qed.

Lemma shrinks_rewriteInstruction s u I acc acc' :
  rewriteInstruction s u I acc = Done acc' -> shrinks acc.2 acc'.2.
Proof.
  intros H. destruct (rewriteInstruction_cases _ _ _ _ _ H)
    as [[_ ->]|(_ & _ & C & g1 & Hr & He)]; [apply shrinks_refl|].
  eapply shrinks_trans;
    [by eapply shrinks_replaceAllUsesWith|by eapply shrinks_eraseFromParent].
Qed.

Lemma shrinks_rewriteInstructions s u insts :
  forall acc acc',
    rewriteInstructions s u insts acc = Done acc' -> shrinks acc.2 acc'.2.
Proof.
  induction insts as [|I rest IH]; intros acc acc'; cbn [rewriteInstructions].
  { intros [= <-]. apply shrinks_refl. }
  destruct (rewriteInstruction s u I acc) as [acc1|f] eqn:H1; [|done].
  intros H2. eapply shrinks_trans;
    [by eapply shrinks_rewriteInstruction|by apply IH].
Qed.

Lemma shrinks_DeleteInstructionInBlock_loop u BB n :
  forall g g',
    DeleteInstructionInBlock_loop n u BB g = Done g' -> shrinks g g'.
Proof.
  induction n as [|n IH]; intros g g'; cbn [DeleteInstructionInBlock_loop];
    destruct (blockInsts g BB) as [|first rest]; try done;
    (destruct (isTerminatorInst g first);
       [intros [= <-]; apply shrinks_refl|]);
    destruct (getTerminator g BB); try done;
    destruct (reverse (first :: rest)) as [|T [|Inst body]]; try done.
  destruct (if negb (bool_decide (useList g Inst = []))
            then replaceAllUsesWith g Inst (u (valueType g Inst))
            else Done g) as [g1|f] eqn:H1; [|done].
  destruct (eraseInstruction g1 BB Inst) as [g2|f] eqn:H2; [|done].
  intros H3.
  assert (Hs1 : shrinks g g1).
  { destruct (negb _); [by eapply shrinks_replaceAllUsesWith|].
    injection H1 as <-. apply shrinks_refl. }
  eapply shrinks_trans; [exact Hs1|].
  eapply shrinks_trans; [by eapply shrinks_eraseInstruction|by apply IH].
Qed.

Lemma replaceAllUsesWith_fault g V New f :
  replaceAllUsesWith g V New = Stopped f -> f <> NotInValueMap.
Proof.
  unfold replaceAllUsesWith. destruct (decide (New = V)); [by intros [= <-]|].
  destruct (negb _); [by intros [= <-]|done].
Qed.

Lemma eraseInstruction_fault g BB I f :
  eraseInstruction g BB I = Stopped f -> f <> NotInValueMap.
Proof.
  unfold eraseInstruction. destruct (negb _); [by intros [= <-]|done].
Qed.

Lemma DeleteInstructionInBlock_loop_fault u BB n :
  forall g f,
    DeleteInstructionInBlock_loop n u BB g = Stopped f -> f <> NotInValueMap.
Proof.
  induction n as [|n IH]; intros g f; cbn [DeleteInstructionInBlock_loop];
    (destruct (blockInsts g BB) as [|first rest]; [by intros [= <-]|]);
    (destruct (isTerminatorInst g first); [done|]);
    (destruct (getTerminator g BB); [|by intros [= <-]]);
    destruct (reverse (first :: rest)) as [|T [|Inst body]];
    try (by intros [= <-]).
  destruct (if negb (bool_decide (useList g Inst = []))
            then replaceAllUsesWith g Inst (u (valueType g Inst))
            else Done g) as [g1|f1] eqn:H1.
  - destruct (eraseInstruction g1 BB Inst) as [g2|f2] eqn:H2.
    + apply IH.
    + intros [= <-]. by eapply eraseInstruction_fault.
  - intros [= <-]. destruct (negb _); [|done].
    by eapply replaceAllUsesWith_fault.
Qed.

Lemma rewriteInstruction_fault s u I acc f :
  (isVoidTy (valueType acc.2 I) = false ->
   isStructTy (valueType acc.2 I) = false ->
   is_Some (getLatticeValueFor s I)) ->
  rewriteInstruction s u I acc = Stopped f -> f <> NotInValueMap.
Proof.
  intros Hfound. unfold rewriteInstruction.
  destruct (isVoidTy (valueType acc.2 I)) eqn:E1; [done|]. cbn [orb].
  destruct (isTerminatorInst acc.2 I); [done|].
  destruct (isStructTy (valueType acc.2 I)) eqn:E2; [done|].
  destruct (Hfound eq_refl eq_refl) as [IV ->].
  destruct (LV.isOverdefined IV); [done|].
  destruct (if LV.isConstant IV then LV.getConstant IV else Ok _)
    as [C|f1]; [|by intros [= <-]].
  destruct (replaceAllUsesWith acc.2 I C) as [g1|f1] eqn:Hr.
  - destruct (eraseFromParent g1 I) as [g2|f2] eqn:He; [done|].
    intros [= <-]. revert He. unfold eraseFromParent.
    destruct (asInstruction g1 I) as [[p k]|]; [|by intros [= <-]].
    apply eraseInstruction_fault.
  - intros [= <-]. by eapply replaceAllUsesWith_fault.
Qed.

Lemma rewriteInstructions_fault s u g0 insts :
  (forall I, I ∈ insts ->
     isVoidTy (valueType g0 I) = false ->
     isStructTy (valueType g0 I) = false ->
     is_Some (getLatticeValueFor s I)) ->
  forall acc f,
    valueType acc.2 = valueType g0 ->
    rewriteInstructions s u insts acc = Stopped f -> f <> NotInValueMap.
Proof.
  induction insts as [|I rest IH]; intros Hfound acc f Hty;
    cbn [rewriteInstructions]; [done|].
  destruct (rewriteInstruction s u I acc) as [acc1|f1] eqn:H1.
  - apply IH.
    + intros J HJ. apply Hfound. by right.
    + destruct (shrinks_rewriteInstruction _ _ _ _ _ H1) as [Hty1 _].
      congruence.
  - intros [= <-]. eapply rewriteInstruction_fault; [|exact H1].
    rewrite Hty. apply Hfound. left.
Qed.

Lemma rewriteBlocks_fault s u g0 blocks :
  latticeValuesFound s g0 blocks ->
  forall acc f,
    shrinks g0 acc.2 ->
    rewriteBlocks s u blocks acc = Stopped f -> f <> NotInValueMap.
Proof.
  induction blocks as [|BB rest IH]; intros Hfound acc f Hs;
    cbn [rewriteBlocks]; [done|].
  assert (Hrest : latticeValuesFound s g0 rest).
  { intros B I HB. apply Hfound. by right. }
  destruct (isBlockExecutable s BB) eqn:Hex; cbn [negb].
  - destruct (rewriteInstructions s u (blockInsts acc.2 BB) acc)
      as [acc1|f1] eqn:H1.
    + apply (IH Hrest). eapply shrinks_trans; [exact Hs|].
      by eapply shrinks_rewriteInstructions.
    + intros [= <-]. destruct Hs as (Hty & _ & Hsub).
      eapply (rewriteInstructions_fault s u g0); [|exact Hty|exact H1].
      intros I HI. apply (Hfound BB I); [left|done|by apply Hsub].
  - destruct (DeleteInstructionInBlock u BB acc.2) as [g1|f1] eqn:H1.
    + apply (IH Hrest). simpl. eapply shrinks_trans; [exact Hs|].
      by eapply shrinks_DeleteInstructionInBlock_loop.
    + intros [= <-]. by eapply DeleteInstructionInBlock_loop_fault.
Qed.

Section SolverEnd.
Variable lib : Folder.

Lemma solveLoop_end depth fuel rounds F :
  forall w w',
    solveLoop lib depth fuel rounds F w = Ok (tt, w') ->
    exists w1, ResolvedUndefsIn lib depth F w1 = Ok (false, w').
Proof using Type.
  induction rounds as [|r IH]; intros w w'; cbn [solveLoop]; [done|].
  intros Hrun. apply bind_inv in Hrun as ([] & w1 & H1 & H2).
  apply bind_inv in H2 as (b & w2 & H2 & H3).
  destruct b; [by eapply IH|]. injection H3 as <-. by exists w1.
Qed.

Lemma runSolver_latticeValuesFound depth fuel rounds F w w' :
  runSolver lib depth fuel rounds F w = Ok (tt, w') ->
  latticeValuesFound (solver w') (ir w') (fBlocks (functionData (ir w') F)).
Proof using Type.
  unfold runSolver. mrun. intros Hrun.
  apply bind_inv in Hrun as ([] & w1 & _ & H2).
  apply bind_inv in H2 as ([] & w2 & _ & H3).
  apply solveLoop_end in H3 as [w3 H3].
  unfold ResolvedUndefsIn in H3. revert H3. mrun. intros H3.
  destruct (resolveUndefBlocks_false _ _ _ _ _ H3)
    as ((Hi & Hb & _) & _ & Hall).
  intros BB I HBB Hex HI Hvoid Hstruct. rewrite Hi in *.
  apply (Hall BB I); try done.
  rewrite <- Hb. by apply bool_decide_eq_true in Hex.
Qed.

End SolverEnd.

(** [getLatticeValueFor] never fails its assertion "V is not in valuemap!"
    in [runOnFunction]: the solver has looked up every instruction that
    the rewrite asks for. *)
Theorem runOnFunction_finds_lattice_values (lib : Folder)
    (UndefValue_get : Ty -> Constant) (depth fuel rounds : nat)
    (F : Function) (g : IR) :
  runOnFunction lib UndefValue_get depth fuel rounds F g
  <> Stopped NotInValueMap.
Proof.
  unfold runOnFunction.
  destruct (runSolver lib depth fuel rounds F _) as [[[] w]|f] eqn:Hrun;
    [|done].
  intros Hfault.
  refine (rewriteBlocks_fault (solver w) UndefValue_get (ir w) _ _
            (false, ir w) _ (shrinks_refl _) Hfault eq_refl).
  by eapply runSolver_latticeValuesFound.
Qed.

(** *** The blocks after the rewrite *)

Lemma filter_ext_in {A} (P Q : A -> Prop) `{!forall x, Decision (P x)}
    `{!forall x, Decision (Q x)} (l : list A) :
  (forall x, x ∈ l -> P x <-> Q x) -> filter P l = filter Q l.
Proof.
  induction l as [|x l IH]; intros Hext; [done|].
  rewrite !filter_cons.
  rewrite IH by (intros y Hy; apply Hext; by right).
  destruct (decide (P x)) as [HP|HP], (decide (Q x)) as [HQ|HQ]; try done;
    exfalso; apply (Hext x) in HP || apply (Hext x) in HQ; try done; left.
Qed.

Lemma filter_all {A} (P : A -> Prop) `{!forall x, Decision (P x)}
    (l : list A) :
  (forall x, x ∈ l -> P x) -> filter P l = l.
Proof.
  induction l as [|x l IH]; intros Hall; [done|].
  rewrite filter_cons, decide_True by (apply Hall; left).
  f_equal. apply IH. intros y Hy. apply Hall. by right.
Qed.

Lemma filter_ne_middle (body : list Value) (I T : Value) :
  NoDup (body ++ [I; T]) ->
  filter (fun J => J <> I) (body ++ [I; T]) = body ++ [T].
Proof.
  intros (_ & Hdis & Hnd)%NoDup_app.
  rewrite filter_app. f_equal.
  - apply filter_all. intros J HJ ->. apply (Hdis I HJ). left.
  - rewrite filter_cons, decide_False by (by intros H; apply H).
    rewrite filter_cons, decide_True; [done|].
    intros ->. apply NoDup_cons in Hnd as [Hnd _]. apply Hnd. left.
Qed.

Lemma blockWellFormed_shape g BB :
  blockWellFormed g BB = true ->
  NoDup (blockInsts g BB)
  /\ (forall I, I ∈ blockInsts g BB -> parentOf g I = Some BB)
  /\ exists body T,
       blockInsts g BB = body ++ [T]
       /\ isTerminatorInst g T = true
       /\ forall J, J ∈ body -> isTerminatorInst g J = false.
Proof.
  unfold blockWellFormed. intros H.
  apply andb_true_iff in H as [H H3]. apply andb_true_iff in H as [H1 H2].
  apply bool_decide_eq_true in H1. split; [done|]. split.
  - intros I HI. rewrite forallb_forall in H2.
    apply list_elem_of_In in HI. apply H2 in HI.
    by apply bool_decide_eq_true in HI.
  - destruct (reverse (blockInsts g BB)) as [|T rbody] eqn:Hrev; [done|].
    apply andb_true_iff in H3 as [HT Hbody].
    exists (reverse rbody), T. split; [|split; [done|]].
    + rewrite <- (reverse_involutive (blockInsts g BB)), Hrev.
      by rewrite reverse_cons.
    + intros J HJ. rewrite elem_of_reverse in HJ.
      rewrite forallb_forall in Hbody.
      apply list_elem_of_In in HJ. apply Hbody in HJ.
      by apply negb_true_iff in HJ.
Qed.

Lemma forallb_ext_in {A} (f h : A -> bool) (l : list A) :
  (forall x, x ∈ l -> f x = h x) -> forallb f l = forallb h l.
Proof.
  induction l as [|x l IH]; intros Hext; [done|]. simpl.
  rewrite (Hext x) by left. f_equal. apply IH. intros y Hy. apply Hext.
  by right.
Qed.

Lemma blockWellFormed_same g g' BB :
  blockInsts g' BB = blockInsts g BB ->
  (forall J, J ∈ blockInsts g BB -> sameStatus g g' J) ->
  blockWellFormed g' BB = blockWellFormed g BB.
Proof.
  intros Hl Hst. unfold blockWellFormed. rewrite Hl. f_equal; [f_equal|].
  - apply forallb_ext_in. intros J HJ. by rewrite (proj1 (Hst J HJ)).
  - destruct (reverse (blockInsts g BB)) as [|T rbody] eqn:Hrev; [done|].
    assert (Hin : forall J, J ∈ T :: rbody -> J ∈ blockInsts g BB).
    { intros J HJ. apply elem_of_reverse. by rewrite Hrev. }
    f_equal.
    + apply sameStatus_isTerminatorInst, Hst, Hin. left.
    + apply forallb_ext_in. intros J HJ. f_equal.
      apply sameStatus_isTerminatorInst, Hst, Hin. by right.
Qed.

Lemma rewrittenBlock_same s g g' BB :
  valueType g' = valueType g ->
  blockInsts g' BB = blockInsts g BB ->
  (forall J, J ∈ blockInsts g BB -> sameStatus g g' J) ->
  rewrittenBlock s g' BB = rewrittenBlock s g BB.
Proof.
  intros Hty Hl Hst. unfold rewrittenBlock. rewrite Hl.
  destruct (isBlockExecutable s BB); [|done].
  apply filter_ext_in. intros J HJ.
  by rewrite (keptByRewrite_same s g g' J Hty (Hst J HJ)).
Qed.

(** The dead block: [DeleteInstructionInBlock]. *)
Lemma DeleteInstructionInBlock_loop_spec u BB T :
  forall body n g,
    blockInsts g BB = body ++ [T] ->
    NoDup (body ++ [T]) ->
    isTerminatorInst g T = true ->
    (forall J, J ∈ body -> isTerminatorInst g J = false) ->
    length body <= n ->
    match DeleteInstructionInBlock_loop n u BB g with
    | Done g' =>
        sameFrame g g' /\ blockInsts g' BB = [T]
        /\ (forall B, B <> BB -> blockInsts g' B = blockInsts g B)
        /\ (forall J, J ∉ body -> sameStatus g g' J)
    | Stopped f =>
        exists J, J ∈ body
          /\ (u (valueType g J) = J
              \/ Ty_eqb (valueType g (u (valueType g J))) (valueType g J)
                 = false)
    end.
Proof.
  induction body as [|Inst body IH] using rev_ind;
    intros n g Hl Hnd HT Hbody Hn.
  { assert (Hdone : DeleteInstructionInBlock_loop n u BB g = Done g).
    { destruct n; cbn [DeleteInstructionInBlock_loop]; rewrite Hl; simpl;
        by rewrite HT. }
    by rewrite Hdone. }
  rewrite length_app in Hn. simpl in Hn.
  destruct n as [|n]; [lia|].
  rewrite <- app_assoc in Hl, Hnd. simpl in Hl, Hnd.
  assert (Hfirst : exists first rest,
            blockInsts g BB = first :: rest
            /\ isTerminatorInst g first = false).
  { rewrite Hl. destruct body as [|b body']; simpl.
    - exists Inst, [T]. split; [done|]. apply Hbody.
      apply elem_of_app. right. left.
    - exists b, (body' ++ [Inst; T]). split; [done|]. apply Hbody.
      left. }
  destruct Hfirst as (first & rest & Hfr & Hnt).
  assert (Hterm : is_Some (getTerminator g BB)).
  { unfold getTerminator. rewrite Hl.
    replace (body ++ [Inst; T]) with ((body ++ [Inst]) ++ [T])
      by (by rewrite <- app_assoc).
    rewrite last_snoc. revert HT. unfold isTerminatorInst.
    destruct (asInstruction g T) as [[p k]|]; [|done]. intros ->. eauto. }
  assert (Hrev : reverse (blockInsts g BB) = T :: Inst :: reverse body).
  { rewrite Hl, reverse_app. by rewrite !reverse_cons. }
  cbn [DeleteInstructionInBlock_loop].
  rewrite Hfr, Hnt. destruct Hterm as [tk ->]. rewrite <- Hfr, Hrev.
  set (r := if negb (bool_decide (useList g Inst = []))
            then replaceAllUsesWith g Inst (u (valueType g Inst))
            else Done g).
  assert (Hr : match r with
               | Done g1 =>
                   sameFrame g g1 /\ blockInsts g1 = blockInsts g
                   /\ (forall J, sameStatus g g1 J) /\ useList g1 Inst = []
               | Stopped f =>
                   u (valueType g Inst) = Inst
                   \/ Ty_eqb (valueType g (u (valueType g Inst)))
                        (valueType g Inst) = false
               end).
  { subst r. destruct (bool_decide (useList g Inst = [])) eqn:Hu; cbn [negb].
    - apply bool_decide_eq_true in Hu. done.
    - destruct (replaceAllUsesWith g Inst _) as [g1|f] eqn:Hrep.
      + by apply replaceAllUsesWith_frame in Hrep.
      + revert Hrep. unfold replaceAllUsesWith.
        destruct (decide (u (valueType g Inst) = Inst)); [by left|].
        destruct (Ty_eqb _ _) eqn:Ety; [done|]. by right. }
  destruct r as [g1|f].
  2:{ exists Inst. split; [|done]. apply elem_of_app. right. left. }
  destruct Hr as (Hf1 & Hbl1 & Hst1 & Hu1).
  unfold eraseInstruction at 1. rewrite Hu1.
  rewrite bool_decide_eq_true_2 by done. cbn [negb].
  match goal with
  | |- context [DeleteInstructionInBlock_loop n u BB ?x] =>
      set (g2 := x);
      assert (He : eraseInstruction g1 BB Inst = Done g2)
        by (unfold eraseInstruction; by rewrite Hu1)
  end.
  destruct (eraseInstruction_frame _ _ _ _ He) as (Hf2 & Hbl2 & Hst2).
  assert (HInst : Inst ∉ body ++ [T]).
  { apply NoDup_app in Hnd as (_ & Hdis & Hnd2). intros [HI|HI]%elem_of_app.
    - apply (Hdis Inst HI). left.
    - apply NoDup_cons in Hnd2 as [Hnd2 _]. done. }
  assert (Hl2 : blockInsts g2 BB = body ++ [T]).
  { rewrite Hbl2, decide_True by done. rewrite Hbl1, Hl.
    by apply filter_ne_middle. }
  assert (Hst : forall J, J <> Inst -> sameStatus g g2 J).
  { intros J HJ. eapply sameStatus_trans; [apply Hst1|by apply Hst2]. }
  assert (Hnd' : NoDup (body ++ [T])).
  { apply NoDup_app in Hnd as (Hn1 & Hdis & Hn2).
    apply NoDup_app. split; [done|]. split.
    - intros J HJ HJT. apply (Hdis J HJ). by right.
    - by apply NoDup_cons in Hn2 as [_ Hn2]. }
  assert (Hty2 : valueType g2 = valueType g).
  { destruct Hf1 as [E1 _], Hf2 as [E2 _]. congruence. }
  specialize (IH n g2 Hl2 Hnd').
  destruct (DeleteInstructionInBlock_loop n u BB g2) as [g'|f].
  - destruct IH as (Hf3 & Hbl3 & Hoth3 & Hst3).
    + rewrite (sameStatus_isTerminatorInst g g2); [done|].
      apply Hst. intros ->. apply HInst. apply elem_of_app. right. left.
    + intros J HJ. rewrite (sameStatus_isTerminatorInst g g2).
      * apply Hbody. apply elem_of_app. by left.
      * apply Hst. intros ->. apply HInst. apply elem_of_app. by left.
    + lia.
    + split; [eapply sameFrame_trans; [|exact Hf3];
              by eapply sameFrame_trans|].
      split; [done|]. split.
      * intros B HB. rewrite Hoth3 by done.
        by rewrite Hbl2, decide_False, Hbl1.
      * intros J HJ. eapply sameStatus_trans.
        -- apply Hst. intros ->. apply HJ. apply elem_of_app. right. left.
        -- apply Hst3. intros HJ'. apply HJ. apply elem_of_app. by left.
  - destruct IH as (J & HJ & Hbad).
    + rewrite (sameStatus_isTerminatorInst g g2); [done|].
      apply Hst. intros ->. apply HInst. apply elem_of_app. right. left.
    + intros J HJ. rewrite (sameStatus_isTerminatorInst g g2).
      * apply Hbody. apply elem_of_app. by left.
      * apply Hst. intros ->. apply HInst. apply elem_of_app. by left.
    + lia.
    + exists J. split; [apply elem_of_app; by left|].
      by rewrite Hty2 in Hbad.
Qed.

Lemma Ty_eqb_refl t : Ty_eqb t t = true.
Proof.
  revert t. fix IH 1.
  intros [ | | |n|n|elts|e n|e n| ]; simpl; try done;
    try (by apply bool_decide_eq_true_2).
  - induction elts as [|x l IHl]; [done|]. by rewrite (IH x), IHl.
  - rewrite (IH e). by apply bool_decide_eq_true_2.
  - rewrite (IH e). by apply bool_decide_eq_true_2.
Qed.

Lemma DeleteInstructionInBlock_blockRewritten u BB g g' :
  blockWellFormed g BB = true ->
  DeleteInstructionInBlock u BB g = Done g' ->
  blockRewritten BB (option_list (last (blockInsts g BB))) g g'.
Proof.
  intros (Hnd & _ & body & T & Hl & HT & Hbody)%blockWellFormed_shape Hrun.
  pose proof (DeleteInstructionInBlock_loop_spec u BB T body
                (length (blockInsts g BB)) g Hl) as Hspec.
  unfold DeleteInstructionInBlock in Hrun. rewrite Hrun in Hspec.
  destruct Hspec as (Hf & Hbl & Hoth & Hst); try done.
  { by rewrite <- Hl. }
  { rewrite Hl, length_app. lia. }
  rewrite Hl, last_snoc. simpl.
  split; [done|]. split; [done|]. split; [done|].
  intros J [HJ|HJ]; apply Hst.
  - intros HJ'. apply HJ. rewrite Hl. apply elem_of_app. by left.
  - apply list_elem_of_singleton in HJ as ->. rewrite Hl in Hnd.
    apply NoDup_app in Hnd as (_ & Hdis & _). intros HT'.
    apply (Hdis T HT'). left.
Qed.

(** [DeleteInstructionInBlock] on a well-formed block, when
    [UndefValue::get] gives for the type of each instruction before the
    terminator a value of that type which is not the instruction: the call
    succeeds, and it leaves the block with its terminator alone; the
    terminator has the successors it had, and the other blocks and the
    instructions outside the block are as they were. *)
Theorem DeleteInstructionInBlock_leaves_terminator
    (UndefValue_get : Ty -> Constant) (BB : BasicBlock) (g : IR) :
  blockWellFormed g BB = true ->
  (forall I, I ∈ blockInsts g BB -> isTerminatorInst g I = false ->
     UndefValue_get (valueType g I) <> I
     /\ valueType g (UndefValue_get (valueType g I)) = valueType g I) ->
  exists g' T,
    DeleteInstructionInBlock UndefValue_get BB g = Done g'
    /\ last (blockInsts g BB) = Some T
    /\ blockInsts g' BB = [T]
    /\ successorsOf g' T = successorsOf g T
    /\ (forall B, B <> BB -> blockInsts g' B = blockInsts g B)
    /\ (forall J, J ∉ blockInsts g BB -> sameStatus g g' J).
Proof.
  intros Hwf Hundef.
  destruct (blockWellFormed_shape _ _ Hwf)
    as (Hnd & _ & body & T & Hl & HT & Hbody).
  destruct (DeleteInstructionInBlock UndefValue_get BB g) as [g'|f] eqn:Hrun.
  - destruct (DeleteInstructionInBlock_blockRewritten _ _ _ _ Hwf Hrun)
      as (_ & Hbl & Hoth & Hst).
    rewrite Hl, last_snoc in Hbl, Hst. simpl in Hbl, Hst.
    exists g', T. split; [done|]. split; [by rewrite Hl, last_snoc|].
    split; [done|]. split; [apply Hst; right; left|].
    split; [done|]. intros J HJ. apply Hst. left. by rewrite <- Hl.
  - exfalso.
    pose proof (DeleteInstructionInBlock_loop_spec UndefValue_get BB T body
                  (length (blockInsts g BB)) g Hl) as Hspec.
    unfold DeleteInstructionInBlock in Hrun. rewrite Hrun in Hspec.
    destruct Hspec as (J & HJ & Hbad); try done.
    { by rewrite <- Hl. }
    { rewrite Hl, length_app. lia. }
    destruct (Hundef J) as [Hne Hty].
    { rewrite Hl. apply elem_of_app. by left. }
    { by apply Hbody. }
    destruct Hbad as [Hbad|Hbad]; [done|].
    by rewrite Hty, Ty_eqb_refl in Hbad.
Qed.

(** The dead block 102 of [gDeadCode], which holds two sums before its
    return. *)
Lemma DeleteInstructionInBlock_leaves_terminator_witness :
  exists g',
    DeleteInstructionInBlock Examples.exUndef 102 Examples.gDeadCode = Done g'
    /\ blockInsts g' 102%positive = [23%positive].
Proof.
  assert (Hwf : blockWellFormed Examples.gDeadCode 102 = true)
    by (vm_compute; reflexivity).
  assert (E : blockInsts Examples.gDeadCode 102 = [21; 22; 23]%positive)
    by reflexivity.
  destruct (DeleteInstructionInBlock_leaves_terminator Examples.exUndef
              102%positive Examples.gDeadCode Hwf)
    as (g' & T & Hrun & HT & Hl & _).
  { rewrite E. intros I HI HnT.
    repeat (apply elem_of_cons in HI as [->|HI]);
      try (split; [vm_compute; discriminate|vm_compute; reflexivity]).
    - vm_compute in HnT. discriminate.
    - by apply elem_of_nil in HI. }
  rewrite E in HT. injection HT as <-. by exists g'.
Defined.

(** The executable block: the loop over its instructions. *)
Lemma rewriteInstructions_spec s u BB :
  forall insts acc acc',
    NoDup insts ->
    (forall J, J ∈ insts -> parentOf acc.2 J = Some BB) ->
    rewriteInstructions s u insts acc = Done acc' ->
    sameFrame acc.2 acc'.2
    /\ (forall B,
          blockInsts acc'.2 B
          = if decide (B = BB)
            then filter (fun J => J ∉ insts \/ keptByRewrite s acc.2 J = true)
                   (blockInsts acc.2 B)
            else blockInsts acc.2 B)
    /\ (forall J, J ∉ insts \/ keptByRewrite s acc.2 J = true ->
          sameStatus acc.2 acc'.2 J).
Proof.
  induction insts as [|I rest IH]; intros acc acc' Hnd Hown;
    cbn [rewriteInstructions].
  { intros [= <-]. split; [done|]. split; [|done].
    intros B. destruct (decide (B = BB)); [|done].
    symmetry. apply filter_all. intros J _. left. apply not_elem_of_nil. }
  destruct (rewriteInstruction s u I acc) as [acc1|f] eqn:H1; [|done].
  intros H2. apply NoDup_cons in Hnd as [HI Hnd].
  destruct (rewriteInstruction_cases _ _ _ _ _ H1)
    as [[Hk ->]|(Hk & _ & C & g1 & Hr & He)].
  - destruct (IH _ _ Hnd (fun J HJ => Hown J (list_elem_of_further _ _ _ HJ)) H2)
      as (Hf & Hbl & Hst).
    split; [done|]. split.
    + intros B. rewrite Hbl. destruct (decide (B = BB)); [|done].
      apply list_filter_iff. intros J. split.
      * intros [HJ|HJ]; [|by right].
        destruct (decide (J = I)) as [->|Hne]; [by right|].
        left. by intros [->|HJ']%elem_of_cons.
      * intros [HJ|HJ]; [|by right]. left. intros HJ'. apply HJ. by right.
    + intros J [HJ|HJ]; apply Hst; [|by right].
      left. intros HJ'. apply HJ. by right.
  - destruct (replaceAllUsesWith_frame _ _ _ _ Hr)
      as (Hf1 & Hbl1 & Hst1 & _).
    assert (Hp1 : parentOf g1 I = Some BB).
    { rewrite (proj1 (Hst1 I)). apply Hown. left. }
    unfold eraseFromParent in He. unfold parentOf in Hp1.
    destruct (asInstruction g1 I) as [[p k]|]; [|done].
    injection Hp1 as ->.
    destruct (eraseInstruction_frame _ _ _ _ He) as (Hf2 & Hbl2 & Hst2).
    assert (Hst12 : forall J, J <> I -> sameStatus acc.2 acc1.2 J).
    { intros J HJ. eapply sameStatus_trans; [apply Hst1|by apply Hst2]. }
    assert (Hty : valueType acc1.2 = valueType acc.2).
    { destruct Hf1 as [E1 _], Hf2 as [E2 _]. congruence. }
    assert (Hne : forall J, J ∉ I :: rest \/ keptByRewrite s acc.2 J = true ->
                    J <> I).
    { intros J [HJ|HJ] ->; [apply HJ; left|congruence]. }
    destruct (IH acc1 acc' Hnd) as (Hf & Hbl & Hst); [|done|].
    { intros J HJ. rewrite (proj1 (Hst12 J ltac:(by intros ->))).
      apply Hown. by right. }
    split; [eapply sameFrame_trans; [|exact Hf]; by eapply sameFrame_trans|].
    split.
    + intros B. rewrite Hbl. destruct (decide (B = BB)) as [->|HB].
      * rewrite Hbl2, decide_True, Hbl1 by done.
        rewrite list_filter_filter. apply list_filter_iff. intros J. split.
        -- intros [[HJ|HJ] HJI].
           ++ left. by intros [->|HJ']%elem_of_cons.
           ++ right. by rewrite <- (keptByRewrite_same s _ _ J Hty (Hst12 J HJI)).
        -- intros HJ. pose proof (Hne J HJ) as HJI. split; [|done].
           destruct HJ as [HJ|HJ].
           ++ left. intros HJ'. apply HJ. by right.
           ++ right. by rewrite (keptByRewrite_same s _ _ J Hty (Hst12 J HJI)).
      * by rewrite Hbl2, decide_False, Hbl1.
    + intros J HJ. pose proof (Hne J HJ) as HJI.
      eapply sameStatus_trans; [by apply Hst12|]. apply Hst.
      destruct HJ as [HJ|HJ].
      * left. intros HJ'. apply HJ. by right.
      * right. by rewrite (keptByRewrite_same s _ _ J Hty (Hst12 J HJI)).
Qed.

Lemma rewriteInstructions_blockRewritten s u BB acc acc' :
  blockWellFormed acc.2 BB = true ->
  rewriteInstructions s u (blockInsts acc.2 BB) acc = Done acc' ->
  blockRewritten BB
    (filter (fun I => keptByRewrite s acc.2 I = true) (blockInsts acc.2 BB))
    acc.2 acc'.2.
Proof.
  intros (Hnd & Hown & _)%blockWellFormed_shape Hrun.
  destruct (rewriteInstructions_spec s u BB _ _ _ Hnd Hown Hrun)
    as (Hf & Hbl & Hst).
  split; [done|]. split; [|split].
  - rewrite Hbl, decide_True by done. apply filter_ext_in.
    intros J HJ. split; [by intros [?|?]|by right].
  - intros B HB. by rewrite Hbl, decide_False.
  - intros J [HJ|HJ]; apply Hst; [by left|].
    right. by apply list_elem_of_filter in HJ as [HJ _].
Qed.

(** The loop over the blocks. *)
Lemma rewriteBlocks_spec s u :
  forall blocks acc acc',
    NoDup blocks ->
    (forall BB, BB ∈ blocks -> blockWellFormed acc.2 BB = true) ->
    rewriteBlocks s u blocks acc = Done acc' ->
    sameFrame acc.2 acc'.2
    /\ (forall BB, BB ∈ blocks ->
          blockInsts acc'.2 BB = rewrittenBlock s acc.2 BB
          /\ forall J, J ∈ rewrittenBlock s acc.2 BB ->
               sameStatus acc.2 acc'.2 J)
    /\ (forall B, B ∉ blocks -> blockInsts acc'.2 B = blockInsts acc.2 B)
    /\ (forall J, (forall BB, BB ∈ blocks -> J ∉ blockInsts acc.2 BB) ->
          sameStatus acc.2 acc'.2 J).
Proof.
  induction blocks as [|BB rest IH]; intros acc acc' Hnd Hwf;
    cbn [rewriteBlocks].
  { intros [= <-]. split; [done|]. split; [by intros BB []%elem_of_nil|].
    done. }
  apply NoDup_cons in Hnd as [HBB Hnd].
  assert (Hstep : forall acc1,
    blockRewritten BB (rewrittenBlock s acc.2 BB) acc.2 acc1.2 ->
    rewriteBlocks s u rest acc1 = Done acc' ->
    sameFrame acc.2 acc'.2
    /\ (forall B, B ∈ BB :: rest ->
          blockInsts acc'.2 B = rewrittenBlock s acc.2 B
          /\ forall J, J ∈ rewrittenBlock s acc.2 B ->
               sameStatus acc.2 acc'.2 J)
    /\ (forall B, B ∉ BB :: rest -> blockInsts acc'.2 B = blockInsts acc.2 B)
    /\ (forall J, (forall B, B ∈ BB :: rest -> J ∉ blockInsts acc.2 B) ->
          sameStatus acc.2 acc'.2 J)).
  { intros acc1 (Hf1 & Hbl1 & Hoth1 & Hst1) Hrun.
    assert (Hown : forall B J, B ∈ BB :: rest -> J ∈ blockInsts acc.2 B ->
                     parentOf acc.2 J = Some B).
    { intros B J HB. apply (blockWellFormed_shape _ _ (Hwf B HB)). }
    assert (Hdisj : forall B J, B ∈ rest -> J ∈ blockInsts acc.2 B ->
                      J ∉ blockInsts acc.2 BB).
    { intros B J HB HJ HJ'.
      pose proof (Hown B J (list_elem_of_further _ _ _ HB) HJ) as E1.
      pose proof (Hown BB J (list_elem_of_here _ _) HJ') as E2.
      rewrite E1 in E2. injection E2 as ->. done. }
    assert (Hrestl : forall B, B ∈ rest ->
                       blockInsts acc1.2 B = blockInsts acc.2 B).
    { intros B HB. apply Hoth1. by intros ->. }
    assert (Hrests : forall B J, B ∈ rest -> J ∈ blockInsts acc.2 B ->
                       sameStatus acc.2 acc1.2 J).
    { intros B J HB HJ. apply Hst1. left. by eapply Hdisj. }
    destruct (IH acc1 acc' Hnd) as (Hf & Hbl & Hoth & Hst); [|done|].
    { intros B HB. rewrite (blockWellFormed_same acc.2 acc1.2 B).
      - apply Hwf. by right.
      - by apply Hrestl.
      - intros J HJ. by eapply Hrests. }
    assert (Hty1 : valueType acc1.2 = valueType acc.2) by apply Hf1.
    split; [by eapply sameFrame_trans|]. split; [|split].
    - intros B [->|HB]%elem_of_cons.
      + rewrite Hoth, Hbl1 by done. split; [done|].
        intros J HJ. eapply sameStatus_trans; [apply Hst1; by right|].
        apply Hst. intros B HB. rewrite Hrestl by done. intros HJ'.
        apply (Hdisj B J HB HJ').
        unfold rewrittenBlock in HJ.
        destruct (isBlockExecutable s BB).
        * by apply list_elem_of_filter in HJ as [_ HJ].
        * destruct (last (blockInsts acc.2 BB)) as [T|] eqn:HT;
            [|by apply elem_of_nil in HJ].
          apply list_elem_of_singleton in HJ as ->.
          apply last_Some in HT as [l' ->]. apply elem_of_app. right. left.
      + destruct (Hbl B HB) as [Hb Hs].
        assert (E : rewrittenBlock s acc1.2 B = rewrittenBlock s acc.2 B).
        { apply rewrittenBlock_same; [done|by apply Hrestl|].
          intros J HJ. by eapply Hrests. }
        rewrite E in Hb, Hs. split; [done|].
        intros J HJ. eapply sameStatus_trans; [|by apply Hs].
        eapply (Hrests B); [done|].
        unfold rewrittenBlock in HJ.
        destruct (isBlockExecutable s B).
        * by apply list_elem_of_filter in HJ as [_ HJ].
        * destruct (last (blockInsts acc.2 B)) as [T|] eqn:HT;
            [|by apply elem_of_nil in HJ].
          apply list_elem_of_singleton in HJ as ->.
          apply last_Some in HT as [l' ->]. apply elem_of_app. right. left.
    - intros B HB. rewrite Hoth.
      + apply Hoth1. intros ->. apply HB. left.
      + intros HB'. apply HB. by right.
    - intros J HJ. eapply sameStatus_trans.
      + apply Hst1. left. apply HJ. left.
      + apply Hst. intros B HB. rewrite Hrestl by done. apply HJ. by right. }
  destruct (isBlockExecutable s BB) eqn:Hex; cbn [negb].
  - destruct (rewriteInstructions s u (blockInsts acc.2 BB) acc)
      as [acc1|f] eqn:H1; [|done].
    apply Hstep. unfold rewrittenBlock. rewrite Hex.
    apply (rewriteInstructions_blockRewritten s u BB acc acc1); [|done].
    apply Hwf. left.
  - destruct (DeleteInstructionInBlock u BB acc.2) as [g1|f] eqn:H1; [|done].
    apply (Hstep (true, g1)). unfold rewrittenBlock. rewrite Hex.
    apply (DeleteInstructionInBlock_blockRewritten u BB acc.2 g1); [|done].
    apply Hwf. left.
Qed.

Lemma functionWellFormed_blocks g F :
  functionWellFormed g F = true ->
  NoDup (fBlocks (functionData g F))
  /\ forall BB, BB ∈ fBlocks (functionData g F) ->
       blockWellFormed g BB = true.
Proof.
  unfold functionWellFormed. intros [H1 H2]%andb_true_iff.
  apply bool_decide_eq_true in H1. split; [done|].
  intros BB HBB. rewrite forallb_forall in H2.
  apply H2. by apply list_elem_of_In.
Qed.

(** The rewrite of a well-formed function leaves an executable block with
    the instructions of void type, the terminators, the instructions of
    struct type and those that are overdefined, in their order, and a dead
    block with its last instruction alone, the terminator. *)
Theorem rewrite_leaves_what_is_not_constant (s : SCCPSolver)
    (UndefValue_get : Ty -> Constant) (F : Function) (g g' : IR)
    (MadeChanges : bool) :
  functionWellFormed g F = true ->
  rewriteBlocks s UndefValue_get (fBlocks (functionData g F)) (false, g)
  = Done (MadeChanges, g') ->
  forall BB, BB ∈ fBlocks (functionData g F) ->
    blockInsts g' BB
    = if isBlockExecutable s BB
      then filter (fun I => keptByRewrite s g I = true) (blockInsts g BB)
      else option_list (last (blockInsts g BB)).
Proof.
  intros [Hnd Hwf]%functionWellFormed_blocks Hrun BB HBB.
  destruct (rewriteBlocks_spec s UndefValue_get _ (false, g)
              (MadeChanges, g') Hnd Hwf Hrun) as (_ & Hbl & _).
  destruct (Hbl BB HBB) as [Hl _]. exact Hl.
Qed.

(** On [gFold], where the solver finds the sum 10 to be 5: the return
    stays. *)
Lemma rewrite_leaves_what_is_not_constant_witness :
  blockInsts
    (Examples.passGraph
       (rewriteBlocks (solver Examples.wFoldEnd) Examples.exUndef
          [100%positive] (false, Examples.gFold)) Examples.gFold)
    100%positive
  = [11%positive].
Proof.
  assert (Hwf : functionWellFormed Examples.gFold 200 = true)
    by (vm_compute; reflexivity).
  assert (Hrun : rewriteBlocks (solver Examples.wFoldEnd) Examples.exUndef
                   (fBlocks (functionData Examples.gFold 200))
                   (false, Examples.gFold)
                 = Done (true,
                         Examples.passGraph
                           (rewriteBlocks (solver Examples.wFoldEnd)
                              Examples.exUndef [100%positive]
                              (false, Examples.gFold)) Examples.gFold))
    by (vm_compute; reflexivity).
  rewrite (rewrite_leaves_what_is_not_constant _ _ _ _ _ _ Hwf Hrun
             100%positive ltac:(left)).
  vm_compute. reflexivity.
Defined.

(** "We cannot modify the CFG of the function": the rewrite of a
    well-formed function leaves the list of its blocks as it is, and each
    block with the terminator it had, on the same successors. *)
Theorem rewrite_keeps_CFG (s : SCCPSolver)
    (UndefValue_get : Ty -> Constant) (F : Function) (g g' : IR)
    (MadeChanges : bool) :
  functionWellFormed g F = true ->
  rewriteBlocks s UndefValue_get (fBlocks (functionData g F)) (false, g)
  = Done (MadeChanges, g') ->
  fBlocks (functionData g' F) = fBlocks (functionData g F)
  /\ forall BB TI k,
       BB ∈ fBlocks (functionData g F) ->
       getTerminator g BB = Some (TI, k) ->
       exists k', getTerminator g' BB = Some (TI, k')
                  /\ getSuccessors k' = getSuccessors k.
Proof.
  intros [Hnd Hwf]%functionWellFormed_blocks Hrun.
  destruct (rewriteBlocks_spec s UndefValue_get _ (false, g)
              (MadeChanges, g') Hnd Hwf Hrun) as ((_ & Hfd & _) & Hbl & _).
  simpl in *. split; [by rewrite Hfd|].
  intros BB TI k HBB HT.
  destruct (Hbl BB HBB) as [Hl Hst].
  assert (Hlast : last (blockInsts g BB) = Some TI
                  /\ exists p, asInstruction g TI = Some (p, k)
                  /\ isTerminator k = true).
  { revert HT. unfold getTerminator.
    destruct (last (blockInsts g BB)) as [T|]; [|done].
    destruct (asInstruction g T) as [[p k0]|] eqn:HA; [|done].
    destruct (isTerminator k0) eqn:Hk; [|done].
    intros [= <- <-]. split; [done|]. by exists p. }
  destruct Hlast as (Hlast & p & HA & Hk).
  assert (Hterm : isTerminatorInst g TI = true).
  { unfold isTerminatorInst. by rewrite HA. }
  assert (Hlast' : last (rewrittenBlock s g BB) = Some TI).
  { unfold rewrittenBlock. destruct (isBlockExecutable s BB).
    - apply last_Some in Hlast as [l' Hl']. rewrite Hl', filter_app.
      rewrite filter_cons, decide_True.
      + by rewrite filter_nil, last_snoc.
      + unfold keptByRewrite. rewrite Hterm. by rewrite orb_true_r.
    - by rewrite Hlast. }
  assert (Hin : TI ∈ rewrittenBlock s g BB).
  { apply last_Some in Hlast' as [l' ->]. apply elem_of_app. right. left. }
  destruct (Hst TI Hin) as [_ Hsucc].
  unfold successorsOf in Hsucc. rewrite HA in Hsucc.
  unfold getTerminator. rewrite Hl, Hlast'.
  destruct (asInstruction g' TI) as [[p' k']|].
  - assert (Hk' : isTerminator k' = true).
    { unfold isTerminator in *. by rewrite Hsucc. }
    rewrite Hk'. by exists k'.
  - exfalso. unfold isTerminator in Hk. apply bool_decide_eq_true in Hk.
    rewrite <- Hsucc in Hk. by destruct Hk.
Qed.

(** The branch of [gDeadBranch], on the constant [true]: it keeps its two
    successors, the dead block included. *)
Lemma rewrite_keeps_CFG_witness :
  exists k',
    getTerminator
      (Examples.passGraph
         (rewriteBlocks (solver Examples.wDeadBranchEnd) Examples.exUndef
            [100; 101; 102]%positive (false, Examples.gDeadBranch))
         Examples.gDeadBranch) 100
    = Some (10%positive, k')
    /\ getSuccessors k' = Some [101; 102]%positive.
Proof.
  assert (Hwf : functionWellFormed Examples.gDeadBranch 200 = true)
    by (vm_compute; reflexivity).
  assert (Hrun : rewriteBlocks (solver Examples.wDeadBranchEnd)
                   Examples.exUndef
                   (fBlocks (functionData Examples.gDeadBranch 200))
                   (false, Examples.gDeadBranch)
                 = Done (true,
                         Examples.passGraph
                           (rewriteBlocks (solver Examples.wDeadBranchEnd)
                              Examples.exUndef [100; 101; 102]%positive
                              (false, Examples.gDeadBranch))
                           Examples.gDeadBranch))
    by (vm_compute; reflexivity).
  exact (proj2 (rewrite_keeps_CFG _ _ _ _ _ _ Hwf Hrun)
           100%positive 10%positive (ICondBr 2 101 102)
           ltac:(left) eq_refl).
Defined.
(** ** The values [ResolvedUndefsIn] forces *)

(** [ResolvedUndefsIn] on a binary operator that is still undefined while
    not both of its operands are: a product or an [And] is forced to zero
    and an [Or] to all ones; a division or remainder by an undefined value
    stays undefined, and is forced to zero otherwise; a shift of an
    undefined value stays undefined, and otherwise a left or logical right
    shift is forced to zero and an arithmetic right shift to its first
    operand; every other operator stays undefined. *)
Theorem undefined_binary_operator_forced (lib : Folder) (w : World)
    (I : Value) (p : BasicBlock) (op : BinaryOps) (a b : Value) :
  asInstruction (ir w) I = Some (p, IBinary op a b) ->
  isVoidTy (valueType (ir w) I) = false ->
  isStructTy (valueType (ir w) I) = false ->
  isStructTy (valueType (ir w) a) = false ->
  isStructTy (valueType (ir w) b) = false ->
  peekValueState w I = undefined ->
  LV.isUndefined (peekValueState w a) && LV.isUndefined (peekValueState w b)
  = false ->
  let zero := Constant_getNullValue lib (valueType (ir w) I) in
  let ones := Constant_getAllOnesValue lib (valueType (ir w) I) in
  let m := resolveUndefInst lib I in
  match op with
  | Mul | And => forcesConstant m w I zero
  | Or => forcesConstant m w I ones
  | SDiv | UDiv | SRem | URem =>
      if LV.isUndefined (peekValueState w b) then leavesUndefined m w
      else forcesConstant m w I zero
  | Shl | LShr =>
      if LV.isUndefined (peekValueState w a) then leavesUndefined m w
      else forcesConstant m w I zero
  | AShr =>
      match peekValueState w a with
      | undefined => leavesUndefined m w
      | constant C | forcedconstant C => forcesConstant m w I C
      | overdefined => forcesOverdefined m w I
      end
  | _ => leavesUndefined m w
  end.
Proof.
  intros HI Hvoid Hstruct Hta Htb Hund Hnb zero ones m.
  set (w1 := touch I w). set (w2 := touch a w1). set (w3 := touch b w2).
  assert (L1 : lookedUp w w1) by apply lookedUp_touch.
  assert (L2 : lookedUp w w2)
    by (eapply lookedUp_trans; [exact L1|apply lookedUp_touch]).
  assert (L3 : lookedUp w w3)
    by (eapply lookedUp_trans; [exact L2|apply lookedUp_touch]).
  assert (Hrun : m w
    = (match op with
       | Mul | And => markForcedConstant I zero ;; ret true
       | Or => markForcedConstant I ones ;; ret true
       | SDiv | UDiv | SRem | URem =>
           if LV.isUndefined (peekValueState w b) then ret false
           else markForcedConstant I zero ;; ret true
       | AShr =>
           if LV.isUndefined (peekValueState w a) then ret false
           else
             (if LV.isConstant (peekValueState w a) then
                do C <- liftRes (LV.getConstant (peekValueState w a));
                markForcedConstant I C
              else markOverdefined I) ;;
             ret true
       | LShr | Shl =>
           if LV.isUndefined (peekValueState w a) then ret false
           else markForcedConstant I zero ;; ret true
       | _ => ret false
       end)%sccp w3).
  { subst m. unfold resolveUndefInst. mrun. rewrite Hvoid. mrun. rewrite HI.
    assert (Hs : asStructType (valueType (ir w) I) = None)
      by (by destruct (valueType (ir w) I)).
    rewrite Hs.
    rewrite (bind_ok _ _ _ _ _ (getValueState_run I w Hstruct)). mrun.
    rewrite touch_load, Hund. cbn [LV.isUndefined negb getOperands lookup].
    simpl. mrun. fold w1.
    rewrite (lu_ir _ _ L1), Hta.
    rewrite (bind_ok _ _ _ _ _ (getValueStateCopy_run a w1
               ltac:(by rewrite (lu_ir _ _ L1)))).
    fold w2. mrun. rewrite (lu_ir _ _ L2), Htb. rewrite run_assoc.
    rewrite (bind_ok _ _ _ _ _ (getValueStateCopy_run b w2
               ltac:(by rewrite (lu_ir _ _ L2)))).
    fold w3. rewrite (lookedUp_peek _ _ a L1), (lookedUp_peek _ _ b L2).
    rewrite Hnb. mrun. by destruct op. }
  assert (Hforce : forall C,
            forcesConstant (fun _ => (markForcedConstant I C ;; ret true)%sccp w3)
              w I C).
  { intros C.
    destruct (markForcedConstant_run I C w3) as (w' & Hr & Hi & Hl & _).
    - by rewrite (lu_ir _ _ L3).
    - by rewrite (lookedUp_state _ _ _ _ _ L3 HI).
    - exists w'. rewrite (bind_ok _ _ _ _ _ Hr). split; [done|].
      split; [|done]. by rewrite Hi, (lu_ir _ _ L3). }
  assert (Hleave : leavesUndefined (fun _ => ret false w3) w).
  { by exists w3. }
  unfold forcesConstant, forcesOverdefined, leavesUndefined in *.
  rewrite Hrun.
  destruct op; try exact Hleave; try apply Hforce.
  all: try (destruct (LV.isUndefined (peekValueState w b));
            [exact Hleave|apply Hforce]).
  all: try (destruct (LV.isUndefined (peekValueState w a));
            [exact Hleave|apply Hforce]).
  (* AShr *)
  destruct (peekValueState w a) as [|C|C|] eqn:Ea;
    cbn [LV.isUndefined LV.isConstant LV.getConstant].
  - exact Hleave.
  - mrun. apply Hforce.
  - mrun. apply Hforce.
  - destruct (markOverdefined_run I w3) as (w' & Hr & Hi & Hl).
    { by rewrite (lu_ir _ _ L3). }
    exists w'. rewrite (bind_ok _ _ _ _ _ Hr). split; [done|].
    split; [|done]. by rewrite Hi, (lu_ir _ _ L3).
Qed.

(** [x & 0] on [gAndZero], with [x] overdefined, before any visit. *)
Lemma undefined_binary_operator_forced_witness :
  forcesConstant (resolveUndefInst Examples.exFolder 10) Examples.wAndZero 10
    1000.
Proof.
  exact (undefined_binary_operator_forced Examples.exFolder Examples.wAndZero
           10%positive 100%positive And 300%positive 1000%positive
           eq_refl eq_refl eq_refl eq_refl eq_refl eq_refl eq_refl).
Defined.
(** ** Tracked return values *)

(** The return value of a function whose return value is tracked:
    [visitReturnInst] merges the state of the returned value into the
    function's entry of [TrackedRetVals]; [visitCallSite], on a call of a
    defined function whose arguments are not tracked, merges that entry into
    the state of the call, and makes the call overdefined when the function
    has no entry. *)
Theorem tracked_return_value_flows (lib : Folder) (w : World) :
  (forall I parent ResultOp lv,
     isStructTy (valueType (ir w) ResultOp) = false ->
     TrackedRetVals (solver w) !! blockParent (ir w) parent = Some lv ->
     exists w',
       visitReturnInst lib I parent (Some ResultOp) w = Ok (tt, w')
       /\ ir w' = ir w
       /\ TrackedRetVals (solver w') !! blockParent (ir w) parent
          = Some (merged lv (peekValueState w ResultOp)))
  /\ (forall I p callee args F,
        asInstruction (ir w) I = Some (p, ICall callee args) ->
        isVoidTy (valueType (ir w) I) = false ->
        isStructTy (valueType (ir w) I) = false ->
        asFunction (ir w) callee = Some F ->
        isDeclaration (ir w) F = false ->
        F ∉ TrackingIncomingArguments (solver w) ->
        asStructType (fReturnType (functionData (ir w) F)) = None ->
        match TrackedRetVals (solver w) !! F with
        | Some lv =>
            leavesState (visitCallSite lib I callee args) w I
              (merged (peekValueState w I) lv)
        | None =>
            leavesState (visitCallSite lib I callee args) w I overdefined
        end).
Proof.
  split.
  - intros I parent ResultOp lv Hty Hl. unfold visitReturnInst. mrun.
    rewrite Hty, Hl. cbn [negb andb].
    rewrite bool_decide_eq_true_2
      by (intros E; by rewrite E, lookup_empty in Hl).
    rewrite bool_decide_eq_true_2 by eauto. cbn [andb].
    rewrite (bind_ok _ _ _ _ _ (getValueStateCopy_run ResultOp w Hty)).
    pose proof (lookedUp_touch ResultOp w) as Ht.
    assert (Htr : TrackedRetVals (solver (touch ResultOp w))
                  = TrackedRetVals (solver w)).
    { rewrite (lu_solver _ _ Ht). by destruct (solver w). }
    destruct (mergeInValue_at_run
                (InTrackedRetVals (blockParent (ir w) parent))
                (blockParent (ir w) parent) (peekValueState w ResultOp)
                (touch ResultOp w)) as (w' & Hrun & Hi & Hm).
    { simpl. rewrite Htr, Hl. eauto. }
    exists w'. split; [done|]. split; [by rewrite Hi, (lu_ir _ _ Ht)|].
    simpl in Hm. rewrite Hm. unfold loadLV. simpl. by rewrite Htr, Hl.
  - intros I p callee args F HI Hvoid Hstruct HF Hdecl Harg Hret.
    assert (Hrun : visitCallSite lib I callee args w
                   = match TrackedRetVals (solver w) !! F with
                     | Some lv => mergeInValue I lv w
                     | None => markOverdefined I w
                     end).
    { unfold visitCallSite. mrun. rewrite HF, Hdecl. mrun.
      rewrite bool_decide_eq_false_2 by done. mrun. rewrite Hret.
      destruct (TrackedRetVals (solver w) !! F) as [lv|]; [done|].
      unfold CallOverdefined. mrun. rewrite Hvoid. mrun. rewrite Hdecl.
      cbn [andb]. unfold markAnythingOverdefined. mrun.
      by destruct (valueType (ir w) I). }
    assert (Hpeek : default undefined (ValueState (solver w) !! I)
                    = peekValueState w I).
    { exact (lookedUp_state w w I p _ (lookedUp_refl w) HI). }
    unfold leavesState. rewrite Hrun.
    destruct (TrackedRetVals (solver w) !! F) as [lv|].
    + destruct (mergeInValue_run I lv w Hstruct) as (w' & Hr & Hi & Hl).
      exists w'. by rewrite <- Hpeek.
    + destruct (markOverdefined_run I w Hstruct) as (w' & Hr & Hi & Hl).
      by exists w'.
Qed.

(** On [gCall]: the return of 7 in the tracked function 201, and then the
    call of 201. *)
Lemma tracked_return_value_flows_witness :
  (exists w',
     visitReturnInst Examples.exFolder 30 110 (Some 1007%positive)
       Examples.wCall = Ok (tt, w')
     /\ TrackedRetVals (solver w') !! 201%positive = Some (constant 1007))
  /\ leavesState (visitCallSite Examples.exFolder 10 201 [])
       Examples.wCallReturned 10 (constant 1007).
Proof.
  split.
  - destruct (proj1 (tracked_return_value_flows Examples.exFolder
                       Examples.wCall)
                30%positive 110%positive 1007%positive undefined
                eq_refl eq_refl) as (w' & Hrun & _ & Hl).
    exists w'. split; [exact Hrun|exact Hl].
  - assert (Harg : 201%positive
                   ∉ TrackingIncomingArguments (solver Examples.wCallReturned)).
    { apply (bool_decide_unpack _). vm_compute. exact I. }
    exact (proj2 (tracked_return_value_flows Examples.exFolder
                    Examples.wCallReturned)
             10%positive 100%positive 201%positive [] 201%positive
             eq_refl eq_refl eq_refl eq_refl eq_refl Harg eq_refl).
Defined.
(** ** Select *)

(** The marking functions after some look-ups. *)
Section AfterLookUps.
Variables (w w1 : World) (I : Value) (p : BasicBlock) (k : InstKind).
Hypothesis HI : asInstruction (ir w) I = Some (p, k).
Hypothesis HtI : isStructTy (valueType (ir w) I) = false.
Hypothesis Hlu : lookedUp w w1.

Lemma after_mergeInValue mv :
  leavesState (fun _ => mergeInValue I mv w1) w I
    (merged (peekValueState w I) mv).
Proof using HI HtI Hlu.
  destruct (mergeInValue_run I mv w1) as (w' & Hr & Hi & Hl).
  { by rewrite (lu_ir _ _ Hlu). }
  exists w'. split; [done|]. split; [by rewrite Hi, (lu_ir _ _ Hlu)|].
  by rewrite Hl, (lookedUp_state _ _ _ _ _ Hlu HI).
Qed.

Lemma after_markConstant C :
  marksConstant (fun _ => markConstant I C w1) w I C.
Proof using HI HtI Hlu.
  unfold marksConstant.
  pose proof (markConstant_run I C w1 ltac:(by rewrite (lu_ir _ _ Hlu)))
    as Hmc.
  rewrite (lookedUp_state _ _ _ _ _ Hlu HI) in Hmc.
  destruct (LV.markConstant (peekValueState w I) C) as [r|f]; [|done].
  destruct Hmc as (w' & Hr & Hi & Hl). exists w'.
  split; [done|]. split; [by rewrite Hi, (lu_ir _ _ Hlu)|done].
Qed.

Lemma after_markOverdefined :
  leavesState (fun _ => markOverdefined I w1) w I overdefined.
Proof using HtI Hlu.
  destruct (markOverdefined_run I w1) as (w' & Hr & Hi & Hl).
  { by rewrite (lu_ir _ _ Hlu). }
  exists w'. split; [done|]. split; [by rewrite Hi, (lu_ir _ _ Hlu)|done].
Qed.

End AfterLookUps.

(** [visitSelectInst] on a select that is not of struct type.  While the
    condition is undefined nothing changes.  On a constant integer
    condition the state of the chosen operand is merged into the result.
    Otherwise, with the condition overdefined or another constant: two
    operands holding the same constant give that constant; an undefined
    operand gives way to the other; and any other pair makes the result
    overdefined. *)
Theorem select_transfer (lib : Folder) (w : World) (I : Value)
    (p : BasicBlock) (Cond TrueValue FalseValue : Value) :
  asInstruction (ir w) I = Some (p, ISelect Cond TrueValue FalseValue) ->
  isStructTy (valueType (ir w) I) = false ->
  isStructTy (valueType (ir w) Cond) = false ->
  isStructTy (valueType (ir w) TrueValue) = false ->
  isStructTy (valueType (ir w) FalseValue) = false ->
  let m := visitSelectInst lib I Cond TrueValue FalseValue in
  let TVal := peekValueState w TrueValue in
  let FVal := peekValueState w FalseValue in
  if LV.isUndefined (peekValueState w Cond) then onlyLooksUp m w
  else
    match constantIntOf (ir w) (peekValueState w Cond) with
    | Some CondCB =>
        leavesState m w I
          (merged (peekValueState w I)
             (if CI_isZero (ir w) CondCB then FVal else TVal))
    | None =>
        match TVal, FVal with
        | (constant t | forcedconstant t), (constant f | forcedconstant f) =>
            if decide (t = f) then marksConstant m w I f
            else leavesState m w I overdefined
        | undefined, _ => leavesState m w I (merged (peekValueState w I) FVal)
        | _, undefined => leavesState m w I (merged (peekValueState w I) TVal)
        | _, _ => leavesState m w I overdefined
        end
    end.
Proof.
  intros HI HtI HtC HtT HtF m TVal FVal.
  set (w1 := touch Cond w).
  assert (L1 : lookedUp w w1) by apply lookedUp_touch.
  assert (Hrun : m w
    = (if LV.isUndefined (peekValueState w Cond) then ret tt
       else
         match constantIntOf (ir w) (peekValueState w Cond) with
         | Some CondCB =>
             let OpVal := if CI_isZero (ir w) CondCB then FalseValue
                          else TrueValue in
             mergeInValue I (peekValueState w OpVal)
             ∘ (fun _ => touch OpVal w1)
         | None =>
             (fun k => k ∘ (fun _ => touch FalseValue (touch TrueValue w1)))
               (if LV.isConstant TVal && LV.isConstant FVal
                   && bool_decide (LV.getConstant TVal = LV.getConstant FVal)
                then
                  match LV.getConstant FVal with
                  | Ok C => markConstant I C
                  | Err f => fail f
                  end
                else if LV.isUndefined TVal then mergeInValue I FVal
                else if LV.isUndefined FVal then mergeInValue I TVal
                else markOverdefined I)
         end) w1).
  { subst m. unfold visitSelectInst. mrun. rewrite HtI.
    rewrite (bind_ok _ _ _ _ _ (getValueStateCopy_run Cond w HtC)). fold w1.
    destruct (LV.isUndefined (peekValueState w Cond)); [done|].
    rewrite (bind_ok _ _ _ _ _ (LV_getConstantInt_run _ w1)).
    rewrite (lu_ir _ _ L1).
    destruct (constantIntOf (ir w) (peekValueState w Cond)) as [CondCB|].
    - mrun. rewrite (lu_ir _ _ L1).
      set (OpVal := if CI_isZero (ir w) CondCB then FalseValue
                    else TrueValue).
      assert (HtO : isStructTy (valueType (ir w) OpVal) = false)
        by (subst OpVal; by destruct (CI_isZero (ir w) CondCB)).
      rewrite (bind_ok _ _ _ _ _ (getValueStateCopy_run OpVal w1
                 ltac:(by rewrite (lu_ir _ _ L1)))).
      by rewrite (lookedUp_peek _ _ OpVal L1).
    - assert (L2 : lookedUp w (touch TrueValue w1))
        by (eapply lookedUp_trans; [exact L1|apply lookedUp_touch]).
      rewrite (bind_ok _ _ _ _ _ (getValueStateCopy_run TrueValue w1
                 ltac:(by rewrite (lu_ir _ _ L1)))).
      rewrite (bind_ok _ _ _ _ _ (getValueStateCopy_run FalseValue _
                 ltac:(by rewrite (lu_ir _ _ L2)))).
      rewrite (lookedUp_peek _ _ TrueValue L1),
        (lookedUp_peek _ _ FalseValue L2).
      fold TVal FVal. simpl.
      destruct (LV.isConstant TVal && LV.isConstant FVal
                && bool_decide (LV.getConstant TVal = LV.getConstant FVal))
        eqn:E; [|done].
      apply andb_true_iff in E as [E _]. apply andb_true_iff in E as [_ E].
      destruct FVal; try done; by mrun. }
  unfold onlyLooksUp, leavesState, marksConstant. rewrite Hrun. clear Hrun.
  destruct (LV.isUndefined (peekValueState w Cond)) eqn:Eu.
  { by exists w1. }
  destruct (constantIntOf (ir w) (peekValueState w Cond)) as [CondCB|].
  - set (OpVal := if CI_isZero (ir w) CondCB then FalseValue else TrueValue).
    assert (HtO : isStructTy (valueType (ir w) OpVal) = false)
      by (subst OpVal; by destruct (CI_isZero (ir w) CondCB)).
    assert (L2 : lookedUp w (touch OpVal w1))
      by (eapply lookedUp_trans; [exact L1|apply lookedUp_touch]).
    replace (if CI_isZero (ir w) CondCB then FVal else TVal)
      with (peekValueState w OpVal)
      by (subst OpVal FVal TVal; by destruct (CI_isZero (ir w) CondCB)).
    exact (after_mergeInValue w _ I p _ HI HtI L2 _).
  - set (w3 := touch FalseValue (touch TrueValue w1)).
    assert (L3 : lookedUp w w3).
    { eapply lookedUp_trans; [exact L1|].
      eapply lookedUp_trans; apply lookedUp_touch. }
    pose proof (after_markOverdefined w w3 I HtI L3) as Hov.
    pose proof (after_mergeInValue w w3 I p _ HI HtI L3) as Hmg.
    pose proof (after_markConstant w w3 I p _ HI HtI L3) as Hmc.
    unfold leavesState, marksConstant in Hov, Hmg, Hmc.
    destruct TVal as [|t|t|], FVal as [|f|f|];
      cbn [LV.isConstant LV.isUndefined LV.getConstant andb];
      try apply Hov; try apply Hmg;
      (destruct (decide (t = f)) as [->|Hne];
       [rewrite bool_decide_eq_true_2 by done; apply Hmc
       |rewrite bool_decide_eq_false_2 by congruence; apply Hov]).
Qed.

(** A select on [true] between 5 and 7. *)
Lemma select_transfer_witness :
  leavesState (visitSelectInst Examples.exFolder 10 2 1005 1007)
    (Examples.start Examples.gSelect) 10
    (merged (peekValueState (Examples.start Examples.gSelect) 10)
       (peekValueState (Examples.start Examples.gSelect) 1005)).
Proof.
  exact (select_transfer Examples.exFolder (Examples.start Examples.gSelect)
           10%positive 100%positive 2%positive 1005%positive 1007%positive
           eq_refl eq_refl eq_refl eq_refl eq_refl).
Defined.
(** ** The start of a run *)

Lemma overdefined_stays s s' V :
  states_le s s' ->
  ValueState s !! V = Some overdefined ->
  ValueState s' !! V = Some overdefined.
Proof.
  intros (Hv & _) Hl. specialize (Hv V). rewrite Hl in Hv.
  destruct (ValueState s' !! V) as [y|]; [|done].
  by destruct Hv as [<-|[?|[? ->]]].
Qed.

Lemma markAnythingOverdefined_arguments lib args :
  forall w w',
    forEach args (markAnythingOverdefined lib) w = Ok (tt, w') ->
    steady w w'
    /\ forall A, A ∈ args -> isStructTy (valueType (ir w) A) = false ->
         ValueState (solver w') !! A = Some overdefined.
Proof.
  induction args as [|A rest IH]; intros w w'; cbn [forEach].
  { intros [= <-]. split; [apply steady_refl|]. by intros A []%elem_of_nil. }
  intros Hrun. apply bind_inv in Hrun as ([] & w1 & H1 & H2).
  pose proof (steady_markAnythingOverdefined lib A _ _ _ H1) as Hs1.
  destruct (IH _ _ H2) as (Hs2 & Hrest).
  split; [by eapply steady_trans|].
  intros B [->|HB]%elem_of_cons Hty.
  - eapply overdefined_stays; [apply Hs2|].
    revert H1. unfold markAnythingOverdefined. mrun.
    assert (Hs : asStructType (valueType (ir w) A) = None)
      by (by destruct (valueType (ir w) A)).
    rewrite Hs. destruct (markOverdefined_run A w Hty) as (w0 & Hr & _ & Hl).
    rewrite Hr. by intros [= <-].
  - apply Hrest; [done|]. by rewrite (proj1 Hs1).
Qed.

(** "Mark the first block of the function as being executable.  Mark all
    arguments to the function as being overdefined": at the end of a run
    of the solver on a function, its entry block is executable, and each of
    its arguments that is not of struct type is overdefined. *)
Theorem entry_and_arguments_at_the_end (lib : Folder)
    (depth fuel rounds : nat) (F : Function) (w w' : World)
    (Hrun : runSolver lib depth fuel rounds F w = Ok (tt, w')) :
  (exists entry rest,
     fBlocks (functionData (ir w) F) = entry :: rest
     /\ isBlockExecutable (solver w') entry = true)
  /\ forall A,
       A ∈ fArgs (functionData (ir w) F) ->
       isStructTy (valueType (ir w) A) = false ->
       getLatticeValueFor (solver w') A = Some overdefined.
Proof.
  revert Hrun. unfold runSolver. mrun.
  destruct (fBlocks (functionData (ir w) F)) as [|entry rest]; [done|].
  mrun. intros Hrun.
  apply bind_inv in Hrun as (b & w1 & H1 & H2).
  assert (Hex : entry ∈ BBExecutable (solver w1) /\ ir w1 = ir w).
  { revert H1. unfold MarkBlockExecutable. mrun.
    destruct (decide (entry ∈ BBExecutable (solver w))).
    - by intros [= _ <-].
    - intros [= _ <-]. simpl. split; [set_solver|done]. }
  destruct Hex as [Hex Hi1].
  revert H2. mrun. intros H2.
  apply bind_inv in H2 as ([] & w2 & H2 & H3).
  destruct (markAnythingOverdefined_arguments _ _ _ _ H2) as ((_ & Hs2) & Hargs).
  apply rising_solveLoop in H3.
  split.
  - exists entry, rest. split; [done|]. apply bool_decide_eq_true.
    destruct Hs2 as (_ & _ & Hb2 & _), H3 as (_ & _ & Hb3 & _).
    apply Hb3, Hb2, Hex.
  - intros A HA Hty. eapply overdefined_stays; [exact H3|].
    apply Hargs; [done|by rewrite Hi1].
Qed.

(** The argument 300 of [gAddArg]. *)
Lemma entry_and_arguments_at_the_end_witness :
  getLatticeValueFor (solver Examples.wAddArgEnd) 300 = Some overdefined.
Proof.
  assert (Hrun : runSolver Examples.exFolder 5 50 10 200
                   (Examples.start Examples.gAddArg)
                 = Ok (tt, Examples.wAddArgEnd))
    by (vm_compute; reflexivity).
  refine (proj2 (entry_and_arguments_at_the_end _ _ _ _ _ _ _ Hrun)
            300%positive _ eq_refl).
  apply (bool_decide_unpack _). vm_compute. exact I.
Defined.
(** ** Instructions without a rule, and getelementptr *)

(** The instruction classes the solver has no rule for (alloca, va_arg, the
    vector instructions, and any class without a visitor of its own) are
    overdefined after their visit. *)
Theorem unhandled_instructions_overdefined (lib : Folder) (depth : nat)
    (w : World) (I : Value) (p : BasicBlock) (k : InstKind) :
  asInstruction (ir w) I = Some (p, k) ->
  isStructTy (valueType (ir w) I) = false ->
  unhandledKind k = true ->
  leavesState (visit lib (S depth) I) w I overdefined.
Proof.
  intros HI HtI Hk.
  destruct (markOverdefined_run I w HtI) as (w' & Hrun & Hi & Hl).
  exists w'. split; [|done].
  cbn [visit]. unfold visitInst. mrun. rewrite HI.
  assert (Hany : markAnythingOverdefined lib I w = Ok (tt, w')).
  { unfold markAnythingOverdefined. mrun.
    by destruct (valueType (ir w) I). }
  by destruct k.
Qed.

(** The [alloca] of [gAlloca]. *)
Lemma unhandled_instructions_overdefined_witness :
  leavesState (visit Examples.exFolder 1 10) (Examples.start Examples.gAlloca)
    10 overdefined.
Proof.
  exact (unhandled_instructions_overdefined Examples.exFolder 0
           (Examples.start Examples.gAlloca) 10%positive 100%positive
           (IAlloca 1001) eq_refl eq_refl eq_refl).
Defined.

Lemma lookedUp_orInsertDefault w I p k :
  asInstruction (ir w) I = Some (p, k) ->
  lookedUp w {| ir := ir w;
                solver := set_ValueState (orInsertDefault I) (solver w) |}.
Proof.
  intros HI. split; simpl; [done|by destruct (solver w)|].
  intros V. destruct (decide (V = I)) as [->|Hne].
  - rewrite lookup_orInsertDefault.
    destruct (ValueState (solver w) !! I) eqn:E; [by left|right].
    split; [done|]. simpl. by rewrite (seedOf_instruction _ _ _ _ HI).
  - left. by rewrite lookup_orInsertDefault_ne.
Qed.

Lemma operandConstants_cons w V rest c :
  LV.getConstant (peekValueState w V) = Ok c ->
  operandConstants w (V :: rest) = c :: operandConstants w rest.
Proof. intros E. unfold operandConstants. simpl. by rewrite E. Qed.

Lemma collectConstantOperands_constants w I :
  forall ops Operands w1,
    lookedUp w w1 ->
    Forall (fun V => isStructTy (valueType (ir w) V) = false
                     /\ LV.isConstant (peekValueState w V) = true) ops ->
    exists w2,
      collectConstantOperands I ops Operands w1
      = Ok (Some (Operands ++ operandConstants w ops), w2)
      /\ lookedUp w w2.
Proof.
  induction ops as [|V rest IH]; intros Operands w1 L1 Hall;
    cbn [collectConstantOperands].
  { exists w1. unfold operandConstants. simpl. by rewrite app_nil_r. }
  apply Forall_cons in Hall as [[HtV HcV] Hall].
  rewrite (bind_ok _ _ _ _ _ (getValueStateCopy_run V w1
             ltac:(by rewrite (lu_ir _ _ L1)))).
  rewrite (lookedUp_peek _ _ V L1).
  assert (L2 : lookedUp w (touch V w1))
    by (eapply lookedUp_trans; [exact L1|apply lookedUp_touch]).
  destruct (peekValueState w V) as [|c|c|] eqn:E; try done;
    cbn [LV.isUndefined LV.isOverdefined LV.getConstant]; mrun;
    destruct (IH (Operands ++ [c]) _ L2 Hall) as (w2 & Hrun & Hlu);
    exists w2; (split; [|done]); rewrite Hrun;
    rewrite (operandConstants_cons w V rest c) by (by rewrite E);
    by rewrite <- app_assoc.
Qed.

(** "If all operands are constants then we can turn this into a
    getelementptr ConstantExpr": when the result is not already overdefined
    and every operand holds a constant, [visitGetElementPtrInst] applies
    [markConstant] to the result with the constant expression on those
    constants. *)
Theorem getelementptr_of_constants (lib : Folder) (w : World) (I : Value)
    (p : BasicBlock) (ops : list Value) (Ptr : Constant)
    (Idx : list Constant) :
  asInstruction (ir w) I = Some (p, IGetElementPtr ops) ->
  isStructTy (valueType (ir w) I) = false ->
  Forall (fun V => isStructTy (valueType (ir w) V) = false
                   /\ LV.isConstant (peekValueState w V) = true) ops ->
  peekValueState w I <> overdefined ->
  operandConstants w ops = Ptr :: Idx ->
  marksConstant (visitGetElementPtrInst lib I ops) w I
    (ConstantExpr_getGetElementPtr lib Ptr Idx).
Proof.
  intros HI HtI Hall Hiv Hops.
  pose proof (lookedUp_orInsertDefault w I p _ HI) as L0.
  destruct (collectConstantOperands_constants w I ops [] _ L0 Hall)
    as (w2 & Hrun & L2).
  rewrite Hops in Hrun. simpl in Hrun.
  pose proof (after_markConstant w w2 I p _ HI HtI L2
                (ConstantExpr_getGetElementPtr lib Ptr Idx)) as Hmc.
  unfold marksConstant in *. unfold visitGetElementPtrInst. mrun.
  assert (Hld : loadLV (InValueState I)
                  (solver {| ir := ir w;
                             solver := set_ValueState (orInsertDefault I)
                                         (solver w) |})
                = peekValueState w I).
  { unfold loadLV. simpl. rewrite lookup_orInsertDefault. simpl.
    exact (lookedUp_state w w I p _ (lookedUp_refl w) HI). }
  rewrite Hld.
  assert (Eiv : LV.isOverdefined (peekValueState w I) = false)
    by (by destruct (peekValueState w I)).
  rewrite Eiv. rewrite (bind_ok _ _ _ _ _ Hrun). exact Hmc.
Qed.

(** The [getelementptr] of [gAlloca], on the constants 9 and 1. *)
Lemma getelementptr_of_constants_witness :
  marksConstant
    (visitGetElementPtrInst Examples.exFolder 11 [9; 1001]%positive)
    (Examples.start Examples.gAlloca) 11
    (ConstantExpr_getGetElementPtr Examples.exFolder 9 [1001%positive]).
Proof.
  assert (Hall : Forall
            (fun V => isStructTy
                        (valueType (ir (Examples.start Examples.gAlloca)) V)
                      = false
                      /\ LV.isConstant
                           (peekValueState (Examples.start Examples.gAlloca) V)
                         = true) [9; 1001]%positive).
  { repeat constructor. }
  assert (Hiv : peekValueState (Examples.start Examples.gAlloca) 11
                <> overdefined) by (vm_compute; discriminate).
  exact (getelementptr_of_constants Examples.exFolder
           (Examples.start Examples.gAlloca) 11%positive 100%positive
           [9; 1001]%positive 9%positive [1001%positive]
           eq_refl eq_refl Hall Hiv eq_refl).
Defined.
